(** * Verification of the annotation transformer

    A shallow embedding of
    [prerequisites/dataset_transformers/dataset_transformer_class.py]:
    the box geometry ([compute_area], [compute_overlap]), the annotation
    normalizer ([_transform_annotations]), pair completion
    ([create_pred_cls_json]), the Laplace estimator
    ([compute_relationship_probabilities]), the synonym closure
    ([_densify_mat]) and the negative miner ([save_negative_json]).

    Conventions of the embedding.
    - Python integers are [Z]; positions produced by [range] and
      [enumerate] are [nat].
    - Python exceptions are explicit: a computation that may raise has type
      [result A], threaded with [x ← m; k].
    - A Python [dict] is an association list in insertion order ([dict_set]
      keeps the position of a key that is already present), because the
      source iterates over [dict.items()].
    - NumPy arrays of 0/1 floats and of counts are lists of [Z]: every value
      the source stores in them is an integer far below 2^53, where float64
      arithmetic is exact.
    - The array of mixed tuples of [create_pred_cls_json] is an array of
      strings: [astype_int] reads an integer back into 64 bits and raises
      [OverflowError] outside them, [astype_str] reads a name back without
      its trailing NUL characters.
    - The overlap ratio is the exact quotient in [Q]: its only use is the
      comparison with the double 0.9, and [below_09] decides on the exact
      quotient what the comparison of its rounding decides.  The normalised
      probabilities are quotients rounded by an operator [rnd] with the
      relative error of binary64.
    - The order in which a Python [set] is iterated depends on the hash
      values of its elements, which for strings change from one process to
      the next; [list(s)] is therefore an argument [set_list] of the
      normalizer, constrained only to enumerate the set without repetition.
    - The [while] loop of [_densify_mat] takes a fuel argument; its
      termination theorem gives a fuel bound that always suffices. *)

From Stdlib Require Import ZArith QArith Qabs Lqa List String Lia Permutation.
From stdpp Require Import base list option strings numbers gmap sorting.

Open Scope Z_scope.

(** ** Python runtime: exceptions, indexing, dictionaries *)

Inductive exn : Type :=
  | ZeroDivisionError
  | IndexError
  | ValueError
  | KeyError
  | OverflowError.

Inductive result (A : Type) : Type :=
  | Ok (a : A)
  | Raise (e : exn).

Arguments Ok {A} a.
Arguments Raise {A} e.

#[global] Instance result_ret : MRet result := @Ok.

#[global] Instance result_bind : MBind result := λ A B k m,
  match m with
  | Ok a => k a
  | Raise e => Raise e
  end.

Definition of_option {A : Type} (e : exn) (o : option A) : result A :=
  match o with
  | Some a => Ok a
  | None => Raise e
  end.

(** [l[i]] for a position [i] that comes from [range] or [enumerate]. *)
Definition getitem_nat {A : Type} (l : list A) (i : nat) : result A :=
  of_option IndexError (l !! i).

(** [l[i]] for an arbitrary Python integer: a negative index counts from the
    end of the list, anything outside [-len, len) raises [IndexError]. *)
Definition getitem {A : Type} (l : list A) (i : Z) : result A :=
  let n := Z.of_nat (length l) in
  if (0 <=? i) && (i <? n) then getitem_nat l (Z.to_nat i)
  else if (- n <=? i) && (i <? 0) then getitem_nat l (Z.to_nat (n + i))
  else Raise IndexError.

(** [[f(x) for x in l]] where [f] may raise. *)
Fixpoint map_result {A B : Type} (f : A → result B) (l : list A) : result (list B) :=
  match l with
  | [] => Ok []
  | x :: l' => y ← f x; ys ← map_result f l'; Ok (y :: ys)
  end.

(** [for x in l: st = body(st, x)] where the body may raise. *)
Fixpoint fold_result {A S : Type} (body : S → A → result S) (l : list A) (st : S) : result S :=
  match l with
  | [] => Ok st
  | x :: l' => st' ← body st x; fold_result body l' st'
  end.

Section Dict.
Context {K V : Type} `{EqDecision K}.

Definition dict : Type := list (K * V).

Fixpoint dict_get (d : dict) (k : K) : option V :=
  match d with
  | [] => None
  | (k', v) :: d' => if decide (k = k') then Some v else dict_get d' k
  end.

Definition dict_mem (d : dict) (k : K) : bool :=
  match dict_get d k with Some _ => true | None => false end.

(** [d[k] = v]: overwrite in place when [k] is present, append otherwise. *)
Fixpoint dict_set (d : dict) (k : K) (v : V) : dict :=
  match d with
  | [] => [(k, v)]
  | (k', v') :: d' =>
      if decide (k = k') then (k', v) :: d' else (k', v') :: dict_set d' k v
  end.

(** [{k: v for (k, v) in kvs}] *)
Definition dict_of_list (kvs : list (K * V)) : dict :=
  fold_left (fun d kv => dict_set d kv.1 kv.2) kvs [].

Definition dict_keys (d : dict) : list K := map fst d.

(** [d[k]] *)
Definition dict_getitem (d : dict) (k : K) : result V :=
  of_option KeyError (dict_get d k).
End Dict.

Arguments dict K V : clear implicits.

(** [sorted(l, key=key)]: Python's sort is stable, and the result of a
    stable sort is determined by its input, so insertion sort computes the
    same list as Timsort.  An element is inserted in front of the sorted rest
    of the list, before the first element whose key is not smaller: elements
    with equal keys keep their input order. *)
Fixpoint insert_by {A : Type} (key : A → Z) (x : A) (l : list A) : list A :=
  match l with
  | [] => [x]
  | y :: l' => if key x <=? key y then x :: y :: l' else y :: insert_by key x l'
  end.

Fixpoint sorted_by {A : Type} (key : A → Z) (l : list A) : list A :=
  match l with
  | [] => []
  | x :: l' => insert_by key x (sorted_by key l')
  end.

(** The order [sorted_by key] establishes. *)
Definition key_le {A : Type} (key : A → Z) (x y : A) : Prop := key x ≤ key y.

(** [enumerate(l)] *)
Definition enumerate {A : Type} (l : list A) : list (nat * A) :=
  zip (seq 0 (length l)) l.

(** ** Box geometry *)

(** A box is [[y_min, y_max, x_min, x_max]]. *)
Record bbox : Type := Bbox { y_min : Z; y_max : Z; x_min : Z; x_max : Z }.

#[global] Instance bbox_eq_dec : EqDecision bbox.
Proof. solve_decision. Defined.

#[global] Instance bbox_countable : Countable bbox.
Proof.
  apply (inj_countable' (fun b => (y_min b, y_max b, x_min b, x_max b))
           (fun t => match t with (a, b, c, d) => Bbox a b c d end)).
  by intros [].
Defined.

Definition compute_area (b : bbox) : Z :=
  Z.max 0 (x_max b - x_min b + 1) * Z.max 0 (y_max b - y_min b + 1).

(** Python's [a / b] on integers: the exact quotient, of which Python returns
    the nearest double. *)
Definition truediv (a b : Z) : result Q :=
  if b =? 0 then Raise ZeroDivisionError else Ok (inject_Z a / inject_Z b)%Q.

Definition compute_overlap (bbox0 bbox1 : bbox) : result Q :=
  let intersection_bbox :=
    Bbox (Z.max (y_min bbox0) (y_min bbox1))
         (Z.min (y_max bbox0) (y_max bbox1))
         (Z.max (x_min bbox0) (x_min bbox1))
         (Z.min (x_max bbox0) (x_max bbox1)) in
  let intersection_area := compute_area intersection_bbox in
  let union_area := compute_area bbox0 + compute_area bbox1 - intersection_area in
  truediv intersection_area union_area.

(** ** Synonym closure: [_densify_mat] *)

Definition matrix : Type := list (list Z).

Definition entry (m : matrix) (i j : nat) : Z := nth j (nth i m []) 0.

Definition ncols (m : matrix) : nat :=
  match m with
  | [] => O
  | r :: _ => length r
  end.

Definition col (j : nat) (m : matrix) : list Z := map (fun r => nth j r 0) m.

(** [mat.T] *)
Definition transpose (m : matrix) : matrix :=
  map (fun j => col j m) (seq 0 (ncols m)).

Definition dot (u v : list Z) : Z := fold_right Z.add 0 (zip_with Z.mul u v).

(** [np.matmul(a, b)] *)
Definition matmul (a b : matrix) : matrix :=
  map (fun r => map (fun j => dot r (col j b)) (seq 0 (ncols b))) a.

(** [a + b] on arrays of equal shape *)
Definition mat_add (a b : matrix) : matrix := zip_with (zip_with Z.add) a b.

(** [np.minimum(a, c)] *)
Definition minimum (a : matrix) (c : Z) : matrix := map (map (fun x => Z.min x c)) a.

(** [np.zeros_like(a)] *)
Definition zeros_like (a : matrix) : matrix := map (map (fun _ => 0)) a.

(** [np.eye(n)] *)
Definition eye (n : nat) : matrix :=
  map (fun i => map (fun j => if Nat.eqb i j then 1 else 0) (seq 0 n)) (seq 0 n).

(** [(a != b).any()] on arrays of equal shape *)
Definition any_neq (a b : matrix) : bool :=
  existsb (fun rs => existsb (fun xy => negb (xy.1 =? xy.2)) (zip rs.1 rs.2)) (zip a b).

(** The body of the loop: [np.minimum(mat + np.matmul(mat.T, mat), 1)]. *)
Definition densify_step (mat : matrix) : matrix :=
  minimum (mat_add mat (matmul (transpose mat) mat)) 1.

(** [while (mat != old_mat).any(): old_mat = np.copy(mat); mat = ...];
    [None] when the fuel runs out before the loop exits. *)
Fixpoint densify_loop (fuel : nat) (mat old_mat : matrix) : option matrix :=
  match fuel with
  | O => None
  | S fuel' =>
      if any_neq mat old_mat then densify_loop fuel' (densify_step mat) mat
      else Some mat
  end.

Definition _densify_mat (fuel : nat) (mat : matrix) : option matrix :=
  densify_loop fuel mat (zeros_like mat).

(** Shape and content predicates on matrices. *)
Definition square (n : nat) (m : matrix) : Prop :=
  length m = n ∧ Forall (fun r => length r = n) m.

Definition is01 (m : matrix) : Prop :=
  Forall (Forall (fun x => x = 0 ∨ x = 1)) m.

(** Sum of all entries; on a 0/1 matrix, the number of ones. *)
Definition total (m : matrix) : Z :=
  fold_right Z.add 0 (map (fold_right Z.add 0) m).

(** The [n]×[n] matrix with entry [f i j] at row [i], column [j]. *)
Definition tabulate (n : nat) (f : nat → nat → Z) : matrix :=
  map (fun i => map (fun j => f i j) (seq 0 n)) (seq 0 n).

(** ** Annotation normalizer: [_transform_annotations] *)

(** One raw relationship record and one raw image record, as returned by
    [create_relationship_json]. *)
Record raw_rel : Type := RawRel {
  subject : string;
  subject_box : bbox;
  predicate : string;
  object : string;
  object_box : bbox
}.

Record raw_anno : Type := RawAnno {
  raw_filename : string;
  raw_split_id : Z;
  raw_height : Z;
  raw_width : Z;
  relationships : list raw_rel
}.

(** An object mention: [(tuple(box), name)]. *)
Definition obj_tuple : Type := bbox * string.

(** The image record the normalizer returns: no numeric ids yet. *)
Record norm_objects : Type := NormObjects {
  nobj_names : list string;
  nobj_boxes : list bbox
}.

Record norm_relations : Type := NormRelations {
  nrel_names : list string;
  nrel_subj_ids : list Z;
  nrel_obj_ids : list Z
}.

Record norm_anno : Type := NormAnno {
  n_filename : string;
  n_split_id : Z;
  n_height : Z;
  n_width : Z;
  n_objects : norm_objects;
  n_relations : norm_relations
}.

(** [lambda t: (t[0][2] + t[0][3])] *)
Definition sort_key (t : obj_tuple) : Z := x_min t.1 + x_max t.1.

(** [set(subjects).union(set(objects))] *)
Definition mentioned (anno : raw_anno) : gset obj_tuple :=
  list_to_set (map (fun rel => (subject_box rel, subject rel)) (relationships anno))
  ∪ list_to_set (map (fun rel => (object_box rel, object rel)) (relationships anno)).

(** The element of the comprehension [objects]: the dictionary from the
    mentions of one image to their instance indices.  [set_list] is [list(s)]
    on a Python set: the order in which a set is iterated is fixed by the hash
    values of its elements, not by the program, so it is an argument of the
    embedding. *)
Definition object_list (set_list : gset obj_tuple → list obj_tuple) (anno : raw_anno)
    : list obj_tuple :=
  sorted_by sort_key (set_list (mentioned anno)).

Definition object_dict (set_list : gset obj_tuple → list obj_tuple) (anno : raw_anno)
    : dict obj_tuple Z :=
  dict_of_list
    (map (fun o_t : nat * obj_tuple => (o_t.2, Z.of_nat o_t.1))
       (enumerate (object_list set_list anno))).

(** The element of [inv_objects]: [{v: k for k, v in obj_dict.items()}]. *)
Definition invert_dict (obj_dict : dict obj_tuple Z) : dict Z obj_tuple :=
  dict_of_list (map (fun kv : obj_tuple * Z => (kv.2, kv.1)) obj_dict).

(** The element of [relationships]. *)
Definition rewrite_relations (anno : raw_anno) (obj_dict : dict obj_tuple Z)
    : result norm_relations :=
  subj_ids ← map_result
    (fun rel => dict_getitem obj_dict (subject_box rel, subject rel))
    (relationships anno);
  obj_ids ← map_result
    (fun rel => dict_getitem obj_dict (object_box rel, object rel))
    (relationships anno);
  Ok {| nrel_names := map predicate (relationships anno);
        nrel_subj_ids := subj_ids;
        nrel_obj_ids := obj_ids |}.

(** The element of the returned list. *)
Definition build_record (anno : raw_anno) (relations : norm_relations)
    (objs : dict Z obj_tuple) : result norm_anno :=
  names ← map_result (fun o => t ← dict_getitem objs o; Ok t.2)
             (sorted_by (fun o => o) (dict_keys objs));
  boxes ← map_result (fun o => t ← dict_getitem objs o; Ok t.1)
             (sorted_by (fun o => o) (dict_keys objs));
  Ok {| n_filename := raw_filename anno;
        n_split_id := raw_split_id anno;
        n_height := raw_height anno;
        n_width := raw_width anno;
        n_objects := {| nobj_names := names; nobj_boxes := boxes |};
        n_relations := relations |}.

(** The normalizer: four comprehensions over the images. *)
Definition _transform_annotations
    (set_list : gset obj_tuple → list obj_tuple)
    (annos : list raw_anno) : result (list norm_anno) :=
  let objects := map (object_dict set_list) annos in
  let inv_objects := map invert_dict objects in
  relationships_ ←
    map_result (fun a_d : raw_anno * dict obj_tuple Z =>
                  rewrite_relations a_d.1 a_d.2)
      (zip annos objects);
  map_result (fun a_r_o : raw_anno * norm_relations * dict Z obj_tuple =>
                build_record a_r_o.1.1 a_r_o.1.2 a_r_o.2)
    (zip (zip annos relationships_) inv_objects).

(** The iteration orders a Python set may have: every enumeration of its
    elements without repetition. *)
Definition admissible (set_list : gset obj_tuple → list obj_tuple) : Prop :=
  ∀ s, set_list s ≡ₚ elements s.

(** The Object Set of a normalised image: [zip(boxes, names)]. *)
Definition object_set (o : norm_anno) : list obj_tuple :=
  zip (nobj_boxes (n_objects o)) (nobj_names (n_objects o)).

(** What the normalizer establishes between a raw image [a] and its record
    [o]: the Object Set is the duplicate-free union of the mentions of [a],
    in ascending order of x_min + x_max of the box, and every relationship
    refers to its subject and its object by their positions in the Object
    Set. *)
Definition normalized (a : raw_anno) (o : norm_anno) : Prop :=
  NoDup (object_set o) ∧
  length (nobj_boxes (n_objects o)) = length (nobj_names (n_objects o)) ∧
  (∀ t, t ∈ object_set o ↔
        ∃ rel, rel ∈ relationships a ∧
          (t = (subject_box rel, subject rel) ∨ t = (object_box rel, object rel))) ∧
  (∀ i j ti tj, (i ≤ j)%nat →
     object_set o !! i = Some ti → object_set o !! j = Some tj →
     x_min ti.1 + x_max ti.1 ≤ x_min tj.1 + x_max tj.1) ∧
  nrel_names (n_relations o) = map predicate (relationships a) ∧
  length (nrel_subj_ids (n_relations o)) = length (relationships a) ∧
  length (nrel_obj_ids (n_relations o)) = length (relationships a) ∧
  (∀ r rel, relationships a !! r = Some rel →
     ∃ s ob,
       nrel_subj_ids (n_relations o) !! r = Some (Z.of_nat s) ∧
       object_set o !! s = Some (subject_box rel, subject rel) ∧
       nrel_obj_ids (n_relations o) !! r = Some (Z.of_nat ob) ∧
       object_set o !! ob = Some (object_box rel, object rel)).

(** ** Image annotations with numeric ids *)

(** [anno['objects']]: keys ['ids'], ['names'], ['boxes']. *)
Record anno_objects : Type := AnnoObjects {
  o_ids : list Z;
  o_names : list string;
  o_boxes : list bbox
}.

(** [anno['relations']]: keys ['ids'], ['names'], ['subj_ids'], ['obj_ids']
    and, once [update_annos_with_syns] has run, ['merged_ids']. *)
Record anno_relations : Type := AnnoRelations {
  r_ids : list Z;
  r_names : list string;
  r_subj_ids : list Z;
  r_obj_ids : list Z;
  r_merged_ids : option (list Z)
}.

Record anno : Type := Anno {
  filename : string;
  split_id : Z;
  height : Z;
  width : Z;
  objects : anno_objects;
  relations : anno_relations
}.

Definition background : string := "__background__".

(** [update_labels]: attach the position of every name in its vocabulary. *)
Definition update_labels (annos : list norm_anno) (predicates objects_ : list string)
    : result (list anno) :=
  let predicates_d : dict string Z :=
    dict_of_list (map (fun p_n : nat * string => (p_n.2, Z.of_nat p_n.1))
                    (enumerate predicates)) in
  let objects_d : dict string Z :=
    dict_of_list (map (fun o_n : nat * string => (o_n.2, Z.of_nat o_n.1))
                    (enumerate objects_)) in
  map_result (fun a : norm_anno =>
    rids ← map_result (dict_getitem predicates_d) (nrel_names (n_relations a));
    oids ← map_result (dict_getitem objects_d) (nobj_names (n_objects a));
    Ok {| filename := n_filename a;
          split_id := n_split_id a;
          height := n_height a;
          width := n_width a;
          objects := {| o_ids := oids;
                        o_names := nobj_names (n_objects a);
                        o_boxes := nobj_boxes (n_objects a) |};
          relations := {| r_ids := rids;
                          r_names := nrel_names (n_relations a);
                          r_subj_ids := nrel_subj_ids (n_relations a);
                          r_obj_ids := nrel_obj_ids (n_relations a);
                          r_merged_ids := None |} |})
    annos.

(** ** Pair completion: [create_pred_cls_json] *)

(** A predicate label of a pair: [(name, pred_id)]. *)
Definition label : Type := string * Z.

(** [range(n)] *)
Definition range (n : nat) : list Z := map Z.of_nat (seq 0 n).

(** [{(s, o): [] for s in range(n) for o in range(n) if s != o}] *)
Definition empty_pairs (n : nat) : dict (Z * Z) (list label) :=
  dict_of_list
    (flat_map (fun s =>
       flat_map (fun o => if decide (s ≠ o) then [((s, o), [])] else [])
         (range n))
       (range n)).

(** The body of the loop over [rel in range(len(subj_ids))]. *)
Definition add_relation (rels : anno_relations)
    (pairs : dict (Z * Z) (list label)) (rel : nat)
    : result (dict (Z * Z) (list label)) :=
  subj_id ← getitem_nat (r_subj_ids rels) rel;
  obj_id ← getitem_nat (r_obj_ids rels) rel;
  let pairs :=
    if dict_mem pairs (subj_id, obj_id) then pairs
    else dict_set pairs (subj_id, obj_id) [] in
  preds ← dict_getitem pairs (subj_id, obj_id);
  name ← getitem_nat (r_names rels) rel;
  pred_id ← getitem_nat (r_ids rels) rel;
  Ok (dict_set pairs (subj_id, obj_id) (preds ++ [(name, pred_id)])).

(** [any(rels)] on a list of 2-tuples: a non-empty tuple is truthy, so the
    test asks whether the list is non-empty. *)
Definition any_labels (rels : list label) : bool :=
  existsb (fun _ => true) rels.

(** [column.astype(int)] on an element of [pairs].  [np.array] of the mixed
    tuples is an array of strings (of Python objects when an integer does
    not fit 64 bits), so every integer comes back through [int] into a C
    long: a value outside the signed 64-bit range raises [OverflowError]. *)
Definition astype_int (z : Z) : result Z :=
  if (- 2 ^ 63 <=? z) && (z <? 2 ^ 63) then Ok z else Raise OverflowError.

(** [column.astype(str).tolist()] on an element of [pairs]: the strings of
    a NumPy array have a fixed width and are padded with NUL characters, so
    a string read back from the array has lost its trailing NUL
    characters. *)
Fixpoint astype_str (s : string) : string :=
  match s with
  | EmptyString => EmptyString
  | String c s' =>
      match astype_str s' with
      | EmptyString =>
          if Ascii.eqb c Ascii.zero then EmptyString else String c EmptyString
      | t => String c t
      end
  end.

(** One image of [create_pred_cls_json]. *)
Definition complete_pairs (predicates : list string) (a : anno) : result anno :=
  let pairs := empty_pairs (length (o_ids (objects a))) in
  pairs ← fold_result (add_relation (relations a))
             (seq 0 (length (r_subj_ids (relations a)))) pairs;
  let pairs : dict (Z * Z) (list label) :=
    map (fun kv : Z * Z * list label =>
           (kv.1, if any_labels kv.2 then kv.2
                  else [(background, Z.of_nat (length predicates) - 1)]))
        pairs in
  let rows : list (Z * Z * string * Z) :=
    flat_map (fun kv : Z * Z * list label =>
                map (fun l : label => (kv.1.1, kv.1.2, l.1, l.2)) kv.2)
             pairs in
  if bool_decide (rows ≠ []) then
    subj_ids ← map_result (fun r : Z * Z * string * Z => astype_int r.1.1.1) rows;
    obj_ids ← map_result (fun r : Z * Z * string * Z => astype_int r.1.1.2) rows;
    let names := map (fun r : Z * Z * string * Z => astype_str r.1.2) rows in
    ids ← map_result (fun r : Z * Z * string * Z => astype_int r.2) rows;
    Ok {| filename := filename a;
          split_id := split_id a;
          height := height a;
          width := width a;
          objects := objects a;
          relations := {| r_subj_ids := subj_ids;
                          r_obj_ids := obj_ids;
                          r_names := names;
                          r_ids := ids;
                          r_merged_ids := None |} |}
  else Ok a.

(** [create_pred_cls_json]: the list written to the pred-cls file. *)
Definition create_pred_cls_json (annos : list anno) (predicates : list string)
    : result (list anno) :=
  map_result (complete_pairs predicates) annos.

(** The rows of a relation set: [zip(subj_ids, obj_ids, names, ids)]. *)
Definition rows_of (rels : anno_relations) : list (Z * Z * label) :=
  zip (zip (r_subj_ids rels) (r_obj_ids rels)) (zip (r_names rels) (r_ids rels)).

(** The labels annotated on the pair [k], in annotation order. *)
Definition annotated (rels : anno_relations) (k : Z * Z) : list label :=
  map snd (filter (fun row : Z * Z * label => row.1 = k) (rows_of rels)).

(** The ordered pairs of distinct instance indices of an image with [n]
    objects. *)
Definition distinct_pair (n : nat) (k : Z * Z) : Prop :=
  0 ≤ k.1 < Z.of_nat n ∧ 0 ≤ k.2 < Z.of_nat n ∧ k.1 ≠ k.2.

(** Normalizer, id assignment and pair completion in sequence, as
    [transform] runs them. *)
Definition normalize_and_complete
    (set_list : gset obj_tuple → list obj_tuple)
    (raw : list raw_anno) (predicates objects_ : list string) : result (list anno) :=
  annos ← _transform_annotations set_list raw;
  annos ← update_labels annos predicates objects_;
  create_pred_cls_json annos predicates.

(** The parallel arrays of a relation set have one length. *)
Definition well_formed_relations (rels : anno_relations) : Prop :=
  length (r_obj_ids rels) = length (r_subj_ids rels) ∧
  length (r_names rels) = length (r_subj_ids rels) ∧
  length (r_ids rels) = length (r_subj_ids rels).

(** The keys of [empty_pairs n], in the order of the comprehension. *)
Definition pair_keys (n : nat) : list (Z * Z) :=
  flat_map (fun s =>
     flat_map (fun o => if decide (s ≠ o) then [(s, o)] else []) (range n))
     (range n).

(** What one iteration of the loop does to [pairs], given the row it reads. *)
Definition add_row (pairs : dict (Z * Z) (list label)) (row : Z * Z * label)
    : dict (Z * Z) (list label) :=
  dict_set pairs row.1 (default [] (dict_get pairs row.1) ++ [row.2]).

(** The entry group of the pair [k] after completion: its annotated labels,
    or the single background label when it has none. *)
Definition completed (predicates : list string) (rels : anno_relations) (k : Z * Z)
    : list label :=
  match annotated rels k with
  | [] => [(background, Z.of_nat (length predicates) - 1)]
  | labels => labels
  end.


(** The signed 64-bit range. *)
Definition int64 (z : Z) : Prop := - 2 ^ 63 ≤ z < 2 ^ 63.

(** The integers that pair completion sends through the array of strings
    fit 64 bits: the indices and ids of the image, the instance indices
    below the number of objects, and the background id. *)
Definition fits_int64 (predicates : list string) (a : anno) : Prop :=
  Forall int64 (r_subj_ids (relations a)) ∧
  Forall int64 (r_obj_ids (relations a)) ∧
  Forall int64 (r_ids (relations a)) ∧
  Z.of_nat (length (o_ids (objects a))) ≤ 2 ^ 63 ∧
  Z.of_nat (length predicates) ≤ 2 ^ 63.

(** The last character of a string. *)
Fixpoint last_char (s : string) : option Ascii.ascii :=
  match s with
  | EmptyString => None
  | String c s' =>
      match s' with
      | EmptyString => Some c
      | String _ _ => last_char s'
      end
  end.

(** The string does not end with a NUL character. *)
Definition no_trailing_nul (s : string) : Prop := last_char s ≠ Some Ascii.zero.

(** A row as it comes back from the array of strings. *)
Definition read_back (row : Z * Z * label) : Z * Z * label :=
  (row.1, (astype_str row.2.1, row.2.2)).

(** ** Laplace estimator: [compute_relationship_probabilities] *)

(** The count array [prob_matrix] before normalisation, indexed
    [subject class][object class][predicate]. *)
Abbreviation counts := (list (list (list Z))).

(** [np.ones((n_obj, n_obj, n_rel))] *)
Definition ones (n_obj n_rel : nat) : counts :=
  replicate n_obj (replicate n_obj (replicate n_rel 1)).

Definition cell : Type := nat * nat * nat.

Definition get_cell (pm : counts) (c : cell) : Z :=
  default 0 (plane ← pm !! c.1.1; row ← plane !! c.1.2; row !! c.2).

Definition set_cell (pm : counts) (c : cell) (v : Z) : counts :=
  alter (alter (fun row => <[c.2 := v]> row) c.1.2) c.1.1 pm.

(** An index into an axis of length [len]: negative indices count from the
    end, anything outside [-len, len) raises [IndexError]. *)
Definition axis_index (len : nat) (i : Z) : result nat :=
  let n := Z.of_nat len in
  if (0 <=? i) && (i <? n) then Ok (Z.to_nat i)
  else if (- n <=? i) && (i <? 0) then Ok (Z.to_nat (n + i))
  else Raise IndexError.

(** [any(names)] on a list of strings: true when some name is not empty. *)
Definition any_names (names : list string) : bool :=
  existsb (fun s => negb (String.eqb s "")) names.

(** [np.stack((a, b, c), axis=1)]: the three lists must have one length. *)
Definition stack3 (a b c : list Z) : result (list (Z * Z * Z)) :=
  if bool_decide (length a = length b ∧ length b = length c)
  then Ok (zip (zip a b) c)
  else Raise ValueError.

Definition triple_ltb (t u : Z * Z * Z) : bool :=
  (t.1.1 <? u.1.1)
  || ((t.1.1 =? u.1.1) && ((t.1.2 <? u.1.2)
  || ((t.1.2 =? u.1.2) && (t.2 <? u.2)))).

Fixpoint insert_unique (t : Z * Z * Z) (l : list (Z * Z * Z)) : list (Z * Z * Z) :=
  match l with
  | [] => [t]
  | u :: l' =>
      if bool_decide (t = u) then l
      else if triple_ltb t u then t :: l
      else u :: insert_unique t l'
  end.

(** [np.unique(rows, axis=0)]: the distinct rows, in lexicographic order. *)
Definition unique_rows (l : list (Z * Z * Z)) : list (Z * Z * Z) :=
  fold_right insert_unique [] l.

(** [prob_matrix[i, j, k] += 1] with index arrays: the addressed cells are
    read, one is added to each value read, and the results are written back
    cell by cell, so a cell addressed several times still grows by one. *)
Definition iadd_cells (pm : counts) (cells : list cell) : counts :=
  let values := map (fun c => get_cell pm c + 1) cells in
  fold_left (fun pm' cv => set_cell pm' cv.1 cv.2) (zip cells values) pm.

(** The body of the loop over [annos]. *)
Definition count_anno (n_obj n_rel : nat) (pm : counts) (a : anno) : result counts :=
  if (split_id a =? 0) && any_names (r_names (relations a)) then
    let ids := o_ids (objects a) in
    stacked ← stack3 (r_subj_ids (relations a)) (r_obj_ids (relations a))
                 (r_ids (relations a));
    let unique_triplets := unique_rows stacked in
    (* an empty stack is an array of floats, which cannot be an index *)
    if bool_decide (unique_triplets = []) then Raise IndexError else
    subj_cls ← map_result (fun t : Z * Z * Z => getitem ids t.1.1) unique_triplets;
    obj_cls ← map_result (fun t : Z * Z * Z => getitem ids t.1.2) unique_triplets;
    cells ← map_result (fun sop : Z * Z * Z =>
               i ← axis_index n_obj sop.1.1;
               j ← axis_index n_obj sop.1.2;
               k ← axis_index n_rel sop.2;
               Ok (i, j, k))
             (zip (zip subj_cls obj_cls) (map snd unique_triplets));
    Ok (iadd_cells pm cells)
  else Ok pm.

(** The accumulation loop. *)
Definition count_triplets (annos : list anno) (predicates objects_ : list string)
    : result counts :=
  fold_result (count_anno (length objects_) (length predicates)) annos
    (ones (length objects_) (length predicates)).

Definition Qsum (l : list Q) : Q := fold_right Qplus 0%Q l.

Definition Zsum (l : list Z) : Z := fold_right Z.add 0 l.

(** Rounding to binary64.  The counts are integers below 2^53 and are exact
    as doubles, and so is their sum; each quotient is rounded once.  [rnd] is
    any operator with the relative error of a correctly rounded binary64
    operation, the standard model of floating-point arithmetic. *)
Definition unit_roundoff : Q := 1 # (2 ^ 53).

Definition rounds (rnd : Q → Q) : Prop :=
  ∀ q, (Qabs (rnd q - q) <= unit_roundoff * Qabs q)%Q.

(** [prob_matrix /= prob_matrix.sum(2)[:, :, None]] *)
Definition normalize (rnd : Q → Q) (pm : counts) : list (list (list Q)) :=
  map (map (fun row => map (fun x => rnd (inject_Z x / inject_Z (Zsum row))%Q) row)) pm.

Definition compute_relationship_probabilities (rnd : Q → Q)
    (annos : list anno) (predicates objects_ : list string)
    : result (list (list (list Q))) :=
  pm ← count_triplets annos predicates objects_;
  Ok (normalize rnd pm).

(** The cell that a triplet (subject index, object index, predicate id)
    addresses: the classes of the two instances and the predicate id, as
    positions along the three axes. *)
Definition cell_of_triplet (n_obj n_rel : nat) (ids : list Z) (t : Z * Z * Z)
    : result cell :=
  cs ← getitem ids t.1.1;
  co ← getitem ids t.1.2;
  i ← axis_index n_obj cs;
  j ← axis_index n_obj co;
  k ← axis_index n_rel t.2;
  Ok (i, j, k).

(** The cell that relation [r] of image [a] addresses. *)
Definition cell_of_relation (n_obj n_rel : nat) (a : anno) (r : nat) : result cell :=
  s ← getitem_nat (r_subj_ids (relations a)) r;
  o ← getitem_nat (r_obj_ids (relations a)) r;
  p ← getitem_nat (r_ids (relations a)) r;
  cell_of_triplet n_obj n_rel (o_ids (objects a)) (s, o, p).

(** Some relation of the image addresses the cell [c]. *)
Definition observed (n_obj n_rel : nat) (a : anno) (c : cell) : Prop :=
  ∃ r, cell_of_relation n_obj n_rel a r = Ok c.

(** An image with some relation that is not background. *)
Definition has_non_background (a : anno) : bool :=
  existsb (fun s => negb (String.eqb s background)) (r_names (relations a)).

(** The shape [(n_obj, n_obj, n_rel)] of the count array. *)
Definition has_shape (n_obj n_rel : nat) (pm : counts) : Prop :=
  length pm = n_obj ∧
  Forall (fun plane : list (list Z) =>
            length plane = n_obj ∧ Forall (fun row => length row = n_rel) plane) pm.

Definition in_shape (n_obj n_rel : nat) (c : cell) : Prop :=
  (c.1.1 < n_obj)%nat ∧ (c.1.2 < n_obj)%nat ∧ (c.2 < n_rel)%nat.

(** The row of the count array for a subject class and an object class. *)
Definition count_row (pm : counts) (s o : nat) : option (list Z) :=
  plane ← pm !! s; plane !! o.

Definition prob_row (table : list (list (list Q))) (s o : nat) : option (list Q) :=
  plane ← table !! s; plane !! o.

(** ** Negative miner: [save_negative_json] *)

(** [x < 0.9] on an overlap ratio.  [x] is the quotient of two integers
    rounded to the nearest double (ties to even), and [0.9] is the double
    8106479329266893 / 2^53.  Its significand is odd, so the doubles below
    it are the roundings of the quotients up to and including the midpoint
    16212958658533785 / 2^54 between it and the double before it. *)
Definition below_09 (q : Q) : bool := Qle_bool q (16212958658533785 # 2 ^ 54).

(** [name in preds] *)
Definition name_in (name : string) (preds : list string) : bool :=
  bool_decide (name ∈ preds).

(** The expression [rule_applies] of rule 1, inside the two loops: [name],
    [subj_id], [obj_id] and [subj_box] belong to the annotated relation of the
    outer loop, [r_cnt] and [rel] to the relation of the inner loop.  Python's
    [and] evaluates its operands from left to right and stops at the first
    false one. *)
Definition rule1_applies (a : anno) (name : string) (subj_id obj_id : Z)
    (subj_box : bbox) (r_cnt : nat) (rel : string) : result bool :=
  this_subj_id ← getitem_nat (r_subj_ids (relations a)) r_cnt;
  this_subj_box ← getitem (o_boxes (objects a)) this_subj_id;
  if bool_decide (this_subj_id ≠ subj_id) then
    overlap ← compute_overlap this_subj_box subj_box;
    if below_09 overlap then
      if bool_decide (rel ≠ name) then
        this_obj_id ← getitem_nat (r_obj_ids (relations a)) r_cnt;
        Ok (bool_decide (this_obj_id = obj_id))
      else Ok false
    else Ok false
  else Ok false.

(** The expression [rule_applies] of rule 2. *)
Definition rule2_applies (a : anno) (name : string) (subj_id obj_id : Z)
    (obj_box : bbox) (r_cnt : nat) (rel : string) : result bool :=
  this_obj_id ← getitem_nat (r_obj_ids (relations a)) r_cnt;
  this_obj_box ← getitem (o_boxes (objects a)) this_obj_id;
  this_subj_id ← getitem_nat (r_subj_ids (relations a)) r_cnt;
  if bool_decide (this_subj_id = subj_id) then
    if bool_decide (rel ≠ name) then
      if bool_decide (this_obj_id ≠ obj_id) then
        overlap ← compute_overlap this_obj_box obj_box;
        Ok (below_09 overlap)
      else Ok false
    else Ok false
  else Ok false.

(** The inner loop [for r_cnt, rel in enumerate(relations['names'])] with
    its [neg_ids[r_cnt].append(relations['ids'][n_cnt])]. *)
Definition mine_relation (rule : nat → string → result bool) (a : anno) (n_cnt : nat)
    (neg_ids : list (list Z)) : result (list (list Z)) :=
  fold_result (fun (neg_ids : list (list Z)) (r_rel : nat * string) =>
      rule_applies ← rule r_rel.1 r_rel.2;
      if rule_applies : bool then
        negs ← getitem_nat neg_ids r_rel.1;
        pred_id ← getitem_nat (r_ids (relations a)) n_cnt;
        Ok (<[r_rel.1 := negs ++ [pred_id]]> neg_ids)
      else Ok neg_ids)
    (enumerate (r_names (relations a))) neg_ids.

(** One image of [save_negative_json]: the value stored under
    [negatives[anno['filename']]]. *)
Definition mine_negatives (r1_preds r2_preds : list string) (a : anno)
    : result (list (list Z)) :=
  let neg_ids : list (list Z) := replicate (length (r_ids (relations a))) [] in
  fold_result (fun (neg_ids : list (list Z)) (n_name : nat * string) =>
      let (n_cnt, name) := n_name in
      obj_id ← getitem_nat (r_obj_ids (relations a)) n_cnt;
      subj_id ← getitem_nat (r_subj_ids (relations a)) n_cnt;
      obj_box ← getitem (o_boxes (objects a)) obj_id;
      subj_box ← getitem (o_boxes (objects a)) subj_id;
      if name_in name r1_preds then
        mine_relation (rule1_applies a name subj_id obj_id subj_box) a n_cnt neg_ids
      else if name_in name r2_preds then
        mine_relation (rule2_applies a name subj_id obj_id obj_box) a n_cnt neg_ids
      else Ok neg_ids)
    (enumerate (r_names (relations a))) neg_ids.

(** [save_negative_json]: the dictionary [negatives] written to the
    negatives file. *)
Definition save_negative_json (r1_preds r2_preds : list string) (annos : list anno)
    : result (dict string (list (list Z))) :=
  fold_result (fun (negatives : dict string (list (list Z))) (a : anno) =>
      neg_ids ← mine_negatives r1_preds r2_preds a;
      Ok (dict_set negatives (filename a) neg_ids))
    annos [].

(** What the two loops evaluate as [rule_applies] for the annotated relation
    at position [n_cnt] and the relation at position [r_cnt]. *)
Definition rule_at (r1_preds r2_preds : list string) (a : anno) (n_cnt r_cnt : nat)
    : result bool :=
  name ← getitem_nat (r_names (relations a)) n_cnt;
  obj_id ← getitem_nat (r_obj_ids (relations a)) n_cnt;
  subj_id ← getitem_nat (r_subj_ids (relations a)) n_cnt;
  obj_box ← getitem (o_boxes (objects a)) obj_id;
  subj_box ← getitem (o_boxes (objects a)) subj_id;
  rel ← getitem_nat (r_names (relations a)) r_cnt;
  if name_in name r1_preds then rule1_applies a name subj_id obj_id subj_box r_cnt rel
  else if name_in name r2_preds then rule2_applies a name subj_id obj_id obj_box r_cnt rel
  else Ok false.

(** The positions [n_cnt] whose relation puts its predicate id on the
    negative list of the relation at [r_cnt], in the order of the outer loop. *)
Definition contributes (r1_preds r2_preds : list string) (a : anno) (r_cnt n_cnt : nat)
    : bool :=
  match rule_at r1_preds r2_preds a n_cnt r_cnt with
  | Ok b => b
  | Raise _ => false
  end.

Definition contributors (r1_preds r2_preds : list string) (a : anno) (r_cnt : nat)
    : list nat :=
  filter (fun n_cnt => contributes r1_preds r2_preds a r_cnt n_cnt = true)
    (seq 0 (length (r_names (relations a)))).

(** The predicate ids that one run of the inner loop over the positions [l]
    appends to the negative list of the relation at [r]. *)
Definition appended (a : anno) (rule : nat → string → result bool) (n_cnt : nat)
    (l : list (nat * string)) (r : nat) : list Z :=
  flat_map (fun p : nat * string =>
      if bool_decide (p.1 = r)
         && match rule p.1 p.2 with Ok b => b | Raise _ => false end
      then option_list (r_ids (relations a) !! n_cnt) else []) l.

(** ** Synonym merging: [compute_class_merging], [update_annos_with_syns] *)

(** [row.argmax()]: the first position of the largest entry, scanning from
    the left with the best entry so far. *)
Fixpoint argmax_from (best_i : nat) (best : Z) (i : nat) (l : list Z) : nat :=
  match l with
  | [] => best_i
  | x :: l' =>
      if best <? x then argmax_from i x (S i) l'
      else argmax_from best_i best (S i) l'
  end.

(** [mat.argmax(1).tolist()] on a square matrix: NumPy refuses an axis of
    length 0 with [ValueError]. *)
Definition argmax_rows (mat : matrix) : result (list Z) :=
  match mat with
  | [] => Raise ValueError
  | _ =>
      map_result (fun row =>
          match row with
          | [] => Raise ValueError
          | x :: l => Ok (Z.of_nat (argmax_from 0 x 1 l))
          end) mat
  end.

(** Every 1 of [m] is a 1 of [E], over the indices below [n]. *)
Definition below (n : nat) (m E : matrix) : Prop :=
  ∀ i j, (i < n)%nat → (j < n)%nat → entry m i j = 1 → entry E i j = 1.

(** ** Synonym classes: [compute_class_merging] and [update_annos_with_syns] *)

(** [np.array(ids)[np.array(idx)]]: an empty list makes an array of floats,
    which cannot be an index; an index outside [-len, len) is out of
    bounds. *)
Definition take_ids (ids idx : list Z) : result (list Z) :=
  if bool_decide (idx = []) then Raise IndexError
  else map_result (getitem ids) idx.

(** The pairs (subject class, object class) that one image contributes to
    the set [pairs]: [zip] stops at the shorter array. *)
Definition class_pairs (a : anno) : result (list (Z * Z)) :=
  if bool_decide (r_ids (relations a) ≠ []) then
    subj ← take_ids (o_ids (objects a)) (r_subj_ids (relations a));
    obj ← take_ids (o_ids (objects a)) (r_obj_ids (relations a));
    Ok (zip subj obj)
  else Ok [].

Definition all_class_pairs (annos : list anno) : result (gset (Z * Z)) :=
  ps ← map_result class_pairs annos;
  Ok (list_to_set (concat ps)).

(** [np.stack((a, b), axis=1)] *)
Definition stack2 (a b : list Z) : result (list (Z * Z)) :=
  if bool_decide (length a = length b) then Ok (zip a b) else Raise ValueError.

(** The pairs of [common_pairs.nonzero()]: the positions [(i, j)] of the relations
    with the same subject index and the same object index, in row-major
    order. *)
Definition common_pairs (pairs : list (Z * Z)) : list (nat * nat) :=
  flat_map (fun i =>
     flat_map (fun j => if bool_decide (pairs !! i = pairs !! j) then [(i, j)] else [])
       (seq 0 (length pairs)))
     (seq 0 (length pairs)).

(** [mat[p, q] = v] on a two-dimensional array. *)
Definition mat_setitem (mat : matrix) (p q : Z) (v : Z) : result matrix :=
  i ← axis_index (length mat) p;
  j ← axis_index (ncols mat) q;
  Ok (alter (fun row => <[j := v]> row) i mat).

(** The body of the loop over [zip(nz_i, nz_j)]: the key is evaluated and
    looked up before the two predicate ids are read. *)
Definition connect (a : anno) (connections : dict (Z * Z) matrix) (ij : nat * nat)
    : result (dict (Z * Z) matrix) :=
  s ← getitem_nat (r_subj_ids (relations a)) ij.1;
  cs ← getitem (o_ids (objects a)) s;
  o ← getitem_nat (r_obj_ids (relations a)) ij.2;
  co ← getitem (o_ids (objects a)) o;
  mat ← dict_getitem connections (cs, co);
  p ← getitem_nat (r_ids (relations a)) ij.1;
  q ← getitem_nat (r_ids (relations a)) ij.2;
  mat' ← mat_setitem mat p q 1;
  Ok (dict_set connections (cs, co) mat').

(** The body of the loop that fills the adjacency matrices. *)
Definition fill_anno (connections : dict (Z * Z) matrix) (a : anno)
    : result (dict (Z * Z) matrix) :=
  pairs ← stack2 (r_subj_ids (relations a)) (r_obj_ids (relations a));
  fold_result (connect a) (common_pairs pairs) connections.

(** The last loop: every matrix is replaced, under its key, by the list
    [self._densify_mat(mat).argmax(1).tolist()].  [None] when the fuel of
    a closure runs out. *)
Fixpoint densify_items (fuel : nat) (items : list (Z * Z * matrix))
    : option (result (dict (Z * Z) (list Z))) :=
  match items with
  | [] => Some (Ok [])
  | (key, mat) :: rest =>
      match _densify_mat fuel mat with
      | None => None
      | Some m =>
          match argmax_rows m with
          | Raise e => Some (Raise e)
          | Ok canon =>
              match densify_items fuel rest with
              | None => None
              | Some (Raise e) => Some (Raise e)
              | Some (Ok out) => Some (Ok ((key, canon) :: out))
              end
          end
      end
  end.

(** [compute_class_merging]: [set_list] is the order in which the set
    [pairs] is iterated, [fuel] bounds the loop of every closure. *)
Definition compute_class_merging (set_list : gset (Z * Z) → list (Z * Z)) (fuel : nat)
    (annos : list anno) (predicates : list string)
    : option (result (dict (Z * Z) (list Z))) :=
  match
    (pairs ← all_class_pairs annos;
     fold_result fill_anno annos
       (dict_of_list (map (fun pair => (pair, eye (length predicates)))
                        (set_list pairs))))
  with
  | Raise e => Some (Raise e)
  | Ok connections => densify_items fuel connections
  end.

(** The element of the comprehension of [update_annos_with_syns]:
    [connections[objects[subj_id], objects[obj_id]][_id]]. *)
Definition merged_id (connections : dict (Z * Z) (list Z)) (objs : list Z)
    (t : Z * Z * Z) : result Z :=
  cs ← getitem objs t.1.1;
  co ← getitem objs t.1.2;
  canon ← dict_getitem connections (cs, co);
  getitem canon t.2.

Definition update_annos_with_syns (annos : list anno)
    (connections : dict (Z * Z) (list Z)) : result (list anno) :=
  map_result (fun a =>
      merged ← map_result (merged_id connections (o_ids (objects a)))
                  (zip (zip (r_subj_ids (relations a)) (r_obj_ids (relations a)))
                       (r_ids (relations a)));
      Ok {| filename := filename a;
            split_id := split_id a;
            height := height a;
            width := width a;
            objects := objects a;
            relations := {| r_ids := r_ids (relations a);
                            r_names := r_names (relations a);
                            r_subj_ids := r_subj_ids (relations a);
                            r_obj_ids := r_obj_ids (relations a);
                            r_merged_ids := Some merged |} |})
    annos.

(** The iteration orders a Python set of class pairs may have. *)
Definition admissible_pairs (set_list : gset (Z * Z) → list (Z * Z)) : Prop :=
  ∀ s, set_list s ≡ₚ elements s.

(** Relation [r] of image [a] joins subject class [cs], object class [co]
    and predicate id [p]. *)
Definition class_row (a : anno) (r : nat) (cs co p : Z) : Prop :=
  ∃ s o,
    r_subj_ids (relations a) !! r = Some s ∧
    r_obj_ids (relations a) !! r = Some o ∧
    r_ids (relations a) !! r = Some p ∧
    getitem (o_ids (objects a)) s = Ok cs ∧
    getitem (o_ids (objects a)) o = Ok co.

(** The dictionary of adjacency matrices while it is filled: one square,
    reflexive 0/1 matrix per key. *)
Definition adjacency (n : nat) (keys : list (Z * Z)) (conn : dict (Z * Z) matrix) : Prop :=
  map fst conn = keys ∧ NoDup keys ∧
  Forall (fun kv : Z * Z * matrix =>
            square n kv.2 ∧ is01 kv.2 ∧ ∀ i, (i < n)%nat → entry kv.2 i i = 1) conn.

(** The matrix of [key] links the predicate ids [p] and [q]. *)
Definition connected (conn : dict (Z * Z) matrix) (key : Z * Z) (p q : Z) : Prop :=
  ∃ mat, dict_get conn key = Some mat ∧ entry mat (Z.to_nat p) (Z.to_nat q) = 1.

(** [canon] sends every index below [n] to an index that is not greater
    and is its own image, the same for all the indices that [mat] links. *)
Definition canonical (n : nat) (mat : matrix) (canon : list Z) : Prop :=
  length canon = n ∧
  ∀ i, (i < n)%nat →
    ∃ c, canon !! i = Some (Z.of_nat c) ∧ (c ≤ i)%nat ∧
         canon !! c = Some (Z.of_nat c) ∧
         ∀ j, (j < n)%nat → entry mat i j = 1 → canon !! j = Some (Z.of_nat c).

(** Two runs end alike: with related results, or with the same exception. *)
Definition same_outcome {S : Type} (R : S → S → Prop) (r1 r2 : result S) : Prop :=
  match r1, r2 with
  | Ok s1, Ok s2 => R s1 s2
  | Raise e1, Raise e2 => e1 = e2
  | _, _ => False
  end.

(** Two dictionaries with the same value under every key, whatever the
    order of their keys. *)
Definition same_content {K V : Type} `{EqDecision K} (d1 d2 : dict K V) : Prop :=
  ∀ k, dict_get d1 k = dict_get d2 k.

(** ** Vocabularies: [save_predicates_objects] *)

(** [x <= y] on [str].  Python compares strings by code point; a [string]
    holds the UTF-8 bytes of the name, and the byte-wise lexicographic order
    of UTF-8 is the code point order. *)
Definition str_le (x y : string) : Prop := String.leb x y = true.

(** [sorted(l)] on a list of strings: the stable insertion sort of
    [sorted_by], with the comparison of strings in place of a key. *)
Fixpoint insert_str (x : string) (l : list string) : list string :=
  match l with
  | [] => [x]
  | y :: l' => if String.leb x y then x :: y :: l' else y :: insert_str x l'
  end.

Fixpoint sorted_str (l : list string) : list string :=
  match l with
  | [] => []
  | x :: l' => insert_str x (sorted_str l')
  end.

(** The iteration orders a Python set of strings may have. *)
Definition admissible_names (set_list : gset string → list string) : Prop :=
  ∀ s, set_list s ≡ₚ elements s.

(** [save_predicates_objects]: the returned pair [(predicates, objects)];
    the two lists are also written to their files as they are.  [set_list]
    is [list(s)] on a set of names. *)
Definition save_predicates_objects (set_list : gset string → list string)
    (annos : list norm_anno) : list string * list string :=
  let predicates :=
    sorted_str (set_list (list_to_set
      (flat_map (fun anno =>
         filter (fun name => name ≠ background) (nrel_names (n_relations anno)))
         annos))) in
  let predicates := predicates ++ [background] in
  let objects_ :=
    sorted_str (set_list (list_to_set
      (flat_map (fun anno => nobj_names (n_objects anno)) annos))) in
  (predicates, objects_).

(** Every id of the list [ids] is the position of the name next to it in
    the vocabulary [voc]. *)
Definition labelled (voc : list string) (ids : list Z) (names : list string) : Prop :=
  Forall2 (fun id name => 0 ≤ id ∧ voc !! Z.to_nat id = Some name) ids names.

(** What the later stages of the pipeline rely on in an image: parallel
    arrays of one length, every id the position of its name in its
    vocabulary, and every subject and object index a position of the
    Object Set. *)
Definition well_labelled (predicates objects_ : list string) (a : anno) : Prop :=
  well_formed_relations (relations a) ∧
  length (o_boxes (objects a)) = length (o_ids (objects a)) ∧
  labelled predicates (r_ids (relations a)) (r_names (relations a)) ∧
  labelled objects_ (o_ids (objects a)) (o_names (objects a)) ∧
  Forall (fun s => 0 ≤ s < Z.of_nat (length (o_ids (objects a))))
    (r_subj_ids (relations a)) ∧
  Forall (fun o => 0 ≤ o < Z.of_nat (length (o_ids (objects a))))
    (r_obj_ids (relations a)).

(** ** The Laplace counts as a formula *)

(** The test of the loop of [compute_relationship_probabilities]. *)
Definition counted (a : anno) : bool :=
  (split_id a =? 0) && any_names (r_names (relations a)).

(** [observed], as a test. *)
Definition observes (n_obj n_rel : nat) (a : anno) (c : cell) : bool :=
  existsb (fun r => match cell_of_relation n_obj n_rel a r with
                    | Ok c' => bool_decide (c' = c)
                    | Raise _ => false
                    end)
    (seq 0 (length (r_subj_ids (relations a)))).

(** The number of counted images with a relation that addresses [c]. *)
Definition occurrences (n_obj n_rel : nat) (annos : list anno) (c : cell) : Z :=
  Z.of_nat (length (filter (fun a => counted a && observes n_obj n_rel a c = true) annos)).

(** * Properties *)

(** ** Python runtime *)

Lemma bind_Ok {A B : Type} (m : result A) (k : A → result B) (b : B) :
  m ≫= k = Ok b ↔ ∃ a, m = Ok a ∧ k a = Ok b.
Proof.
  destruct m as [a|e]; simpl.
  - split; [eauto | intros (a' & [= <-] & H); exact H].
  - split; [discriminate | intros (a' & [=] & _)].
Qed.

Lemma getitem_nat_Ok {A : Type} (l : list A) (i : nat) (x : A) :
  getitem_nat l i = Ok x ↔ l !! i = Some x.
Proof.
  unfold getitem_nat. destruct (l !! i); simpl; split; congruence.
Qed.

Lemma getitem_of_nat {A : Type} (l : list A) (i : nat) :
  (i < length l)%nat → getitem l (Z.of_nat i) = getitem_nat l i.
Proof.
  intros Hi. unfold getitem.
  replace (0 <=? Z.of_nat i) with true by (symmetry; apply Z.leb_le; lia).
  replace (Z.of_nat i <? Z.of_nat (length l)) with true
    by (symmetry; apply Z.ltb_lt; lia).
  simpl. by rewrite Nat2Z.id.
Qed.

(** ** Box geometry *)

Lemma compute_area_nonneg (b : bbox) : 0 ≤ compute_area b.
Proof. unfold compute_area. apply Z.mul_nonneg_nonneg; lia. Qed.

Lemma truediv_zero (a : Z) : truediv a 0 = Raise ZeroDivisionError.
Proof. reflexivity. Qed.

Lemma truediv_Ok (a b : Z) (q : Q) :
  truediv a b = Ok q ↔ b ≠ 0 ∧ q = (inject_Z a / inject_Z b)%Q.
Proof.
  unfold truediv. destruct (Z.eqb_spec b 0) as [->|Hb].
  - split; [discriminate | intros [[] _]; reflexivity].
  - split; [intros [= <-]; done | intros [_ ->]; done].
Qed.

(** The union area of two boxes, as [compute_overlap] computes it. *)
Lemma compute_overlap_union_zero (b0 b1 : bbox) :
  compute_area b0 = 0 → compute_area b1 = 0 →
  compute_overlap b0 b1 = Raise ZeroDivisionError.
Proof.
  intros H0 H1. unfold compute_overlap. rewrite H0, H1. simpl.
  set (ib := Bbox _ _ _ _).
  assert (Hi : compute_area ib = 0).
  { assert (0 ≤ compute_area ib) by apply compute_area_nonneg.
    assert (compute_area ib ≤ 0); [|lia].
    unfold compute_area in *. subst ib. simpl.
    destruct b0 as [a0 a1 a2 a3], b1 as [c0 c1 c2 c3]; simpl in *.
    apply Z.mul_eq_0 in H0 as [H0|H0].
    - rewrite (Z.max_l 0 (Z.min a3 c3 - Z.max a2 c2 + 1)) by lia. lia.
    - rewrite (Z.max_l 0 (Z.min a1 c1 - Z.max a0 c0 + 1)) by lia. lia. }
  rewrite Hi. reflexivity.
Qed.

(** C2: on two boxes whose union area is 0, that is, two boxes of area 0,
    [compute_overlap] raises [ZeroDivisionError]; it does not return the
    overlap 0. *)
Theorem C2_overlap_raises_on_empty_union (b0 b1 : bbox) :
  compute_area b0 = 0 → compute_area b1 = 0 →
  compute_overlap b0 b1 = Raise ZeroDivisionError ∧
  compute_overlap b0 b1 ≠ Ok 0%Q.
Proof.
  intros H0 H1. rewrite compute_overlap_union_zero by assumption.
  split; [reflexivity | discriminate].
Qed.

Lemma C2_overlap_raises_witness :
  compute_overlap (Bbox 0 (-1) 0 (-1)) (Bbox 3 2 7 5) = Raise ZeroDivisionError ∧
  compute_overlap (Bbox 0 (-1) 0 (-1)) (Bbox 3 2 7 5) ≠ Ok 0%Q.
Proof.
  apply (C2_overlap_raises_on_empty_union (Bbox 0 (-1) 0 (-1)) (Bbox 3 2 7 5));
    reflexivity.
Defined.

(** ** Synonym closure *)

Section Tabulate.
Implicit Types (n i j : nat) (f g : nat → nat → Z) (m : matrix).

Lemma tabulate_square n f : square n (tabulate n f).
Proof.
  split.
  - unfold tabulate. by rewrite length_map, length_seq.
  - unfold tabulate. apply List.Forall_forall. intros r Hr.
    apply List.in_map_iff in Hr as (i & <- & _).
    by rewrite length_map, length_seq.
Qed.

Lemma entry_tabulate n f i j :
  (i < n)%nat → (j < n)%nat → entry (tabulate n f) i j = f i j.
Proof.
  intros Hi Hj. unfold entry, tabulate.
  rewrite (nth_indep _ [] (map (fun j => f 0%nat j) (seq 0 n)))
    by (by rewrite length_map, length_seq).
  rewrite (map_nth (fun i => map (fun j => f i j) (seq 0 n)) (seq 0 n) 0%nat i).
  rewrite seq_nth by done. simpl.
  rewrite (nth_indep _ 0 (f i 0%nat)) by (by rewrite length_map, length_seq).
  rewrite (map_nth (fun j => f i j) (seq 0 n) 0%nat j).
  by rewrite seq_nth.
Qed.

Lemma tabulate_ext n f g :
  (∀ i j, (i < n)%nat → (j < n)%nat → f i j = g i j) →
  tabulate n f = tabulate n g.
Proof.
  intros H. unfold tabulate. apply map_ext_in. intros i Hi.
  apply map_ext_in. intros j Hj.
  apply in_seq in Hi, Hj. apply H; lia.
Qed.

Lemma square_tabulate n m : square n m → m = tabulate n (entry m).
Proof.
  intros [Hlen Hrows].
  apply (nth_ext _ _ [] []).
  { unfold tabulate. by rewrite length_map, length_seq. }
  intros i Hi. rewrite Hlen in Hi.
  assert (Hr : length (nth i m []) = n).
  { rewrite List.Forall_forall in Hrows. apply Hrows, nth_In. lia. }
  apply (nth_ext _ _ 0 0).
  { rewrite Hr. pose proof (tabulate_square n (entry m)) as [_ Ht].
    rewrite List.Forall_forall in Ht. symmetry. apply Ht, nth_In.
    unfold tabulate. rewrite length_map, length_seq. lia. }
  intros j Hj. rewrite Hr in Hj.
  change (entry m i j = entry (tabulate n (entry m)) i j).
  by rewrite entry_tabulate.
Qed.

Lemma tabulate_inj n f g :
  tabulate n f = tabulate n g →
  ∀ i j, (i < n)%nat → (j < n)%nat → f i j = g i j.
Proof.
  intros H i j Hi Hj.
  rewrite <- (entry_tabulate n f i j), <- (entry_tabulate n g i j) by done.
  by rewrite H.
Qed.
End Tabulate.

Lemma zip_with_map_same {A B C D : Type} (h : B → C → D) (f : A → B) (g : A → C) (l : list A) :
  zip_with h (map f l) (map g l) = map (fun x => h (f x) (g x)) l.
Proof. induction l as [|x l IH]; simpl; [done | by rewrite IH]. Qed.

Lemma sum_map_le {A : Type} (f g : A → Z) (l : list A) :
  (∀ x, In x l → f x ≤ g x) →
  fold_right Z.add 0 (map f l) ≤ fold_right Z.add 0 (map g l) ∧
  (fold_right Z.add 0 (map f l) = fold_right Z.add 0 (map g l) → map f l = map g l).
Proof.
  induction l as [|x l IH]; simpl; intros H; [split; [lia | done]|].
  destruct IH as [IH1 IH2]; [by intros y Hy; apply H; right|].
  pose proof (H x (or_introl eq_refl)) as Hx.
  split; [lia|]. intros Heq.
  assert (f x = g x) as -> by lia.
  f_equal. apply IH2. lia.
Qed.

Lemma sum_map_const {A : Type} (c : Z) (l : list A) :
  fold_right Z.add 0 (map (fun _ => c) l) = c * Z.of_nat (length l).
Proof. induction l as [|x l IH]; simpl length; simpl; [lia | rewrite IH; lia]. Qed.

Section Step.
Variable n : nat.
Implicit Types (i j k : nat) (f g : nat → nat → Z) (m : matrix).

Lemma total_tabulate f :
  total (tabulate n f) =
  fold_right Z.add 0
    (map (fun i => fold_right Z.add 0 (map (fun j => f i j) (seq 0 n))) (seq 0 n)).
Proof. unfold total, tabulate. by rewrite map_map. Qed.

Lemma total_tabulate_le f g :
  (∀ i j, (i < n)%nat → (j < n)%nat → f i j ≤ g i j) →
  total (tabulate n f) ≤ total (tabulate n g) ∧
  (total (tabulate n f) = total (tabulate n g) → tabulate n f = tabulate n g).
Proof.
  intros H. rewrite !total_tabulate.
  assert (Hrow : ∀ i, In i (seq 0 n) →
    fold_right Z.add 0 (map (fun j => f i j) (seq 0 n)) ≤
    fold_right Z.add 0 (map (fun j => g i j) (seq 0 n)) ∧
    (fold_right Z.add 0 (map (fun j => f i j) (seq 0 n)) =
     fold_right Z.add 0 (map (fun j => g i j) (seq 0 n)) →
     map (fun j => f i j) (seq 0 n) = map (fun j => g i j) (seq 0 n))).
  { intros i Hi. apply sum_map_le. intros j Hj.
    apply in_seq in Hi, Hj. apply H; lia. }
  pose proof (sum_map_le
    (fun i => fold_right Z.add 0 (map (fun j => f i j) (seq 0 n)))
    (fun i => fold_right Z.add 0 (map (fun j => g i j) (seq 0 n)))
    (seq 0 n) (fun i Hi => proj1 (Hrow i Hi))) as [Hle Heq].
  split; [exact Hle|]. intros Hsum.
  specialize (Heq Hsum). unfold tabulate.
  apply map_ext_in. intros i Hi. apply (Hrow i Hi).
  exact (ext_in_map Heq i Hi).
Qed.

Lemma total_tabulate_const (c : Z) :
  total (tabulate n (fun _ _ => c)) = c * Z.of_nat n * Z.of_nat n.
Proof.
  rewrite total_tabulate.
  rewrite (map_ext _ (fun _ => c * Z.of_nat n)).
  - by rewrite sum_map_const, length_seq.
  - intros i. by rewrite sum_map_const, length_seq.
Qed.

Lemma is01_tabulate f :
  is01 (tabulate n f) ↔
  ∀ i j, (i < n)%nat → (j < n)%nat → f i j = 0 ∨ f i j = 1.
Proof.
  unfold is01, tabulate. rewrite List.Forall_forall. split.
  - intros H i j Hi Hj.
    assert (Hin : In (map (fun j => f i j) (seq 0 n))
                     (map (fun i => map (fun j => f i j) (seq 0 n)) (seq 0 n))).
    { apply (in_map (fun i => map (fun j => f i j) (seq 0 n))), in_seq. lia. }
    specialize (H _ Hin). rewrite List.Forall_forall in H.
    apply H, (in_map (fun j => f i j)), in_seq. lia.
  - intros H r Hr. apply List.in_map_iff in Hr as (i & <- & Hi).
    apply List.Forall_forall. intros x Hx.
    apply List.in_map_iff in Hx as (j & <- & Hj).
    apply in_seq in Hi, Hj. apply H; lia.
Qed.

Lemma is01_entry m i j :
  square n m → is01 m → (i < n)%nat → (j < n)%nat →
  entry m i j = 0 ∨ entry m i j = 1.
Proof.
  intros Hsq H01 Hi Hj. rewrite (square_tabulate n m Hsq) in H01.
  by apply is01_tabulate.
Qed.

Lemma ncols_square m : square n m → (0 < n)%nat → ncols m = n.
Proof.
  intros [Hlen Hrows] Hn. destruct m as [|r m]; simpl in *; [lia|].
  by inversion Hrows.
Qed.

Lemma matmul_transpose m :
  square n m →
  matmul (transpose m) m = tabulate n (fun i j => dot (col i m) (col j m)).
Proof.
  intros Hsq. destruct (Nat.eq_dec n 0%nat) as [Hn|Hn].
  - destruct Hsq as [Hlen _]. subst n. by destruct m.
  - unfold matmul, transpose, tabulate.
    rewrite (ncols_square m Hsq) by lia. by rewrite map_map.
Qed.

Lemma mat_add_tabulate f g :
  mat_add (tabulate n f) (tabulate n g) = tabulate n (fun i j => f i j + g i j).
Proof.
  unfold mat_add, tabulate. rewrite zip_with_map_same.
  apply map_ext. intros i. by rewrite zip_with_map_same.
Qed.

Lemma minimum_tabulate f (c : Z) :
  minimum (tabulate n f) c = tabulate n (fun i j => Z.min (f i j) c).
Proof.
  unfold minimum, tabulate. rewrite map_map.
  apply map_ext. intros i. by rewrite map_map.
Qed.

(** The loop body, entry by entry. *)
Lemma densify_step_tabulate m :
  square n m →
  densify_step m =
  tabulate n (fun i j => Z.min (entry m i j + dot (col i m) (col j m)) 1).
Proof.
  intros Hsq. unfold densify_step.
  rewrite (matmul_transpose m Hsq).
  rewrite (square_tabulate n m Hsq) at 1.
  by rewrite mat_add_tabulate, minimum_tabulate.
Qed.

Lemma densify_step_square m : square n m → square n (densify_step m).
Proof. intros Hsq. rewrite densify_step_tabulate by done. apply tabulate_square. Qed.

Lemma entry_densify_step m i j :
  square n m → (i < n)%nat → (j < n)%nat →
  entry (densify_step m) i j = Z.min (entry m i j + dot (col i m) (col j m)) 1.
Proof.
  intros Hsq Hi Hj. rewrite densify_step_tabulate by done.
  by rewrite entry_tabulate.
Qed.
End Step.

Lemma nth_col (m : matrix) (i k : nat) : nth k (col i m) 0 = entry m k i.
Proof.
  unfold col, entry.
  replace 0 with ((fun r : list Z => nth i r 0) []) at 1 by (by destruct i).
  apply (map_nth (fun r : list Z => nth i r 0)).
Qed.

Lemma dot_nonneg (u v : list Z) :
  Forall (fun x => 0 ≤ x) u → Forall (fun x => 0 ≤ x) v → 0 ≤ dot u v.
Proof.
  intros Hu. revert v. induction Hu as [|x u Hx Hu IH]; intros v Hv; [done|].
  destruct Hv as [|y v Hy Hv]; [done|].
  unfold dot in *. simpl. specialize (IH v Hv). nia.
Qed.

Lemma dot_ge_term (u v : list Z) (k : nat) :
  Forall (fun x => 0 ≤ x) u → Forall (fun x => 0 ≤ x) v →
  nth k u 0 * nth k v 0 ≤ dot u v.
Proof.
  intros Hu. revert v k. induction Hu as [|x u Hx Hu IH]; intros v k Hv.
  - destruct k; simpl; unfold dot; simpl; lia.
  - destruct Hv as [|y v Hy Hv].
    + destruct k; simpl; unfold dot; simpl; lia.
    + pose proof (dot_nonneg u v Hu Hv) as Hd.
      destruct k as [|k]; unfold dot in *; simpl.
      * lia.
      * specialize (IH v k Hv). nia.
Qed.

Lemma col_nonneg (m : matrix) (i : nat) :
  is01 m → Forall (fun x => 0 ≤ x) (col i m).
Proof.
  intros H. unfold col. apply List.Forall_forall. intros x Hx.
  apply List.in_map_iff in Hx as (r & <- & Hr).
  unfold is01 in H. rewrite List.Forall_forall in H. specialize (H r Hr).
  destruct (Nat.lt_ge_cases i (length r)) as [Hi|Hi].
  - rewrite List.Forall_forall in H.
    destruct (H (nth i r 0) (nth_In _ _ Hi)); lia.
  - rewrite nth_overflow by done. lia.
Qed.

Lemma any_neq_row (r s : list Z) :
  length r = length s →
  existsb (fun xy : Z * Z => negb (xy.1 =? xy.2)) (zip r s) = false ↔ r = s.
Proof.
  revert s. induction r as [|x r IH]; intros [|y s] Hlen; try discriminate.
  - done.
  - simpl. rewrite orb_false_iff, negb_false_iff, Z.eqb_eq, IH by (simpl in Hlen; lia).
    split; [intros [-> ->]; done | intros [= -> ->]; done].
Qed.

Lemma any_neq_false (n : nat) (a b : matrix) :
  square n a → square n b → any_neq a b = false ↔ a = b.
Proof.
  intros [Ha Hra] [Hb Hrb]. rewrite <- Hb in Ha. clear Hb. unfold any_neq.
  revert b Ha Hrb. induction Hra as [|r a Hr Hra IH]; intros [|s b] Hlen Hrb;
    try discriminate.
  - done.
  - inversion Hrb as [|? ? Hs Hrb']; subst. simpl.
    rewrite orb_false_iff, any_neq_row, IH by (simpl in Hlen; lia || done).
    split; [intros [-> ->]; done | intros [= -> ->]; done].
Qed.

Section Closure.
Variable n : nat.
Implicit Types (i j k : nat) (m : matrix).

Lemma densify_step_is01 m : square n m → is01 m → is01 (densify_step m).
Proof.
  intros Hsq H01. rewrite (densify_step_tabulate n) by done.
  apply is01_tabulate. intros i j Hi Hj.
  pose proof (is01_entry n m i j Hsq H01 Hi Hj) as He.
  pose proof (dot_nonneg _ _ (col_nonneg m i H01) (col_nonneg m j H01)) as Hd.
  destruct He as [-> | ->]; lia.
Qed.

Lemma densify_step_entry_le m i j :
  square n m → is01 m → (i < n)%nat → (j < n)%nat →
  entry m i j ≤ entry (densify_step m) i j.
Proof.
  intros Hsq H01 Hi Hj. rewrite (entry_densify_step n) by done.
  pose proof (is01_entry n m i j Hsq H01 Hi Hj) as He.
  pose proof (dot_nonneg _ _ (col_nonneg m i H01) (col_nonneg m j H01)) as Hd.
  lia.
Qed.

(** Entries never decrease, so the number of ones grows with every
    iteration that changes the matrix. *)
Lemma densify_step_total m :
  square n m → is01 m →
  total m ≤ total (densify_step m) ∧
  (total m = total (densify_step m) → densify_step m = m).
Proof.
  intros Hsq H01.
  pose proof (total_tabulate_le n (entry m) (entry (densify_step m))) as H.
  rewrite <- (square_tabulate n m Hsq) in H.
  rewrite <- (square_tabulate n _ (densify_step_square n m Hsq)) in H.
  destruct H as [H1 H2]; [by intros; apply densify_step_entry_le|].
  split; [done | intros Heq; symmetry; by apply H2].
Qed.

Lemma total_bounds m :
  square n m → is01 m → 0 ≤ total m ≤ Z.of_nat (n * n).
Proof.
  intros Hsq H01.
  pose proof (total_tabulate_le n (fun _ _ => 0) (entry m)) as [H0 _].
  { intros i j Hi Hj. destruct (is01_entry n m i j Hsq H01 Hi Hj); lia. }
  pose proof (total_tabulate_le n (entry m) (fun _ _ => 1)) as [H1 _].
  { intros i j Hi Hj. destruct (is01_entry n m i j Hsq H01 Hi Hj); lia. }
  rewrite <- (square_tabulate n m Hsq) in H0, H1.
  rewrite total_tabulate_const in H0, H1. lia.
Qed.

Lemma densify_step_zeros m : square n m → total m = 0 → is01 m → densify_step m = m.
Proof.
  intros Hsq Ht H01.
  assert (Hz : ∀ i j, (i < n)%nat → (j < n)%nat → entry m i j = 0).
  { pose proof (total_tabulate_le n (fun _ _ => 0) (entry m)) as [_ H0].
    { intros i j Hi Hj. destruct (is01_entry n m i j Hsq H01 Hi Hj); lia. }
    rewrite <- (square_tabulate n m Hsq), total_tabulate_const in H0.
    intros i j Hi Hj. symmetry.
    apply (tabulate_inj n (fun _ _ => 0) (entry m)); [|done..].
    rewrite <- (square_tabulate n m Hsq). apply H0. lia. }
  rewrite (densify_step_tabulate n) by done.
  transitivity (tabulate n (entry m)); [|symmetry; by apply square_tabulate].
  apply tabulate_ext. intros i j Hi Hj.
  rewrite (Hz i j) by done.
  assert (dot (col i m) (col j m) = 0) as ->; [|done].
  assert (Hc : ∀ c, (c < n)%nat → col c m = map (fun _ => 0) m).
  { intros c Hc. unfold col. apply map_ext_in. intros r Hr.
    apply In_nth with (d := []) in Hr as (k & Hk & <-).
    destruct Hsq as [Hlen _]. apply (Hz k c); lia. }
  rewrite !Hc by done. clear. induction m as [|r m IH]; [done|].
  unfold dot in *. simpl. by rewrite IH.
Qed.
End Closure.

Lemma zeros_like_square (n : nat) (m : matrix) : square n m → square n (zeros_like m).
Proof.
  intros [Hlen Hrows]. split; unfold zeros_like.
  - by rewrite length_map.
  - apply List.Forall_forall. intros r Hr.
    apply List.in_map_iff in Hr as (r' & <- & Hr').
    rewrite length_map. rewrite List.Forall_forall in Hrows. by apply Hrows.
Qed.

Lemma total_zeros_like (m : matrix) : total (zeros_like m) = 0.
Proof.
  unfold total, zeros_like. induction m as [|r m IH]; [done|].
  simpl. rewrite IH, sum_map_const. lia.
Qed.

Section Loop.
Variable n : nat.
Implicit Types (i j k : nat) (m mat old : matrix).

(** From the second test of the loop condition on, [mat] is the image of
    [old_mat] under the loop body; the number of zero cells left bounds the
    number of iterations still to come. *)
Lemma densify_loop_converges (fuel : nat) : ∀ old,
  square n old → is01 old →
  Z.of_nat (n * n) - total old < Z.of_nat fuel →
  ∃ M, densify_loop fuel (densify_step old) old = Some M ∧
       densify_step M = M ∧ square n M ∧ is01 M ∧
       (∀ i j, (i < n)%nat → (j < n)%nat → entry old i j ≤ entry M i j).
Proof.
  induction fuel as [|fuel IH]; intros old Hsq H01 Hfuel.
  { pose proof (total_bounds n old Hsq H01). lia. }
  pose proof (densify_step_square n old Hsq) as Hsq'.
  pose proof (densify_step_is01 n old Hsq H01) as H01'.
  pose proof (densify_step_total n old Hsq H01) as [Hle Heq].
  simpl. destruct (any_neq (densify_step old) old) eqn:Hne.
  - assert (Hlt : total old < total (densify_step old)).
    { destruct (Z.eq_dec (total old) (total (densify_step old))) as [E|E]; [|lia].
      apply Heq in E. apply (any_neq_false n) in E; [congruence | done..]. }
    destruct (IH (densify_step old) Hsq' H01') as (M & HM & Hfix & HsqM & H01M & HleM).
    { lia. }
    exists M. split_and!; try done.
    intros i j Hi Hj. etransitivity; [|by apply HleM].
    by apply (densify_step_entry_le n).
  - apply (any_neq_false n) in Hne; [|done..].
    exists (densify_step old). rewrite Hne. by split_and!.
Qed.

Lemma densify_mat_converges (fuel : nat) mat :
  square n mat → is01 mat → (n * n + 2 ≤ fuel)%nat →
  ∃ M, _densify_mat fuel mat = Some M ∧
       densify_step M = M ∧ square n M ∧ is01 M ∧
       (∀ i j, (i < n)%nat → (j < n)%nat → entry mat i j ≤ entry M i j).
Proof.
  intros Hsq H01 Hfuel. unfold _densify_mat.
  destruct fuel as [|fuel]; [lia|]. simpl.
  destruct (any_neq mat (zeros_like mat)) eqn:Hne.
  - apply densify_loop_converges; [done..|].
    pose proof (total_bounds n mat Hsq H01). lia.
  - apply (any_neq_false n) in Hne; [|by try apply zeros_like_square..].
    exists mat. split_and!; try done.
    apply (densify_step_zeros n); [done| |done].
    rewrite Hne. apply total_zeros_like.
Qed.

(** A reflexive 0/1 fixed point of the loop body is symmetric. *)
Lemma fixed_point_symmetric m i j :
  square n m → is01 m → densify_step m = m →
  (∀ k, (k < n)%nat → entry m k k = 1) →
  (i < n)%nat → (j < n)%nat → entry m i j = 1 → entry m j i = 1.
Proof.
  intros Hsq H01 Hfix Hrefl Hi Hj Hij.
  rewrite <- Hfix. rewrite (entry_densify_step n) by done.
  pose proof (dot_ge_term _ _ i (col_nonneg m j H01) (col_nonneg m i H01)) as Hd.
  rewrite !nth_col, Hij, (Hrefl i Hi) in Hd.
  destruct (is01_entry n m j i Hsq H01 Hj Hi); lia.
Qed.

(** ... and transitive. *)
Lemma fixed_point_transitive m i j k :
  square n m → is01 m → densify_step m = m →
  (∀ k, (k < n)%nat → entry m k k = 1) →
  (i < n)%nat → (j < n)%nat → (k < n)%nat →
  entry m i j = 1 → entry m j k = 1 → entry m i k = 1.
Proof.
  intros Hsq H01 Hfix Hrefl Hi Hj Hk Hij Hjk.
  pose proof (fixed_point_symmetric m i j Hsq H01 Hfix Hrefl Hi Hj Hij) as Hji.
  rewrite <- Hfix. rewrite (entry_densify_step n) by done.
  pose proof (dot_ge_term _ _ j (col_nonneg m i H01) (col_nonneg m k H01)) as Hd.
  rewrite !nth_col, Hji, Hjk in Hd.
  destruct (is01_entry n m i k Hsq H01 Hi Hk); lia.
Qed.

(** C3: on a square 0/1 matrix with ones on its diagonal, [_densify_mat]
    returns a matrix that is symmetric and transitive. *)
Theorem C3_densify_symmetric_transitive (fuel : nat) mat :
  square n mat → is01 mat →
  (∀ i, (i < n)%nat → entry mat i i = 1) →
  (n * n + 2 ≤ fuel)%nat →
  ∃ M, _densify_mat fuel mat = Some M ∧
    (∀ i j, (i < n)%nat → (j < n)%nat → entry M i j = 1 → entry M j i = 1) ∧
    (∀ i j k, (i < n)%nat → (j < n)%nat → (k < n)%nat →
       entry M i j = 1 → entry M j k = 1 → entry M i k = 1).
Proof.
  intros Hsq H01 Hdiag Hfuel.
  destruct (densify_mat_converges fuel mat Hsq H01 Hfuel)
    as (M & HM & Hfix & HsqM & H01M & Hle).
  assert (Hrefl : ∀ k, (k < n)%nat → entry M k k = 1).
  { intros k Hk. specialize (Hle k k Hk Hk). rewrite (Hdiag k Hk) in Hle.
    destruct (is01_entry n M k k HsqM H01M Hk Hk); lia. }
  exists M. split; [done|]. split.
  - intros i j. by apply fixed_point_symmetric.
  - intros i j k. by apply fixed_point_transitive.
Qed.

(** C4: on a square 0/1 matrix the loop body keeps entries in {0, 1} and
    never decreases one, and the loop of [_densify_mat] exits, at a fixed
    point of its body, within [n * n + 2] evaluations of its condition. *)
Theorem C4_densify_terminates mat :
  square n mat → is01 mat →
  (is01 (densify_step mat) ∧
   ∀ i j, (i < n)%nat → (j < n)%nat →
     entry mat i j ≤ entry (densify_step mat) i j ≤ 1) ∧
  ∀ fuel, (n * n + 2 ≤ fuel)%nat →
    ∃ M, _densify_mat fuel mat = Some M ∧ densify_step M = M.
Proof.
  intros Hsq H01. split.
  - split; [by apply (densify_step_is01 n)|].
    intros i j Hi Hj. split; [by apply (densify_step_entry_le n)|].
    destruct (is01_entry n _ i j (densify_step_square n mat Hsq)
                (densify_step_is01 n mat Hsq H01) Hi Hj); lia.
  - intros fuel Hfuel.
    destruct (densify_mat_converges fuel mat Hsq H01 Hfuel) as (M & HM & Hfix & _).
    by exists M.
Qed.
End Loop.

(** The initial adjacency matrix [np.eye(n)] meets the conditions of C3, and
    so does every matrix obtained from it by setting entries to 1. *)
Lemma eye_reflexive (n : nat) :
  square n (eye n) ∧ is01 (eye n) ∧ ∀ i, (i < n)%nat → entry (eye n) i i = 1.
Proof.
  change (eye n) with (tabulate n (fun i j => if Nat.eqb i j then 1 else 0)).
  split; [apply tabulate_square|]. split.
  - apply is01_tabulate. intros i j _ _. destruct (Nat.eqb i j); auto.
  - intros i Hi. rewrite entry_tabulate by done. by rewrite Nat.eqb_refl.
Qed.

Example densify_eye : _densify_mat 11 (eye 3) = Some (eye 3).
Proof. reflexivity. Qed.

Example densify_chain :
  _densify_mat 11 [[1; 1; 0]; [0; 1; 1]; [0; 0; 1]]
  = Some [[1; 1; 1]; [1; 1; 1]; [1; 1; 1]].
Proof. reflexivity. Qed.

Example densify_two_classes :
  _densify_mat 18 [[1; 0; 0; 1]; [0; 1; 0; 0]; [0; 0; 1; 0]; [0; 0; 0; 1]]
  = Some [[1; 0; 0; 1]; [0; 1; 0; 0]; [0; 0; 1; 0]; [1; 0; 0; 1]].
Proof. reflexivity. Qed.

Ltac solve_shape :=
  repeat first
    [ apply List.Forall_nil
    | apply List.Forall_cons
    | split
    | reflexivity
    | (left; reflexivity)
    | (right; reflexivity) ].

Lemma C3_densify_witness :
  ∃ M, _densify_mat 11 [[1; 1; 0]; [0; 1; 1]; [0; 0; 1]] = Some M ∧
    (∀ i j, (i < 3)%nat → (j < 3)%nat → entry M i j = 1 → entry M j i = 1) ∧
    (∀ i j k, (i < 3)%nat → (j < 3)%nat → (k < 3)%nat →
       entry M i j = 1 → entry M j k = 1 → entry M i k = 1).
Proof.
  apply (C3_densify_symmetric_transitive 3 11 [[1; 1; 0]; [0; 1; 1]; [0; 0; 1]]).
  - solve_shape.
  - solve_shape.
  - intros [|[|[|i]]] Hi; [reflexivity..|lia].
  - lia.
Defined.

Lemma C4_densify_witness :
  (is01 (densify_step [[0; 1; 0]; [0; 0; 1]; [0; 0; 0]]) ∧
   ∀ i j, (i < 3)%nat → (j < 3)%nat →
     entry [[0; 1; 0]; [0; 0; 1]; [0; 0; 0]] i j
     ≤ entry (densify_step [[0; 1; 0]; [0; 0; 1]; [0; 0; 0]]) i j ≤ 1) ∧
  ∀ fuel, (3 * 3 + 2 ≤ fuel)%nat →
    ∃ M, _densify_mat fuel [[0; 1; 0]; [0; 0; 1]; [0; 0; 0]] = Some M ∧
         densify_step M = M.
Proof.
  apply (C4_densify_terminates 3 [[0; 1; 0]; [0; 0; 1]; [0; 0; 0]]); solve_shape.
Defined.

(** ** Sorting and dictionaries *)

Section SortedBy.
Context {A : Type} (key : A → Z).

Lemma insert_by_perm (x : A) (l : list A) : insert_by key x l ≡ₚ x :: l.
Proof.
  induction l as [|y l IH]; simpl; [done|].
  destruct (key x <=? key y); [done|].
  rewrite IH. apply perm_swap.
Qed.

Lemma sorted_by_perm (l : list A) : sorted_by key l ≡ₚ l.
Proof.
  induction l as [|x l IH]; simpl; [done|].
  by rewrite insert_by_perm, IH.
Qed.

Lemma insert_by_sorted (x : A) (l : list A) :
  StronglySorted (key_le key) l → StronglySorted (key_le key) (insert_by key x l).
Proof.
  induction 1 as [|y l Hl IH Hy]; simpl.
  - repeat constructor.
  - destruct (Z.leb_spec (key x) (key y)) as [Hxy|Hxy].
    + constructor; [by constructor|].
      constructor; [done|].
      eapply Forall_impl; [exact Hy|]. unfold key_le. intros z Hz. lia.
    + constructor; [done|].
      rewrite insert_by_perm. constructor; [unfold key_le; lia | done].
Qed.

Lemma sorted_by_sorted (l : list A) : StronglySorted (key_le key) (sorted_by key l).
Proof.
  induction l as [|x l IH]; simpl; [constructor | by apply insert_by_sorted].
Qed.

(** A list that is already in order is returned as it is. *)
Lemma sorted_by_id (l : list A) : StronglySorted (key_le key) l → sorted_by key l = l.
Proof.
  induction 1 as [|x l Hl IH Hx]; simpl; [done|].
  rewrite IH. destruct Hx as [|y l Hxy _]; simpl; [done|].
  unfold key_le in Hxy. by destruct (Z.leb_spec (key x) (key y)); [|lia].
Qed.

Lemma sorted_by_lookup_le (l : list A) (i j : nat) (x y : A) :
  (i ≤ j)%nat → sorted_by key l !! i = Some x → sorted_by key l !! j = Some y →
  key x ≤ key y.
Proof.
  intros Hij Hi Hj. pose proof (sorted_by_sorted l) as Hs.
  revert i j Hij Hi Hj. induction Hs as [|z l' Hl' IH Hz]; intros i j Hij Hi Hj.
  - done.
  - destruct i as [|i], j as [|j]; simpl in *; simplify_eq; try lia.
    + rewrite Forall_forall in Hz. apply Hz. by eapply list_elem_of_lookup_2.
    + apply (IH i j); [lia | done..].
Qed.
End SortedBy.

Section DictFacts.
Context {K V : Type} `{EqDecision K}.
Implicit Types (d : dict K V) (k : K) (v : V).

Lemma dict_set_fresh d k v : k ∉ map fst d → dict_set d k v = d ++ [(k, v)].
Proof.
  induction d as [|[k' v'] d IH]; simpl; intros Hk; [done|].
  rewrite not_elem_of_cons in Hk. destruct Hk as [Hne Hk].
  destruct (decide (k = k')); [done|]. by rewrite IH.
Qed.

Lemma dict_of_list_NoDup (kvs : list (K * V)) :
  NoDup (map fst kvs) → dict_of_list kvs = kvs.
Proof.
  unfold dict_of_list.
  assert (∀ acc, NoDup (map fst (acc ++ kvs)) →
    fold_left (fun d kv => dict_set d kv.1 kv.2) kvs acc = acc ++ kvs) as H.
  { induction kvs as [|[k v] kvs IH]; intros acc Hnd; simpl.
    - by rewrite app_nil_r.
    - rewrite dict_set_fresh.
      + rewrite IH; rewrite <- app_assoc; done.
      + rewrite map_app in Hnd. apply NoDup_app in Hnd as (_ & Hdis & _).
        intros Hin. apply (Hdis k Hin). simpl. left. }
  intros Hnd. by apply (H []).
Qed.

Lemma dict_get_Some d k v :
  NoDup (map fst d) → dict_get d k = Some v ↔ (k, v) ∈ d.
Proof.
  induction d as [|[k' v'] d IH]; simpl; intros Hnd.
  - split; [done | by intros ?%elem_of_nil].
  - apply NoDup_cons in Hnd as [Hk' Hnd]. rewrite elem_of_cons.
    destruct (decide (k = k')) as [->|Hne].
    + split; [intros [= ->]; by left|].
      intros [[= ->]|Hin]; [done|].
      exfalso. apply Hk'. apply list_elem_of_fmap_2' with (k', v); done.
    + rewrite IH by done. split; [by right|]. intros [[= -> ->]|?]; done.
Qed.
End DictFacts.

(** ** Annotation normalizer *)

Lemma map_result_Ok {A B : Type} (f : A → result B) (g : A → B) (l : list A) :
  (∀ x, x ∈ l → f x = Ok (g x)) → map_result f l = Ok (map g l).
Proof.
  induction l as [|x l IH]; intros H; simpl; [done|].
  rewrite (H x) by left. simpl. rewrite IH; [done|].
  intros y Hy. apply H. by right.
Qed.

Lemma map_result_total {A B : Type} (f : A → result B) (l : list A) :
  (∀ x, x ∈ l → ∃ y, f x = Ok y) → ∃ ys, map_result f l = Ok ys.
Proof.
  induction l as [|x l IH]; intros H; simpl; [by eexists|].
  destruct (H x) as [y ->]; [left|]. simpl.
  destruct IH as [ys ->]; [|by eexists].
  intros z Hz. apply H. by right.
Qed.

Lemma map_result_map {A B C : Type} (f : B → result C) (h : A → B) (l : list A) :
  map_result f (map h l) = map_result (fun x => f (h x)) l.
Proof. induction l as [|x l IH]; simpl; [done | by rewrite IH]. Qed.

Lemma map_result_length {A B : Type} (f : A → result B) (l : list A) (ys : list B) :
  map_result f l = Ok ys → length ys = length l.
Proof.
  revert ys. induction l as [|x l IH]; intros ys; simpl.
  - by intros [= <-].
  - intros (y & Hy & (ys' & Hys & [= <-])%bind_Ok)%bind_Ok.
    simpl. by rewrite (IH ys').
Qed.

Lemma map_result_lookup {A B : Type} (f : A → result B) (l : list A) (ys : list B)
    (i : nat) (x : A) :
  map_result f l = Ok ys → l !! i = Some x → ∃ y, ys !! i = Some y ∧ f x = Ok y.
Proof.
  revert ys i. induction l as [|x' l IH]; intros ys i; simpl; [done|].
  intros (y & Hy & (ys' & Hys & [= <-])%bind_Ok)%bind_Ok Hi.
  destruct i as [|i]; simpl in *.
  - injection Hi as ->. by exists y.
  - by apply (IH ys').
Qed.

Lemma enumerate_lookup {A : Type} (l : list A) (i : nat) (x : A) :
  (i, x) ∈ enumerate l ↔ l !! i = Some x.
Proof.
  unfold enumerate. rewrite list_elem_of_lookup. split.
  - intros (j & Hj). apply lookup_zip_with_Some in Hj as (i' & x' & [= <- <-] & Hs & Hl).
    apply lookup_seq in Hs as [-> _]. done.
  - intros Hi. exists i. apply lookup_zip_with_Some. exists i, x.
    split_and!; [done| |done].
    apply lookup_seq. split; [done|]. by eapply lookup_lt_Some.
Qed.

Lemma enumerate_snd {A : Type} (l : list A) : map snd (enumerate l) = l.
Proof. unfold enumerate. apply (snd_zip (seq 0 (length l)) l). by rewrite length_seq. Qed.

Lemma enumerate_fst {A : Type} (l : list A) : map fst (enumerate l) = seq 0 (length l).
Proof. unfold enumerate. apply (fst_zip (seq 0 (length l)) l). by rewrite length_seq. Qed.

Lemma range_sorted (k n : nat) :
  StronglySorted (key_le (fun o : Z => o)) (map Z.of_nat (seq k n)).
Proof.
  revert k. induction n as [|n IH]; intros k; simpl; constructor; [apply IH|].
  apply Forall_forall. intros z Hz.
  apply list_elem_of_fmap in Hz as (j & -> & Hj%elem_of_seq).
  unfold key_le. lia.
Qed.

Section Normalizer.
Variable set_list : gset obj_tuple → list obj_tuple.
Hypothesis set_list_admissible : admissible set_list.

Local Abbreviation obj_list := (object_list set_list).
Local Abbreviation obj_dict := (object_dict set_list).

Lemma object_list_NoDup a : NoDup (obj_list a).
Proof.
  unfold object_list. rewrite sorted_by_perm, (set_list_admissible _).
  apply NoDup_elements.
Qed.

Lemma object_list_elem a (t : obj_tuple) :
  t ∈ obj_list a ↔
  ∃ rel, rel ∈ relationships a ∧
    (t = (subject_box rel, subject rel) ∨ t = (object_box rel, object rel)).
Proof.
  unfold object_list. rewrite sorted_by_perm, (set_list_admissible _).
  rewrite elem_of_elements. unfold mentioned.
  rewrite elem_of_union, !elem_of_list_to_set.
  split.
  - intros [H|H]; apply list_elem_of_fmap in H as (rel & -> & Hrel); eauto.
  - intros (rel & Hrel & [->| ->]); [left|right];
      by apply (list_elem_of_fmap_2' _ _ rel).
Qed.

Lemma obj_dict_eq a :
  obj_dict a = map (fun o_t : nat * obj_tuple => (o_t.2, Z.of_nat o_t.1))
                 (enumerate (obj_list a)).
Proof.
  unfold object_dict. apply dict_of_list_NoDup.
  rewrite map_map. simpl. change (NoDup (map snd (enumerate (obj_list a)))).
  rewrite enumerate_snd. apply object_list_NoDup.
Qed.

Lemma obj_dict_keys_NoDup a : NoDup (map fst (obj_dict a)).
Proof.
  rewrite obj_dict_eq, map_map. simpl.
  change (NoDup (map snd (enumerate (obj_list a)))).
  rewrite enumerate_snd. apply object_list_NoDup.
Qed.

Lemma obj_dict_getitem a (t : obj_tuple) :
  t ∈ obj_list a →
  ∃ i, dict_getitem (obj_dict a) t = Ok (Z.of_nat i) ∧ obj_list a !! i = Some t.
Proof.
  intros Ht. apply list_elem_of_lookup in Ht as (i & Hi).
  exists i. split; [|done]. unfold dict_getitem.
  assert (dict_get (obj_dict a) t = Some (Z.of_nat i)) as ->; [|done].
  apply dict_get_Some; [apply obj_dict_keys_NoDup|].
  rewrite obj_dict_eq.
  apply (list_elem_of_fmap_2' _ _ (i, t)); [|done]. by apply enumerate_lookup.
Qed.

Lemma obj_dict_getitem_inv a (t : obj_tuple) (z : Z) :
  dict_getitem (obj_dict a) t = Ok z →
  ∃ i, z = Z.of_nat i ∧ obj_list a !! i = Some t.
Proof.
  unfold dict_getitem. destruct (dict_get (obj_dict a) t) as [z'|] eqn:Hg; [|done].
  intros [= ->]. apply dict_get_Some in Hg; [|apply obj_dict_keys_NoDup].
  rewrite obj_dict_eq in Hg.
  apply list_elem_of_fmap in Hg as ([i t'] & [= -> ->] & Hin).
  apply enumerate_lookup in Hin. by exists i.
Qed.

Lemma inv_dict_eq a :
  invert_dict (obj_dict a) = map (fun o_t : nat * obj_tuple => (Z.of_nat o_t.1, o_t.2))
                 (enumerate (obj_list a)).
Proof.
  unfold invert_dict. rewrite obj_dict_eq, map_map. simpl.
  apply dict_of_list_NoDup. rewrite map_map. simpl.
  rewrite <- (map_map fst Z.of_nat), enumerate_fst.
  apply NoDup_fmap_2; [apply _ | apply NoDup_seq].
Qed.

Lemma inv_dict_keys a :
  dict_keys (invert_dict (obj_dict a)) = map Z.of_nat (seq 0 (length (obj_list a))).
Proof.
  unfold dict_keys. rewrite inv_dict_eq, map_map. simpl.
  by rewrite <- (map_map fst Z.of_nat), enumerate_fst.
Qed.

Lemma inv_dict_project {B : Type} (g : obj_tuple → B) a :
  map_result (fun o => t ← dict_getitem (invert_dict (obj_dict a)) o; Ok (g t))
    (sorted_by (fun o => o) (dict_keys (invert_dict (obj_dict a))))
  = Ok (map g (obj_list a)).
Proof.
  rewrite inv_dict_keys, sorted_by_id by apply range_sorted.
  assert (Hnd : NoDup (map fst (invert_dict (obj_dict a)))).
  { fold (dict_keys (invert_dict (obj_dict a))). rewrite inv_dict_keys.
    apply NoDup_fmap_2; [apply _ | apply NoDup_seq]. }
  rewrite <- enumerate_fst, !map_result_map.
  rewrite (map_result_Ok _ (fun o_t : nat * obj_tuple => g o_t.2)).
  - by rewrite <- (map_map snd g), enumerate_snd.
  - intros [i t] Hin. simpl. unfold dict_getitem.
    assert (dict_get (invert_dict (obj_dict a)) (Z.of_nat i) = Some t) as ->; [|done].
    apply dict_get_Some; [done|]. rewrite inv_dict_eq.
    by apply (list_elem_of_fmap_2' _ _ (i, t)).
Qed.

Lemma rewrite_relations_Ok a :
  ∃ r, rewrite_relations a (obj_dict a) = Ok r ∧
    nrel_names r = map predicate (relationships a) ∧
    length (nrel_subj_ids r) = length (relationships a) ∧
    length (nrel_obj_ids r) = length (relationships a) ∧
    ∀ k rel, relationships a !! k = Some rel →
      ∃ s o, nrel_subj_ids r !! k = Some (Z.of_nat s) ∧
             obj_list a !! s = Some (subject_box rel, subject rel) ∧
             nrel_obj_ids r !! k = Some (Z.of_nat o) ∧
             obj_list a !! o = Some (object_box rel, object rel).
Proof.
  unfold rewrite_relations.
  destruct (map_result_total
    (fun rel => dict_getitem (obj_dict a) (subject_box rel, subject rel))
    (relationships a)) as [ss Hss].
  { intros rel Hrel.
    destruct (obj_dict_getitem a (subject_box rel, subject rel)) as (i & Hi & _); [|eauto].
    apply object_list_elem. eauto. }
  destruct (map_result_total
    (fun rel => dict_getitem (obj_dict a) (object_box rel, object rel))
    (relationships a)) as [os Hos].
  { intros rel Hrel.
    destruct (obj_dict_getitem a (object_box rel, object rel)) as (i & Hi & _); [|eauto].
    apply object_list_elem. eauto. }
  rewrite Hss, Hos.
  simpl. eexists. split; [done|]. simpl. split_and!; [done| | |].
  - by apply map_result_length in Hss.
  - by apply map_result_length in Hos.
  - intros k rel Hk.
    destruct (map_result_lookup _ _ _ _ _ Hss Hk) as (zs & Hzs & Hgs).
    destruct (map_result_lookup _ _ _ _ _ Hos Hk) as (zo & Hzo & Hgo).
    apply obj_dict_getitem_inv in Hgs as (s & -> & Hs).
    apply obj_dict_getitem_inv in Hgo as (o & -> & Ho).
    by exists s, o.
Qed.

Lemma build_record_Ok a r :
  build_record a r (invert_dict (obj_dict a))
  = Ok {| n_filename := raw_filename a;
          n_split_id := raw_split_id a;
          n_height := raw_height a;
          n_width := raw_width a;
          n_objects := {| nobj_names := map snd (obj_list a);
                          nobj_boxes := map fst (obj_list a) |};
          n_relations := r |}.
Proof.
  unfold build_record.
  pose proof (inv_dict_project snd a) as H1.
  pose proof (inv_dict_project fst a) as H2.
  unfold obj_tuple in *. by rewrite H1, H2.
Qed.

(** The four comprehensions image by image. *)
Lemma transform_annotations_cons a annos r o out :
  rewrite_relations a (obj_dict a) = Ok r →
  build_record a r (invert_dict (obj_dict a)) = Ok o →
  _transform_annotations set_list annos = Ok out →
  _transform_annotations set_list (a :: annos) = Ok (o :: out).
Proof.
  unfold _transform_annotations. intros Hr Ho.
  intros (rs & Hrs & Hout)%bind_Ok. simpl.
  rewrite Hr. simpl. rewrite Hrs. simpl. rewrite Ho. simpl.
  by rewrite Hout.
Qed.

Lemma normalize_image a :
  ∃ r o, rewrite_relations a (obj_dict a) = Ok r ∧
         build_record a r (invert_dict (obj_dict a)) = Ok o ∧
         normalized a o.
Proof.
  destruct (rewrite_relations_Ok a) as (r & Hr & Hnames & Hls & Hlo & Hrel).
  eexists r, _. split; [done|]. split; [apply build_record_Ok|].
  unfold normalized, object_set. simpl.
  assert (Hzip : zip (map fst (obj_list a)) (map snd (obj_list a))
                 = obj_list a) by apply zip_fst_snd.
  rewrite Hzip, !length_map.
  split_and!; try done.
  - apply object_list_NoDup.
  - apply object_list_elem.
  - intros i j ti tj. apply sorted_by_lookup_le.
Qed.

(** C7: for every image the normalizer returns a record whose Object Set
    is the duplicate-free union of the (box, class-name) pairs mentioned as
    subject or object, in ascending order of x_min + x_max, and whose
    relationships name subject and object by their ranks in that order. *)
Theorem C7_normalizer_object_set (annos : list raw_anno) :
  ∃ out, _transform_annotations set_list annos = Ok out ∧
    length out = length annos ∧
    ∀ k a o, annos !! k = Some a → out !! k = Some o → normalized a o.
Proof.
  induction annos as [|a annos (out & Hout & Hlen & IH)].
  - exists []. by split_and!.
  - destruct (normalize_image a) as (r & o & Hr & Ho & Hno).
    exists (o :: out). split_and!.
    + by apply (transform_annotations_cons a annos r).
    + simpl. by rewrite Hlen.
    + intros [|k] a' o'; simpl.
      * by intros [= <-] [= <-].
      * apply IH.
Qed.
End Normalizer.

Lemma elements_admissible : admissible elements.
Proof. intros s. reflexivity. Qed.

Lemma C7_normalizer_witness :
  ∃ out,
    _transform_annotations elements
      [RawAnno "a.jpg" 0 10 10
         [RawRel "person" (Bbox 0 5 4 8) "riding" "horse" (Bbox 2 9 0 6);
          RawRel "dog" (Bbox 1 2 1 3) "near" "horse" (Bbox 2 9 0 6)]] = Ok out ∧
    length out = 1%nat ∧
    ∀ k a o,
      [RawAnno "a.jpg" 0 10 10
         [RawRel "person" (Bbox 0 5 4 8) "riding" "horse" (Bbox 2 9 0 6);
          RawRel "dog" (Bbox 1 2 1 3) "near" "horse" (Bbox 2 9 0 6)]] !! k = Some a →
      out !! k = Some o → normalized a o.
Proof.
  apply (C7_normalizer_object_set elements).
  intros s. reflexivity.
Defined.

(** ** Determinism of the normalizer *)

Lemma reverse_elements_admissible :
  admissible (fun s : gset obj_tuple => reverse (elements s)).
Proof. intros s. apply reverse_Permutation. Qed.

(** Without ties in the sort key the Object Set does not depend on the order
    in which the set of mentions is iterated. *)
Lemma object_list_tie_free (sl1 sl2 : gset obj_tuple → list obj_tuple) (a : raw_anno) :
  admissible sl1 → admissible sl2 →
  (∀ t u, t ∈ mentioned a → u ∈ mentioned a → sort_key t = sort_key u → t = u) →
  object_list sl1 a = object_list sl2 a.
Proof.
  intros H1 H2 Hinj. unfold object_list.
  apply (StronglySorted_unique_strong (key_le sort_key)).
  - intros t u Ht Hu Htu Hut. unfold key_le in *.
    rewrite sorted_by_perm, (H1 _), elem_of_elements in Ht.
    rewrite sorted_by_perm, (H2 _), elem_of_elements in Hu.
    apply Hinj; [done..|lia].
  - apply sorted_by_sorted.
  - apply sorted_by_sorted.
  - by rewrite !sorted_by_perm, (H1 _), (H2 _).
Qed.

Lemma transform_annotations_tie_free
    (sl1 sl2 : gset obj_tuple → list obj_tuple) (annos : list raw_anno) :
  admissible sl1 → admissible sl2 →
  (∀ a t u, a ∈ annos → t ∈ mentioned a → u ∈ mentioned a →
     sort_key t = sort_key u → t = u) →
  _transform_annotations sl1 annos = _transform_annotations sl2 annos.
Proof.
  intros H1 H2 Hinj. unfold _transform_annotations.
  assert (map (object_dict sl1) annos = map (object_dict sl2) annos) as ->; [|done].
  apply map_ext_in. intros a Ha. unfold object_dict.
  rewrite (object_list_tie_free sl1 sl2 a); [done..|].
  intros t u. apply Hinj. by apply list_elem_of_In.
Qed.

(** C9: the sort key of the normalizer does not separate two instances with
    the same x_min + x_max, so their order is the order in which the set of
    mentions is iterated.  Under two iteration orders of that set the same
    raw image, normalized and pair-completed, gets two different Object Sets
    and two different flattened relation arrays. *)
Theorem C9_tie_order_follows_set_iteration :
  admissible elements ∧
  admissible (fun s : gset obj_tuple => reverse (elements s)) ∧
  normalize_and_complete elements
    [RawAnno "tie.jpg" 0 10 10
       [RawRel "cat" (Bbox 0 1 0 4) "near" "dog" (Bbox 0 1 1 3)]]
    ["near"; "__background__"] ["cat"; "dog"]
  = Ok [Anno "tie.jpg" 0 10 10
          (AnnoObjects [0; 1] ["cat"; "dog"] [Bbox 0 1 0 4; Bbox 0 1 1 3])
          (AnnoRelations [0; 1] ["near"; "__background__"] [0; 1] [1; 0] None)] ∧
  normalize_and_complete (fun s : gset obj_tuple => reverse (elements s))
    [RawAnno "tie.jpg" 0 10 10
       [RawRel "cat" (Bbox 0 1 0 4) "near" "dog" (Bbox 0 1 1 3)]]
    ["near"; "__background__"] ["cat"; "dog"]
  = Ok [Anno "tie.jpg" 0 10 10
          (AnnoObjects [1; 0] ["dog"; "cat"] [Bbox 0 1 1 3; Bbox 0 1 0 4])
          (AnnoRelations [1; 0] ["__background__"; "near"] [0; 1] [1; 0] None)].
Proof.
  split; [apply elements_admissible|].
  split; [apply reverse_elements_admissible|].
  split; vm_compute; reflexivity.
Qed.

(** ** Pair completion *)

Lemma fold_result_app {A S : Type} (body : S → A → result S) (l1 l2 : list A) (st : S) :
  fold_result body (l1 ++ l2) st = fold_result body l1 st ≫= fold_result body l2.
Proof.
  revert st. induction l1 as [|x l1 IH]; intros st; simpl; [done|].
  destruct (body st x) as [st'|e]; simpl; [apply IH | done].
Qed.

Section DictUpdate.
Context {K V : Type} `{EqDecision K}.
Implicit Types (d : dict K V) (k : K) (v : V).

Lemma dict_get_None d k : dict_get d k = None ↔ k ∉ map fst d.
Proof.
  induction d as [|[k' v'] d IH]; simpl.
  - split; [intros _ []%elem_of_nil | done].
  - rewrite not_elem_of_cons. destruct (decide (k = k')) as [->|Hne].
    + split; [done | intros [? _]; done].
    + rewrite IH. split; [by intros ? | by intros [_ ?]].
Qed.

Lemma dict_keys_set d k v :
  map fst (dict_set d k v)
  = if bool_decide (k ∈ map fst d) then map fst d else map fst d ++ [k].
Proof.
  induction d as [|[k' v'] d IH]; cbn [dict_set map fst].
  - by rewrite bool_decide_eq_false_2 by apply not_elem_of_nil.
  - destruct (decide (k = k')) as [->|Hne]; cbn [map fst].
    + by rewrite bool_decide_eq_true_2 by apply list_elem_of_here.
    + rewrite IH. destruct (decide (k ∈ map fst d)) as [Hin|Hnin].
      * rewrite !bool_decide_eq_true_2; [done | by apply list_elem_of_further | done].
      * rewrite !bool_decide_eq_false_2; [done | | done].
        by intros [?|?]%elem_of_cons.
Qed.

Lemma dict_get_set d k v k' :
  dict_get (dict_set d k v) k' = if decide (k' = k) then Some v else dict_get d k'.
Proof.
  induction d as [|[k0 v0] d IH]; simpl.
  - destruct (decide (k' = k)); done.
  - destruct (decide (k = k0)) as [->|Hne]; simpl.
    + destruct (decide (k' = k0)); done.
    + destruct (decide (k' = k0)) as [->|Hne'].
      * destruct (decide (k0 = k)); [congruence | done].
      * apply IH.
Qed.

End DictUpdate.

Lemma elem_of_range (n : nat) (z : Z) : z ∈ range n ↔ 0 ≤ z < Z.of_nat n.
Proof.
  unfold range. rewrite list_elem_of_fmap. split.
  - intros (i & -> & Hi%elem_of_seq). lia.
  - intros Hz. exists (Z.to_nat z). split; [lia|]. apply elem_of_seq. lia.
Qed.

Lemma NoDup_range (n : nat) : NoDup (range n).
Proof. unfold range. apply NoDup_fmap_2; [apply _ | apply NoDup_seq]. Qed.

Lemma elem_of_flat_map {A B : Type} (f : A → list B) (l : list A) (y : B) :
  y ∈ flat_map f l ↔ ∃ x, x ∈ l ∧ y ∈ f x.
Proof.
  rewrite list_elem_of_In, in_flat_map.
  split; intros (x & H1 & H2); exists x; by rewrite ?list_elem_of_In in *.
Qed.

Lemma NoDup_flat_map {A B : Type} (f : A → list B) (l : list A) :
  NoDup l → (∀ x, x ∈ l → NoDup (f x)) →
  (∀ x1 x2 y, x1 ∈ l → x2 ∈ l → y ∈ f x1 → y ∈ f x2 → x1 = x2) →
  NoDup (flat_map f l).
Proof.
  induction 1 as [|x l Hx Hl IH]; intros Hf Hdisj; simpl; [constructor|].
  apply NoDup_app. split_and!.
  - apply Hf. left.
  - intros y Hy Hy'. apply elem_of_flat_map in Hy' as (x' & Hx' & Hy').
    assert (x = x') as <-; [|done].
    apply (Hdisj x x' y); [left | by right | done..].
  - apply IH; [intros; apply Hf; by right|].
    intros x1 x2 y H1 H2. apply Hdisj; by right.
Qed.

Lemma length_flat_map_const {A B : Type} (f : A → list B) (l : list A) (c : nat) :
  (∀ x, x ∈ l → length (f x) = c) → length (flat_map f l) = (length l * c)%nat.
Proof.
  induction l as [|x l IH]; intros H; simpl; [done|].
  rewrite length_app, (H x) by left. rewrite IH; [lia|].
  intros y Hy. apply H. by right.
Qed.

Section PairKeys.
Variable n : nat.

Lemma pair_keys_elem (k : Z * Z) : k ∈ pair_keys n ↔ distinct_pair n k.
Proof.
  unfold pair_keys, distinct_pair. rewrite elem_of_flat_map. split.
  - intros (s & Hs%elem_of_range & (o & Ho%elem_of_range & Hk)%elem_of_flat_map).
    destruct (decide (s ≠ o)); [|by apply elem_of_nil in Hk].
    apply list_elem_of_singleton in Hk as ->. done.
  - destruct k as [s o]. simpl. intros (Hs & Ho & Hne).
    exists s. split; [by apply elem_of_range|].
    apply elem_of_flat_map. exists o. split; [by apply elem_of_range|].
    destruct (decide (s ≠ o)); [apply list_elem_of_here | done].
Qed.

Lemma pair_keys_NoDup : NoDup (pair_keys n).
Proof.
  unfold pair_keys. apply NoDup_flat_map; [apply NoDup_range| |].
  - intros s _. apply NoDup_flat_map; [apply NoDup_range| |].
    + intros o _. destruct (decide (s ≠ o)); [apply NoDup_singleton | constructor].
    + intros o1 o2 k _ _ H1 H2.
      destruct (decide (s ≠ o1)); [|by apply elem_of_nil in H1].
      destruct (decide (s ≠ o2)); [|by apply elem_of_nil in H2].
      apply list_elem_of_singleton in H1, H2. congruence.
  - intros s1 s2 k _ _ (o1 & _ & H1)%elem_of_flat_map (o2 & _ & H2)%elem_of_flat_map.
    destruct (decide (s1 ≠ o1)); [|by apply elem_of_nil in H1].
    destruct (decide (s2 ≠ o2)); [|by apply elem_of_nil in H2].
    apply list_elem_of_singleton in H1, H2. congruence.
Qed.

Lemma pair_row_length (s : Z) (k m : nat) :
  length (flat_map (fun o => if decide (s ≠ o) then [(s, o)] else [])
            (map Z.of_nat (seq k m)))
  = if bool_decide (Z.of_nat k ≤ s < Z.of_nat (k + m)) then (m - 1)%nat else m.
Proof.
  revert k. induction m as [|m IH]; intros k; simpl.
  - case_bool_decide; [lia | done].
  - rewrite length_app, IH.
    destruct (decide (s ≠ Z.of_nat k)); simpl; repeat case_bool_decide; lia.
Qed.

Lemma pair_keys_length : length (pair_keys n) = (n * (n - 1))%nat.
Proof.
  unfold pair_keys.
  rewrite (length_flat_map_const _ _ (n - 1)).
  - unfold range. by rewrite length_map, length_seq.
  - intros s Hs%elem_of_range. unfold range. rewrite pair_row_length.
    rewrite bool_decide_eq_true_2; [done | lia].
Qed.

Lemma empty_pairs_eq :
  empty_pairs n = map (fun k => (k, [])) (pair_keys n).
Proof.
  unfold empty_pairs.
  assert (∀ l1 l2 : list Z,
    flat_map (fun s => flat_map
      (fun o => if decide (s ≠ o) then [((s, o), @nil label)] else []) l2) l1
    = map (fun k => (k, []))
        (flat_map (fun s => flat_map
           (fun o => if decide (s ≠ o) then [(s, o)] else []) l2) l1)) as Hmap.
  { intros l1 l2. induction l1 as [|s l1 IH]; simpl; [done|].
    rewrite map_app, IH. f_equal. clear IH.
    induction l2 as [|o l2 IH']; simpl; [done|].
    rewrite map_app, IH'. by destruct (decide (s ≠ o)). }
  rewrite Hmap. fold (pair_keys n).
  apply dict_of_list_NoDup. rewrite map_map. simpl. rewrite map_id.
  apply pair_keys_NoDup.
Qed.
End PairKeys.
Lemma dict_set_set {K V : Type} `{EqDecision K} (d : dict K V) (k : K) (v v' : V) :
  dict_set (dict_set d k v) k v' = dict_set d k v'.
Proof.
  induction d as [|[k0 v0] d IH]; simpl.
  - by destruct (decide (k = k)).
  - destruct (decide (k = k0)) as [->|Hne]; simpl.
    + by destruct (decide (k0 = k0)).
    + destruct (decide (k = k0)); [done|]. by rewrite IH.
Qed.

Lemma rows_of_lookup (rels : anno_relations) (i : nat) (row : Z * Z * label) :
  rows_of rels !! i = Some row ↔
  r_subj_ids rels !! i = Some row.1.1 ∧ r_obj_ids rels !! i = Some row.1.2 ∧
  r_names rels !! i = Some row.2.1 ∧ r_ids rels !! i = Some row.2.2.
Proof.
  unfold rows_of. destruct row as [[s o] [nm id]]. simpl.
  rewrite lookup_zip_with_Some. split.
  - intros ([s' o'] & [nm' id'] & [= -> -> -> ->] & H1 & H2).
    apply lookup_zip_with_Some in H1 as (? & ? & [= <- <-] & ? & ?).
    apply lookup_zip_with_Some in H2 as (? & ? & [= <- <-] & ? & ?).
    done.
  - intros (Hs & Ho & Hn & Hi). exists (s, o), (nm, id). split_and!; [done| |].
    + apply lookup_zip_with_Some. by exists s, o.
    + apply lookup_zip_with_Some. by exists nm, id.
Qed.

Lemma rows_of_length (rels : anno_relations) :
  well_formed_relations rels → length (rows_of rels) = length (r_subj_ids rels).
Proof.
  intros (Ho & Hn & Hi). unfold rows_of.
  rewrite !length_zip_with. lia.
Qed.

Lemma add_relation_row (rels : anno_relations) (pairs : dict (Z * Z) (list label))
    (i : nat) (row : Z * Z * label) :
  rows_of rels !! i = Some row →
  add_relation rels pairs i = Ok (add_row pairs row).
Proof.
  intros (Hs & Ho & Hn & Hi)%rows_of_lookup.
  unfold add_relation, add_row, getitem_nat. rewrite Hs, Ho, Hn, Hi. simpl.
  destruct row as [[s o] [nm id]]. simpl. unfold dict_mem, dict_getitem.
  destruct (dict_get pairs (s, o)) as [preds|] eqn:Hget; simpl.
  - by rewrite Hget.
  - rewrite dict_get_set. destruct (decide ((s, o) = (s, o))); [|done]. simpl.
    by rewrite dict_set_set.
Qed.

Lemma fold_add_relation (rels : anno_relations) (pairs : dict (Z * Z) (list label)) :
  well_formed_relations rels →
  fold_result (add_relation rels) (seq 0 (length (r_subj_ids rels))) pairs
  = Ok (fold_left add_row (rows_of rels) pairs).
Proof.
  intros Hwf. rewrite <- (rows_of_length rels Hwf).
  rewrite <- (firstn_all (rows_of rels)) at 2.
  assert (∀ i, (i ≤ length (rows_of rels))%nat →
    fold_result (add_relation rels) (seq 0 i) pairs
    = Ok (fold_left add_row (take i (rows_of rels)) pairs)) as H; [|by apply H].
  induction i as [|i IH]; intros Hi; [done|].
  rewrite seq_S, fold_result_app, IH by lia. simpl.
  destruct (lookup_lt_is_Some_2 (rows_of rels) i) as [row Hrow]; [lia|].
  rewrite (add_relation_row _ _ _ _ Hrow). simpl.
  by rewrite (take_S_r _ _ _ Hrow), fold_left_app.
Qed.

(** The labels that the rows [rs] put on the pair [k]. *)
Lemma labels_not_in (rs : list (Z * Z * label)) (k : Z * Z) :
  k ∉ map fst rs → filter (fun row : Z * Z * label => row.1 = k) rs = [].
Proof.
  intros Hk. induction rs as [|row rs IH]; [done|].
  simpl in Hk. rewrite not_elem_of_cons in Hk. destruct Hk as [Hne Hk].
  rewrite filter_cons_False by done. by apply IH.
Qed.

Section Loop.
Variable pairs0 : dict (Z * Z) (list label).
Hypothesis pairs0_NoDup : NoDup (map fst pairs0).
Hypothesis pairs0_empty : ∀ k, k ∈ map fst pairs0 → dict_get pairs0 k = Some [].

Lemma fold_add_row_spec (rs : list (Z * Z * label)) :
  let pairs := fold_left add_row rs pairs0 in
  NoDup (map fst pairs) ∧
  (∀ k, k ∈ map fst pairs ↔ k ∈ map fst pairs0 ∨ k ∈ map fst rs) ∧
  (∀ k, k ∈ map fst pairs →
     dict_get pairs k
     = Some (map snd (filter (fun row : Z * Z * label => row.1 = k) rs))).
Proof.
  induction rs as [|[k0 lab] rs (Hnd & Hkeys & Hget)] using rev_ind; simpl.
  { split_and!; [done| |done].
    intros k. split; [by left | intros [?|?%elem_of_nil]; done]. }
  rewrite fold_left_app. simpl.
  set (pairs := fold_left add_row rs pairs0) in *.
  unfold add_row. simpl.
  assert (Hk : ∀ k, k ∈ map fst (dict_set pairs k0
                (default [] (dict_get pairs k0) ++ [lab]))
               ↔ k ∈ map fst pairs ∨ k = k0).
  { intros k. rewrite dict_keys_set. case_bool_decide as Hin.
    - split; [by left | intros [?| ->]; done].
    - rewrite elem_of_app, list_elem_of_singleton. done. }
  split_and!.
  - rewrite dict_keys_set. case_bool_decide as Hin; [done|].
    apply NoDup_app. split_and!; [done| |apply NoDup_singleton].
    intros k Hk1 ->%list_elem_of_singleton. done.
  - intros k. rewrite Hk, Hkeys, map_app, elem_of_app. simpl.
    rewrite list_elem_of_singleton. tauto.
  - intros k Hin. apply Hk in Hin.
    rewrite dict_get_set, filter_app, map_app.
    destruct (decide (k = k0)) as [->|Hne].
    + rewrite filter_cons_True, filter_nil by done. simpl. f_equal. f_equal.
      destruct (decide (k0 ∈ map fst pairs)) as [Hin0|Hnin0].
      * by rewrite (Hget k0 Hin0).
      * rewrite (proj2 (dict_get_None pairs k0) Hnin0). simpl.
        rewrite labels_not_in; [done|].
        intros Hrs. apply Hnin0, Hkeys. by right.
    + rewrite filter_cons_False, filter_nil, app_nil_r by done.
      apply Hget. by destruct Hin.
Qed.
End Loop.
Lemma dict_items_of_get {K V : Type} `{EqDecision K} (d : dict K V) (g : K → V) :
  NoDup (map fst d) →
  (∀ k, k ∈ map fst d → dict_get d k = Some (g k)) →
  d = map (fun k => (k, g k)) (map fst d).
Proof.
  induction d as [|[k v] d IH]; simpl; intros Hnd Hget; [done|].
  apply NoDup_cons in Hnd as [Hk Hnd].
  pose proof (Hget k (list_elem_of_here _ _)) as Hv.
  destruct (decide (k = k)); [|done]. injection Hv as ->.
  f_equal. apply IH; [done|]. intros k' Hk'.
  specialize (Hget k' (list_elem_of_further _ _ _ Hk')).
  destruct (decide (k' = k)) as [->|]; done.
Qed.

Lemma map_flat_map {A B C : Type} (h : B → C) (f : A → list B) (l : list A) :
  map h (flat_map f l) = flat_map (fun x => map h (f x)) l.
Proof. induction l as [|x l IH]; simpl; [done | by rewrite map_app, IH]. Qed.

Lemma flat_map_map {A B C : Type} (f : B → list C) (g : A → B) (l : list A) :
  flat_map f (map g l) = flat_map (fun x => f (g x)) l.
Proof. induction l as [|x l IH]; simpl; [done | by rewrite IH]. Qed.

Lemma filter_group {K L : Type} `{EqDecision K} (g : K → list L) (ks : list K) (k : K) :
  NoDup ks → k ∈ ks →
  filter (fun row : K * L => row.1 = k) (flat_map (fun k' => map (pair k') (g k')) ks)
  = map (pair k) (g k).
Proof.
  assert (Hsame : ∀ k', filter (fun row : K * L => row.1 = k') (map (pair k') (g k'))
                        = map (pair k') (g k')).
  { intros k'. induction (g k') as [|x l IH]; [done|]. simpl.
    rewrite filter_cons_True by done. by rewrite IH. }
  assert (Hother : ∀ k', k' ≠ k →
            filter (fun row : K * L => row.1 = k) (map (pair k') (g k')) = []).
  { intros k' Hne. induction (g k') as [|x l IH]; [done|]. simpl.
    rewrite filter_cons_False by done. by rewrite IH. }
  assert (Hnone : ∀ ks', k ∉ ks' →
            filter (fun row : K * L => row.1 = k)
              (flat_map (fun k' => map (pair k') (g k')) ks') = []).
  { induction ks' as [|k' ks' IH]; intros Hk; [done|]. simpl.
    rewrite not_elem_of_cons in Hk. destruct Hk as [Hne Hk].
    rewrite filter_app, Hother, IH by done. done. }
  induction 1 as [|k' ks Hk' Hnd IH]; intros Hin; [by apply elem_of_nil in Hin|].
  simpl. rewrite filter_app.
  destruct (decide (k' = k)) as [->|Hne].
  - by rewrite Hsame, Hnone, app_nil_r.
  - rewrite Hother by done. apply IH.
    apply elem_of_cons in Hin as [->|]; done.
Qed.

Lemma any_labels_completed (predicates : list string) (rels : anno_relations) (k : Z * Z) :
  (if any_labels (annotated rels k) then annotated rels k
   else [(background, Z.of_nat (length predicates) - 1)])
  = completed predicates rels k.
Proof. unfold completed. by destruct (annotated rels k). Qed.

Lemma completed_nonempty (predicates : list string) (rels : anno_relations) (k : Z * Z) :
  completed predicates rels k ≠ [].
Proof. unfold completed. by destruct (annotated rels k). Qed.

Lemma rows_of_arrays (rows : list (Z * Z * string * Z)) :
  rows_of {| r_subj_ids := map (fun r => r.1.1.1) rows;
             r_obj_ids := map (fun r => r.1.1.2) rows;
             r_names := map (fun r => r.1.2) rows;
             r_ids := map (fun r => r.2) rows;
             r_merged_ids := None |}
  = map (fun r : Z * Z * string * Z => ((r.1.1.1, r.1.1.2), (r.1.2, r.2))) rows.
Proof.
  unfold rows_of. simpl. induction rows as [|r rows IH]; simpl; [done|].
  by rewrite <- IH.
Qed.

Lemma completed_rows (predicates : list string) (rels : anno_relations)
    (pairs : dict (Z * Z) (list label)) (ks : list (Z * Z)) :
  pairs = map (fun k => (k, annotated rels k)) ks →
  map (fun r : Z * Z * string * Z => ((r.1.1.1, r.1.1.2), (r.1.2, r.2)))
    (flat_map (fun kv : Z * Z * list label =>
                 map (fun l : label => (kv.1.1, kv.1.2, l.1, l.2)) kv.2)
       (map (fun kv : Z * Z * list label =>
               (kv.1, if any_labels kv.2 then kv.2
                      else [(background, Z.of_nat (length predicates) - 1)]))
          pairs))
  = flat_map (fun k => map (pair k) (completed predicates rels k)) ks.
Proof.
  intros ->. rewrite !map_map, flat_map_map, map_flat_map.
  apply flat_map_ext. intros [s o].
  rewrite map_map. simpl. rewrite any_labels_completed.
  apply map_ext. by intros [nm id].
Qed.

Lemma astype_int_Ok (z : Z) : int64 z → astype_int z = Ok z.
Proof.
  intros [Hlo Hhi]. unfold astype_int.
  destruct (Z.leb_spec (- 2 ^ 63) z); [|lia].
  by destruct (Z.ltb_spec z (2 ^ 63)); [|lia].
Qed.

Lemma astype_str_id (s : string) : no_trailing_nul s → astype_str s = s.
Proof.
  unfold no_trailing_nul. induction s as [|c s IH]; [done|].
  simpl. destruct s as [|c' s'].
  - simpl. intros Hc. destruct (Ascii.eqb_spec c Ascii.zero) as [->|]; done.
  - intros Hlast. rewrite (IH Hlast). done.
Qed.

Lemma read_back_id (row : Z * Z * label) :
  no_trailing_nul row.2.1 → read_back row = row.
Proof.
  destruct row as [k [name id]]. unfold read_back. simpl. by intros ->%astype_str_id.
Qed.

(** The record that the array of strings gives back. *)
Lemma rows_of_read_back (rows : list (Z * Z * string * Z)) :
  rows_of {| r_subj_ids := map (fun r => r.1.1.1) rows;
             r_obj_ids := map (fun r => r.1.1.2) rows;
             r_names := map (fun r => astype_str r.1.2) rows;
             r_ids := map (fun r => r.2) rows;
             r_merged_ids := None |}
  = map read_back
      (map (fun r : Z * Z * string * Z => ((r.1.1.1, r.1.1.2), (r.1.2, r.2))) rows).
Proof.
  unfold rows_of. simpl. induction rows as [|r rows IH]; simpl; [done|].
  by rewrite <- IH.
Qed.

Section Completion.
Variables (predicates : list string) (a : anno).
Hypothesis relations_wf : well_formed_relations (relations a).

Local Abbreviation n := (length (o_ids (objects a))).
Local Abbreviation pairs :=
  (fold_left add_row (rows_of (relations a)) (empty_pairs n)).

Lemma completion_loop :
  NoDup (map fst pairs) ∧
  (∀ k, k ∈ map fst pairs ↔
        distinct_pair n k ∨ k ∈ map fst (rows_of (relations a))) ∧
  pairs = map (fun k => (k, annotated (relations a) k)) (map fst pairs).
Proof.
  assert (Hkeys0 : map fst (empty_pairs n) = pair_keys n).
  { rewrite empty_pairs_eq, map_map. simpl. apply map_id. }
  destruct (fold_add_row_spec (empty_pairs n)) with (rs := rows_of (relations a))
    as (Hnd & Hkeys & Hget).
  { rewrite Hkeys0. apply pair_keys_NoDup. }
  { intros k Hk. apply dict_get_Some.
    - rewrite Hkeys0. apply pair_keys_NoDup.
    - rewrite empty_pairs_eq in *. rewrite map_map in Hk. simpl in Hk.
      rewrite map_id in Hk. by apply (list_elem_of_fmap_2' _ _ k). }
  split_and!; [done| |].
  - intros k. rewrite Hkeys, Hkeys0, pair_keys_elem. done.
  - by apply dict_items_of_get.
Qed.

Hypothesis relations_fit : fits_int64 predicates a.

(** Every integer of the completed rows fits 64 bits. *)
Lemma completed_rows_fit (row : Z * Z * label) :
  row ∈ flat_map (fun k => map (pair k) (completed predicates (relations a) k))
          (map fst pairs) →
  int64 row.1.1 ∧ int64 row.1.2 ∧ int64 row.2.2.
Proof.
  destruct completion_loop as (_ & Hkeys & _).
  destruct relations_fit as (Hfs & Hfo & Hfi & Hn & Hp).
  rewrite Forall_lookup in Hfs, Hfo, Hfi.
  assert (Hrow : ∀ r : Z * Z * label, r ∈ rows_of (relations a) →
            int64 r.1.1 ∧ int64 r.1.2 ∧ int64 r.2.2).
  { intros r (i & Hi)%list_elem_of_lookup_1.
    apply rows_of_lookup in Hi as (Hs & Ho & _ & Hid).
    split_and!; [by eapply Hfs|by eapply Hfo|by eapply Hfi]. }
  intros (k & Hk & Hin)%elem_of_flat_map.
  apply list_elem_of_fmap in Hin as (l & -> & Hl). simpl.
  assert (int64 k.1 ∧ int64 k.2) as [Hk1 Hk2].
  { apply Hkeys in Hk as [(H1 & H2 & _)|Hk].
    - unfold int64. lia.
    - apply list_elem_of_fmap in Hk as (r & -> & Hr).
      by destruct (Hrow r Hr) as (? & ? & _). }
  split_and!; [done..|].
  unfold completed in Hl.
  destruct (annotated (relations a) k) as [|l0 ls] eqn:Hann.
  - apply list_elem_of_singleton in Hl as ->. simpl. unfold int64. lia.
  - rewrite <- Hann in Hl. unfold annotated in Hl.
    apply list_elem_of_fmap in Hl as (r & -> & [_ Hr]%list_elem_of_filter).
    by destruct (Hrow r Hr) as (_ & _ & ?).
Qed.

(** The value of [complete_pairs], in terms of the keys of [pairs]. *)
Lemma complete_pairs_rows :
  ∃ a', complete_pairs predicates a = Ok a' ∧
    objects a' = objects a ∧
    filename a' = filename a ∧ split_id a' = split_id a ∧
    height a' = height a ∧ width a' = width a ∧
    well_formed_relations (relations a') ∧
    rows_of (relations a')
    = map read_back
        (flat_map (fun k => map (pair k) (completed predicates (relations a) k))
           (map fst pairs)).
Proof.
  destruct completion_loop as (Hnd & Hkeys & Hitems).
  pose proof completed_rows_fit as Hfit.
  unfold complete_pairs. rewrite fold_add_relation by done.
  unfold mbind at 1, result_bind at 1. cbv beta iota zeta.
  set (rows := flat_map _ (map _ pairs)).
  assert (Hrows : map (fun r : Z * Z * string * Z => ((r.1.1.1, r.1.1.2), (r.1.2, r.2))) rows
                  = flat_map (fun k => map (pair k) (completed predicates (relations a) k))
                      (map fst pairs)).
  { subst rows. by apply completed_rows. }
  rewrite <- Hrows in Hfit |- *. clearbody rows. case_bool_decide as Hne.
  - assert (Hin : ∀ r : Z * Z * string * Z, r ∈ rows →
              int64 r.1.1.1 ∧ int64 r.1.1.2 ∧ int64 r.2).
    { intros r Hr.
      apply (Hfit ((r.1.1.1, r.1.1.2), (r.1.2, r.2))).
      by apply (list_elem_of_fmap_2'
        (fun r : Z * Z * string * Z => ((r.1.1.1, r.1.1.2), (r.1.2, r.2))) _ r). }
    rewrite (map_result_Ok (fun r : Z * Z * string * Z => astype_int r.1.1.1)
               (fun r => r.1.1.1))
      by (intros r Hr; apply astype_int_Ok; by apply Hin).
    rewrite (map_result_Ok (fun r : Z * Z * string * Z => astype_int r.1.1.2)
               (fun r => r.1.1.2))
      by (intros r Hr; apply astype_int_Ok; by apply Hin).
    rewrite (map_result_Ok (fun r : Z * Z * string * Z => astype_int r.2)
               (fun r => r.2))
      by (intros r Hr; apply astype_int_Ok; by apply Hin).
    unfold mbind, result_bind. cbv beta iota zeta.
    eexists. split; [done|]. simpl. split_and!; [done..| |].
    + unfold well_formed_relations. simpl. by rewrite !length_map.
    + apply rows_of_read_back.
  - exists a. split; [done|]. split_and!; [done..|].
    rewrite Hne. simpl.
    assert (map fst pairs = []) as Hks.
    { rewrite Hne in Hrows. simpl in Hrows.
      destruct (map fst pairs) as [|k ks']; [done|].
      simpl in Hrows.
      pose proof (completed_nonempty predicates (relations a) k) as Hc.
      destruct (completed predicates (relations a) k); [done|]. done. }
    assert (Hnone : ∀ row, row ∈ rows_of (relations a) → False).
    { intros row Hrow. assert (row.1 ∈ map fst pairs) as Hin.
      { apply Hkeys. right. by apply (list_elem_of_fmap_2' fst _ row). }
      rewrite Hks in Hin. by apply elem_of_nil in Hin. }
    clear -Hnone. destruct (rows_of (relations a)) as [|row rs]; [done|].
    destruct (Hnone row). apply list_elem_of_here.
Qed.

Hypothesis names_clean : Forall no_trailing_nul (r_names (relations a)).

(** Names without a trailing NUL come back as they are. *)
Lemma completed_rows_clean :
  map read_back
    (flat_map (fun k => map (pair k) (completed predicates (relations a) k))
       (map fst pairs))
  = flat_map (fun k => map (pair k) (completed predicates (relations a) k))
      (map fst pairs).
Proof.
  rewrite <- (map_id (flat_map _ _)) at 2.
  apply map_ext_in. intros row Hrow%list_elem_of_In.
  apply read_back_id.
  apply elem_of_flat_map in Hrow as (k & _ & Hin).
  apply list_elem_of_fmap in Hin as (l & -> & Hl). simpl.
  unfold completed in Hl.
  destruct (annotated (relations a) k) as [|l0 ls] eqn:Hann.
  - apply list_elem_of_singleton in Hl as ->. simpl.
    unfold no_trailing_nul. by vm_compute.
  - rewrite <- Hann in Hl. unfold annotated in Hl.
    apply list_elem_of_fmap in Hl as (r & -> & [_ Hr]%list_elem_of_filter).
    apply list_elem_of_lookup_1 in Hr as (i & Hi).
    apply rows_of_lookup in Hi as (_ & _ & Hname & _).
    rewrite Forall_lookup in names_clean. by eapply names_clean.
Qed.
End Completion.

(** C1, amended: on an image with [n] instances whose relation arrays have
    one length, whose integers fit 64 bits and whose names do not end with
    a NUL character (what the array of strings of the code gives back
    unchanged), pair completion returns a Relation Set made of one entry group
    per key, where the keys are the [n * (n - 1)] ordered pairs of distinct
    instance indices together with every annotated (subject, object) pair that
    is not among them (a self-pair).  Every ordered pair of distinct indices
    appears, the group of a key holds its annotated labels, and a key without
    annotation holds exactly the background label.  When every annotated pair
    is a pair of distinct indices there are exactly [n * (n - 1)] groups. *)
Theorem C1_pair_completion_groups (predicates : list string) (a : anno) :
  well_formed_relations (relations a) →
  fits_int64 predicates a →
  Forall no_trailing_nul (r_names (relations a)) →
  ∃ a' ks,
    complete_pairs predicates a = Ok a' ∧
    objects a' = objects a ∧
    NoDup ks ∧
    rows_of (relations a')
    = flat_map (fun k => map (pair k) (completed predicates (relations a) k)) ks ∧
    (∀ k, k ∈ ks ↔
          distinct_pair (length (o_ids (objects a))) k
          ∨ k ∈ map fst (rows_of (relations a))) ∧
    (∀ k, distinct_pair (length (o_ids (objects a))) k →
          k ∈ map fst (rows_of (relations a'))) ∧
    (∀ k, k ∈ ks →
          filter (fun row : Z * Z * label => row.1 = k) (rows_of (relations a'))
          = map (pair k) (completed predicates (relations a) k)) ∧
    (∀ k, k ∈ ks → annotated (relations a) k = [] →
          filter (fun row : Z * Z * label => row.1 = k) (rows_of (relations a'))
          = [(k, (background, Z.of_nat (length predicates) - 1))]) ∧
    ((∀ k, k ∈ map fst (rows_of (relations a)) →
           distinct_pair (length (o_ids (objects a))) k) →
     length ks = (length (o_ids (objects a)) * (length (o_ids (objects a)) - 1))%nat).
Proof.
  intros Hwf Hfit Hclean.
  destruct (completion_loop a) as (Hnd & Hkeys & Hitems).
  destruct (complete_pairs_rows predicates a Hwf Hfit)
    as (a' & Ha' & Hobj & _ & _ & _ & _ & _ & Hrows).
  rewrite (completed_rows_clean predicates a Hclean) in Hrows.
  set (n := length (o_ids (objects a))) in *.
  set (ks := map fst (fold_left add_row (rows_of (relations a)) (empty_pairs n))) in *.
  assert (Hgroup : ∀ k, k ∈ ks →
    filter (fun row : Z * Z * label => row.1 = k) (rows_of (relations a'))
    = map (pair k) (completed predicates (relations a) k)).
  { intros k Hk. rewrite Hrows. by apply filter_group. }
  exists a', ks. split_and!; try done.
  - intros k Hk. assert (Hin : k ∈ ks) by (apply Hkeys; by left).
    pose proof (Hgroup k Hin) as Hg.
    pose proof (completed_nonempty predicates (relations a) k) as Hc.
    destruct (completed predicates (relations a) k) as [|l ls]; [done|].
    assert ((k, l) ∈ rows_of (relations a')) as Hrow.
    { eapply (list_elem_of_filter (fun row : Z * Z * label => row.1 = k)).
      rewrite Hg. apply list_elem_of_here. }
    by apply (list_elem_of_fmap_2' fst _ (k, l)).
  - intros k Hk Hann. rewrite (Hgroup k Hk). unfold completed. by rewrite Hann.
  - intros Hall.
    assert (ks ≡ₚ pair_keys n) as ->; [|apply pair_keys_length].
    apply NoDup_Permutation; [done | apply pair_keys_NoDup|].
    intros k. rewrite Hkeys, pair_keys_elem. split; [|by left].
    intros [?|?]; [done | by apply Hall].
Qed.

Lemma C1_pair_completion_witness :
  ∃ a' ks,
    complete_pairs ["on"; "__background__"]
      (Anno "a.jpg" 0 10 10
         (AnnoObjects [0; 1] ["car"; "road"] [Bbox 0 5 0 5; Bbox 4 9 0 9])
         (AnnoRelations [0] ["on"] [0] [1] None)) = Ok a' ∧
    objects a' = AnnoObjects [0; 1] ["car"; "road"] [Bbox 0 5 0 5; Bbox 4 9 0 9] ∧
    NoDup ks ∧
    rows_of (relations a')
    = flat_map (fun k => map (pair k)
        (completed ["on"; "__background__"] (AnnoRelations [0] ["on"] [0] [1] None) k)) ks ∧
    (∀ k, k ∈ ks ↔
          distinct_pair 2 k
          ∨ k ∈ map fst (rows_of (AnnoRelations [0] ["on"] [0] [1] None))) ∧
    (∀ k, distinct_pair 2 k → k ∈ map fst (rows_of (relations a'))) ∧
    (∀ k, k ∈ ks →
          filter (fun row : Z * Z * label => row.1 = k) (rows_of (relations a'))
          = map (pair k)
              (completed ["on"; "__background__"] (AnnoRelations [0] ["on"] [0] [1] None) k)) ∧
    (∀ k, k ∈ ks → annotated (AnnoRelations [0] ["on"] [0] [1] None) k = [] →
          filter (fun row : Z * Z * label => row.1 = k) (rows_of (relations a'))
          = [(k, (background, 2 - 1))]) ∧
    ((∀ k, k ∈ map fst (rows_of (AnnoRelations [0] ["on"] [0] [1] None)) →
           distinct_pair 2 k) →
     length ks = (2 * (2 - 1))%nat).
Proof.
  apply (C1_pair_completion_groups ["on"; "__background__"]
    (Anno "a.jpg" 0 10 10
       (AnnoObjects [0; 1] ["car"; "road"] [Bbox 0 5 0 5; Bbox 4 9 0 9])
       (AnnoRelations [0] ["on"] [0] [1] None))).
  - repeat split; reflexivity.
  - unfold fits_int64, int64. simpl. repeat constructor; lia.
  - repeat constructor. by vm_compute.
Defined.

(** C1, counterexample: an image with two instances and an annotated
    self-pair.  The completed Relation Set has three entry groups, not
    2 * (2 - 1), and one of them is the self-pair (0, 0). *)
Lemma C1_self_pair_counterexample :
  ∃ a',
    complete_pairs ["holding"; "riding"; "__background__"]
      (Anno "self.jpg" 0 10 10
         (AnnoObjects [1; 0] ["person"; "horse"] [Bbox 0 5 0 5; Bbox 4 9 0 9])
         (AnnoRelations [1; 0] ["riding"; "holding"] [0; 0] [1; 0] None))
    = Ok a' ∧
    rows_of (relations a')
    = [((0, 1), ("riding", 1)); ((1, 0), ("__background__", 2));
       ((0, 0), ("holding", 0))] ∧
    length (remove_dups (map fst (rows_of (relations a')))) = 3%nat ∧
    3%nat ≠ (2 * (2 - 1))%nat ∧
    ¬ distinct_pair 2 (0, 0).
Proof.
  eexists. split; [vm_compute; reflexivity|].
  split; [reflexivity|]. split; [reflexivity|]. split; [lia|].
  unfold distinct_pair. simpl. lia.
Qed.

(** C10: with fewer than two objects and no relation, pair completion
    returns the image as it was; its ['relations'] field is not rebuilt. *)
Theorem C10_no_pairs_leaves_relations (predicates : list string) (a : anno) :
  (length (o_ids (objects a)) < 2)%nat →
  r_subj_ids (relations a) = [] →
  complete_pairs predicates a = Ok a.
Proof.
  intros Hn Hs. unfold complete_pairs. rewrite Hs. simpl.
  assert (empty_pairs (length (o_ids (objects a))) = []) as ->; [|done].
  destruct (length (o_ids (objects a))) as [|[|n]]; [done..|lia].
Qed.

Lemma C10_no_pairs_witness :
  complete_pairs ["on"; "__background__"]
    (Anno "b.jpg" 1 10 10
       (AnnoObjects [0] ["car"] [Bbox 0 5 0 5])
       (AnnoRelations [] [] [] [] (Some [])))
  = Ok (Anno "b.jpg" 1 10 10
          (AnnoObjects [0] ["car"] [Bbox 0 5 0 5])
          (AnnoRelations [] [] [] [] (Some []))).
Proof.
  apply (C10_no_pairs_leaves_relations ["on"; "__background__"]
    (Anno "b.jpg" 1 10 10
       (AnnoObjects [0] ["car"] [Bbox 0 5 0 5])
       (AnnoRelations [] [] [] [] (Some [])))).
  - simpl. lia.
  - reflexivity.
Defined.

(** ** Laplace estimator *)

Section Cells.
Variables n_obj n_rel : nat.
Implicit Types (pm : counts) (c : cell) (v : Z).

Lemma get_set_cell_ne pm c c' v :
  c' ≠ c → get_cell (set_cell pm c v) c' = get_cell pm c'.
Proof.
  destruct c as [[i j] k], c' as [[i' j'] k']. intros Hne.
  unfold get_cell, set_cell. simpl. rewrite list_lookup_alter.
  destruct (decide (i = i')) as [->|]; [|done].
  destruct (pm !! i') as [plane|]; [|done]. simpl.
  rewrite list_lookup_alter.
  destruct (decide (j = j')) as [->|]; [|done].
  destruct (plane !! j') as [row|]; [|done]. simpl.
  rewrite list_lookup_insert_ne; [done | congruence].
Qed.

Lemma has_shape_lookup pm c :
  has_shape n_obj n_rel pm → in_shape n_obj n_rel c →
  ∃ plane row x, pm !! c.1.1 = Some plane ∧ length plane = n_obj ∧
    plane !! c.1.2 = Some row ∧ length row = n_rel ∧ row !! c.2 = Some x.
Proof.
  intros [Hlen Hplanes] (Hi & Hj & Hk).
  destruct (lookup_lt_is_Some_2 pm c.1.1) as [plane Hplane]; [lia|].
  rewrite Forall_lookup in Hplanes.
  destruct (Hplanes _ _ Hplane) as [Hlp Hrows].
  destruct (lookup_lt_is_Some_2 plane c.1.2) as [row Hrow]; [lia|].
  rewrite Forall_lookup in Hrows. pose proof (Hrows _ _ Hrow) as Hlr.
  destruct (lookup_lt_is_Some_2 row c.2) as [x Hx]; [lia|].
  by exists plane, row, x.
Qed.

Lemma get_set_cell_eq pm c v :
  has_shape n_obj n_rel pm → in_shape n_obj n_rel c →
  get_cell (set_cell pm c v) c = v.
Proof.
  intros Hsh Hc.
  destruct (has_shape_lookup pm c Hsh Hc) as (plane & row & x & Hp & _ & Hr & Hlr & Hx).
  unfold get_cell, set_cell.
  rewrite list_lookup_alter_eq, Hp. simpl.
  rewrite list_lookup_alter_eq, Hr. simpl.
  rewrite list_lookup_insert_eq; [done|]. by eapply lookup_lt_Some.
Qed.

Lemma set_cell_shape pm c v :
  has_shape n_obj n_rel pm → has_shape n_obj n_rel (set_cell pm c v).
Proof.
  intros [Hlen Hplanes]. unfold set_cell. split; [by rewrite length_alter|].
  apply Forall_alter; [done|]. intros plane _ [Hlp Hrows].
  split; [by rewrite length_alter|].
  apply Forall_alter; [done|]. intros row _ Hlr. by rewrite length_insert.
Qed.

Lemma fold_set_cells (val : cell → Z) (cells : list cell) :
  Forall (in_shape n_obj n_rel) cells →
  ∀ pm, has_shape n_obj n_rel pm →
    let pm' := fold_left (fun pm' (cv : cell * Z) => set_cell pm' cv.1 cv.2)
                 (map (fun c => (c, val c)) cells) pm in
    has_shape n_obj n_rel pm' ∧
    ∀ c, get_cell pm' c = if bool_decide (c ∈ cells) then val c else get_cell pm c.
Proof.
  induction 1 as [|c0 cells Hc0 Hcells IH]; intros pm Hsh; cbn [fold_left map fst snd].
  { split; [done|]. intros c. by rewrite bool_decide_eq_false_2 by apply not_elem_of_nil. }
  destruct (IH (set_cell pm c0 (val c0))) as [Hsh' Hget]; [by apply set_cell_shape|].
  split; [done|]. intros c. rewrite Hget.
  destruct (decide (c ∈ cells)) as [Hin|Hnin].
  - rewrite !bool_decide_eq_true_2; [done | by apply list_elem_of_further | done].
  - rewrite (bool_decide_eq_false_2 (c ∈ cells)) by done.
    destruct (decide (c = c0)) as [->|Hne].
    + rewrite bool_decide_eq_true_2 by apply list_elem_of_here.
      by apply get_set_cell_eq.
    + rewrite bool_decide_eq_false_2 by (by intros [?|?]%elem_of_cons).
      by apply get_set_cell_ne.
Qed.

(** The in-place addition on index arrays: every addressed cell grows by
    one, however often it is addressed; no other cell changes. *)
Lemma iadd_cells_spec pm (cells : list cell) :
  has_shape n_obj n_rel pm → Forall (in_shape n_obj n_rel) cells →
  has_shape n_obj n_rel (iadd_cells pm cells) ∧
  ∀ c, get_cell (iadd_cells pm cells) c
       = if bool_decide (c ∈ cells) then get_cell pm c + 1 else get_cell pm c.
Proof.
  intros Hsh Hcells. unfold iadd_cells.
  assert (zip cells (map (fun c => get_cell pm c + 1) cells)
          = map (fun c => (c, get_cell pm c + 1)) cells) as ->.
  { clear. induction cells as [|c cells IH]; simpl; [done | by rewrite IH]. }
  by apply (fold_set_cells (fun c => get_cell pm c + 1)).
Qed.
End Cells.
Lemma map_result_elem {A B : Type} (f : A → result B) (l : list A) (ys : list B) (y : B) :
  map_result f l = Ok ys → y ∈ ys ↔ ∃ x, x ∈ l ∧ f x = Ok y.
Proof.
  revert ys. induction l as [|x l IH]; intros ys; simpl.
  - intros [= <-]. split; [by intros ?%elem_of_nil | by intros (? & ?%elem_of_nil & _)].
  - intros (y0 & Hy0 & (ys' & Hys & [= <-])%bind_Ok)%bind_Ok.
    rewrite elem_of_cons, (IH ys' Hys). split.
    + intros [->|(x' & Hx' & Hf)]; [exists x | exists x'];
        (split; [|done]); [apply list_elem_of_here | by apply list_elem_of_further].
    + intros (x' & [->|Hx']%elem_of_cons & Hf); [left; congruence | right; eauto].
Qed.

Lemma axis_index_lt (len : nat) (i : Z) (k : nat) :
  axis_index len i = Ok k → (k < len)%nat.
Proof.
  unfold axis_index.
  destruct ((0 <=? i) && (i <? Z.of_nat len)) eqn:H1.
  - intros [= <-]. apply andb_true_iff in H1 as [?%Z.leb_le ?%Z.ltb_lt]. lia.
  - destruct ((- Z.of_nat len <=? i) && (i <? 0)) eqn:H2; [|done].
    intros [= <-]. apply andb_true_iff in H2 as [?%Z.leb_le ?%Z.ltb_lt]. lia.
Qed.

Lemma cell_of_triplet_in_shape (n_obj n_rel : nat) (ids : list Z) (t : Z * Z * Z) (c : cell) :
  cell_of_triplet n_obj n_rel ids t = Ok c → in_shape n_obj n_rel c.
Proof.
  unfold cell_of_triplet.
  intros (cs & _ & (co & _ & (i & Hi & (j & Hj & (k & Hk & [= <-])%bind_Ok)%bind_Ok)
    %bind_Ok)%bind_Ok)%bind_Ok.
  unfold in_shape. simpl. split_and!; by eapply axis_index_lt.
Qed.

Lemma elem_of_insert_unique (t u : Z * Z * Z) (l : list (Z * Z * Z)) :
  u ∈ insert_unique t l ↔ u = t ∨ u ∈ l.
Proof.
  induction l as [|x l IH]; simpl.
  - rewrite list_elem_of_singleton, elem_of_nil. tauto.
  - case_bool_decide as Hx; [subst; rewrite elem_of_cons; tauto|].
    destruct (triple_ltb t x); rewrite !elem_of_cons, ?IH; tauto.
Qed.

Lemma elem_of_unique_rows (u : Z * Z * Z) (l : list (Z * Z * Z)) :
  u ∈ unique_rows l ↔ u ∈ l.
Proof.
  unfold unique_rows. induction l as [|x l IH]; simpl; [done|].
  by rewrite elem_of_insert_unique, IH, elem_of_cons.
Qed.

Lemma stack3_elem (a b c : list Z) (stacked : list (Z * Z * Z)) (t : Z * Z * Z) :
  stack3 a b c = Ok stacked →
  t ∈ stacked ↔
  ∃ r, a !! r = Some t.1.1 ∧ b !! r = Some t.1.2 ∧ c !! r = Some t.2.
Proof.
  unfold stack3. case_bool_decide; [|done]. intros [= <-].
  destruct t as [[s o] p]. simpl. rewrite elem_of_lookup_zip_with. split.
  - intros (r & [s' o'] & p' & [= -> -> ->] & Hso & Hp).
    apply lookup_zip_with_Some in Hso as (? & ? & [= <- <-] & ? & ?).
    by exists r.
  - intros (r & Hs & Ho & Hp). exists r, (s, o), p. split_and!; [done| |done].
    apply lookup_zip_with_Some. by exists s, o.
Qed.

(** The three index arrays of the source address, row by row, the cell of
    each triplet. *)
Lemma index_arrays_cells (n_obj n_rel : nat) (ids : list Z) (l : list (Z * Z * Z))
    (cells : list cell) :
  (subj_cls ← map_result (fun t : Z * Z * Z => getitem ids t.1.1) l;
   obj_cls ← map_result (fun t : Z * Z * Z => getitem ids t.1.2) l;
   map_result (fun sop : Z * Z * Z =>
       i ← axis_index n_obj sop.1.1;
       j ← axis_index n_obj sop.1.2;
       k ← axis_index n_rel sop.2;
       Ok (i, j, k))
     (zip (zip subj_cls obj_cls) (map snd l))) = Ok cells →
  map_result (cell_of_triplet n_obj n_rel ids) l = Ok cells.
Proof.
  revert cells. induction l as [|t l IH]; intros cells; simpl; [done|].
  intros (ss & (cs & Hcs & (ss' & Hss & [= <-])%bind_Ok)%bind_Ok &
          (os & (co & Hco & (os' & Hos & [= <-])%bind_Ok)%bind_Ok & Hcells)%bind_Ok)%bind_Ok.
  simpl in Hcells.
  apply bind_Ok in Hcells as (c & Hc & (cells' & Hcells' & [= <-])%bind_Ok).
  assert (cell_of_triplet n_obj n_rel ids t = Ok c) as ->.
  { unfold cell_of_triplet. rewrite Hcs, Hco. done. }
  simpl.
  rewrite (IH cells'); [done|]. rewrite Hss. simpl. rewrite Hos. simpl. done.
Qed.

Lemma observed_triplet (n_obj n_rel : nat) (a : anno) (c : cell) :
  observed n_obj n_rel a c ↔
  ∃ t r, r_subj_ids (relations a) !! r = Some t.1.1 ∧
         r_obj_ids (relations a) !! r = Some t.1.2 ∧
         r_ids (relations a) !! r = Some t.2 ∧
         cell_of_triplet n_obj n_rel (o_ids (objects a)) t = Ok c.
Proof.
  unfold observed, cell_of_relation, getitem_nat. split.
  - intros (r & H). exists
      (default 0 (r_subj_ids (relations a) !! r),
       default 0 (r_obj_ids (relations a) !! r),
       default 0 (r_ids (relations a) !! r)), r.
    destruct (r_subj_ids (relations a) !! r); [|done].
    destruct (r_obj_ids (relations a) !! r); [|done].
    destruct (r_ids (relations a) !! r); [|done]. done.
  - intros ([[s o] p] & r & Hs & Ho & Hp & Hc). exists r.
    simpl in *. by rewrite Hs, Ho, Hp.
Qed.

Section CountAnno.
Variables n_obj n_rel : nat.

Lemma count_anno_skip (pm : counts) (a : anno) :
  (split_id a =? 0) && any_names (r_names (relations a)) = false →
  count_anno n_obj n_rel pm a = Ok pm.
Proof. intros H. unfold count_anno. by rewrite H. Qed.

Lemma count_anno_spec (pm pm' : counts) (a : anno) :
  has_shape n_obj n_rel pm →
  (split_id a =? 0) && any_names (r_names (relations a)) = true →
  count_anno n_obj n_rel pm a = Ok pm' →
  has_shape n_obj n_rel pm' ∧
  ∀ c, (observed n_obj n_rel a c → get_cell pm' c = get_cell pm c + 1) ∧
       (¬ observed n_obj n_rel a c → get_cell pm' c = get_cell pm c) ∧
       get_cell pm c ≤ get_cell pm' c.
Proof.
  intros Hsh Htest. unfold count_anno. rewrite Htest.
  intros (stacked & Hstack & Hrest)%bind_Ok.
  case_bool_decide as Hempty; [done|].
  pose proof (index_arrays_cells n_obj n_rel (o_ids (objects a)) (unique_rows stacked)) as Hidx.
  destruct (map_result (fun t : Z * Z * Z => getitem (o_ids (objects a)) t.1.1)
              (unique_rows stacked)) as [ss|] eqn:Hss; [|done].
  destruct (map_result (fun t : Z * Z * Z => getitem (o_ids (objects a)) t.1.2)
              (unique_rows stacked)) as [os|] eqn:Hos; [|done].
  simpl in Hrest, Hidx.
  apply bind_Ok in Hrest as (cells & Hcells & [= <-]).
  specialize (Hidx cells Hcells).
  assert (Hin : ∀ c, c ∈ cells ↔ observed n_obj n_rel a c).
  { intros c. rewrite (map_result_elem _ _ _ c Hidx), observed_triplet.
    split.
    - intros (t & Ht & Hc). rewrite elem_of_unique_rows in Ht.
      rewrite (stack3_elem _ _ _ _ t Hstack) in Ht. destruct Ht as (r & Hs & Ho & Hp).
      exists t, r. by split_and!.
    - intros (t & r & Hs & Ho & Hp & Hc). exists t. split; [|done].
      rewrite elem_of_unique_rows, (stack3_elem _ _ _ _ t Hstack). by exists r. }
  destruct (iadd_cells_spec n_obj n_rel pm cells Hsh) as [Hsh' Hget].
  { apply Forall_forall. intros c Hc.
    apply (map_result_elem _ _ _ c Hidx) in Hc as (t & _ & Hc).
    by eapply cell_of_triplet_in_shape. }
  split; [done|]. intros c. rewrite Hget. split_and!.
  - intros Hc. by rewrite bool_decide_eq_true_2 by (by apply Hin).
  - intros Hc. by rewrite bool_decide_eq_false_2 by (by rewrite Hin).
  - case_bool_decide; lia.
Qed.
End CountAnno.

(** C6, amended: the loop body changes the count array only for an image of
    the training split (split_id = 0) whose relation names are not all empty
    strings; background-only images are counted like any other.  For such an
    image every cell addressed by some relation of the image (the classes of
    its subject and object, and its predicate id) grows by exactly one,
    however many relations of the image address it, and no other cell
    changes. *)
Theorem C6_counts_distinct_triplets (n_obj n_rel : nat) (pm pm' : counts) (a : anno) :
  has_shape n_obj n_rel pm →
  count_anno n_obj n_rel pm a = Ok pm' →
  (pm' ≠ pm → split_id a = 0 ∧ any_names (r_names (relations a)) = true) ∧
  (split_id a = 0 → any_names (r_names (relations a)) = true →
   ∀ c, (observed n_obj n_rel a c → get_cell pm' c = get_cell pm c + 1) ∧
        (¬ observed n_obj n_rel a c → get_cell pm' c = get_cell pm c)).
Proof.
  intros Hsh Hcount. split.
  - intros Hne.
    destruct ((split_id a =? 0) && any_names (r_names (relations a))) eqn:Htest.
    + apply andb_true_iff in Htest as [?%Z.eqb_eq ?]. done.
    + rewrite (count_anno_skip n_obj n_rel pm a Htest) in Hcount. congruence.
  - intros Hsplit Hany c.
    destruct (count_anno_spec n_obj n_rel pm pm' a Hsh) as [_ Hspec]; [|done|].
    { rewrite Hsplit, Hany. done. }
    destruct (Hspec c) as (? & ? & _). done.
Qed.

Lemma C6_counts_witness :
  ([[[1; 1]; [2; 1]]; [[1; 1]; [1; 1]]] ≠ ones 2 2 →
   0 = 0 ∧ any_names ["on"; "on"] = true) ∧
  (0 = 0 → any_names ["on"; "on"] = true →
   ∀ c,
     (observed 2 2
        (Anno "a.jpg" 0 10 10
           (AnnoObjects [0; 0; 1] ["car"; "car"; "road"]
              [Bbox 0 5 0 5; Bbox 0 5 6 9; Bbox 4 9 0 9])
           (AnnoRelations [0; 0] ["on"; "on"] [0; 1] [2; 2] None)) c →
      get_cell [[[1; 1]; [2; 1]]; [[1; 1]; [1; 1]]] c = get_cell (ones 2 2) c + 1) ∧
     (¬ observed 2 2
        (Anno "a.jpg" 0 10 10
           (AnnoObjects [0; 0; 1] ["car"; "car"; "road"]
              [Bbox 0 5 0 5; Bbox 0 5 6 9; Bbox 4 9 0 9])
           (AnnoRelations [0; 0] ["on"; "on"] [0; 1] [2; 2] None)) c →
      get_cell [[[1; 1]; [2; 1]]; [[1; 1]; [1; 1]]] c = get_cell (ones 2 2) c)).
Proof.
  apply (C6_counts_distinct_triplets 2 2 (ones 2 2) [[[1; 1]; [2; 1]]; [[1; 1]; [1; 1]]]
    (Anno "a.jpg" 0 10 10
       (AnnoObjects [0; 0; 1] ["car"; "car"; "road"]
          [Bbox 0 5 0 5; Bbox 0 5 6 9; Bbox 4 9 0 9])
       (AnnoRelations [0; 0] ["on"; "on"] [0; 1] [2; 2] None))).
  - repeat first [apply List.Forall_nil | apply List.Forall_cons | split | reflexivity].
  - reflexivity.
Defined.

(** C6, counterexample: a training image whose two relations are both
    background.  It has no non-background relation, and the loop body still
    adds one to the two background cells it addresses. *)
Lemma C6_background_only_counterexample :
  has_non_background
    (Anno "bg.jpg" 0 10 10
       (AnnoObjects [0; 1] ["car"; "road"] [Bbox 0 5 0 5; Bbox 4 9 0 9])
       (AnnoRelations [1; 1] ["__background__"; "__background__"] [0; 1] [1; 0] None))
  = false ∧
  count_anno 2 2 (ones 2 2)
    (Anno "bg.jpg" 0 10 10
       (AnnoObjects [0; 1] ["car"; "road"] [Bbox 0 5 0 5; Bbox 4 9 0 9])
       (AnnoRelations [1; 1] ["__background__"; "__background__"] [0; 1] [1; 0] None))
  = Ok [[[1; 1]; [1; 2]]; [[1; 2]; [1; 1]]] ∧
  [[[1; 1]; [1; 2]]; [[1; 2]; [1; 1]]] ≠ ones 2 2.
Proof. split; [reflexivity|]. split; [reflexivity | discriminate]. Qed.

Lemma fold_result_invariant {A S : Type} (P : S → Prop) (body : S → A → result S)
    (l : list A) (st st' : S) :
  (∀ s x s', P s → body s x = Ok s' → P s') →
  P st → fold_result body l st = Ok st' → P st'.
Proof.
  intros Hstep. revert st. induction l as [|x l IH]; intros st Hst; simpl.
  - by intros [= <-].
  - intros (s1 & H1 & H2)%bind_Ok. eapply IH; [|done]. by eapply Hstep.
Qed.

Lemma lookup_map {A B : Type} (f : A → B) (l : list A) (i : nat) :
  map f l !! i = f <$> l !! i.
Proof. apply list_lookup_fmap. Qed.

Lemma lookup_replicate_lt {A : Type} (x : A) (n i : nat) :
  (i < n)%nat → replicate n x !! i = Some x.
Proof. intros Hi. by apply lookup_replicate_2. Qed.

Lemma ones_shape (n_obj n_rel : nat) : has_shape n_obj n_rel (ones n_obj n_rel).
Proof.
  unfold has_shape, ones. split; [by rewrite length_replicate|].
  apply Forall_replicate. split; [by rewrite length_replicate|].
  apply Forall_replicate. by rewrite length_replicate.
Qed.

Lemma get_cell_ones (n_obj n_rel : nat) (c : cell) :
  in_shape n_obj n_rel c → get_cell (ones n_obj n_rel) c = 1.
Proof.
  intros (Hi & Hj & Hk). unfold get_cell, ones.
  rewrite lookup_replicate_lt by done. simpl.
  rewrite lookup_replicate_lt by done. simpl.
  by rewrite lookup_replicate_lt.
Qed.

Lemma Zsum_ge_length (row : list Z) :
  Forall (fun x => 1 ≤ x) row → Z.of_nat (length row) ≤ Zsum row.
Proof.
  induction 1 as [|x row Hx Hrow IH]; simpl; [done|].
  unfold Zsum in *. simpl. lia.
Qed.

Lemma Qsum_quotients (row : list Z) (d : Z) :
  (Qsum (map (fun x => inject_Z x / inject_Z d) row) == inject_Z (Zsum row) / inject_Z d)%Q.
Proof.
  induction row as [|x row IH]; simpl.
  - unfold Qdiv. by rewrite Qmult_0_l.
  - unfold Qsum, Zsum in *. simpl. rewrite IH, inject_Z_plus.
    unfold Qdiv. by rewrite Qmult_plus_distr_l.
Qed.

Lemma Qsum_round_error (rnd : Q → Q) (qs : list Q) :
  rounds rnd →
  (Qabs (Qsum (map rnd qs) - Qsum qs) <= unit_roundoff * Qsum (map Qabs qs))%Q.
Proof.
  intros Hrnd. unfold Qsum. induction qs as [|q qs IH]; cbn [map fold_right].
  - rewrite Qmult_0_r. apply Qle_refl.
  - assert (rnd q + fold_right Qplus 0 (map rnd qs) - (q + fold_right Qplus 0 qs)
            == (rnd q - q) + (fold_right Qplus 0 (map rnd qs) - fold_right Qplus 0 qs))%Q
      as Hsplit by ring.
    rewrite Hsplit. eapply Qle_trans; [apply Qabs_triangle|].
    rewrite Qmult_plus_distr_r. apply Qplus_le_compat; [apply Hrnd | apply IH].
Qed.

Lemma Qsum_abs_quotients (row : list Z) (d : Z) :
  Forall (fun x => 1 ≤ x) row → 0 < d →
  (Qsum (map Qabs (map (fun x => inject_Z x / inject_Z d) row))
   == Qsum (map (fun x => inject_Z x / inject_Z d) row))%Q.
Proof.
  intros Hrow Hd. unfold Qsum.
  induction Hrow as [|x row Hx Hrow IH]; cbn [map fold_right]; [reflexivity|].
  rewrite IH. apply Qplus_inj_r.
  apply Qabs_pos. apply Qle_shift_div_l.
  - change 0%Q with (inject_Z 0). rewrite <- Zlt_Qlt. done.
  - rewrite Qmult_0_l. change 0%Q with (inject_Z 0). rewrite <- Zle_Qle. lia.
Qed.

Lemma unit_roundoff_small : (unit_roundoff < 1 # 1000000000)%Q.
Proof. reflexivity. Qed.

Section Estimator.
Variables (annos : list anno) (predicates objects_ : list string).

Local Abbreviation n_obj := (length objects_).
Local Abbreviation n_rel := (length predicates).

(** Every cell keeps its pseudo-count: the loop only adds. *)
Lemma count_triplets_invariant (pm : counts) :
  count_triplets annos predicates objects_ = Ok pm →
  has_shape n_obj n_rel pm ∧
  ∀ c, in_shape n_obj n_rel c → 1 ≤ get_cell pm c.
Proof.
  unfold count_triplets.
  apply (fold_result_invariant
    (fun pm => has_shape n_obj n_rel pm ∧ ∀ c, in_shape n_obj n_rel c → 1 ≤ get_cell pm c)).
  - intros pm0 a pm1 [Hsh Hge] Hcount.
    destruct ((split_id a =? 0) && any_names (r_names (relations a))) eqn:Htest.
    + destruct (count_anno_spec n_obj n_rel pm0 pm1 a Hsh Htest Hcount) as [Hsh' Hspec].
      split; [done|]. intros c Hc. destruct (Hspec c) as (_ & _ & Hle).
      specialize (Hge c Hc). lia.
    + rewrite (count_anno_skip n_obj n_rel pm0 a Htest) in Hcount.
      injection Hcount as <-. done.
  - split; [apply ones_shape | intros c Hc; by rewrite get_cell_ones].
Qed.

Lemma count_row_spec (pm : counts) (s o : nat) :
  has_shape n_obj n_rel pm →
  (∀ c, in_shape n_obj n_rel c → 1 ≤ get_cell pm c) →
  (s < n_obj)%nat → (o < n_obj)%nat →
  ∃ row, count_row pm s o = Some row ∧ length row = n_rel ∧
         Forall (fun x => 1 ≤ x) row.
Proof.
  intros [Hlen Hplanes] Hge Hs Ho. unfold count_row.
  destruct (lookup_lt_is_Some_2 pm s) as [plane Hplane]; [lia|].
  rewrite Forall_lookup in Hplanes.
  destruct (Hplanes _ _ Hplane) as [Hlp Hrows].
  destruct (lookup_lt_is_Some_2 plane o) as [row Hrow]; [lia|].
  rewrite Forall_lookup in Hrows. pose proof (Hrows _ _ Hrow) as Hlr.
  exists row. rewrite Hplane. simpl. split_and!; [done..|].
  apply Forall_lookup. intros k x Hx.
  specialize (Hge (s, o, k)). unfold get_cell in Hge. simpl in Hge.
  rewrite Hplane in Hge. simpl in Hge. rewrite Hrow in Hge. simpl in Hge.
  rewrite Hx in Hge. apply Hge. unfold in_shape. simpl.
  split_and!; [done..|]. rewrite <- Hlr. by eapply lookup_lt_Some.
Qed.

(** C5: the counts never fall below the pseudo-count 1, so the sum of a
    row of the count array is at least the size of the predicate vocabulary
    and the division by it is defined; the row of the returned table holds
    the rounded quotients of the counts by that sum, and its entries add up
    to 1 within the unit roundoff of binary64, far inside the tolerance
    1e-9. *)
Theorem C5_rows_sum_to_one (rnd : Q → Q) (pm : counts) (s o : nat) :
  rounds rnd →
  predicates ≠ [] →
  count_triplets annos predicates objects_ = Ok pm →
  (s < n_obj)%nat → (o < n_obj)%nat →
  compute_relationship_probabilities rnd annos predicates objects_
  = Ok (normalize rnd pm) ∧
  ∃ row, count_row pm s o = Some row ∧
    length row = n_rel ∧
    Forall (fun x => 1 ≤ x) row ∧
    Z.of_nat n_rel ≤ Zsum row ∧
    0 < Zsum row ∧
    prob_row (normalize rnd pm) s o
    = Some (map (fun x => rnd (inject_Z x / inject_Z (Zsum row))%Q) row) ∧
    (Qabs (Qsum (map (fun x => rnd (inject_Z x / inject_Z (Zsum row))) row) - 1)
     <= unit_roundoff)%Q ∧
    (unit_roundoff < 1 # 1000000000)%Q.
Proof.
  intros Hrnd Hpred Hcount Hs Ho.
  split; [unfold compute_relationship_probabilities; by rewrite Hcount|].
  destruct (count_triplets_invariant pm Hcount) as [Hsh Hge].
  destruct (count_row_spec pm s o Hsh Hge Hs Ho) as (row & Hrow & Hlen & Hall).
  pose proof (Zsum_ge_length row Hall) as Hsum. rewrite Hlen in Hsum.
  assert (0 < Zsum row) as Hpos.
  { destruct predicates; [done|]. simpl length in Hsum. lia. }
  exists row. split_and!; try done.
  - unfold prob_row, normalize. unfold count_row in Hrow.
    rewrite lookup_map. destruct (pm !! s) as [plane|]; [|done]. simpl in *.
    rewrite lookup_map, Hrow. done.
  - assert (Hone : (Qsum (map (fun x => inject_Z x / inject_Z (Zsum row)) row) == 1)%Q).
    { rewrite Qsum_quotients. apply Qmult_inv_r. unfold Qeq. simpl. lia. }
    pose proof (Qsum_round_error rnd
      (map (fun x => inject_Z x / inject_Z (Zsum row))%Q row) Hrnd) as Herr.
    rewrite map_map in Herr.
    rewrite (Qsum_abs_quotients row (Zsum row) Hall Hpos), Hone in Herr.
    by rewrite Qmult_1_r in Herr.
Qed.
End Estimator.

Lemma exact_rounds : rounds (fun q => q).
Proof.
  intros q. unfold Qminus. rewrite Qplus_opp_r. simpl.
  apply Qmult_le_0_compat; [done | apply Qabs_nonneg].
Qed.

Lemma C5_rows_witness :
  compute_relationship_probabilities (fun q => q)
    [Anno "a.jpg" 0 10 10
       (AnnoObjects [0; 1] ["car"; "road"] [Bbox 0 5 0 5; Bbox 4 9 0 9])
       (AnnoRelations [0; 1] ["on"; "__background__"] [0; 1] [1; 0] None)]
    ["on"; "__background__"] ["car"; "road"]
  = Ok (normalize (fun q => q) [[[1; 1]; [2; 1]]; [[1; 2]; [1; 1]]]) ∧
  ∃ row, count_row [[[1; 1]; [2; 1]]; [[1; 2]; [1; 1]]] 0 1 = Some row ∧
    length row = 2%nat ∧
    Forall (fun x => 1 ≤ x) row ∧
    Z.of_nat 2 ≤ Zsum row ∧
    0 < Zsum row ∧
    prob_row (normalize (fun q => q) [[[1; 1]; [2; 1]]; [[1; 2]; [1; 1]]]) 0 1
    = Some (map (fun x => (inject_Z x / inject_Z (Zsum row))%Q) row) ∧
    (Qabs (Qsum (map (fun x => inject_Z x / inject_Z (Zsum row)) row) - 1)
     <= unit_roundoff)%Q ∧
    (unit_roundoff < 1 # 1000000000)%Q.
Proof.
  apply (C5_rows_sum_to_one
    [Anno "a.jpg" 0 10 10
       (AnnoObjects [0; 1] ["car"; "road"] [Bbox 0 5 0 5; Bbox 4 9 0 9])
       (AnnoRelations [0; 1] ["on"; "__background__"] [0; 1] [1; 0] None)]
    ["on"; "__background__"] ["car"; "road"]
    (fun q => q) [[[1; 1]; [2; 1]]; [[1; 2]; [1; 1]]] 0 1).
  - exact exact_rounds.
  - discriminate.
  - reflexivity.
  - simpl. lia.
  - simpl. lia.
Defined.

(** ** Negative miner *)

(** [below_09] against the midpoint below the double 0.9. *)
Lemma below_09_iff (q : Q) :
  below_09 q = true ↔ (q <= 16212958658533785 # 2 ^ 54)%Q.
Proof. apply Qle_bool_iff. Qed.

(** A quotient of at least 9/10 rounds to a double that is at least the
    double 0.9. *)
Lemma below_09_false (q : Q) : (9 # 10 <= q)%Q → below_09 q = false.
Proof.
  intros Hge. destruct (below_09 q) eqn:E; [|done].
  apply below_09_iff in E.
  assert (H : (9 # 10 <= 16212958658533785 # 2 ^ 54)%Q) by (by eapply Qle_trans).
  by vm_compute in H.
Qed.

(** A quotient with denominator [u] below 9/10 is below it by at least
    1/(10 u); the midpoint is below 9/10 by 6/(10 * 2^54). *)
Lemma below_09_true (i u : Z) :
  0 ≤ i → u ≠ 0 → 6 * u ≤ 2 ^ 54 →
  (inject_Z i / inject_Z u < 9 # 10)%Q →
  below_09 (inject_Z i / inject_Z u) = true.
Proof.
  intros Hi Hu Hbound Hlt. apply below_09_iff.
  unfold Qdiv, Qmult, Qinv, Qlt, Qle, inject_Z in *.
  destruct u as [|p|p]; [done| |]; simpl in *.
  - change (Z.pos (2 ^ 54)) with (2 ^ 54). lia.
  - change (Z.pos (2 ^ 54)) with (2 ^ 54). lia.
Qed.

(** The quotient that [compute_overlap] returns. *)
Lemma compute_overlap_Ok (b0 b1 : bbox) (q : Q) :
  compute_overlap b0 b1 = Ok q →
  ∃ i u, q = (inject_Z i / inject_Z u)%Q ∧ 0 ≤ i ∧ u ≠ 0 ∧
         u ≤ compute_area b0 + compute_area b1.
Proof.
  unfold compute_overlap. intros [Hne ->]%truediv_Ok.
  eexists _, _. split; [done|].
  pose proof (compute_area_nonneg
    (Bbox (y_min b0 `max` y_min b1) (y_max b0 `min` y_max b1)
          (x_min b0 `max` x_min b1) (x_max b0 `min` x_max b1))).
  split_and!; [done|done|lia].
Qed.

(** The overlap of a box with itself is 1 whenever it is defined. *)
Lemma compute_overlap_self (b : bbox) (q : Q) :
  compute_overlap b b = Ok q → (q == 1)%Q.
Proof.
  unfold compute_overlap. rewrite !Z.max_id, !Z.min_id.
  destruct b as [a0 a1 a2 a3]. simpl.
  set (ar := compute_area _).
  replace (ar + ar - ar) with ar by lia.
  intros [Hne ->]%truediv_Ok. apply Qmult_inv_r.
  unfold Qeq. simpl. lia.
Qed.

Section Mining.
Variables (r1_preds r2_preds : list string) (a : anno).

Local Abbreviation names := (r_names (relations a)).
Local Abbreviation ids := (r_ids (relations a)).

Lemma mine_step (rule : nat → string → result bool) (n_cnt : nat)
    (l : list (nat * string)) : ∀ neg_ids neg_ids' : list (list Z),
  fold_result (fun (neg_ids : list (list Z)) (r_rel : nat * string) =>
      rule_applies ← rule r_rel.1 r_rel.2;
      if rule_applies : bool then
        negs ← getitem_nat neg_ids r_rel.1;
        pred_id ← getitem_nat ids n_cnt;
        Ok (<[r_rel.1 := negs ++ [pred_id]]> neg_ids)
      else Ok neg_ids) l neg_ids = Ok neg_ids' →
  ∀ r, neg_ids' !! r = (fun cur => cur ++ appended a rule n_cnt l r) <$> neg_ids !! r.
Proof.
  induction l as [|[r0 rel] l IH]; intros neg neg'; simpl.
  - intros [= <-] r. unfold appended. simpl.
    destruct (neg !! r); simpl; [by rewrite app_nil_r | done].
  - intros (neg1 & Hstep & Hrest)%bind_Ok r.
    rewrite (IH _ _ Hrest r). unfold appended. simpl.
    destruct (rule r0 rel) as [[|]|e]; simpl in Hstep; [| |done].
    + apply bind_Ok in Hstep as (cur & Hcur%getitem_nat_Ok & Hstep).
      apply bind_Ok in Hstep as (pid & Hpid%getitem_nat_Ok & [= <-]).
      rewrite Hpid. simpl. rewrite andb_true_r.
      destruct (decide (r0 = r)) as [->|Hne].
      * rewrite bool_decide_eq_true_2 by done.
        rewrite list_lookup_insert_eq by (by eapply lookup_lt_Some).
        rewrite Hcur. simpl. by rewrite <- app_assoc.
      * rewrite bool_decide_eq_false_2 by done.
        by rewrite list_lookup_insert_ne.
    + injection Hstep as <-. by rewrite andb_false_r.
Qed.

Lemma appended_enumerate (rule : nat → string → result bool) (n_cnt r : nat) :
  appended a rule n_cnt (enumerate names) r
  = match names !! r with
    | Some rel =>
        if match rule r rel with Ok b => b | Raise _ => false end
        then option_list (ids !! n_cnt) else []
    | None => []
    end.
Proof.
  unfold appended, enumerate.
  assert (∀ (l : list string) k,
    flat_map (fun p : nat * string =>
        if bool_decide (p.1 = r)
           && match rule p.1 p.2 with Ok b => b | Raise _ => false end
        then option_list (ids !! n_cnt) else []) (zip (seq k (length l)) l)
    = if decide (k ≤ r)%nat then
        match l !! (r - k)%nat with
        | Some rel =>
            if match rule r rel with Ok b => b | Raise _ => false end
            then option_list (ids !! n_cnt) else []
        | None => []
        end
      else []) as H.
  { induction l as [|x l IH]; intros k; simpl.
    - by destruct (decide (k ≤ r)%nat).
    - rewrite IH. destruct (decide (k = r)) as [->|Hne].
      + rewrite bool_decide_eq_true_2 by done. simpl.
        rewrite Nat.sub_diag. simpl.
        destruct (decide (S r ≤ r)%nat); [lia|]. rewrite app_nil_r.
        by destruct (decide (r ≤ r)%nat); [|lia].
      + rewrite bool_decide_eq_false_2 by done. simpl.
        destruct (decide (S k ≤ r)%nat), (decide (k ≤ r)%nat); try lia; [|done].
        replace (r - k)%nat with (S (r - S k)) by lia. done. }
  rewrite H. destruct (decide (0 ≤ r)%nat); [|lia]. by rewrite Nat.sub_0_r.
Qed.

Lemma rule_at_unfold (n r : nat) (name : string) (obj_id subj_id : Z)
    (obj_box subj_box : bbox) :
  names !! n = Some name →
  r_obj_ids (relations a) !! n = Some obj_id →
  r_subj_ids (relations a) !! n = Some subj_id →
  getitem (o_boxes (objects a)) obj_id = Ok obj_box →
  getitem (o_boxes (objects a)) subj_id = Ok subj_box →
  rule_at r1_preds r2_preds a n r
  = match names !! r with
    | Some rel =>
        if name_in name r1_preds
        then rule1_applies a name subj_id obj_id subj_box r rel
        else if name_in name r2_preds
        then rule2_applies a name subj_id obj_id obj_box r rel
        else Ok false
    | None => Raise IndexError
    end.
Proof.
  intros Hn Ho Hs Hob Hsb. unfold rule_at, getitem_nat.
  rewrite Hn, Ho, Hs. simpl. rewrite Hob, Hsb. simpl.
  by destruct (names !! r).
Qed.

(** The effect of one iteration of the outer loop. *)
Lemma mine_outer_step (n : nat) (name : string) (neg_ids neg_ids' : list (list Z)) :
  names !! n = Some name →
  (obj_id ← getitem_nat (r_obj_ids (relations a)) n;
   subj_id ← getitem_nat (r_subj_ids (relations a)) n;
   obj_box ← getitem (o_boxes (objects a)) obj_id;
   subj_box ← getitem (o_boxes (objects a)) subj_id;
   if name_in name r1_preds then
     mine_relation (rule1_applies a name subj_id obj_id subj_box) a n neg_ids
   else if name_in name r2_preds then
     mine_relation (rule2_applies a name subj_id obj_id obj_box) a n neg_ids
   else Ok neg_ids) = Ok neg_ids' →
  ∀ r, neg_ids' !! r
       = (fun cur => cur ++ if contributes r1_preds r2_preds a r n
                            then option_list (ids !! n) else [])
         <$> neg_ids !! r.
Proof.
  intros Hname.
  intros (obj_id & Ho%getitem_nat_Ok & (subj_id & Hs%getitem_nat_Ok &
    (obj_box & Hob & (subj_box & Hsb & Hrest)%bind_Ok)%bind_Ok)%bind_Ok)%bind_Ok r.
  unfold contributes.
  rewrite (rule_at_unfold n r name obj_id subj_id obj_box subj_box) by done.
  destruct (name_in name r1_preds).
  { unfold mine_relation in Hrest.
    rewrite (mine_step _ n _ _ _ Hrest r), appended_enumerate.
    by destruct (names !! r). }
  destruct (name_in name r2_preds).
  { unfold mine_relation in Hrest.
    rewrite (mine_step _ n _ _ _ Hrest r), appended_enumerate.
    by destruct (names !! r). }
  injection Hrest as <-.
  destruct (names !! r); destruct (neg_ids !! r); simpl; by rewrite ?app_nil_r.
Qed.

Lemma mine_outer (l : list (nat * string)) : ∀ neg_ids neg_ids' : list (list Z),
  (∀ p, p ∈ l → names !! p.1 = Some p.2) →
  fold_result (fun (neg_ids : list (list Z)) (n_name : nat * string) =>
      let (n_cnt, name) := n_name in
      obj_id ← getitem_nat (r_obj_ids (relations a)) n_cnt;
      subj_id ← getitem_nat (r_subj_ids (relations a)) n_cnt;
      obj_box ← getitem (o_boxes (objects a)) obj_id;
      subj_box ← getitem (o_boxes (objects a)) subj_id;
      if name_in name r1_preds then
        mine_relation (rule1_applies a name subj_id obj_id subj_box) a n_cnt neg_ids
      else if name_in name r2_preds then
        mine_relation (rule2_applies a name subj_id obj_id obj_box) a n_cnt neg_ids
      else Ok neg_ids) l neg_ids = Ok neg_ids' →
  ∀ r, neg_ids' !! r
       = (fun cur => cur ++ flat_map (fun n =>
              if contributes r1_preds r2_preds a r n
              then option_list (ids !! n) else []) (map fst l))
         <$> neg_ids !! r.
Proof.
  induction l as [|[n name] l IH]; intros neg neg' Hl; simpl.
  - intros [= <-] r. destruct (neg !! r); simpl; by rewrite ?app_nil_r.
  - intros (neg1 & Hstep & Hrest)%bind_Ok r.
    rewrite (IH _ _ (fun p Hp => Hl p (list_elem_of_further _ _ _ Hp)) Hrest r).
    rewrite (mine_outer_step n name neg neg1 (Hl (n, name) (list_elem_of_here _ _)) Hstep r).
    destruct (neg !! r); simpl; [|done]. by rewrite <- app_assoc.
Qed.

Lemma flat_map_filter {A B : Type} (f : A → bool) (g : A → list B) (l : list A) :
  flat_map (fun x => if f x then g x else []) l
  = flat_map g (filter (fun x => f x = true) l).
Proof.
  induction l as [|x l IH]; simpl; [done|].
  destruct (f x) eqn:Hf.
  - rewrite filter_cons_True by done. simpl. by rewrite IH.
  - rewrite filter_cons_False by (by rewrite Hf). done.
Qed.

(** The negative list of every relation, in closed form. *)
Lemma mine_negatives_spec (negs : list (list Z)) (r : nat) :
  mine_negatives r1_preds r2_preds a = Ok negs →
  (r < length ids)%nat →
  negs !! r
  = Some (flat_map (fun n => option_list (ids !! n))
            (contributors r1_preds r2_preds a r)).
Proof.
  unfold mine_negatives. intros Hmine Hr.
  assert (Hl : ∀ p : nat * string, p ∈ enumerate names → names !! p.1 = Some p.2).
  { intros [n name] Hp. by apply enumerate_lookup. }
  rewrite (mine_outer _ _ _ Hl Hmine r).
  rewrite lookup_replicate_lt by done. simpl.
  by rewrite enumerate_fst, flat_map_filter.
Qed.
End Mining.

(** Beyond that size the rounding decides: on two boxes of areas 10^18 and
    9 * 10^17 - 1 the quotient is below 9/10 by 10^-18, its rounding is the
    double 0.9, and the miner records nothing. *)
Example mine_rule1_rounding :
  (∃ q, compute_overlap (Bbox 0 0 0 (9 * 10 ^ 17 - 2)) (Bbox 0 0 0 (10 ^ 18 - 1)) = Ok q
        ∧ (q < 9 # 10)%Q) ∧
  mine_negatives ["riding"] []
    (Anno "d.jpg" 0 1 (10 ^ 18)
       (AnnoObjects [0; 1; 1] ["horse"; "person"; "person"]
          [Bbox 0 0 0 9; Bbox 0 0 0 (10 ^ 18 - 1); Bbox 0 0 0 (9 * 10 ^ 17 - 2)])
       (AnnoRelations [1; 0] ["riding"; "near"] [1; 2] [0; 0] None))
  = Ok [[]; []].
Proof.
  split.
  - eexists. split; [reflexivity|]. by vm_compute.
  - by vm_compute.
Qed.



Example mine_rule1_overlapping :
  mine_negatives ["riding"] []
    (Anno "b.jpg" 0 10 10
       (AnnoObjects [0; 1; 1] ["horse"; "person"; "person"]
          [Bbox 2 9 0 6; Bbox 0 9 0 9; Bbox 0 9 0 8])
       (AnnoRelations [1; 0] ["riding"; "near"] [1; 2] [0; 0] None))
  = Ok [[]; []].
Proof. reflexivity. Qed.

Example mine_rule1_disjoint :
  mine_negatives ["riding"] []
    (Anno "c.jpg" 0 10 10
       (AnnoObjects [0; 1; 1] ["horse"; "person"; "person"]
          [Bbox 2 9 0 6; Bbox 0 4 0 4; Bbox 5 9 5 9])
       (AnnoRelations [1; 0] ["riding"; "near"] [1; 2] [0; 0] None))
  = Ok [[]; [1]].
Proof. reflexivity. Qed.

(** * Further properties *)

(** ** Box geometry *)

Lemma clamp_mul_le (w h w' h' : Z) :
  w ≤ w' → h ≤ h' → Z.max 0 w * Z.max 0 h ≤ Z.max 0 w' * Z.max 0 h'.
Proof. intros Hw Hh. apply Z.mul_le_mono_nonneg; lia. Qed.

(** The intersection box is no larger than either box. *)
Lemma intersection_area_le (b0 b1 : bbox) :
  let ib := Bbox (Z.max (y_min b0) (y_min b1)) (Z.min (y_max b0) (y_max b1))
                 (Z.max (x_min b0) (x_min b1)) (Z.min (x_max b0) (x_max b1)) in
  0 ≤ compute_area ib ∧ compute_area ib ≤ compute_area b0 ∧
  compute_area ib ≤ compute_area b1.
Proof.
  intros ib. split; [apply compute_area_nonneg|].
  unfold compute_area, ib. simpl. split; apply clamp_mul_le; lia.
Qed.

(** X1: whenever [compute_overlap] returns, its value lies between 0 and 1,
    as the docstring (overlap <= 1) says. *)
Theorem X1_overlap_bounds (b0 b1 : bbox) (q : Q) :
  compute_overlap b0 b1 = Ok q → (0 <= q)%Q ∧ (q <= 1)%Q.
Proof.
  unfold compute_overlap.
  destruct (intersection_area_le b0 b1) as (H0 & Hle0 & Hle1).
  set (ia := compute_area _) in *.
  pose proof (compute_area_nonneg b1) as Hb1.
  intros [Hne ->]%truediv_Ok.
  assert (Hpos : 0 < compute_area b0 + compute_area b1 - ia) by lia.
  assert (HposQ : (0 < inject_Z (compute_area b0 + compute_area b1 - ia))%Q).
  { change 0%Q with (inject_Z 0). by rewrite <- Zlt_Qlt. }
  split.
  - apply Qle_shift_div_l; [done|]. rewrite Qmult_0_l.
    change 0%Q with (inject_Z 0). by rewrite <- Zle_Qle.
  - apply Qle_shift_div_r; [done|]. rewrite Qmult_1_l.
    rewrite <- Zle_Qle. lia.
Qed.

Lemma X1_overlap_bounds_witness :
  (0 <= 50 # 150)%Q ∧ (50 # 150 <= 1)%Q.
Proof.
  apply (X1_overlap_bounds (Bbox 0 9 0 9) (Bbox 0 9 5 14) (50 # 150)).
  reflexivity.
Defined.

(** X2: the overlap does not depend on the order of the two boxes, errors
    included. *)
Theorem X2_overlap_symmetric (b0 b1 : bbox) :
  compute_overlap b0 b1 = compute_overlap b1 b0.
Proof.
  unfold compute_overlap.
  rewrite (Z.max_comm (y_min b0)), (Z.min_comm (y_max b0)),
    (Z.max_comm (x_min b0)), (Z.min_comm (x_max b0)).
  by rewrite (Z.add_comm (compute_area b0)).
Qed.

(** X3: [compute_overlap] returns a ratio exactly when one of the two boxes
    has a positive area; its only exception is [ZeroDivisionError], raised
    exactly when both areas are 0. *)
Theorem X3_overlap_defined (b0 b1 : bbox) :
  ((0 < compute_area b0 ∨ 0 < compute_area b1) ↔
   ∃ q, compute_overlap b0 b1 = Ok q) ∧
  ((compute_area b0 = 0 ∧ compute_area b1 = 0) ↔
   compute_overlap b0 b1 = Raise ZeroDivisionError) ∧
  (∀ e, compute_overlap b0 b1 = Raise e → e = ZeroDivisionError).
Proof.
  pose proof (compute_area_nonneg b0) as Hb0.
  pose proof (compute_area_nonneg b1) as Hb1.
  destruct (intersection_area_le b0 b1) as (H0 & Hle0 & Hle1).
  assert (Hdef : (0 < compute_area b0 ∨ 0 < compute_area b1) →
                 ∃ q, compute_overlap b0 b1 = Ok q).
  { intros Hpos. unfold compute_overlap, truediv.
    set (ia := compute_area (Bbox _ _ _ _)) in *.
    destruct (Z.eqb_spec (compute_area b0 + compute_area b1 - ia) 0); [lia|].
    by eexists. }
  split_and!.
  - split; [done|]. intros [q Hq].
    destruct (Z.eq_dec (compute_area b0) 0) as [E0|]; [|lia].
    destruct (Z.eq_dec (compute_area b1) 0) as [E1|]; [|lia].
    by rewrite compute_overlap_union_zero in Hq.
  - split; [intros [? ?]; by apply compute_overlap_union_zero|].
    intros Hraise.
    destruct (Z.eq_dec (compute_area b0) 0) as [E0|];
      [destruct (Z.eq_dec (compute_area b1) 0) as [E1|]; [done|]|].
    + destruct Hdef as [q Hq]; [lia | congruence].
    + destruct Hdef as [q Hq]; [lia | congruence].
  - unfold compute_overlap, truediv. intros e.
    destruct (_ =? 0); congruence.
Qed.

(** X4: a box of positive area overlaps itself with ratio 1, and two boxes
    that are disjoint along one axis overlap with ratio 0. *)
Theorem X4_overlap_identical_disjoint (b0 b1 : bbox) (q : Q) :
  compute_overlap b0 b1 = Ok q →
  (b0 = b1 → (q == 1)%Q) ∧
  (x_max b0 < x_min b1 ∨ x_max b1 < x_min b0 ∨
   y_max b0 < y_min b1 ∨ y_max b1 < y_min b0 → (q == 0)%Q).
Proof.
  intros Hq. split.
  - intros <-. by apply (compute_overlap_self b0).
  - intros Hdis. unfold compute_overlap in Hq.
    apply truediv_Ok in Hq as [_ ->].
    assert (compute_area
      (Bbox (Z.max (y_min b0) (y_min b1)) (Z.min (y_max b0) (y_max b1))
            (Z.max (x_min b0) (x_min b1)) (Z.min (x_max b0) (x_max b1))) = 0) as ->.
    { unfold compute_area. simpl.
      destruct Hdis as [?|[?|[?|?]]].
      - rewrite (Z.max_l 0 (Z.min (x_max b0) (x_max b1) - _ + 1)) by lia. lia.
      - rewrite (Z.max_l 0 (Z.min (x_max b0) (x_max b1) - _ + 1)) by lia. lia.
      - rewrite (Z.max_l 0 (Z.min (y_max b0) (y_max b1) - _ + 1)) by lia. lia.
      - rewrite (Z.max_l 0 (Z.min (y_max b0) (y_max b1) - _ + 1)) by lia. lia. }
    unfold Qdiv. apply Qmult_0_l.
Qed.

Lemma X4_overlap_witness :
  (Bbox 0 4 0 4 = Bbox 0 4 7 9 → (0 # 40 == 1)%Q) ∧
  (4 < 7 ∨ 9 < 0 ∨ 4 < 0 ∨ 4 < 0 → (0 # 40 == 0)%Q).
Proof.
  apply (X4_overlap_identical_disjoint (Bbox 0 4 0 4) (Bbox 0 4 7 9) (0 # 40)).
  reflexivity.
Defined.

(** ** Synonym closure *)

(** Whatever the loop body preserves holds of the matrix the loop returns. *)
Lemma densify_loop_invariant (P : matrix → Prop) (fuel : nat) :
  (∀ m, P m → P (densify_step m)) →
  ∀ mat old M, densify_loop fuel mat old = Some M → P mat → P M.
Proof.
  intros Hstep. induction fuel as [|fuel IH]; intros mat old M; simpl; [done|].
  destruct (any_neq mat old).
  - intros HM Hmat. eapply IH; [exact HM|]. by apply Hstep.
  - by intros [= <-].
Qed.

Lemma densify_mat_fixed_point (n fuel : nat) (M : matrix) :
  square n M → densify_step M = M → (2 ≤ fuel)%nat → _densify_mat fuel M = Some M.
Proof.
  intros Hsq Hfix Hfuel. unfold _densify_mat.
  destruct fuel as [|[|fuel]]; [lia..|]. simpl.
  destruct (any_neq M (zeros_like M)); [|done].
  rewrite Hfix. by rewrite (proj2 (any_neq_false n M M Hsq Hsq)).
Qed.

(** X5: the closure is idempotent.  A matrix that the loop body leaves
    unchanged is returned as it is, so closing the matrix returned by
    [_densify_mat] once more gives the same matrix. *)
Theorem X5_densify_idempotent (n fuel : nat) (mat : matrix) :
  square n mat → is01 mat → (n * n + 2 ≤ fuel)%nat →
  ∃ M, _densify_mat fuel mat = Some M ∧ _densify_mat fuel M = Some M.
Proof.
  intros Hsq H01 Hfuel.
  destruct (densify_mat_converges n fuel mat Hsq H01 Hfuel)
    as (M & HM & Hfix & HsqM & _).
  exists M. split; [done|]. apply (densify_mat_fixed_point n); [done..|lia].
Qed.

Lemma X5_densify_idempotent_witness :
  ∃ M, _densify_mat 11 [[1; 1; 0]; [0; 1; 1]; [0; 0; 1]] = Some M ∧
       _densify_mat 11 M = Some M.
Proof.
  apply (X5_densify_idempotent 3 11 [[1; 1; 0]; [0; 1; 1]; [0; 0; 1]]).
  - solve_shape.
  - solve_shape.
  - lia.
Defined.

Lemma dot_pos_witness (u v : list Z) :
  Forall (fun x => x = 0 ∨ x = 1) u → Forall (fun x => x = 0 ∨ x = 1) v →
  0 < dot u v → ∃ k, nth k u 0 = 1 ∧ nth k v 0 = 1.
Proof.
  intros Hu. revert v. induction Hu as [|x u Hx Hu IH]; intros v Hv; [by unfold dot|].
  destruct Hv as [|y v Hy Hv]; [by unfold dot|].
  unfold dot in *. simpl. intros Hpos.
  destruct Hx as [-> | ->], Hy as [-> | ->];
    try (destruct (IH v Hv) as (k & ? & ?); [lia|]; by exists (S k)).
  by exists 0%nat.
Qed.

Lemma col_is01 (m : matrix) (i : nat) :
  is01 m → Forall (fun x => x = 0 ∨ x = 1) (col i m).
Proof.
  intros H. unfold col. apply List.Forall_forall. intros x Hx.
  apply List.in_map_iff in Hx as (r & <- & Hr).
  unfold is01 in H. rewrite List.Forall_forall in H. specialize (H r Hr).
  destruct (Nat.lt_ge_cases i (length r)) as [Hi|Hi].
  - rewrite List.Forall_forall in H. apply H, nth_In, Hi.
  - rewrite nth_overflow by done. by left.
Qed.

Section Least.
Variable n : nat.
Implicit Types (i j k : nat) (m E : matrix).

Lemma densify_step_below m E :
  square n m → is01 m → below n m E →
  (∀ i j, (i < n)%nat → (j < n)%nat → entry E i j = 1 → entry E j i = 1) →
  (∀ i j k, (i < n)%nat → (j < n)%nat → (k < n)%nat →
     entry E i j = 1 → entry E j k = 1 → entry E i k = 1) →
  below n (densify_step m) E.
Proof.
  intros Hsq H01 Hbelow Hsym Htrans i j Hi Hj.
  rewrite (entry_densify_step n) by done. intros Hone.
  destruct (is01_entry n m i j Hsq H01 Hi Hj) as [Hz|Ho]; [|by apply Hbelow].
  pose proof (dot_nonneg _ _ (col_nonneg m i H01) (col_nonneg m j H01)) as Hd.
  destruct (dot_pos_witness _ _ (col_is01 m i H01) (col_is01 m j H01))
    as (k & Hki & Hkj); [lia|].
  rewrite nth_col in Hki, Hkj.
  assert (Hk : (k < n)%nat).
  { destruct (Nat.lt_ge_cases k n) as [?|Hge]; [done|].
    unfold entry in Hki. destruct Hsq as [Hlen _].
    rewrite (nth_overflow m) in Hki by lia. by destruct i. }
  apply (Htrans i k j); [done..| |by apply Hbelow].
  apply Hsym; [done..|]. by apply Hbelow.
Qed.

(** X6: the matrix returned by [_densify_mat] contains the input, and it is
    the least such closure: it lies below every symmetric and transitive
    matrix that contains the input. *)
Theorem X6_densify_least (fuel : nat) (mat E : matrix) :
  square n mat → is01 mat → (n * n + 2 ≤ fuel)%nat →
  ∃ M, _densify_mat fuel mat = Some M ∧
    below n mat M ∧
    (below n mat E →
     (∀ i j, (i < n)%nat → (j < n)%nat → entry E i j = 1 → entry E j i = 1) →
     (∀ i j k, (i < n)%nat → (j < n)%nat → (k < n)%nat →
        entry E i j = 1 → entry E j k = 1 → entry E i k = 1) →
     below n M E).
Proof.
  intros Hsq H01 Hfuel.
  destruct (densify_mat_converges n fuel mat Hsq H01 Hfuel)
    as (M & HM & Hfix & HsqM & H01M & Hle).
  exists M. split; [done|]. split.
  - intros i j Hi Hj Hone. specialize (Hle i j Hi Hj).
    destruct (is01_entry n M i j HsqM H01M Hi Hj); lia.
  - intros Hbelow Hsym Htrans.
    apply (densify_loop_invariant
      (fun m => square n m ∧ is01 m ∧ below n m E) fuel) in HM.
    + by destruct HM as (_ & _ & ?).
    + intros m (Hsqm & H01m & Hbm). split_and!.
      * by apply densify_step_square.
      * by apply (densify_step_is01 n).
      * by apply densify_step_below.
    + done.
Qed.
End Least.

Lemma X6_densify_least_witness :
  ∃ M, _densify_mat 11 [[1; 1; 0]; [0; 1; 0]; [0; 0; 1]] = Some M ∧
    below 3 [[1; 1; 0]; [0; 1; 0]; [0; 0; 1]] M ∧
    (below 3 [[1; 1; 0]; [0; 1; 0]; [0; 0; 1]] [[1; 1; 1]; [1; 1; 1]; [1; 1; 1]] →
     (∀ i j, (i < 3)%nat → (j < 3)%nat →
        entry [[1; 1; 1]; [1; 1; 1]; [1; 1; 1]] i j = 1 →
        entry [[1; 1; 1]; [1; 1; 1]; [1; 1; 1]] j i = 1) →
     (∀ i j k, (i < 3)%nat → (j < 3)%nat → (k < 3)%nat →
        entry [[1; 1; 1]; [1; 1; 1]; [1; 1; 1]] i j = 1 →
        entry [[1; 1; 1]; [1; 1; 1]; [1; 1; 1]] j k = 1 →
        entry [[1; 1; 1]; [1; 1; 1]; [1; 1; 1]] i k = 1) →
     below 3 M [[1; 1; 1]; [1; 1; 1]; [1; 1; 1]]).
Proof.
  apply (X6_densify_least 3 11 [[1; 1; 0]; [0; 1; 0]; [0; 0; 1]]
           [[1; 1; 1]; [1; 1; 1]; [1; 1; 1]]).
  - solve_shape.
  - solve_shape.
  - lia.
Defined.
(** ** The canonical predicate of a synonym class: [argmax(1)] *)

Lemma argmax_from_one (l : list Z) : ∀ bi i : nat,
  Forall (fun x => x = 0 ∨ x = 1) l → argmax_from bi 1 i l = bi.
Proof.
  induction l as [|x l IH]; intros bi i Hl; simpl; [done|].
  apply Forall_cons in Hl as [Hx Hl].
  destruct (Z.ltb_spec 1 x); [lia|]. by apply IH.
Qed.

Lemma argmax_from_zero (l : list Z) : ∀ (bi i k : nat),
  Forall (fun x => x = 0 ∨ x = 1) l →
  nth k l 0 = 1 → (∀ k', (k' < k)%nat → nth k' l 0 ≠ 1) →
  argmax_from bi 0 i l = (i + k)%nat.
Proof.
  induction l as [|x l IH]; intros bi i k Hl Hk Hlt; simpl.
  - by destruct k.
  - apply Forall_cons in Hl as [Hx Hl]. destruct k as [|k]; simpl in Hk.
    + subst x. simpl. rewrite argmax_from_one by done. lia.
    + destruct Hx as [-> | ->]; [|by destruct (Hlt 0%nat); [lia|]].
      simpl. rewrite (IH bi (S i) k); [lia|done..|].
      intros k' Hk'. apply (Hlt (S k')). lia.
Qed.

(** On a 0/1 row, [argmax] is the position of the first 1. *)
Lemma argmax_first_one (x : Z) (l : list Z) (c : nat) :
  Forall (fun x => x = 0 ∨ x = 1) (x :: l) →
  nth c (x :: l) 0 = 1 → (∀ k, (k < c)%nat → nth k (x :: l) 0 ≠ 1) →
  argmax_from 0 x 1 l = c.
Proof.
  intros [Hx Hl]%Forall_cons Hc Hlt. destruct c as [|c]; simpl in Hc.
  - subst x. by apply argmax_from_one.
  - destruct Hx as [-> | ->]; [|by destruct (Hlt 0%nat); [lia|]].
    rewrite (argmax_from_zero l 0 1 c); [done..|].
    intros k' Hk'. apply (Hlt (S k')). lia.
Qed.

Lemma least_one (f : nat → Z) (i : nat) :
  f i = 1 → ∃ c, (c ≤ i)%nat ∧ f c = 1 ∧ ∀ k, (k < c)%nat → f k ≠ 1.
Proof.
  assert (Hsearch : ∀ m, (∀ k, (k < m)%nat → f k ≠ 1) ∨
            ∃ c, (c < m)%nat ∧ f c = 1 ∧ ∀ k, (k < c)%nat → f k ≠ 1).
  { induction m as [|m [Hno|(c & Hc & Hfc & Hleast)]].
    - left. lia.
    - destruct (decide (f m = 1)) as [Hm|Hm].
      + right. exists m. split_and!; [lia|done..].
      + left. intros k Hk. destruct (decide (k = m)) as [->|]; [done|].
        apply Hno. lia.
    - right. exists c. split_and!; [lia|done..]. }
  intros Hi. destruct (Hsearch (S i)) as [Hno|(c & Hc & Hfc & Hleast)].
  - destruct (Hno i); [lia|done].
  - exists c. split_and!; [lia|done..].
Qed.

Lemma argmax_rows_Ok (n : nat) (M : matrix) :
  square n M → (0 < n)%nat →
  ∃ canon, argmax_rows M = Ok canon ∧ length canon = n ∧
    ∀ i, (i < n)%nat →
      ∃ x l, nth i M [] = x :: l ∧ canon !! i = Some (Z.of_nat (argmax_from 0 x 1 l)).
Proof.
  intros [Hlen Hrows] Hn.
  destruct (map_result_total
    (fun row => match row with
                | [] => Raise ValueError
                | x :: l => Ok (Z.of_nat (argmax_from 0 x 1 l))
                end) M) as [canon Hcanon].
  { intros row Hrow. rewrite List.Forall_forall in Hrows.
    specialize (Hrows row (proj1 (list_elem_of_In _ _) Hrow)).
    destruct row as [|x l]; [simpl in Hrows; lia|by eexists]. }
  exists canon. split_and!.
  - unfold argmax_rows. destruct M; [simpl in Hlen; lia|done].
  - by rewrite (map_result_length _ _ _ Hcanon).
  - intros i Hi.
    destruct (lookup_lt_is_Some_2 M i) as [row Hrow]; [lia|].
    destruct (map_result_lookup _ _ _ _ _ Hcanon Hrow) as (y & Hy & Hf).
    rewrite (nth_lookup_Some _ _ _ _ Hrow).
    destruct row as [|x l]; [done|]. injection Hf as <-. by exists x, l.
Qed.

(** The closure of a reflexive 0/1 matrix and its canonical indices. *)
Lemma closure_canonical (n fuel : nat) (mat : matrix) :
  square n mat → is01 mat →
  (∀ i, (i < n)%nat → entry mat i i = 1) →
  (0 < n)%nat → (n * n + 2 ≤ fuel)%nat →
  ∃ M canon, _densify_mat fuel mat = Some M ∧ argmax_rows M = Ok canon ∧
    length canon = n ∧
    (∀ i j, (i < n)%nat → (j < n)%nat → entry mat i j = 1 → entry M i j = 1) ∧
    ∀ i, (i < n)%nat →
      ∃ c, canon !! i = Some (Z.of_nat c) ∧ (c ≤ i)%nat ∧ entry M i c = 1 ∧
           canon !! c = Some (Z.of_nat c) ∧
           ∀ j, (j < n)%nat →
             (entry M i j = 1 ↔ canon !! j = Some (Z.of_nat c)).
Proof.
  intros Hsq H01 Hrefl Hn Hfuel.
  destruct (densify_mat_converges n fuel mat Hsq H01 Hfuel)
    as (M & HM & Hfix & HsqM & H01M & Hle).
  assert (HreflM : ∀ k, (k < n)%nat → entry M k k = 1).
  { intros k Hk. specialize (Hle k k Hk Hk). rewrite Hrefl in Hle by done.
    destruct (is01_entry n M k k HsqM H01M Hk Hk); lia. }
  pose proof (fun i j => fixed_point_symmetric n M i j HsqM H01M Hfix HreflM) as Hsym.
  pose proof (fun i j k => fixed_point_transitive n M i j k HsqM H01M Hfix HreflM)
    as Htrans.
  destruct (argmax_rows_Ok n M HsqM Hn) as (canon & Hcanon & Hlen & Hrow).
  (* the image of a row is the position of its first 1 *)
  assert (Hfirst : ∀ i c, (i < n)%nat → entry M i c = 1 →
            (∀ k, (k < c)%nat → entry M i k ≠ 1) → canon !! i = Some (Z.of_nat c)).
  { intros i c Hi Hc Hlt. destruct (Hrow i Hi) as (x & l & Hxl & ->).
    do 2 f_equal. apply argmax_first_one.
    - rewrite <- Hxl. unfold is01 in H01M. rewrite List.Forall_forall in H01M.
      apply H01M, nth_In. destruct HsqM. lia.
    - rewrite <- Hxl. exact Hc.
    - intros k Hk. rewrite <- Hxl. by apply Hlt. }
  assert (Hin : ∀ i c, (i < n)%nat → entry M i c = 1 → (c < n)%nat).
  { intros i c Hi Hc. destruct (Nat.lt_ge_cases c n) as [?|Hge]; [done|].
    unfold entry in Hc. rewrite nth_overflow in Hc; [done|].
    destruct HsqM as [Hl Hr]. rewrite List.Forall_forall in Hr.
    rewrite (Hr (nth i M [])); [lia|]. apply nth_In. lia. }
  exists M, canon. split_and!; [done..| |].
  { intros i j Hi Hj Hone. specialize (Hle i j Hi Hj).
    destruct (is01_entry n M i j HsqM H01M Hi Hj); lia. }
  intros i Hi.
  destruct (least_one (entry M i) i (HreflM i Hi)) as (c & Hci & Hc & Hleast).
  assert (Hcn : (c < n)%nat) by lia.
  (* every row related to [i] has its first 1 at [c] *)
  assert (Hclass : ∀ j, (j < n)%nat → entry M i j = 1 →
            canon !! j = Some (Z.of_nat c)).
  { intros j Hj Hij. apply Hfirst; [done| |].
    - apply (Htrans j i c); [done..| |done]. by apply Hsym.
    - intros k Hk Hjk. apply (Hleast k Hk).
      apply (Htrans i j k); [done..|lia|done|done]. }
  exists c. split_and!; [by apply Hclass, HreflM|done|done|by apply Hclass|].
  intros j Hj. split; [by apply Hclass|].
  intros Hjc.
  destruct (least_one (entry M j) j (HreflM j Hj)) as (c' & Hc'j & Hc' & Hleast').
  rewrite (Hfirst j c' Hj Hc' Hleast') in Hjc.
  injection Hjc as Heq. apply Nat2Z.inj in Heq. subst c'.
  apply (Htrans i c j); [done..|]. by apply Hsym.
Qed.

(** X7: on the closure of a reflexive 0/1 matrix, [argmax(1)] sends every
    index to the least index of its class: the image [c] of [i] is at most
    [i], is related to [i], is its own image, and the indices with image
    [c] are exactly the indices related to [i]. *)
Theorem X7_argmax_canonical (n fuel : nat) (mat : matrix) :
  square n mat → is01 mat →
  (∀ i, (i < n)%nat → entry mat i i = 1) →
  (0 < n)%nat → (n * n + 2 ≤ fuel)%nat →
  ∃ M canon, _densify_mat fuel mat = Some M ∧ argmax_rows M = Ok canon ∧
    length canon = n ∧
    ∀ i, (i < n)%nat →
      ∃ c, canon !! i = Some (Z.of_nat c) ∧ (c ≤ i)%nat ∧ entry M i c = 1 ∧
           canon !! c = Some (Z.of_nat c) ∧
           ∀ j, (j < n)%nat →
             (entry M i j = 1 ↔ canon !! j = Some (Z.of_nat c)).
Proof.
  intros Hsq H01 Hrefl Hn Hfuel.
  destruct (closure_canonical n fuel mat Hsq H01 Hrefl Hn Hfuel)
    as (M & canon & HM & Hcanon & Hlen & _ & Hclass).
  by exists M, canon.
Qed.

Lemma X7_argmax_canonical_witness :
  ∃ M canon, _densify_mat 11 [[1; 0; 0]; [0; 1; 1]; [0; 0; 1]] = Some M ∧
    argmax_rows M = Ok canon ∧ length canon = 3%nat ∧
    ∀ i, (i < 3)%nat →
      ∃ c, canon !! i = Some (Z.of_nat c) ∧ (c ≤ i)%nat ∧ entry M i c = 1 ∧
           canon !! c = Some (Z.of_nat c) ∧
           ∀ j, (j < 3)%nat →
             (entry M i j = 1 ↔ canon !! j = Some (Z.of_nat c)).
Proof.
  apply (X7_argmax_canonical 3 11 [[1; 0; 0]; [0; 1; 1]; [0; 0; 1]]).
  - solve_shape.
  - solve_shape.
  - intros [|[|[|i]]] Hi; [reflexivity..|lia].
  - lia.
  - lia.
Defined.
(** ** Vocabularies *)

Lemma ascii_compare_N (a b : Ascii.ascii) :
  Ascii.compare a b = N.compare (Ascii.N_of_ascii a) (Ascii.N_of_ascii b).
Proof. reflexivity. Qed.

Lemma string_compare_lt_trans (s1 : string) : ∀ s2 s3,
  String.compare s1 s2 = Lt → String.compare s2 s3 = Lt → String.compare s1 s3 = Lt.
Proof.
  induction s1 as [|c1 s1 IH]; intros [|c2 s2] [|c3 s3]; simpl; try done.
  rewrite !ascii_compare_N.
  destruct (N.compare_spec (Ascii.N_of_ascii c1) (Ascii.N_of_ascii c2)) as [H12|H12|H12];
    [|
    |done].
  - rewrite H12. destruct (N.compare (Ascii.N_of_ascii c2) (Ascii.N_of_ascii c3));
      [apply IH|done..].
  - intros _.
    destruct (N.compare_spec (Ascii.N_of_ascii c2) (Ascii.N_of_ascii c3)) as [H23|H23|H23];
      [| |done].
    + intros _. rewrite <- H23. by rewrite (proj2 (N.compare_lt_iff _ _) H12).
    + intros _. rewrite (proj2 (N.compare_lt_iff _ _)); [done|]. lia.
Qed.

Lemma str_le_iff (x y : string) : str_le x y ↔ x = y ∨ String.compare x y = Lt.
Proof.
  unfold str_le, String.leb.
  destruct (String.compare x y) eqn:Hc; split; try done.
  - intros _. left. by apply String.compare_eq_iff.
  - by right.
  - intros [->|?]; [|done].
    assert (String.compare y y = Eq) as Hrefl.
    { clear Hc. induction y as [|c y IH]; simpl; [done|].
      rewrite ascii_compare_N, N.compare_refl. exact IH. }
    congruence.
Qed.

#[local] Instance str_le_trans : Transitive str_le.
Proof.
  intros x y z. rewrite !str_le_iff. intros [->|Hxy] [->|Hyz]; auto.
  right. by apply (string_compare_lt_trans x y z).
Qed.

#[local] Instance str_le_antisym : AntiSymm (=) str_le.
Proof. intros x y. apply String.leb_antisym. Qed.

Lemma insert_str_perm (x : string) (l : list string) : insert_str x l ≡ₚ x :: l.
Proof.
  induction l as [|y l IH]; simpl; [done|].
  destruct (String.leb x y); [done|]. rewrite IH. apply perm_swap.
Qed.

Lemma sorted_str_perm (l : list string) : sorted_str l ≡ₚ l.
Proof.
  induction l as [|x l IH]; simpl; [done|]. by rewrite insert_str_perm, IH.
Qed.

Lemma insert_str_sorted (x : string) (l : list string) :
  StronglySorted str_le l → StronglySorted str_le (insert_str x l).
Proof.
  induction 1 as [|y l Hl IH Hy]; simpl.
  - repeat constructor.
  - destruct (String.leb x y) eqn:Hxy.
    + constructor; [by constructor|]. constructor; [done|].
      eapply Forall_impl; [exact Hy|]. intros z Hz. by trans y.
    + constructor; [done|]. rewrite insert_str_perm. constructor; [|done].
      destruct (String.leb_total x y) as [?|?]; [congruence|done].
Qed.

Lemma sorted_str_sorted (l : list string) : StronglySorted str_le (sorted_str l).
Proof.
  induction l as [|x l IH]; simpl; [constructor | by apply insert_str_sorted].
Qed.

(** Sorting forgets the order of its input. *)
Lemma sorted_str_order_free (l1 l2 : list string) :
  l1 ≡ₚ l2 → sorted_str l1 = sorted_str l2.
Proof.
  intros Hperm. apply (StronglySorted_unique str_le); [apply sorted_str_sorted..|].
  by rewrite !sorted_str_perm.
Qed.

Lemma reverse_elements_admissible_names :
  admissible_names (fun s : gset string => reverse (elements s)).
Proof. intros s. apply reverse_Permutation. Qed.

Lemma elements_admissible_names : admissible_names elements.
Proof. by intros s. Qed.

(** X8: the two vocabularies do not depend on the order in which Python
    iterates the sets of names: any two iteration orders give the same
    lists. *)
Theorem X8_vocabulary_order_free (sl1 sl2 : gset string → list string)
    (annos : list norm_anno) :
  admissible_names sl1 → admissible_names sl2 →
  save_predicates_objects sl1 annos = save_predicates_objects sl2 annos.
Proof.
  intros H1 H2. unfold save_predicates_objects.
  f_equal; [f_equal|]; apply sorted_str_order_free;
    (etrans; [apply H1|symmetry; apply H2]).
Qed.

Lemma X8_vocabulary_order_free_witness :
  save_predicates_objects elements
    [NormAnno "a.jpg" 0 10 10 (NormObjects ["road"; "car"] [Bbox 4 9 0 9; Bbox 0 5 0 5])
       (NormRelations ["on"; "near"] [1; 1] [0; 0])]
  = save_predicates_objects (fun s => reverse (elements s))
    [NormAnno "a.jpg" 0 10 10 (NormObjects ["road"; "car"] [Bbox 4 9 0 9; Bbox 0 5 0 5])
       (NormRelations ["on"; "near"] [1; 1] [0; 0])].
Proof.
  apply X8_vocabulary_order_free.
  - apply elements_admissible_names.
  - apply reverse_elements_admissible_names.
Defined.

Section Vocabulary.
Variable set_list : gset string → list string.
Hypothesis set_list_admissible : admissible_names set_list.

Lemma sorted_set_elem (l : list string) (x : string) :
  x ∈ sorted_str (set_list (list_to_set l)) ↔ x ∈ l.
Proof.
  rewrite sorted_str_perm, (set_list_admissible _), elem_of_elements.
  apply elem_of_list_to_set.
Qed.

Lemma sorted_set_NoDup (l : list string) :
  NoDup (sorted_str (set_list (list_to_set l))).
Proof.
  rewrite sorted_str_perm, (set_list_admissible _). apply NoDup_elements.
Qed.

Lemma predicates_elem (annos : list norm_anno) (name : string) :
  name ∈ (save_predicates_objects set_list annos).1 ↔
  name = background ∨ ∃ a, a ∈ annos ∧ name ∈ nrel_names (n_relations a).
Proof.
  unfold save_predicates_objects. cbn [fst].
  rewrite elem_of_app, sorted_set_elem, elem_of_flat_map, list_elem_of_singleton.
  split.
  - intros [(a & Ha & [_ Hn]%list_elem_of_filter)| ->]; [right; by exists a|by left].
  - intros [->|(a & Ha & Hn)]; [by right|].
    destruct (decide (name = background)) as [->|Hne]; [by right|].
    left. exists a. split; [done|]. by apply list_elem_of_filter.
Qed.

Lemma objects_elem (annos : list norm_anno) (name : string) :
  name ∈ (save_predicates_objects set_list annos).2 ↔
  ∃ a, a ∈ annos ∧ name ∈ nobj_names (n_objects a).
Proof.
  unfold save_predicates_objects. cbn [snd].
  by rewrite sorted_set_elem, elem_of_flat_map.
Qed.

(** X9: the predicate vocabulary is the sorted, duplicate-free list of the
    relation names other than the background name, followed by the
    background name, which so has the last position and no other; the
    object vocabulary is the sorted, duplicate-free list of the object
    names. *)
Theorem X9_vocabulary_content (annos : list norm_anno) :
  ∃ preds,
    (save_predicates_objects set_list annos).1 = preds ++ [background] ∧
    StronglySorted str_le preds ∧
    NoDup (preds ++ [background]) ∧
    (∀ name, name ∈ preds ↔
       name ≠ background ∧ ∃ a, a ∈ annos ∧ name ∈ nrel_names (n_relations a)) ∧
    StronglySorted str_le (save_predicates_objects set_list annos).2 ∧
    NoDup (save_predicates_objects set_list annos).2 ∧
    (∀ name, name ∈ (save_predicates_objects set_list annos).2 ↔
       ∃ a, a ∈ annos ∧ name ∈ nobj_names (n_objects a)).
Proof.
  eexists. split; [reflexivity|].
  assert (Hel : ∀ name,
    name ∈ sorted_str (set_list (list_to_set
      (flat_map (fun anno =>
         filter (fun name => name ≠ background) (nrel_names (n_relations anno)))
         annos))) ↔
    name ≠ background ∧ ∃ a, a ∈ annos ∧ name ∈ nrel_names (n_relations a)).
  { intros name. rewrite sorted_set_elem, elem_of_flat_map. split.
    - intros (a & Ha & [Hne Hn]%list_elem_of_filter). split; [done|by exists a].
    - intros (Hne & a & Ha & Hn). exists a. split; [done|].
      by apply list_elem_of_filter. }
  split_and!.
  - apply sorted_str_sorted.
  - apply NoDup_app. split_and!.
    + apply sorted_set_NoDup.
    + intros name [Hne _]%Hel ->%list_elem_of_singleton. done.
    + apply NoDup_singleton.
  - exact Hel.
  - apply sorted_str_sorted.
  - apply sorted_set_NoDup.
  - apply objects_elem.
Qed.
End Vocabulary.

Lemma X9_vocabulary_content_witness :
  ∃ preds,
    (save_predicates_objects elements
       [NormAnno "a.jpg" 0 10 10
          (NormObjects ["road"; "car"] [Bbox 4 9 0 9; Bbox 0 5 0 5])
          (NormRelations ["on"; "near"] [1; 1] [0; 0])]).1
    = preds ++ [background] ∧
    StronglySorted str_le preds ∧
    NoDup (preds ++ [background]) ∧
    (∀ name, name ∈ preds ↔
       name ≠ background ∧
       ∃ a, a ∈ [NormAnno "a.jpg" 0 10 10
                   (NormObjects ["road"; "car"] [Bbox 4 9 0 9; Bbox 0 5 0 5])
                   (NormRelations ["on"; "near"] [1; 1] [0; 0])] ∧
            name ∈ nrel_names (n_relations a)) ∧
    StronglySorted str_le
      (save_predicates_objects elements
         [NormAnno "a.jpg" 0 10 10
            (NormObjects ["road"; "car"] [Bbox 4 9 0 9; Bbox 0 5 0 5])
            (NormRelations ["on"; "near"] [1; 1] [0; 0])]).2 ∧
    NoDup
      (save_predicates_objects elements
         [NormAnno "a.jpg" 0 10 10
            (NormObjects ["road"; "car"] [Bbox 4 9 0 9; Bbox 0 5 0 5])
            (NormRelations ["on"; "near"] [1; 1] [0; 0])]).2 ∧
    (∀ name,
       name ∈ (save_predicates_objects elements
         [NormAnno "a.jpg" 0 10 10
            (NormObjects ["road"; "car"] [Bbox 4 9 0 9; Bbox 0 5 0 5])
            (NormRelations ["on"; "near"] [1; 1] [0; 0])]).2 ↔
       ∃ a, a ∈ [NormAnno "a.jpg" 0 10 10
                   (NormObjects ["road"; "car"] [Bbox 4 9 0 9; Bbox 0 5 0 5])
                   (NormRelations ["on"; "near"] [1; 1] [0; 0])] ∧
            name ∈ nobj_names (n_objects a)).
Proof.
  apply (X9_vocabulary_content elements elements_admissible_names).
Defined.
(** ** Id assignment: [update_labels] *)

Section DictOfList.
Context {K V : Type} `{EqDecision K}.

Lemma fold_dict_set_get (kvs : list (K * V)) : ∀ (acc : dict K V) (k : K) (v : V),
  dict_get (fold_left (fun d kv => dict_set d kv.1 kv.2) kvs acc) k = Some v →
  (k, v) ∈ kvs ∨ dict_get acc k = Some v.
Proof.
  induction kvs as [|[k' v'] kvs IH]; intros acc k v; simpl; [by right|].
  intros [Hin|Hacc]%IH; [left; (by apply list_elem_of_further)|].
  rewrite dict_get_set in Hacc. destruct (decide (k = k')) as [->|]; [|by right].
  injection Hacc as ->. left. apply list_elem_of_here.
Qed.

Lemma fold_dict_set_None (kvs : list (K * V)) : ∀ (acc : dict K V) (k : K),
  dict_get (fold_left (fun d kv => dict_set d kv.1 kv.2) kvs acc) k = None ↔
  (k ∉ map fst kvs) ∧ dict_get acc k = None.
Proof.
  induction kvs as [|[k' v'] kvs IH]; intros acc k; simpl.
  - split; [intros ?; split; [apply not_elem_of_nil|done] | by intros [_ ?]].
  - rewrite IH, dict_get_set, not_elem_of_cons.
    destruct (decide (k = k')) as [->|Hne].
    + split; [by intros [_ ?]|by intros [[? _] _]].
    + split; [by intros [? ?]|by intros [[_ ?] ?]].
Qed.

Lemma dict_of_list_get (kvs : list (K * V)) (k : K) (v : V) :
  dict_get (dict_of_list kvs) k = Some v → (k, v) ∈ kvs.
Proof. by intros [?|?]%fold_dict_set_get. Qed.

Lemma dict_of_list_None (kvs : list (K * V)) (k : K) :
  dict_get (dict_of_list kvs) k = None ↔ k ∉ map fst kvs.
Proof.
  unfold dict_of_list. rewrite fold_dict_set_None.
  split; [by intros [? _]|by intros ?].
Qed.
End DictOfList.

(** [{name: p for p, name in enumerate(voc)}] sends a name of [voc] to one
    of its positions, and knows no other name. *)
Lemma vocabulary_dict_Some (voc : list string) (name : string) (z : Z) :
  dict_get (dict_of_list (map (fun p_n : nat * string => (p_n.2, Z.of_nat p_n.1))
                            (enumerate voc))) name = Some z →
  0 ≤ z ∧ voc !! Z.to_nat z = Some name.
Proof.
  intros Hget%dict_of_list_get.
  apply list_elem_of_fmap in Hget as ([i x] & [= -> ->] & Hin).
  apply enumerate_lookup in Hin. simpl. rewrite Nat2Z.id. split; [lia|done].
Qed.

Lemma vocabulary_dict_None (voc : list string) (name : string) :
  dict_get (dict_of_list (map (fun p_n : nat * string => (p_n.2, Z.of_nat p_n.1))
                            (enumerate voc))) name = None ↔ name ∉ voc.
Proof.
  rewrite dict_of_list_None, map_map. simpl.
  change (map (fun x : nat * string => x.2) (enumerate voc))
    with (map snd (enumerate voc)).
  by rewrite enumerate_snd.
Qed.

Lemma vocabulary_ids (voc names : list string) :
  (∀ name, name ∈ names → name ∈ voc) →
  ∃ ids,
    map_result (dict_getitem
      (dict_of_list (map (fun p_n : nat * string => (p_n.2, Z.of_nat p_n.1))
                       (enumerate voc)))) names = Ok ids ∧
    labelled voc ids names.
Proof.
  induction names as [|name names IH]; intros Hin; simpl.
  - exists []. split; [done|constructor].
  - destruct IH as (ids & Hids & Hlab).
    { intros n Hn. apply Hin. by apply list_elem_of_further. }
    destruct (dict_get (dict_of_list (map
      (fun p_n : nat * string => (p_n.2, Z.of_nat p_n.1)) (enumerate voc))) name)
      as [z|] eqn:Hget.
    + exists (z :: ids). unfold dict_getitem at 2. rewrite Hget. simpl.
      rewrite Hids. split; [done|].
      constructor; [by apply vocabulary_dict_Some|done].
    + apply vocabulary_dict_None in Hget. destruct Hget. apply Hin, list_elem_of_here.
Qed.

Lemma vocabulary_ids_missing (voc names : list string) (name : string) :
  name ∈ names → name ∉ voc →
  map_result (dict_getitem
    (dict_of_list (map (fun p_n : nat * string => (p_n.2, Z.of_nat p_n.1))
                     (enumerate voc)))) names = Raise KeyError.
Proof.
  intros Hin Hno. induction names as [|x names IH]; [by apply elem_of_nil in Hin|].
  simpl.
  destruct (dict_get (dict_of_list (map
    (fun p_n : nat * string => (p_n.2, Z.of_nat p_n.1)) (enumerate voc))) x)
    as [z|] eqn:Hget; unfold dict_getitem at 2; rewrite Hget; [|done]. simpl.
  apply elem_of_cons in Hin as [->|Hin].
  - apply vocabulary_dict_None in Hno. congruence.
  - by rewrite IH.
Qed.

Lemma vocabulary_ids_exn (voc names : list string) (e : exn) :
  map_result (dict_getitem
    (dict_of_list (map (fun p_n : nat * string => (p_n.2, Z.of_nat p_n.1))
                     (enumerate voc)))) names = Raise e → e = KeyError.
Proof.
  induction names as [|x names IH]; simpl; [done|].
  destruct (dict_get (dict_of_list (map
    (fun p_n : nat * string => (p_n.2, Z.of_nat p_n.1)) (enumerate voc))) x)
    as [z|] eqn:Hget; unfold dict_getitem at 2; rewrite Hget; simpl; [|congruence].
  destruct (map_result _ names); simpl; [done|].
  intros [= <-]. by apply IH.
Qed.

(** What [update_labels] establishes between a normalised image [a] and
    its record [o] with ids. *)
Lemma update_labels_spec (annos : list norm_anno) (predicates objects_ : list string) :
  (∀ a name, a ∈ annos → name ∈ nrel_names (n_relations a) → name ∈ predicates) →
  (∀ a name, a ∈ annos → name ∈ nobj_names (n_objects a) → name ∈ objects_) →
  ∃ out, update_labels annos predicates objects_ = Ok out ∧
    length out = length annos ∧
    ∀ k a o, annos !! k = Some a → out !! k = Some o →
      filename o = n_filename a ∧ split_id o = n_split_id a ∧
      height o = n_height a ∧ width o = n_width a ∧
      o_names (objects o) = nobj_names (n_objects a) ∧
      o_boxes (objects o) = nobj_boxes (n_objects a) ∧
      r_names (relations o) = nrel_names (n_relations a) ∧
      r_subj_ids (relations o) = nrel_subj_ids (n_relations a) ∧
      r_obj_ids (relations o) = nrel_obj_ids (n_relations a) ∧
      r_merged_ids (relations o) = None ∧
      labelled predicates (r_ids (relations o)) (r_names (relations o)) ∧
      labelled objects_ (o_ids (objects o)) (o_names (objects o)).
Proof.
  intros Hp Ho. unfold update_labels.
  set (f := fun a : norm_anno => _).
  assert (Hf : ∀ a, a ∈ annos → ∃ o, f a = Ok o ∧
      filename o = n_filename a ∧ split_id o = n_split_id a ∧
      height o = n_height a ∧ width o = n_width a ∧
      o_names (objects o) = nobj_names (n_objects a) ∧
      o_boxes (objects o) = nobj_boxes (n_objects a) ∧
      r_names (relations o) = nrel_names (n_relations a) ∧
      r_subj_ids (relations o) = nrel_subj_ids (n_relations a) ∧
      r_obj_ids (relations o) = nrel_obj_ids (n_relations a) ∧
      r_merged_ids (relations o) = None ∧
      labelled predicates (r_ids (relations o)) (r_names (relations o)) ∧
      labelled objects_ (o_ids (objects o)) (o_names (objects o))).
  { intros a Ha. unfold f.
    destruct (vocabulary_ids predicates (nrel_names (n_relations a)))
      as (rids & -> & Hr); [intros name; by apply Hp|].
    destruct (vocabulary_ids objects_ (nobj_names (n_objects a)))
      as (oids & -> & Hob); [intros name; by apply Ho|].
    eexists. split; [reflexivity|]. by split_and!. }
  destruct (map_result_total f annos) as [out Hout].
  { intros a Ha. destruct (Hf a Ha) as (o & ? & _). by exists o. }
  exists out. split_and!; [done|by apply (map_result_length f)|].
  intros k a o Ha Hk.
  destruct (map_result_lookup f annos out k a Hout Ha) as (o' & Ho' & Hfo).
  destruct (Hf a) as (o'' & Hfo'' & Hrest); [by eapply list_elem_of_lookup_2|].
  congruence.
Qed.

(** X10: when every name of the images is in its vocabulary,
    [update_labels] returns, keeps every field of every image, and gives
    every relation and every object the position of its name: the name at
    position [ids[k]] of the vocabulary is [names[k]]. *)
Theorem X10_update_labels_positions
    (annos : list norm_anno) (predicates objects_ : list string) :
  (∀ a name, a ∈ annos → name ∈ nrel_names (n_relations a) → name ∈ predicates) →
  (∀ a name, a ∈ annos → name ∈ nobj_names (n_objects a) → name ∈ objects_) →
  ∃ out, update_labels annos predicates objects_ = Ok out ∧
    length out = length annos ∧
    ∀ k a o, annos !! k = Some a → out !! k = Some o →
      filename o = n_filename a ∧ split_id o = n_split_id a ∧
      height o = n_height a ∧ width o = n_width a ∧
      o_names (objects o) = nobj_names (n_objects a) ∧
      o_boxes (objects o) = nobj_boxes (n_objects a) ∧
      r_names (relations o) = nrel_names (n_relations a) ∧
      r_subj_ids (relations o) = nrel_subj_ids (n_relations a) ∧
      r_obj_ids (relations o) = nrel_obj_ids (n_relations a) ∧
      r_merged_ids (relations o) = None ∧
      labelled predicates (r_ids (relations o)) (r_names (relations o)) ∧
      labelled objects_ (o_ids (objects o)) (o_names (objects o)).
Proof. apply update_labels_spec. Qed.

(** X11: a name that is missing from its vocabulary makes [update_labels]
    raise [KeyError], and [KeyError] is the only exception it raises. *)
Theorem X11_update_labels_missing_name
    (annos : list norm_anno) (predicates objects_ : list string)
    (a : norm_anno) (name : string) :
  a ∈ annos →
  (name ∈ nrel_names (n_relations a) ∧ name ∉ predicates) ∨
  (name ∈ nobj_names (n_objects a) ∧ name ∉ objects_) →
  update_labels annos predicates objects_ = Raise KeyError.
Proof.
  intros Ha Hmiss. unfold update_labels. set (f := fun a : norm_anno => _).
  assert (Hexn : ∀ a e, f a = Raise e → e = KeyError).
  { intros a' e. unfold f.
    destruct (map_result _ (nrel_names _)) eqn:Hr; simpl;
      [|intros [= <-]; by eapply vocabulary_ids_exn].
    destruct (map_result _ (nobj_names _)) eqn:Hob; simpl; [done|].
    intros [= <-]. by eapply vocabulary_ids_exn. }
  assert (Hfa : ∃ e, f a = Raise e).
  { unfold f. destruct Hmiss as [[Hin Hno]|[Hin Hno]].
    - rewrite (vocabulary_ids_missing _ _ name Hin Hno). by eexists.
    - destruct (map_result _ (nrel_names _)); simpl; [|by eexists].
      rewrite (vocabulary_ids_missing _ _ name Hin Hno). by eexists. }
  clear Hmiss. induction annos as [|a' annos IH]; [by apply elem_of_nil in Ha|].
  simpl. destruct (f a') as [o|e] eqn:Hfa'; simpl.
  - apply elem_of_cons in Ha as [->|Ha].
    + destruct Hfa as [e He]. congruence.
    + by rewrite IH.
  - by rewrite (Hexn a' e Hfa').
Qed.

Lemma X10_update_labels_positions_witness :
  ∃ out,
    update_labels
      [NormAnno "a.jpg" 0 10 10
         (NormObjects ["car"; "road"] [Bbox 0 5 0 5; Bbox 4 9 0 9])
         (NormRelations ["on"] [0] [1])]
      ["on"; "__background__"] ["car"; "road"] = Ok out ∧
    length out
    = length [NormAnno "a.jpg" 0 10 10
                (NormObjects ["car"; "road"] [Bbox 0 5 0 5; Bbox 4 9 0 9])
                (NormRelations ["on"] [0] [1])] ∧
    ∀ k a o,
      [NormAnno "a.jpg" 0 10 10
         (NormObjects ["car"; "road"] [Bbox 0 5 0 5; Bbox 4 9 0 9])
         (NormRelations ["on"] [0] [1])] !! k = Some a →
      out !! k = Some o →
      filename o = n_filename a ∧ split_id o = n_split_id a ∧
      height o = n_height a ∧ width o = n_width a ∧
      o_names (objects o) = nobj_names (n_objects a) ∧
      o_boxes (objects o) = nobj_boxes (n_objects a) ∧
      r_names (relations o) = nrel_names (n_relations a) ∧
      r_subj_ids (relations o) = nrel_subj_ids (n_relations a) ∧
      r_obj_ids (relations o) = nrel_obj_ids (n_relations a) ∧
      r_merged_ids (relations o) = None ∧
      labelled ["on"; "__background__"] (r_ids (relations o)) (r_names (relations o)) ∧
      labelled ["car"; "road"] (o_ids (objects o)) (o_names (objects o)).
Proof.
  apply (X10_update_labels_positions
    [NormAnno "a.jpg" 0 10 10
       (NormObjects ["car"; "road"] [Bbox 0 5 0 5; Bbox 4 9 0 9])
       (NormRelations ["on"] [0] [1])]
    ["on"; "__background__"] ["car"; "road"]).
  - intros a name ->%list_elem_of_singleton Hn. simpl in Hn.
    apply list_elem_of_singleton in Hn as ->. apply list_elem_of_here.
  - intros a name ->%list_elem_of_singleton Hn. simpl in Hn. exact Hn.
Defined.

Lemma X11_update_labels_missing_name_witness :
  update_labels
    [NormAnno "a.jpg" 0 10 10
       (NormObjects ["car"; "road"] [Bbox 0 5 0 5; Bbox 4 9 0 9])
       (NormRelations ["on"] [0] [1])]
    ["under"; "__background__"] ["car"; "road"] = Raise KeyError.
Proof.
  apply (X11_update_labels_missing_name _ _ _
    (NormAnno "a.jpg" 0 10 10
       (NormObjects ["car"; "road"] [Bbox 0 5 0 5; Bbox 4 9 0 9])
       (NormRelations ["on"] [0] [1])) "on").
  - apply list_elem_of_here.
  - left. split; [apply list_elem_of_here|].
    intros H. by repeat (apply elem_of_cons in H as [H|H]; [done|]);
      apply elem_of_nil in H.
Defined.
(** ** Pair completion: what it keeps and what it adds *)

Lemma rows_of_split (rels : anno_relations) :
  well_formed_relations rels →
  r_subj_ids rels = map (fun r : Z * Z * label => r.1.1) (rows_of rels) ∧
  r_obj_ids rels = map (fun r : Z * Z * label => r.1.2) (rows_of rels) ∧
  r_names rels = map (fun r : Z * Z * label => r.2.1) (rows_of rels) ∧
  r_ids rels = map (fun r : Z * Z * label => r.2.2) (rows_of rels).
Proof.
  intros (Ho & Hn & Hi). unfold rows_of.
  set (so := zip (r_subj_ids rels) (r_obj_ids rels)).
  set (ni := zip (r_names rels) (r_ids rels)).
  assert (Hso : length so = length (r_subj_ids rels)).
  { subst so. rewrite length_zip. lia. }
  assert (Hni : length ni = length (r_subj_ids rels)).
  { subst ni. rewrite length_zip. lia. }
  assert (H1 : map fst (zip so ni) = so) by (apply fst_zip; lia).
  assert (H2 : map snd (zip so ni) = ni) by (apply snd_zip; lia).
  assert (E1 : map (fun r : Z * Z * label => r.1.1) (zip so ni) = map fst (map fst (zip so ni)))
    by (by rewrite map_map).
  assert (E2 : map (fun r : Z * Z * label => r.1.2) (zip so ni) = map snd (map fst (zip so ni)))
    by (by rewrite map_map).
  assert (E3 : map (fun r : Z * Z * label => r.2.1) (zip so ni) = map fst (map snd (zip so ni)))
    by (by rewrite map_map).
  assert (E4 : map (fun r : Z * Z * label => r.2.2) (zip so ni) = map snd (map snd (zip so ni)))
    by (by rewrite map_map).
  rewrite E1, E2, E3, E4, H1, H2. subst so ni.
  split_and!; symmetry; [apply fst_zip|apply snd_zip|apply fst_zip|apply snd_zip]; lia.
Qed.

Lemma flat_map_ext_elem {A B : Type} (f g : A → list B) (l : list A) :
  (∀ x, x ∈ l → f x = g x) → flat_map f l = flat_map g l.
Proof.
  induction l as [|x l IH]; intros H; simpl; [done|].
  rewrite (H x) by apply list_elem_of_here. rewrite IH; [done|].
  intros y Hy. apply H. by apply list_elem_of_further.
Qed.

Lemma flat_map_app_perm {A B : Type} (f g : A → list B) (l : list A) :
  flat_map (fun x => f x ++ g x) l ≡ₚ flat_map f l ++ flat_map g l.
Proof.
  induction l as [|x l IH]; simpl; [done|].
  rewrite IH, <- !(assoc app). apply Permutation_app_head.
  rewrite !(assoc app). apply Permutation_app_tail, Permutation_app_comm.
Qed.

(** Grouping the rows by key, over a duplicate-free list of all the keys,
    rearranges the rows. *)
Lemma group_rows_perm {K L : Type} `{EqDecision K} (ks : list K) :
  ∀ rows : list (K * L),
  NoDup ks → (∀ row, row ∈ rows → row.1 ∈ ks) →
  flat_map (fun k => filter (fun row : K * L => row.1 = k) rows) ks ≡ₚ rows.
Proof.
  induction ks as [|k ks IH]; intros rows Hnd Hin; simpl.
  - destruct rows as [|row rows]; [done|].
    exfalso. apply (not_elem_of_nil (row.1)). apply Hin, list_elem_of_here.
  - apply NoDup_cons in Hnd as [Hk Hnd].
    etrans; [|apply (filter_app_complement (fun row : K * L => row.1 = k) rows)].
    apply Permutation_app_head.
    assert (Heq :
      flat_map (fun k' => filter (fun row : K * L => row.1 = k') rows) ks
      = flat_map (fun k' => filter (fun row : K * L => row.1 = k')
                    (filter (fun row : K * L => ¬ row.1 = k) rows)) ks).
    { apply flat_map_ext_elem. intros k' Hk'. rewrite list_filter_filter.
      apply list_filter_iff. intros row. split; [|by intros [? _]].
      intros ->. split; [done|]. by intros ->. }
    rewrite Heq. apply IH; [done|].
    intros row [Hne Hrow]%list_elem_of_filter.
    apply Hin in Hrow. apply elem_of_cons in Hrow as [?|?]; done.
Qed.

Lemma pair_annotated (rels : anno_relations) (k : Z * Z) :
  map (pair k) (annotated rels k)
  = filter (fun row : Z * Z * label => row.1 = k) (rows_of rels).
Proof.
  unfold annotated. induction (rows_of rels) as [|[k' l] rows IH]; [done|].
  rewrite !filter_cons. simpl. destruct (decide (k' = k)) as [->|]; [|done].
  simpl. by rewrite IH.
Qed.

Lemma annotated_nil (rels : anno_relations) (k : Z * Z) :
  annotated rels k = [] ↔ k ∉ map fst (rows_of rels).
Proof.
  split.
  - intros Hnil Hin. apply list_elem_of_fmap in Hin as (row & -> & Hrow).
    assert (row ∈ filter (fun r : Z * Z * label => r.1 = row.1) (rows_of rels)) as Hf
      by (by apply list_elem_of_filter).
    rewrite <- pair_annotated, Hnil in Hf. by apply elem_of_nil in Hf.
  - intros Hno. unfold annotated. by rewrite labels_not_in.
Qed.

Lemma background_rows (bg : label) (rels : anno_relations) (ks : list (Z * Z)) :
  flat_map (fun k => map (pair k)
              (if decide (annotated rels k = []) then [bg] else [])) ks
  = map (fun k => (k, bg)) (filter (fun k => annotated rels k = []) ks).
Proof.
  induction ks as [|k ks IH]; [done|].
  rewrite filter_cons. simpl. destruct (decide (annotated rels k = [])); simpl;
    by rewrite IH.
Qed.

(** Pair completion keeps every annotated row, its name read back from the
    array of strings, and adds one background row for every ordered pair of
    distinct instances without annotation. *)
Lemma complete_pairs_perm (predicates : list string) (a : anno) :
  well_formed_relations (relations a) →
  fits_int64 predicates a →
  ∃ a', complete_pairs predicates a = Ok a' ∧
    objects a' = objects a ∧
    filename a' = filename a ∧ split_id a' = split_id a ∧
    height a' = height a ∧ width a' = width a ∧
    well_formed_relations (relations a') ∧
    rows_of (relations a') ≡ₚ
      map read_back (rows_of (relations a)) ++
      map (fun k => (k, (background, Z.of_nat (length predicates) - 1)))
        (filter (fun k => annotated (relations a) k = [])
           (pair_keys (length (o_ids (objects a))))).
Proof.
  intros Hwf Hfit.
  destruct (completion_loop a) as (Hnd & Hkeys & _).
  destruct (complete_pairs_rows predicates a Hwf Hfit)
    as (a' & Ha' & Hobj & Hf & Hs & Hh & Hw & Hwf' & Hrows).
  set (n := length (o_ids (objects a))) in *.
  set (ks := map fst (fold_left add_row (rows_of (relations a)) (empty_pairs n))) in *.
  set (bg := (background, Z.of_nat (length predicates) - 1)).
  exists a'. split_and!; [done..|].
  rewrite Hrows.
  assert (Hbg : ∀ l : list (Z * Z),
    map (fun k => (k, bg)) l = map read_back (map (fun k => (k, bg)) l)).
  { intros l. rewrite map_map. apply map_ext. intros k.
    symmetry. apply read_back_id. unfold no_trailing_nul. by vm_compute. }
  rewrite Hbg, <- map_app. apply fmap_Permutation.
  rewrite (flat_map_ext_elem _
    (fun k => map (pair k) (annotated (relations a) k)
              ++ map (pair k) (if decide (annotated (relations a) k = [])
                               then [bg] else []))).
  2:{ intros k _. unfold completed. fold bg.
      destruct (annotated (relations a) k) as [|l ls]; [done|].
      simpl. by rewrite app_nil_r. }
  rewrite flat_map_app_perm. apply Permutation_app.
  - rewrite (flat_map_ext_elem _
      (fun k => filter (fun row : Z * Z * label => row.1 = k) (rows_of (relations a))))
      by (intros k _; apply pair_annotated).
    apply group_rows_perm; [done|].
    intros row Hrow. apply Hkeys. right. by apply (list_elem_of_fmap_2' fst _ row).
  - rewrite background_rows. apply fmap_Permutation.
    apply NoDup_Permutation.
    + by apply NoDup_filter.
    + apply NoDup_filter, pair_keys_NoDup.
    + intros k. rewrite !list_elem_of_filter, Hkeys, pair_keys_elem.
      split; [|by intros [? ?]; split; [|left]].
      intros [Hnil [Hd|Hin]]; [done|]. by apply annotated_nil in Hnil.
Qed.

(** Rows whose names do not end with a NUL character come back as they
    are. *)
Lemma read_back_rows (rels : anno_relations) :
  Forall no_trailing_nul (r_names rels) →
  map read_back (rows_of rels) = rows_of rels.
Proof.
  intros Hclean. rewrite <- (map_id (rows_of rels)) at 2.
  apply map_ext_in. intros row Hrow%list_elem_of_In.
  apply read_back_id.
  apply list_elem_of_lookup_1 in Hrow as (i & Hi).
  apply rows_of_lookup in Hi as (_ & _ & Hname & _).
  rewrite Forall_lookup in Hclean. by eapply Hclean.
Qed.

(** X13: pair completion loses nothing and invents nothing but background.
    On an image whose integers fit 64 bits, the relations it returns are the
    annotated relations, each name as the array of strings gives it back,
    and one background relation for every ordered pair of distinct
    instances that has no annotation, each exactly once; objects and image
    fields are kept.  When no relation name ends with a NUL character the
    annotated relations are kept as they are. *)
Theorem X13_completion_keeps_annotations (predicates : list string) (a : anno) :
  well_formed_relations (relations a) →
  fits_int64 predicates a →
  ∃ a', complete_pairs predicates a = Ok a' ∧
    objects a' = objects a ∧
    filename a' = filename a ∧ split_id a' = split_id a ∧
    height a' = height a ∧ width a' = width a ∧
    well_formed_relations (relations a') ∧
    rows_of (relations a') ≡ₚ
      map read_back (rows_of (relations a)) ++
      map (fun k => (k, (background, Z.of_nat (length predicates) - 1)))
        (filter (fun k => annotated (relations a) k = [])
           (pair_keys (length (o_ids (objects a))))) ∧
    (Forall no_trailing_nul (r_names (relations a)) →
     rows_of (relations a') ≡ₚ
       rows_of (relations a) ++
       map (fun k => (k, (background, Z.of_nat (length predicates) - 1)))
         (filter (fun k => annotated (relations a) k = [])
            (pair_keys (length (o_ids (objects a)))))).
Proof.
  intros Hwf Hfit.
  destruct (complete_pairs_perm predicates a Hwf Hfit)
    as (a' & Ha' & Hobj & Hf & Hs & Hh & Hw & Hwf' & Hperm).
  exists a'. split_and!; [done..|].
  intros Hclean. by rewrite (read_back_rows _ Hclean) in Hperm.
Qed.

Lemma X13_completion_keeps_annotations_witness :
  ∃ a',
    complete_pairs ["on"; "__background__"]
      (Anno "a.jpg" 0 10 10
         (AnnoObjects [0; 1] ["car"; "road"] [Bbox 0 5 0 5; Bbox 4 9 0 9])
         (AnnoRelations [0] ["on"] [0] [1] None)) = Ok a' ∧
    objects a' = AnnoObjects [0; 1] ["car"; "road"] [Bbox 0 5 0 5; Bbox 4 9 0 9] ∧
    filename a' = "a.jpg" ∧ split_id a' = 0 ∧ height a' = 10 ∧ width a' = 10 ∧
    well_formed_relations (relations a') ∧
    rows_of (relations a') ≡ₚ
      map read_back (rows_of (AnnoRelations [0] ["on"] [0] [1] None)) ++
      map (fun k => (k, (background, Z.of_nat (length ["on"; "__background__"]) - 1)))
        (filter (fun k => annotated (AnnoRelations [0] ["on"] [0] [1] None) k = [])
           (pair_keys 2)) ∧
    (Forall no_trailing_nul ["on"] →
     rows_of (relations a') ≡ₚ
       rows_of (AnnoRelations [0] ["on"] [0] [1] None) ++
       map (fun k => (k, (background, Z.of_nat (length ["on"; "__background__"]) - 1)))
         (filter (fun k => annotated (AnnoRelations [0] ["on"] [0] [1] None) k = [])
            (pair_keys 2))).
Proof.
  apply (X13_completion_keeps_annotations ["on"; "__background__"]
    (Anno "a.jpg" 0 10 10
       (AnnoObjects [0; 1] ["car"; "road"] [Bbox 0 5 0 5; Bbox 4 9 0 9])
       (AnnoRelations [0] ["on"] [0] [1] None))).
  - unfold well_formed_relations. simpl. lia.
  - unfold fits_int64, int64. simpl. repeat constructor; lia.
Defined.
(** ** From raw annotations to completed annotations *)

Lemma Forall2_map_rows {A B C : Type} (P : B → C → Prop) (f : A → B) (g : A → C)
    (l : list A) :
  Forall2 P (map f l) (map g l) ↔ Forall (fun x => P (f x) (g x)) l.
Proof.
  induction l as [|x l IH]; simpl.
  - split; constructor.
  - split.
    + intros [? ?]%Forall2_cons. constructor; [done|by apply IH].
    + intros [? ?]%Forall_cons. constructor; [done|by apply IH].
Qed.

Lemma Forall_map_rows {A B : Type} (P : B → Prop) (f : A → B) (l : list A) :
  Forall P (map f l) ↔ Forall (fun x => P (f x)) l.
Proof. apply Forall_fmap. Qed.

(** [well_labelled] read on the rows of the relation set. *)
Lemma well_labelled_rows (predicates objects_ : list string) (a : anno) :
  well_formed_relations (relations a) →
  (well_labelled predicates objects_ a ↔
   length (o_boxes (objects a)) = length (o_ids (objects a)) ∧
   labelled objects_ (o_ids (objects a)) (o_names (objects a)) ∧
   Forall (fun row : Z * Z * label =>
             (0 ≤ row.2.2 ∧ predicates !! Z.to_nat row.2.2 = Some row.2.1) ∧
             0 ≤ row.1.1 < Z.of_nat (length (o_ids (objects a))) ∧
             0 ≤ row.1.2 < Z.of_nat (length (o_ids (objects a))))
     (rows_of (relations a))).
Proof.
  intros Hwf. destruct (rows_of_split _ Hwf) as (Hs & Ho & Hn & Hi).
  unfold well_labelled, labelled. rewrite Hs, Ho, Hn, Hi.
  rewrite Forall2_map_rows, !Forall_map_rows.
  split.
  - intros (_ & Hb & Hl & Hlo & Hfs & Hfo). split_and!; [done..|].
    apply Forall_and. split; [done|]. by apply Forall_and.
  - intros (Hb & Hlo & Hall).
    apply Forall_and in Hall as [Hl Hall]. apply Forall_and in Hall as [Hfs Hfo].
    by split_and!.
Qed.

Lemma last_position (preds : list string) :
  (preds ++ [background]) !! Z.to_nat (Z.of_nat (length (preds ++ [background])) - 1)
  = Some background.
Proof.
  rewrite length_app. simpl.
  replace (Z.to_nat (Z.of_nat (length preds + 1) - 1)) with (length preds + 0)%nat by lia.
  by rewrite lookup_app_r, Nat.add_comm, Nat.add_sub by lia.
Qed.

(** On a well-labelled image every index and id is bounded by the length of
    a list. *)
Lemma well_labelled_fits (predicates objects_ : list string) (a : anno) :
  well_labelled predicates objects_ a →
  Z.of_nat (length (o_ids (objects a))) ≤ 2 ^ 63 →
  Z.of_nat (length predicates) ≤ 2 ^ 63 →
  fits_int64 predicates a.
Proof.
  intros (_ & _ & Hl & _ & Hs & Ho) Hn Hp. unfold fits_int64, int64.
  split_and!; [| | |done..].
  - eapply Forall_impl; [exact Hs|]. intros s ?. simpl in *. lia.
  - eapply Forall_impl; [exact Ho|]. intros s ?. simpl in *. lia.
  - apply Forall_lookup. intros i id Hid.
    destruct (Forall2_lookup_l _ _ _ _ _ Hl Hid) as (name & _ & Hge & Hname).
    apply lookup_lt_Some in Hname. lia.
Qed.

Lemma astype_str_background : astype_str background = background.
Proof. reflexivity. Qed.

(** A vocabulary whose names do not end with a NUL character is read back
    as it is. *)
Lemma astype_str_vocabulary (voc : list string) :
  Forall no_trailing_nul voc → map astype_str voc = voc.
Proof.
  induction 1 as [|name voc Hname _ IH]; [done|].
  simpl. by rewrite IH, astype_str_id.
Qed.

(** Pair completion keeps an image well labelled when the background name
    closes the predicate vocabulary; the names are those read back from the
    array of strings. *)
Lemma complete_pairs_well_labelled (preds objects_ : list string) (a : anno) :
  well_labelled (preds ++ [background]) objects_ a →
  Z.of_nat (length (o_ids (objects a))) ≤ 2 ^ 63 →
  Z.of_nat (length (preds ++ [background])) ≤ 2 ^ 63 →
  ∃ a', complete_pairs (preds ++ [background]) a = Ok a' ∧
        objects a' = objects a ∧
        well_labelled (map astype_str (preds ++ [background])) objects_ a'.
Proof.
  intros Hwl Hn Hp. pose proof Hwl as (Hwf & _).
  pose proof (well_labelled_fits _ _ _ Hwl Hn Hp) as Hfit.
  destruct (complete_pairs_perm (preds ++ [background]) a Hwf Hfit)
    as (a' & Ha' & Hobj & _ & _ & _ & _ & Hwf' & Hperm).
  exists a'. split_and!; [done..|].
  apply (well_labelled_rows _ _ _ Hwf) in Hwl as (Hb & Hlo & Hrows).
  apply (well_labelled_rows _ _ _ Hwf'). rewrite Hobj.
  split_and!; [done..|].
  rewrite Hperm. apply Forall_app. split.
  - apply Forall_map_rows. eapply Forall_impl; [exact Hrows|].
    intros row ((Hge & Hname) & Hs & Ho). simpl.
    split; [split; [done|]|done].
    by rewrite list_lookup_fmap, Hname.
  - apply Forall_map_rows, List.Forall_forall. intros k Hk.
    apply list_elem_of_In, list_elem_of_filter in Hk as [_ Hk].
    apply pair_keys_elem in Hk as (? & ? & _). simpl.
    split_and!; [| |lia..].
    + rewrite length_app. simpl. lia.
    + by rewrite list_lookup_fmap, last_position.
Qed.

(** The Object Set of an image is no longer than twice its relationships. *)
Lemma object_set_size (a : raw_anno) (o : norm_anno) :
  normalized a o →
  (length (nobj_names (n_objects o)) ≤ 2 * length (relationships a))%nat.
Proof.
  intros (Hnd & Hlen & Helem & _).
  assert (Hsub : object_set o ⊆+
    map (fun rel => (subject_box rel, subject rel)) (relationships a)
    ++ map (fun rel => (object_box rel, object rel)) (relationships a)).
  { apply NoDup_submseteq; [done|]. intros t (rel & Hrel & Ht)%Helem.
    apply elem_of_app.
    destruct Ht as [-> | ->]; [left|right];
      by apply (list_elem_of_fmap_2' _ _ rel). }
  apply submseteq_length in Hsub.
  unfold object_set, obj_tuple in Hsub.
  rewrite length_zip, length_app, !length_map in Hsub. lia.
Qed.

Lemma filter_names_length (annos : list norm_anno) :
  (length (flat_map (fun anno =>
      filter (fun name => name ≠ background) (nrel_names (n_relations anno))) annos)
   ≤ length (flat_map (fun anno => nrel_names (n_relations anno)) annos))%nat.
Proof.
  induction annos as [|a annos IH]; simpl; [done|].
  rewrite !length_app.
  pose proof (length_filter (fun name => name ≠ background)
                (nrel_names (n_relations a))). lia.
Qed.

Section Pipeline.
Variable obj_order : gset obj_tuple → list obj_tuple.
Variable name_order : gset string → list string.
Hypothesis obj_order_admissible : admissible obj_order.
Hypothesis name_order_admissible : admissible_names name_order.

Lemma transform_annotations_normalized (raw : list raw_anno) :
  ∃ annos, _transform_annotations obj_order raw = Ok annos ∧
    length annos = length raw ∧
    ∀ k a o, raw !! k = Some a → annos !! k = Some o → normalized a o.
Proof.
  induction raw as [|a raw (out & Hout & Hlen & IH)].
  - exists []. by split_and!.
  - destruct (normalize_image obj_order obj_order_admissible a)
      as (r & o & Hr & Ho & Hno).
    exists (o :: out). split_and!.
    + by apply (transform_annotations_cons obj_order a raw r).
    + simpl. by rewrite Hlen.
    + intros [|k] a' o'; simpl.
      * by intros [= <-] [= <-].
      * apply IH.
Qed.

(** The subject and object indices of a normalised image are positions of
    its Object Set. *)
Lemma normalized_in_range (a : raw_anno) (o : norm_anno) :
  normalized a o →
  length (nobj_boxes (n_objects o)) = length (nobj_names (n_objects o)) ∧
  length (nrel_subj_ids (n_relations o)) = length (nrel_names (n_relations o)) ∧
  length (nrel_obj_ids (n_relations o)) = length (nrel_names (n_relations o)) ∧
  Forall (fun s => 0 ≤ s < Z.of_nat (length (nobj_names (n_objects o))))
    (nrel_subj_ids (n_relations o)) ∧
  Forall (fun s => 0 ≤ s < Z.of_nat (length (nobj_names (n_objects o))))
    (nrel_obj_ids (n_relations o)).
Proof.
  intros (_ & Hlen & _ & _ & Hnames & Hls & Hlo & Hrel).
  assert (Hrange : ∀ r x,
    nrel_subj_ids (n_relations o) !! r = Some x ∨
    nrel_obj_ids (n_relations o) !! r = Some x →
    0 ≤ x < Z.of_nat (length (nobj_names (n_objects o)))).
  { intros r x Hx.
    assert (Hr : (r < length (relationships a))%nat).
    { destruct Hx as [Hx|Hx]; apply lookup_lt_Some in Hx; lia. }
    destruct (lookup_lt_is_Some_2 _ _ Hr) as [rel Hrel'].
    destruct (Hrel r rel Hrel') as (s & ob & Hs & Hos & Hob & Hoo).
    apply lookup_lt_Some in Hos, Hoo. unfold object_set in Hos, Hoo.
    rewrite length_zip in Hos, Hoo.
    destruct Hx as [Hx|Hx]; [rewrite Hs in Hx|rewrite Hob in Hx];
      injection Hx as <-; lia. }
  rewrite Hnames, length_map. split_and!; [done..| |].
  - apply Forall_lookup. intros r x Hx. apply (Hrange r). by left.
  - apply Forall_lookup. intros r x Hx. apply (Hrange r). by right.
Qed.

(** The predicate vocabulary is no longer than the list of the relation
    names, the background name apart. *)
Lemma vocabulary_size (annos : list norm_anno) :
  (length (save_predicates_objects name_order annos).1
   ≤ length (flat_map (fun anno => nrel_names (n_relations anno)) annos) + 1)%nat.
Proof.
  unfold save_predicates_objects. cbn [fst].
  rewrite length_app. simpl.
  rewrite (Permutation_length (sorted_str_perm _)).
  rewrite (Permutation_length (name_order_admissible _)).
  pose proof (filter_names_length annos) as Hle.
  set (L := flat_map _ annos) in *.
  assert (Hsub : elements (list_to_set L : gset string) ⊆+ L).
  { apply NoDup_submseteq; [apply NoDup_elements|].
    intros x Hx. apply elem_of_elements in Hx. by apply elem_of_list_to_set in Hx. }
  apply submseteq_length in Hsub. lia.
Qed.

Lemma normalized_names_length (raw : list raw_anno) (annos : list norm_anno) :
  Forall2 normalized raw annos →
  length (flat_map (fun anno => nrel_names (n_relations anno)) annos)
  = length (flat_map relationships raw).
Proof.
  induction 1 as [|a o raw annos Hno _ IH]; [done|].
  simpl. rewrite !length_app, IH.
  destruct Hno as (_ & _ & _ & _ & -> & _). by rewrite length_map.
Qed.

(** Normalisation, vocabulary extraction and id assignment, in sequence. *)
Lemma labelled_stage (raw : list raw_anno) :
  ∃ annos det,
    _transform_annotations obj_order raw = Ok annos ∧
    update_labels annos (save_predicates_objects name_order annos).1
      (save_predicates_objects name_order annos).2 = Ok det ∧
    length det = length raw ∧
    Forall (well_labelled (save_predicates_objects name_order annos).1
              (save_predicates_objects name_order annos).2) det ∧
    Forall (fun d => (length (o_ids (objects d))
                      ≤ 2 * length (flat_map relationships raw))%nat) det ∧
    (length (save_predicates_objects name_order annos).1
     ≤ length (flat_map relationships raw) + 1)%nat ∧
    (∀ name, name ∈ (save_predicates_objects name_order annos).1 →
       name = background ∨
       ∃ rel, rel ∈ flat_map relationships raw ∧ name = predicate rel).
Proof.
  destruct (transform_annotations_normalized raw) as (annos & Hannos & Hlen & Hnorm).
  set (p := (save_predicates_objects name_order annos).1).
  set (o := (save_predicates_objects name_order annos).2).
  destruct (update_labels_spec annos p o) as (det & Hdet & Hlen' & Hspec).
  { intros a name Ha Hn. apply (predicates_elem name_order name_order_admissible).
    right. by exists a. }
  { intros a name Ha Hn. apply (objects_elem name_order name_order_admissible).
    by exists a. }
  assert (Hfacts : ∀ k d, det !! k = Some d →
    ∃ r a, raw !! k = Some r ∧ annos !! k = Some a ∧ normalized r a ∧
           well_labelled p o d ∧
           length (o_ids (objects d)) = length (nobj_names (n_objects a))).
  { intros k d Hd.
    destruct (lookup_lt_is_Some_2 annos k) as [a Ha];
      [rewrite <- Hlen'; by eapply lookup_lt_Some|].
    destruct (lookup_lt_is_Some_2 raw k) as [r Hr];
      [rewrite <- Hlen; by eapply lookup_lt_Some|].
    exists r, a. split_and!; [done|done|by apply (Hnorm k)| |].
    - destruct (normalized_in_range r a (Hnorm k r a Hr Ha))
        as (Hb & Hs & Ho & Hrs & Hro).
      destruct (Hspec k a d Ha Hd)
        as (_ & _ & _ & _ & Hon & Hob & Hrn & Hrsu & Hrob & _ & Hlr & Hlo).
      pose proof (Forall2_length _ _ _ Hlr) as Hl1.
      pose proof (Forall2_length _ _ _ Hlo) as Hl2.
      unfold well_labelled, well_formed_relations.
      rewrite Hrsu, Hrob, Hob, Hl2, Hon. rewrite Hrn in *.
      split_and!; try done; try lia. by rewrite <- Hon.
    - destruct (Hspec k a d Ha Hd)
        as (_ & _ & _ & _ & Hon & _ & _ & _ & _ & _ & _ & Hlo).
      rewrite <- Hon. apply (Forall2_length _ _ _ Hlo). }
  assert (Hall : Forall2 normalized raw annos).
  { apply Forall2_same_length_lookup_2; [done|]. intros k r a Hr Ha.
    by apply (Hnorm k). }
  exists annos, det. split_and!; [done|done|lia| | | |].
  - apply Forall_lookup. intros k d Hd.
    by destruct (Hfacts k d Hd) as (_ & _ & _ & _ & _ & ? & _).
  - apply Forall_lookup. intros k d Hd.
    destruct (Hfacts k d Hd) as (r & a & Hr & _ & Hno & _ & ->).
    pose proof (object_set_size r a Hno) as Hle.
    assert (length (relationships r) ≤ length (flat_map relationships raw))%nat;
      [|lia].
    clear -Hr. revert k Hr. induction raw as [|r0 raw IH]; intros [|k] Hr;
      simpl in *; try done; rewrite length_app.
    + injection Hr as ->. lia.
    + specialize (IH k Hr). lia.
  - pose proof (vocabulary_size annos) as Hle.
    by rewrite (normalized_names_length raw annos Hall) in Hle.
  - intros name [->|(a & Ha & Hname)]%(predicates_elem name_order name_order_admissible);
      [by left|right].
    apply list_elem_of_lookup_1 in Ha as (k & Ha).
    destruct (Forall2_lookup_r _ _ _ _ _ Hall Ha) as (r & Hr & Hno).
    destruct Hno as (_ & _ & _ & _ & Hnames & _). rewrite Hnames in Hname.
    apply list_elem_of_fmap in Hname as (rel & -> & Hrel).
    exists rel. split; [|done].
    apply elem_of_flat_map. exists r. split; [by eapply list_elem_of_lookup_2|done].
Qed.

(** The stages from raw annotations to completed annotations, in sequence:
    the completed images are well labelled by the vocabulary read back from
    the array of strings. *)
Lemma pipeline_well_labelled (raw : list raw_anno) :
  Z.of_nat (length (flat_map relationships raw)) < 2 ^ 62 →
  ∃ annos det cls,
    _transform_annotations obj_order raw = Ok annos ∧
    update_labels annos (save_predicates_objects name_order annos).1
      (save_predicates_objects name_order annos).2 = Ok det ∧
    create_pred_cls_json det (save_predicates_objects name_order annos).1 = Ok cls ∧
    length det = length raw ∧ length cls = length raw ∧
    Forall (well_labelled (save_predicates_objects name_order annos).1
              (save_predicates_objects name_order annos).2) det ∧
    Forall (well_labelled (map astype_str (save_predicates_objects name_order annos).1)
              (save_predicates_objects name_order annos).2) cls ∧
    Forall (fun d => Z.of_nat (length (o_ids (objects d))) ≤ 2 ^ 63) det ∧
    Z.of_nat (length (save_predicates_objects name_order annos).1) ≤ 2 ^ 63.
Proof.
  intros Hsize.
  destruct (labelled_stage raw) as (annos & det & Hannos & Hdet & Hlen & Hwl & Hso & Hsp & _).
  set (p := (save_predicates_objects name_order annos).1) in *.
  set (o := (save_predicates_objects name_order annos).2) in *.
  assert (Hso' : Forall (fun d => Z.of_nat (length (o_ids (objects d))) ≤ 2 ^ 63) det).
  { eapply Forall_impl; [exact Hso|]. intros d Hd. simpl in Hd. lia. }
  assert (Hsp' : Z.of_nat (length p) ≤ 2 ^ 63) by lia.
  assert (Hp : ∃ preds, p = preds ++ [background]) by (by eexists).
  destruct Hp as [preds Hp].
  assert (Hcls : ∃ cls, create_pred_cls_json det p = Ok cls ∧
            length cls = length det ∧
            Forall (well_labelled (map astype_str p) o) cls).
  { unfold create_pred_cls_json. clear Hdet Hlen Hso.
    induction Hwl as [|d det Hd Hwl IH].
    - exists []. by split_and!.
    - apply Forall_cons in Hso' as [Hd63 Hso'].
      destruct (IH Hso') as (cls & Hcls & Hl & Hall).
      rewrite Hp in Hd, Hsp'.
      destruct (complete_pairs_well_labelled preds o d Hd Hd63 Hsp')
        as (d' & Hd' & _ & Hwl'). rewrite <- Hp in Hd', Hwl'.
      exists (d' :: cls). simpl. rewrite Hd'. simpl. rewrite Hcls. simpl.
      split_and!; [done|by rewrite Hl|by constructor]. }
  destruct Hcls as (cls & Hcls & Hlc & Hwc).
  exists annos, det, cls. split_and!; [done..|lia|done|done|done|done].
Qed.

(** X12: the pipeline from raw annotations to completed annotations never
    raises.  On fewer than 2^62 relationships, normalisation, vocabulary
    extraction, id assignment and pair completion all return, for every
    order in which Python iterates its sets, and every image they produce
    is well labelled: its parallel arrays have one length, every id is the
    position of its name in the vocabulary (the background relations
    included), and every subject and object index is a position of the
    Object Set.  For the completed images the vocabulary is the one read
    back from the array of strings, which is the vocabulary itself when no
    predicate name ends with a NUL character. *)
Theorem X12_pipeline_well_labelled (raw : list raw_anno) :
  Z.of_nat (length (flat_map relationships raw)) < 2 ^ 62 →
  ∃ annos det cls,
    _transform_annotations obj_order raw = Ok annos ∧
    update_labels annos (save_predicates_objects name_order annos).1
      (save_predicates_objects name_order annos).2 = Ok det ∧
    create_pred_cls_json det (save_predicates_objects name_order annos).1 = Ok cls ∧
    length det = length raw ∧ length cls = length raw ∧
    Forall (well_labelled (save_predicates_objects name_order annos).1
              (save_predicates_objects name_order annos).2) det ∧
    Forall (well_labelled (map astype_str (save_predicates_objects name_order annos).1)
              (save_predicates_objects name_order annos).2) cls ∧
    (Forall (fun rel => no_trailing_nul (predicate rel)) (flat_map relationships raw) →
     Forall (well_labelled (save_predicates_objects name_order annos).1
               (save_predicates_objects name_order annos).2) cls).
Proof.
  intros Hsize.
  destruct (pipeline_well_labelled raw Hsize)
    as (annos & det & cls & Hannos & Hdet & Hcls & Hld & Hlc & Hwd & Hwc & _).
  exists annos, det, cls. split_and!; [done..|].
  intros Hclean.
  rewrite astype_str_vocabulary in Hwc; [done|].
  destruct (labelled_stage raw) as (annos' & _ & Hannos' & _ & _ & _ & _ & _ & Hnames).
  assert (annos' = annos) as -> by congruence.
  apply Forall_forall. intros name [->|(rel & Hrel & ->)]%Hnames.
  - unfold no_trailing_nul. by vm_compute.
  - rewrite Forall_forall in Hclean. by apply Hclean.
Qed.
End Pipeline.

Lemma X12_pipeline_well_labelled_witness :
  ∃ annos det cls,
    _transform_annotations elements
      [RawAnno "a.jpg" 0 10 10
         [RawRel "car" (Bbox 0 5 0 5) "on" "road" (Bbox 4 9 0 9)]] = Ok annos ∧
    update_labels annos (save_predicates_objects elements annos).1
      (save_predicates_objects elements annos).2 = Ok det ∧
    create_pred_cls_json det (save_predicates_objects elements annos).1 = Ok cls ∧
    length det
    = length [RawAnno "a.jpg" 0 10 10
                [RawRel "car" (Bbox 0 5 0 5) "on" "road" (Bbox 4 9 0 9)]] ∧
    length cls
    = length [RawAnno "a.jpg" 0 10 10
                [RawRel "car" (Bbox 0 5 0 5) "on" "road" (Bbox 4 9 0 9)]] ∧
    Forall (well_labelled (save_predicates_objects elements annos).1
              (save_predicates_objects elements annos).2) det ∧
    Forall (well_labelled (map astype_str (save_predicates_objects elements annos).1)
              (save_predicates_objects elements annos).2) cls ∧
    (Forall (fun rel => no_trailing_nul (predicate rel))
       (flat_map relationships
          [RawAnno "a.jpg" 0 10 10
             [RawRel "car" (Bbox 0 5 0 5) "on" "road" (Bbox 4 9 0 9)]]) →
     Forall (well_labelled (save_predicates_objects elements annos).1
               (save_predicates_objects elements annos).2) cls).
Proof.
  apply (X12_pipeline_well_labelled elements elements
           elements_admissible elements_admissible_names).
  simpl. lia.
Defined.
(** ** The Laplace counts *)

Lemma observes_observed (n_obj n_rel : nat) (a : anno) (c : cell) :
  observes n_obj n_rel a c = true ↔ observed n_obj n_rel a c.
Proof.
  unfold observes, observed. rewrite existsb_exists. split.
  - intros (r & _ & Hr). exists r.
    destruct (cell_of_relation n_obj n_rel a r) as [c'|]; [|done].
    by apply bool_decide_eq_true in Hr as ->.
  - intros (r & Hr). exists r. split.
    + apply in_seq. split; [lia|]. simpl.
      unfold cell_of_relation in Hr.
      apply bind_Ok in Hr as (s & Hs & _). apply getitem_nat_Ok in Hs.
      by apply lookup_lt_Some in Hs.
    + rewrite Hr. by apply bool_decide_eq_true.
Qed.

Section Counts.
Variables n_obj n_rel : nat.

Lemma count_fold (annos : list anno) (c : cell) : ∀ pm0 pm : counts,
  has_shape n_obj n_rel pm0 →
  fold_result (count_anno n_obj n_rel) annos pm0 = Ok pm →
  has_shape n_obj n_rel pm ∧
  get_cell pm c = get_cell pm0 c + occurrences n_obj n_rel annos c.
Proof.
  unfold occurrences.
  induction annos as [|a annos IH]; intros pm0 pm Hshape; simpl.
  - intros [= <-]. split; [done|lia].
  - intros (pm1 & Ha & Hrest)%bind_Ok. rewrite filter_cons.
    destruct (counted a) eqn:Hcounted.
    + destruct (count_anno_spec n_obj n_rel pm0 pm1 a Hshape Hcounted Ha)
        as (Hshape1 & Hcells).
      destruct (IH pm1 pm Hshape1 Hrest) as (Hshape' & Hget).
      split; [done|]. rewrite Hget. destruct (Hcells c) as (Hobs & Hno & _).
      destruct (observes n_obj n_rel a c) eqn:Ho; simpl.
      * rewrite Hobs by (by apply observes_observed).
        lia.
      * rewrite Hno by (rewrite <- observes_observed; congruence).
        done.
    + rewrite (count_anno_skip n_obj n_rel pm0 a Hcounted) in Ha.
      injection Ha as <-. simpl. by apply IH.
Qed.

Lemma count_fold_training (annos : list anno) : ∀ pm0 : counts,
  fold_result (count_anno n_obj n_rel) annos pm0
  = fold_result (count_anno n_obj n_rel) (filter (fun a => split_id a = 0) annos) pm0.
Proof.
  induction annos as [|a annos IH]; intros pm0; [done|].
  rewrite filter_cons. destruct (decide (split_id a = 0)) as [Hs|Hs]; simpl.
  - destruct (count_anno n_obj n_rel pm0 a); simpl; [apply IH|done].
  - rewrite count_anno_skip; [apply IH|].
    apply andb_false_intro1. by apply Z.eqb_neq.
Qed.
End Counts.

(** X14: before normalisation, the cell of a subject class, an object
    class and a predicate holds 1 plus the number of training images with a
    non-empty relation name in which some relation addresses the cell: a
    count of images, not of relations. *)
Theorem X14_count_formula (annos : list anno) (predicates objects_ : list string)
    (pm : counts) (c : cell) :
  count_triplets annos predicates objects_ = Ok pm →
  in_shape (length objects_) (length predicates) c →
  get_cell pm c = 1 + occurrences (length objects_) (length predicates) annos c.
Proof.
  intros Hpm Hc.
  destruct (count_fold (length objects_) (length predicates) annos c
              (ones (length objects_) (length predicates)) pm) as (_ & ->);
    [apply ones_shape|exact Hpm|].
  by rewrite get_cell_ones.
Qed.

Lemma X14_count_formula_witness :
  get_cell [[[1; 1]; [2; 1]]; [[1; 1]; [1; 1]]] (0%nat, 1%nat, 0%nat)
  = 1 + occurrences (length ["car"; "road"]) (length ["on"; "__background__"])
          [Anno "a.jpg" 0 10 10
             (AnnoObjects [0; 1] ["car"; "road"] [Bbox 0 5 0 5; Bbox 4 9 0 9])
             (AnnoRelations [0; 0] ["on"; "on"] [0; 0] [1; 1] None)]
          (0%nat, 1%nat, 0%nat).
Proof.
  apply (X14_count_formula
    [Anno "a.jpg" 0 10 10
       (AnnoObjects [0; 1] ["car"; "road"] [Bbox 0 5 0 5; Bbox 4 9 0 9])
       (AnnoRelations [0; 0] ["on"; "on"] [0; 0] [1; 1] None)]
    ["on"; "__background__"] ["car"; "road"]).
  - reflexivity.
  - unfold in_shape. simpl. lia.
Defined.

(** X15: images outside the training split have no influence on the
    counts, nor on the exception raised: the estimator run on all images
    and run on the training images alone give the same result. *)
Theorem X15_training_images_only (rnd : Q → Q) (annos : list anno)
    (predicates objects_ : list string) :
  compute_relationship_probabilities rnd annos predicates objects_
  = compute_relationship_probabilities rnd
      (filter (fun a => split_id a = 0) annos) predicates objects_.
Proof.
  unfold compute_relationship_probabilities, count_triplets.
  by rewrite count_fold_training.
Qed.
(** ** The estimator on well-labelled images, and its exceptions *)

Lemma map_result_Raise {A B : Type} (f : A → result B) (l : list A) (e : exn) :
  map_result f l = Raise e → ∃ x, x ∈ l ∧ f x = Raise e.
Proof.
  induction l as [|x l IH]; simpl; [done|].
  destruct (f x) as [y|e'] eqn:Hx; simpl.
  - destruct (map_result f l) as [ys|e'']; simpl; [done|].
    intros [= <-]. destruct IH as (x' & Hx' & Hf); [done|].
    exists x'. split; [by apply list_elem_of_further|done].
  - intros [= <-]. exists x. split; [apply list_elem_of_here|done].
Qed.

Lemma bind_Raise {A B : Type} (m : result A) (k : A → result B) (e : exn) :
  m ≫= k = Raise e ↔ m = Raise e ∨ ∃ a, m = Ok a ∧ k a = Raise e.
Proof.
  destruct m as [a|e']; unfold mbind, result_bind.
  - split.
    + intros Hk. right. by exists a.
    + intros [Hm|(a' & Hm & Hk)]; [discriminate|]. by injection Hm as <-.
  - split.
    + intros [= ->]. by left.
    + intros [[= ->]|(a' & Hm & _)]; [done|discriminate].
Qed.



Lemma getitem_in_range {A : Type} (l : list A) (i : Z) :
  0 ≤ i < Z.of_nat (length l) →
  ∃ x, getitem l i = Ok x ∧ l !! Z.to_nat i = Some x.
Proof.
  intros Hi. unfold getitem.
  destruct (Z.leb_spec 0 i); [|lia]. destruct (Z.ltb_spec i (Z.of_nat (length l))); [|lia].
  simpl. destruct (lookup_lt_is_Some_2 l (Z.to_nat i)) as [x Hx]; [lia|].
  exists x. split; [|done]. unfold getitem_nat. by rewrite Hx.
Qed.

Lemma axis_index_in_range (len : nat) (i : Z) :
  0 ≤ i < Z.of_nat len → axis_index len i = Ok (Z.to_nat i).
Proof.
  intros Hi. unfold axis_index.
  destruct (Z.leb_spec 0 i); [|lia]. by destruct (Z.ltb_spec i (Z.of_nat len)); [|lia].
Qed.

Lemma labelled_range (voc : list string) (ids : list Z) (names : list string) :
  labelled voc ids names → Forall (fun id => 0 ≤ id < Z.of_nat (length voc)) ids.
Proof.
  induction 1 as [|id name ids names [Hid Hname] _ IH]; constructor; [|done].
  apply lookup_lt_Some in Hname. lia.
Qed.

Lemma index_arrays_total (n_obj n_rel : nat) (ids : list Z) (l : list (Z * Z * Z))
    (cells : list cell) :
  map_result (cell_of_triplet n_obj n_rel ids) l = Ok cells →
  (subj_cls ← map_result (fun t : Z * Z * Z => getitem ids t.1.1) l;
   obj_cls ← map_result (fun t : Z * Z * Z => getitem ids t.1.2) l;
   map_result (fun sop : Z * Z * Z =>
       i ← axis_index n_obj sop.1.1;
       j ← axis_index n_obj sop.1.2;
       k ← axis_index n_rel sop.2;
       Ok (i, j, k))
     (zip (zip subj_cls obj_cls) (map snd l))) = Ok cells.
Proof.
  revert cells. induction l as [|t l IH]; intros cells; simpl; [done|].
  intros (c & Hc & (cells' & Hcells & [= <-])%bind_Ok)%bind_Ok.
  specialize (IH cells' Hcells).
  unfold cell_of_triplet in Hc.
  apply bind_Ok in Hc as (cs & Hcs & (co & Hco & Hc)%bind_Ok).
  rewrite Hcs. simpl.
  apply bind_Ok in IH as (ss & Hss & (os & Hos & IH)%bind_Ok).
  rewrite Hss. simpl. rewrite Hco. simpl. rewrite Hos. simpl.
  rewrite Hc. simpl. by rewrite IH.
Qed.

Lemma any_names_nonempty (names : list string) :
  any_names names = true → names ≠ [].
Proof. by destruct names. Qed.

(** The triplets of a well-labelled image address cells of the array. *)
Lemma well_labelled_triplet (predicates objects_ : list string) (a : anno)
    (t : Z * Z * Z) (r : nat) :
  well_labelled predicates objects_ a →
  r_subj_ids (relations a) !! r = Some t.1.1 →
  r_obj_ids (relations a) !! r = Some t.1.2 →
  r_ids (relations a) !! r = Some t.2 →
  ∃ c, cell_of_triplet (length objects_) (length predicates) (o_ids (objects a)) t = Ok c.
Proof.
  intros (_ & _ & Hlr & Hlo & Hfs & Hfo) Hs Ho Hp.
  apply labelled_range in Hlr, Hlo.
  rewrite Forall_lookup in Hfs, Hfo, Hlr, Hlo.
  destruct (getitem_in_range (o_ids (objects a)) t.1.1 (Hfs r _ Hs)) as (cs & Hcs & Hcs').
  destruct (getitem_in_range (o_ids (objects a)) t.1.2 (Hfo r _ Ho)) as (co & Hco & Hco').
  unfold cell_of_triplet. rewrite Hcs, Hco. simpl.
  rewrite (axis_index_in_range _ cs) by (by eapply Hlo). simpl.
  rewrite (axis_index_in_range _ co) by (by eapply Hlo). simpl.
  rewrite (axis_index_in_range _ t.2) by (by eapply Hlr). simpl.
  by eexists.
Qed.

Lemma count_anno_total (predicates objects_ : list string) (pm : counts) (a : anno) :
  well_labelled predicates objects_ a →
  has_shape (length objects_) (length predicates) pm →
  ∃ pm', count_anno (length objects_) (length predicates) pm a = Ok pm' ∧
         has_shape (length objects_) (length predicates) pm'.
Proof.
  intros Hwl Hshape.
  destruct (counted a) eqn:Hcounted; unfold counted in Hcounted;
    [|exists pm; split; [by apply count_anno_skip|done]].
  assert (∃ pm', count_anno (length objects_) (length predicates) pm a = Ok pm')
    as [pm' Hpm'].
  { unfold count_anno. rewrite Hcounted.
    pose proof Hwl as ((Hlo & Hln & Hli) & _).
    unfold stack3. rewrite bool_decide_eq_true_2 by (split; lia). simpl.
    set (stacked := zip (zip (r_subj_ids (relations a)) (r_obj_ids (relations a)))
                      (r_ids (relations a))).
    assert (Hstack : stack3 (r_subj_ids (relations a)) (r_obj_ids (relations a))
                       (r_ids (relations a)) = Ok stacked).
    { unfold stack3. by rewrite bool_decide_eq_true_2 by (split; lia). }
    rewrite bool_decide_eq_false_2.
    2:{ apply andb_true_iff in Hcounted as [_ Hany%any_names_nonempty].
        destruct stacked as [|t stacked'] eqn:Hst.
        - apply (f_equal length) in Hst. subst stacked.
          rewrite !length_zip in Hst. simpl in Hst.
          destruct (r_names (relations a)); [done|]. simpl in *. lia.
        - intros Hnil. assert (t ∈ unique_rows (t :: stacked')) as Hin
            by (apply elem_of_unique_rows, list_elem_of_here).
          rewrite Hnil in Hin. by apply elem_of_nil in Hin. }
    destruct (map_result_total
      (cell_of_triplet (length objects_) (length predicates) (o_ids (objects a)))
      (unique_rows stacked)) as [cells Hcells].
    { intros t Ht. rewrite elem_of_unique_rows in Ht.
      rewrite (stack3_elem _ _ _ _ t Hstack) in Ht. destruct Ht as (r & Hs & Ho & Hp).
      by apply (well_labelled_triplet predicates objects_ a t r). }
    apply index_arrays_total in Hcells.
    apply bind_Ok in Hcells as (ss & -> & (os & -> & Hc3)%bind_Ok).
    simpl. unfold cell in *. rewrite Hc3. simpl. by eexists. }
  exists pm'. split; [done|].
  by destruct (count_anno_spec _ _ pm pm' a Hshape Hcounted Hpm').
Qed.

(** The estimator returns on well-labelled images. *)
Lemma probabilities_defined (rnd : Q → Q) (annos : list anno)
    (predicates objects_ : list string) :
  Forall (well_labelled predicates objects_) annos →
  ∃ pm, count_triplets annos predicates objects_ = Ok pm ∧
    has_shape (length objects_) (length predicates) pm ∧
    compute_relationship_probabilities rnd annos predicates objects_
    = Ok (normalize rnd pm).
Proof.
  intros Hall.
  assert (∀ pm0, has_shape (length objects_) (length predicates) pm0 →
    ∃ pm, fold_result (count_anno (length objects_) (length predicates)) annos pm0 = Ok pm
          ∧ has_shape (length objects_) (length predicates) pm) as Hfold.
  { induction Hall as [|a annos Ha _ IH]; intros pm0 Hshape; simpl.
    - by exists pm0.
    - destruct (count_anno_total predicates objects_ pm0 a Ha Hshape)
        as (pm1 & -> & Hshape1). simpl. by apply IH. }
  destruct (Hfold _ (ones_shape (length objects_) (length predicates)))
    as (pm & Hpm & Hshape).
  exists pm. split_and!; [done..|].
  unfold compute_relationship_probabilities, count_triplets. by rewrite Hpm.
Qed.

(** X16: on well-labelled images the estimator never raises: it returns
    the normalised array of counts of shape (objects, objects,
    predicates). *)
Theorem X16_probabilities_defined (rnd : Q → Q) (annos : list anno)
    (predicates objects_ : list string) :
  Forall (well_labelled predicates objects_) annos →
  ∃ pm, count_triplets annos predicates objects_ = Ok pm ∧
    has_shape (length objects_) (length predicates) pm ∧
    compute_relationship_probabilities rnd annos predicates objects_
    = Ok (normalize rnd pm).
Proof. apply probabilities_defined. Qed.

Lemma X16_probabilities_defined_witness :
  ∃ pm,
    count_triplets
      [Anno "a.jpg" 0 10 10
         (AnnoObjects [0; 1] ["car"; "road"] [Bbox 0 5 0 5; Bbox 4 9 0 9])
         (AnnoRelations [0; 1] ["on"; "__background__"] [0; 1] [1; 0] None)]
      ["on"; "__background__"] ["car"; "road"] = Ok pm ∧
    has_shape (length ["car"; "road"]) (length ["on"; "__background__"]) pm ∧
    compute_relationship_probabilities (fun q => q)
      [Anno "a.jpg" 0 10 10
         (AnnoObjects [0; 1] ["car"; "road"] [Bbox 0 5 0 5; Bbox 4 9 0 9])
         (AnnoRelations [0; 1] ["on"; "__background__"] [0; 1] [1; 0] None)]
      ["on"; "__background__"] ["car"; "road"]
    = Ok (normalize (fun q => q) pm).
Proof.
  apply (X16_probabilities_defined (fun q => q)).
  repeat constructor; simpl; lia.
Defined.


(** ** The negative miner: rule 2, and what a negative can be *)

Lemma compute_overlap_positive (b0 b1 : bbox) :
  0 < compute_area b0 ∨ 0 < compute_area b1 → ∃ q, compute_overlap b0 b1 = Ok q.
Proof.
  intros Hpos.
  pose proof (compute_area_nonneg b0) as Hb0.
  pose proof (compute_area_nonneg b1) as Hb1.
  destruct (intersection_area_le b0 b1) as (H0 & Hle0 & Hle1).
  unfold compute_overlap, truediv.
  set (ia := compute_area (Bbox _ _ _ _)) in *.
  destruct (Z.eqb_spec (compute_area b0 + compute_area b1 - ia) 0); [lia|].
  by eexists.
Qed.

(** X18: rule 2 of the miner.  For an annotated relation (S, P, O) whose
    predicate is in the rule-2 list and not in the rule-1 list, the id of P
    is put on the negative list of every relation with the same subject
    index, another predicate name, and an object box that overlaps the box
    of O by less than 0.9, provided the areas of the two boxes add up to at
    most 2^51, so that the rounding of the quotient to a double cannot
    reach the double 0.9; it is not put on the list of a relation with
    another subject index, nor, whatever the areas, of one whose object box
    overlaps by 0.9 or more. *)
Theorem X18_rule2_negatives (r1_preds r2_preds : list string) (a : anno)
    (negs : list (list Z)) (n r : nat) (P P2 : string) (S O S2 O2 idP : Z)
    (bS bO bO2 : bbox) :
  mine_negatives r1_preds r2_preds a = Ok negs →
  r_names (relations a) !! n = Some P →
  r_subj_ids (relations a) !! n = Some S →
  r_obj_ids (relations a) !! n = Some O →
  r_ids (relations a) !! n = Some idP →
  P ∉ r1_preds → P ∈ r2_preds →
  r_names (relations a) !! r = Some P2 →
  r_subj_ids (relations a) !! r = Some S2 →
  r_obj_ids (relations a) !! r = Some O2 →
  (r < length (r_ids (relations a)))%nat →
  getitem (o_boxes (objects a)) S = Ok bS →
  getitem (o_boxes (objects a)) O = Ok bO →
  getitem (o_boxes (objects a)) O2 = Ok bO2 →
  (∀ q, S2 = S → P2 ≠ P → compute_overlap bO2 bO = Ok q → (q < 9 # 10)%Q →
        compute_area bO2 + compute_area bO ≤ 2 ^ 51 →
        n ∈ contributors r1_preds r2_preds a r ∧
        ∃ l, negs !! r = Some l ∧ idP ∈ l) ∧
  (∀ q, compute_overlap bO2 bO = Ok q → (9 # 10 <= q)%Q →
        n ∉ contributors r1_preds r2_preds a r) ∧
  (S2 ≠ S → n ∉ contributors r1_preds r2_preds a r).
Proof.
  intros Hmine HnP HnS HnO Hnid HP1 HP2 HrP HrS HrO Hr HbS HbO HbO2.
  pose proof (mine_negatives_spec r1_preds r2_preds a negs r Hmine Hr) as Hnegs.
  assert (Hrule : rule_at r1_preds r2_preds a n r = rule2_applies a P S O bO r P2).
  { rewrite (rule_at_unfold r1_preds r2_preds a n r P O S bO bS) by done.
    rewrite HrP. unfold name_in.
    rewrite bool_decide_eq_false_2 by done. by rewrite bool_decide_eq_true_2. }
  assert (Hrule2 : rule2_applies a P S O bO r P2
    = if bool_decide (S2 = S) then
        if bool_decide (P2 ≠ P) then
          if bool_decide (O2 ≠ O) then
            overlap ← compute_overlap bO2 bO; Ok (below_09 overlap)
          else Ok false
        else Ok false
      else Ok false).
  { unfold rule2_applies, getitem_nat. rewrite HrO. simpl. rewrite HbO2. simpl.
    by rewrite HrS. }
  split_and!.
  - intros q HS HPne Hq Hlt Harea.
    assert (Hc : contributes r1_preds r2_preds a r n = true).
    { unfold contributes. rewrite Hrule, Hrule2.
      rewrite !bool_decide_eq_true_2; [|
        |done|done].
      - rewrite Hq. simpl.
        destruct (compute_overlap_Ok _ _ _ Hq) as (i & u & -> & Hi & Hu & Hle).
        rewrite below_09_true by (done || lia). done.
      - intros ->. rewrite HbO in HbO2. injection HbO2 as <-.
        apply compute_overlap_self in Hq. rewrite Hq in Hlt. done. }
    assert (Hin : n ∈ contributors r1_preds r2_preds a r).
    { unfold contributors. apply list_elem_of_filter. split; [done|].
      apply elem_of_seq. split; [lia|]. simpl. by eapply lookup_lt_Some. }
    split; [done|]. eexists. split; [done|].
    apply elem_of_flat_map. exists n. split; [done|].
    rewrite Hnid. simpl. apply list_elem_of_here.
  - intros q Hq Hge Hin. unfold contributors in Hin.
    apply list_elem_of_filter in Hin as [Hc _].
    unfold contributes in Hc. rewrite Hrule, Hrule2 in Hc.
    repeat (case_bool_decide; [|done]). rewrite Hq in Hc. simpl in Hc.
    by rewrite (below_09_false q Hge) in Hc.
  - intros Hne Hin. unfold contributors in Hin.
    apply list_elem_of_filter in Hin as [Hc _].
    unfold contributes in Hc. rewrite Hrule, Hrule2 in Hc.
    by rewrite bool_decide_eq_false_2 in Hc.
Qed.

Lemma X18_rule2_witness :
  (∀ q, 0 = 0 → "beside" ≠ "on" →
        compute_overlap (Bbox 20 29 20 29) (Bbox 0 9 0 9) = Ok q → (q < 9 # 10)%Q →
        compute_area (Bbox 20 29 20 29) + compute_area (Bbox 0 9 0 9) ≤ 2 ^ 51 →
        0%nat ∈ contributors [] ["on"]
          (Anno "a.jpg" 0 40 40
             (AnnoObjects [0; 1; 1] ["cup"; "table"; "table"]
                [Bbox 0 4 0 4; Bbox 0 9 0 9; Bbox 20 29 20 29])
             (AnnoRelations [0; 1] ["on"; "beside"] [0; 0] [1; 2] None)) 1 ∧
        ∃ l, [[]; [0]] !! 1%nat = Some l ∧ 0 ∈ l) ∧
  (∀ q, compute_overlap (Bbox 20 29 20 29) (Bbox 0 9 0 9) = Ok q → (9 # 10 <= q)%Q →
        0%nat ∉ contributors [] ["on"]
          (Anno "a.jpg" 0 40 40
             (AnnoObjects [0; 1; 1] ["cup"; "table"; "table"]
                [Bbox 0 4 0 4; Bbox 0 9 0 9; Bbox 20 29 20 29])
             (AnnoRelations [0; 1] ["on"; "beside"] [0; 0] [1; 2] None)) 1) ∧
  (0 ≠ 0 →
   0%nat ∉ contributors [] ["on"]
     (Anno "a.jpg" 0 40 40
        (AnnoObjects [0; 1; 1] ["cup"; "table"; "table"]
           [Bbox 0 4 0 4; Bbox 0 9 0 9; Bbox 20 29 20 29])
        (AnnoRelations [0; 1] ["on"; "beside"] [0; 0] [1; 2] None)) 1).
Proof.
  apply (X18_rule2_negatives [] ["on"]
    (Anno "a.jpg" 0 40 40
       (AnnoObjects [0; 1; 1] ["cup"; "table"; "table"]
          [Bbox 0 4 0 4; Bbox 0 9 0 9; Bbox 20 29 20 29])
       (AnnoRelations [0; 1] ["on"; "beside"] [0; 0] [1; 2] None))
    [[]; [0]] 0 1 "on" "beside" 0 1 0 2 0
    (Bbox 0 4 0 4) (Bbox 0 9 0 9) (Bbox 20 29 20 29));
    try reflexivity.
  - apply not_elem_of_nil.
  - apply list_elem_of_here.
  - simpl. lia.
Defined.

Lemma rule1_applies_true (a : anno) (name : string) (subj_id obj_id : Z)
    (subj_box : bbox) (r : nat) (rel : string) :
  rule1_applies a name subj_id obj_id subj_box r rel = Ok true → rel ≠ name.
Proof.
  unfold rule1_applies.
  intros (s & _ & (b & _ & H)%bind_Ok)%bind_Ok.
  case_bool_decide; [|done].
  apply bind_Ok in H as (q & _ & H).
  destruct (below_09 q); [|done]. by case_bool_decide.
Qed.

Lemma rule2_applies_true (a : anno) (name : string) (subj_id obj_id : Z)
    (obj_box : bbox) (r : nat) (rel : string) :
  rule2_applies a name subj_id obj_id obj_box r rel = Ok true → rel ≠ name.
Proof.
  unfold rule2_applies.
  intros (o & _ & (b & _ & (s & _ & H)%bind_Ok)%bind_Ok)%bind_Ok.
  case_bool_decide; [|done]. by case_bool_decide.
Qed.

Lemma contributes_inv (r1_preds r2_preds : list string) (a : anno) (r n : nat) :
  contributes r1_preds r2_preds a r n = true →
  ∃ name rel,
    r_names (relations a) !! n = Some name ∧
    r_names (relations a) !! r = Some rel ∧
    rel ≠ name ∧ (name ∈ r1_preds ∨ name ∈ r2_preds).
Proof.
  unfold contributes.
  destruct (rule_at r1_preds r2_preds a n r) as [[|]|] eqn:Hrule; [|done..].
  intros _. unfold rule_at in Hrule.
  apply bind_Ok in Hrule as (name & Hname%getitem_nat_Ok & Hrule).
  apply bind_Ok in Hrule as (oid & _ & Hrule).
  apply bind_Ok in Hrule as (sid & _ & Hrule).
  apply bind_Ok in Hrule as (ob & _ & Hrule).
  apply bind_Ok in Hrule as (sb & _ & Hrule).
  apply bind_Ok in Hrule as (rel & Hrel%getitem_nat_Ok & Hrule).
  exists name, rel. split_and!; [done..| |]; unfold name_in in Hrule.
  - case_bool_decide; [by eapply rule1_applies_true|].
    case_bool_decide; [by eapply rule2_applies_true|done].
  - case_bool_decide; [by left|]. case_bool_decide; [by right|done].
Qed.

Lemma mine_negatives_length (r1_preds r2_preds : list string) (a : anno)
    (negs : list (list Z)) :
  mine_negatives r1_preds r2_preds a = Ok negs →
  length negs = length (r_ids (relations a)).
Proof.
  unfold mine_negatives. intros Hmine.
  assert (Hl : ∀ p : nat * string,
    p ∈ enumerate (r_names (relations a)) → r_names (relations a) !! p.1 = Some p.2).
  { intros [n name] Hp. by apply enumerate_lookup. }
  pose proof (mine_outer r1_preds r2_preds a _ _ _ Hl Hmine) as Hlookup.
  destruct (Nat.lt_trichotomy (length negs) (length (r_ids (relations a))))
    as [Hlt|[Heq|Hgt]]; [|done|].
  - specialize (Hlookup (length negs)).
    rewrite lookup_replicate_lt in Hlookup by done.
    rewrite lookup_ge_None_2 in Hlookup by lia. done.
  - specialize (Hlookup (length (r_ids (relations a)))).
    rewrite (lookup_ge_None_2 (replicate _ _)) in Hlookup
      by (rewrite length_replicate; lia).
    apply lookup_ge_None_1 in Hlookup. lia.
Qed.

(** X19: the miner writes one negative list per relation, and a negative of
    a relation is always the predicate id of another relation of the same
    image, whose predicate name differs from the relation's own and is in
    one of the two rule lists.  When ids are positions in a vocabulary, a
    relation's own predicate id is therefore never among its negatives. *)
Theorem X19_negatives_are_other_predicates (r1_preds r2_preds : list string) (a : anno)
    (negs : list (list Z)) :
  mine_negatives r1_preds r2_preds a = Ok negs →
  length negs = length (r_ids (relations a)) ∧
  (∀ r l id, negs !! r = Some l → id ∈ l →
     ∃ n name rel,
       n ≠ r ∧
       r_ids (relations a) !! n = Some id ∧
       r_names (relations a) !! n = Some name ∧
       r_names (relations a) !! r = Some rel ∧
       rel ≠ name ∧ (name ∈ r1_preds ∨ name ∈ r2_preds)) ∧
  (∀ voc r l id,
     labelled voc (r_ids (relations a)) (r_names (relations a)) →
     negs !! r = Some l → r_ids (relations a) !! r = Some id → id ∉ l).
Proof.
  intros Hmine.
  pose proof (mine_negatives_length r1_preds r2_preds a negs Hmine) as Hlen.
  assert (Hother : ∀ r l id, negs !! r = Some l → id ∈ l →
     ∃ n name rel,
       n ≠ r ∧
       r_ids (relations a) !! n = Some id ∧
       r_names (relations a) !! n = Some name ∧
       r_names (relations a) !! r = Some rel ∧
       rel ≠ name ∧ (name ∈ r1_preds ∨ name ∈ r2_preds)).
  { intros r l id Hl Hid.
    rewrite (mine_negatives_spec r1_preds r2_preds a negs r Hmine) in Hl
      by (rewrite <- Hlen; by eapply lookup_lt_Some).
    injection Hl as <-.
    apply elem_of_flat_map in Hid as (n & Hn & Hid).
    unfold contributors in Hn. apply list_elem_of_filter in Hn as [Hc _].
    apply contributes_inv in Hc as (name & rel & Hname & Hrel & Hne & Hin).
    destruct (r_ids (relations a) !! n) as [id'|] eqn:Hid'; simpl in Hid;
      [|by apply elem_of_nil in Hid].
    apply list_elem_of_singleton in Hid as ->.
    exists n, name, rel. split_and!; [|done..].
    intros ->. congruence. }
  split_and!; [done..|].
  intros voc r l id Hlab Hl Hr Hin.
  destruct (Hother r l id Hl Hin) as (n & name & rel & _ & Hn & Hname & Hrel & Hne & _).
  unfold labelled in Hlab.
  destruct (Forall2_lookup_lr _ _ _ _ _ _ Hlab Hn Hname) as [_ H1].
  destruct (Forall2_lookup_lr _ _ _ _ _ _ Hlab Hr Hrel) as [_ H2].
  congruence.
Qed.

Lemma X19_negatives_are_other_predicates_witness :
  length [[]; [0]]
  = length (r_ids (relations
      (Anno "a.jpg" 0 40 40
         (AnnoObjects [0; 1; 1] ["cup"; "table"; "table"]
            [Bbox 0 4 0 4; Bbox 0 9 0 9; Bbox 20 29 20 29])
         (AnnoRelations [0; 1] ["on"; "beside"] [0; 0] [1; 2] None)))) ∧
  (∀ r l id, [[]; [0]] !! r = Some l → id ∈ l →
     ∃ n name rel,
       n ≠ r ∧
       [0; 1] !! n = Some id ∧
       ["on"; "beside"] !! n = Some name ∧
       ["on"; "beside"] !! r = Some rel ∧
       rel ≠ name ∧ (name ∈ [] ∨ name ∈ ["on"])) ∧
  (∀ voc r l id,
     labelled voc [0; 1] ["on"; "beside"] →
     [[]; [0]] !! r = Some l → [0; 1] !! r = Some id → id ∉ l).
Proof.
  apply (X19_negatives_are_other_predicates [] ["on"]
    (Anno "a.jpg" 0 40 40
       (AnnoObjects [0; 1; 1] ["cup"; "table"; "table"]
          [Bbox 0 4 0 4; Bbox 0 9 0 9; Bbox 20 29 20 29])
       (AnnoRelations [0; 1] ["on"; "beside"] [0; 0] [1; 2] None)) [[]; [0]]).
  reflexivity.
Defined.
(** ** The negative miner on well-labelled images *)

Lemma fold_result_total {A S : Type} (P : S → Prop) (body : S → A → result S)
    (l : list A) : ∀ st : S,
  (∀ s x, P s → x ∈ l → ∃ s', body s x = Ok s' ∧ P s') →
  P st → ∃ st', fold_result body l st = Ok st' ∧ P st'.
Proof.
  induction l as [|x l IH]; intros st Hbody Hst; simpl; [by exists st|].
  destruct (Hbody st x Hst) as (s' & -> & Hs'); [apply list_elem_of_here|]. simpl.
  apply IH; [|done]. intros s y Hs Hy. apply Hbody; [done|].
  by apply list_elem_of_further.
Qed.

Section Total.
Variables (predicates objects_ r1_preds r2_preds : list string) (a : anno).
Hypothesis a_well_labelled : well_labelled predicates objects_ a.

Lemma box_of_index (ids : list Z) (r : nat) (i : Z) :
  Forall (fun s => 0 ≤ s < Z.of_nat (length (o_ids (objects a)))) ids →
  ids !! r = Some i →
  ∃ b, getitem (o_boxes (objects a)) i = Ok b ∧ b ∈ o_boxes (objects a).
Proof.
  intros Hall Hi. destruct a_well_labelled as (_ & Hb & _).
  rewrite Forall_lookup in Hall. specialize (Hall r i Hi).
  destruct (getitem_in_range (o_boxes (objects a)) i) as (b & Hget & Hlook); [lia|].
  exists b. split; [done|]. by eapply list_elem_of_lookup_2.
Qed.

Lemma relation_fields (r : nat) :
  (r < length (r_names (relations a)))%nat →
  ∃ s o id bs bo,
    r_subj_ids (relations a) !! r = Some s ∧
    r_obj_ids (relations a) !! r = Some o ∧
    r_ids (relations a) !! r = Some id ∧
    getitem (o_boxes (objects a)) s = Ok bs ∧ bs ∈ o_boxes (objects a) ∧
    getitem (o_boxes (objects a)) o = Ok bo ∧ bo ∈ o_boxes (objects a).
Proof.
  intros Hr. destruct a_well_labelled as ((Hlo & Hln & Hli) & _ & _ & _ & Hfs & Hfo).
  destruct (lookup_lt_is_Some_2 (r_subj_ids (relations a)) r) as [s Hs]; [lia|].
  destruct (lookup_lt_is_Some_2 (r_obj_ids (relations a)) r) as [o Ho]; [lia|].
  destruct (lookup_lt_is_Some_2 (r_ids (relations a)) r) as [id Hid]; [lia|].
  destruct (box_of_index _ r s Hfs Hs) as (bs & Hbs & Hbs').
  destruct (box_of_index _ r o Hfo Ho) as (bo & Hbo & Hbo').
  exists s, o, id, bs, bo. by split_and!.
Qed.

Hypothesis boxes_positive : Forall (fun b => 0 < compute_area b) (o_boxes (objects a)).

Lemma overlap_of_boxes (b0 b1 : bbox) :
  b0 ∈ o_boxes (objects a) → ∃ q, compute_overlap b0 b1 = Ok q.
Proof.
  intros Hb0. apply compute_overlap_positive. left.
  rewrite List.Forall_forall in boxes_positive.
  by apply boxes_positive, list_elem_of_In.
Qed.

Lemma rule1_applies_total (name : string) (subj_id obj_id : Z) (subj_box : bbox)
    (r : nat) (rel : string) :
  (r < length (r_names (relations a)))%nat →
  ∃ b, rule1_applies a name subj_id obj_id subj_box r rel = Ok b.
Proof.
  intros Hr. destruct (relation_fields r Hr)
    as (s & o & id & bs & bo & Hs & Ho & _ & Hbs & Hbs' & _).
  unfold rule1_applies, getitem_nat. rewrite Hs. simpl. rewrite Hbs. simpl.
  case_bool_decide; [|by eexists].
  destruct (overlap_of_boxes bs subj_box Hbs') as [q ->]. simpl.
  destruct (below_09 q); [|by eexists]. case_bool_decide; [|by eexists].
  rewrite Ho. simpl. by eexists.
Qed.

Lemma rule2_applies_total (name : string) (subj_id obj_id : Z) (obj_box : bbox)
    (r : nat) (rel : string) :
  (r < length (r_names (relations a)))%nat →
  ∃ b, rule2_applies a name subj_id obj_id obj_box r rel = Ok b.
Proof.
  intros Hr. destruct (relation_fields r Hr)
    as (s & o & id & bs & bo & Hs & Ho & _ & _ & _ & Hbo & Hbo').
  unfold rule2_applies, getitem_nat. rewrite Ho. simpl. rewrite Hbo. simpl.
  rewrite Hs. simpl.
  repeat (case_bool_decide; [|by eexists]).
  destruct (overlap_of_boxes bo obj_box Hbo') as [q ->]. simpl. by eexists.
Qed.

Lemma mine_relation_total (rule : nat → string → result bool) (n : nat)
    (neg_ids : list (list Z)) :
  (∀ r rel, (r < length (r_names (relations a)))%nat → ∃ b, rule r rel = Ok b) →
  (n < length (r_names (relations a)))%nat →
  length neg_ids = length (r_ids (relations a)) →
  ∃ neg_ids', mine_relation rule a n neg_ids = Ok neg_ids' ∧
              length neg_ids' = length (r_ids (relations a)).
Proof.
  intros Hrule Hn Hlen. unfold mine_relation.
  destruct a_well_labelled as ((_ & Hln & Hli) & _).
  apply (fold_result_total (fun neg => length neg = length (r_ids (relations a))));
    [|done].
  intros neg [r rel] Hneg Hin. simpl.
  apply enumerate_lookup, lookup_lt_Some in Hin.
  destruct (Hrule r rel Hin) as [[|] ->]; simpl; [|by exists neg].
  destruct (lookup_lt_is_Some_2 neg r) as [cur Hcur]; [lia|].
  destruct (lookup_lt_is_Some_2 (r_ids (relations a)) n) as [id Hid]; [lia|].
  unfold getitem_nat. rewrite Hcur, Hid. simpl.
  eexists. split; [done|]. by rewrite length_insert.
Qed.

Lemma mine_negatives_total :
  ∃ negs, mine_negatives r1_preds r2_preds a = Ok negs.
Proof.
  unfold mine_negatives.
  destruct (fold_result_total
    (fun neg : list (list Z) => length neg = length (r_ids (relations a)))
    (fun (neg_ids : list (list Z)) (n_name : nat * string) =>
      let (n_cnt, name) := n_name in
      obj_id ← getitem_nat (r_obj_ids (relations a)) n_cnt;
      subj_id ← getitem_nat (r_subj_ids (relations a)) n_cnt;
      obj_box ← getitem (o_boxes (objects a)) obj_id;
      subj_box ← getitem (o_boxes (objects a)) subj_id;
      if name_in name r1_preds then
        mine_relation (rule1_applies a name subj_id obj_id subj_box) a n_cnt neg_ids
      else if name_in name r2_preds then
        mine_relation (rule2_applies a name subj_id obj_id obj_box) a n_cnt neg_ids
      else Ok neg_ids)
    (enumerate (r_names (relations a)))
    (replicate (length (r_ids (relations a))) [])) as (negs & Hnegs & _).
  - intros neg [n name] Hneg Hin.
    apply enumerate_lookup, lookup_lt_Some in Hin.
    destruct (relation_fields n Hin)
      as (s & o & id & bs & bo & Hs & Ho & _ & Hbs & _ & Hbo & _).
    unfold getitem_nat at 1 2. rewrite Ho, Hs. simpl. rewrite Hbo, Hbs. simpl.
    destruct (name_in name r1_preds).
    + apply mine_relation_total; [|done..]. intros r rel Hr.
      by apply rule1_applies_total.
    + destruct (name_in name r2_preds); [|by exists neg].
      apply mine_relation_total; [|done..]. intros r rel Hr.
      by apply rule2_applies_total.
  - by rewrite length_replicate.
  - by exists negs.
Qed.
End Total.

(** X20: on a well-labelled image whose boxes all have a positive area, the
    miner never raises, whatever the two rule lists are: every index is in
    range and every overlap is defined. *)
Theorem X20_miner_defined (predicates objects_ r1_preds r2_preds : list string)
    (a : anno) :
  well_labelled predicates objects_ a →
  Forall (fun b => 0 < compute_area b) (o_boxes (objects a)) →
  ∃ negs, mine_negatives r1_preds r2_preds a = Ok negs ∧
          length negs = length (r_ids (relations a)).
Proof.
  intros Hwl Hpos.
  destruct (mine_negatives_total predicates objects_ r1_preds r2_preds a Hwl Hpos)
    as [negs Hnegs].
  exists negs. split; [done|]. by eapply mine_negatives_length.
Qed.

Lemma X20_miner_defined_witness :
  ∃ negs,
    mine_negatives ["on"] ["beside"]
      (Anno "a.jpg" 0 40 40
         (AnnoObjects [0; 1] ["cup"; "table"] [Bbox 0 4 0 4; Bbox 0 9 0 9])
         (AnnoRelations [1; 0] ["on"; "beside"] [0; 1] [1; 0] None)) = Ok negs ∧
    length negs = length [1; 0].
Proof.
  apply (X20_miner_defined ["beside"; "on"] ["cup"; "table"] ["on"] ["beside"]
    (Anno "a.jpg" 0 40 40
       (AnnoObjects [0; 1] ["cup"; "table"] [Bbox 0 4 0 4; Bbox 0 9 0 9])
       (AnnoRelations [1; 0] ["on"; "beside"] [0; 1] [1; 0] None))).
  - repeat constructor; simpl; lia.
  - repeat constructor.
Defined.

Lemma mine_negatives_default (predicates objects_ : list string) (a : anno) :
  well_labelled predicates objects_ a →
  mine_negatives [] [] a = Ok (replicate (length (r_ids (relations a))) []).
Proof.
  intros Hwl. unfold mine_negatives.
  generalize (replicate (length (r_ids (relations a))) ([] : list Z)). intros neg.
  assert (Hl : ∀ p : nat * string,
    p ∈ enumerate (r_names (relations a)) →
    (p.1 < length (r_names (relations a)))%nat).
  { intros [n name] Hp. by apply enumerate_lookup, lookup_lt_Some in Hp. }
  induction (enumerate (r_names (relations a))) as [|[n name] l IH]; simpl; [done|].
  destruct (relation_fields predicates objects_ a Hwl n)
    as (s & o & id & bs & bo & Hs & Ho & _ & Hbs & _ & Hbo & _).
  { apply (Hl (n, name)), list_elem_of_here. }
  unfold getitem_nat. rewrite Ho, Hs. simpl. rewrite Hbo, Hbs. simpl.
  apply IH. intros p Hp. by apply Hl, list_elem_of_further.
Qed.

(** The miner with empty rule lists. *)
Lemma default_rules_no_negatives (predicates objects_ : list string)
    (annos : list anno) :
  Forall (well_labelled predicates objects_) annos →
  save_negative_json [] [] annos
  = Ok (dict_of_list
          (map (fun a => (filename a, replicate (length (r_ids (relations a))) []))
             annos)).
Proof.
  unfold save_negative_json, dict_of_list.
  generalize ([] : dict string (list (list Z))).
  intros d Hall. revert d.
  induction Hall as [|a annos Ha _ IH]; intros d; simpl; [done|].
  rewrite (mine_negatives_default predicates objects_ a Ha). simpl. apply IH.
Qed.

(** X21: with the two rule lists empty, as the constructor of the
    transformer leaves them, the negatives written for well-labelled images
    hold no negative at all: every file name is mapped to one empty list
    per relation of the image (of the last image, when a file name
    repeats). *)
Theorem X21_default_rules_no_negatives (predicates objects_ : list string)
    (annos : list anno) :
  Forall (well_labelled predicates objects_) annos →
  save_negative_json [] [] annos
  = Ok (dict_of_list
          (map (fun a => (filename a, replicate (length (r_ids (relations a))) []))
             annos)).
Proof. apply default_rules_no_negatives. Qed.

Lemma X21_default_rules_witness :
  save_negative_json [] []
    [Anno "a.jpg" 0 40 40
       (AnnoObjects [0; 1] ["cup"; "table"] [Bbox 0 4 0 4; Bbox 0 9 0 9])
       (AnnoRelations [1; 0] ["on"; "beside"] [0; 1] [1; 0] None)]
  = Ok (dict_of_list
          (map (fun a => (filename a, replicate (length (r_ids (relations a))) []))
             [Anno "a.jpg" 0 40 40
                (AnnoObjects [0; 1] ["cup"; "table"] [Bbox 0 4 0 4; Bbox 0 9 0 9])
                (AnnoRelations [1; 0] ["on"; "beside"] [0; 1] [1; 0] None)])).
Proof.
  apply (X21_default_rules_no_negatives ["beside"; "on"] ["cup"; "table"]).
  repeat constructor; simpl; lia.
Defined.
(** ** Synonym classes *)

Lemma entry_lookup (m : list (list Z)) (i j : nat) :
  entry m i j = default 0 (row ← m !! i; row !! j).
Proof.
  unfold entry, matrix in *. rewrite !nth_lookup.
  destruct (m !! i) as [row|]; [reflexivity|]. by destruct j.
Qed.

Lemma mat_setitem_spec (n : nat) (mat : matrix) (p q : Z) :
  square n mat → 0 ≤ p < Z.of_nat n → 0 ≤ q < Z.of_nat n →
  ∃ mat', mat_setitem mat p q 1 = Ok mat' ∧ square n mat' ∧
    (is01 mat → is01 mat') ∧
    ∀ i j, entry mat' i j
           = if decide (i = Z.to_nat p ∧ j = Z.to_nat q) then 1 else entry mat i j.
Proof.
  intros Hsq Hp Hq. pose proof Hsq as [Hlen Hrows].
  assert (Hn : (0 < n)%nat) by lia. unfold matrix in *.
  exists (alter (fun row => <[Z.to_nat q := 1]> row) (Z.to_nat p) mat).
  split.
  { unfold mat_setitem. rewrite Hlen, (ncols_square n mat Hsq Hn).
    by rewrite !axis_index_in_range by done. }
  destruct (lookup_lt_is_Some_2 mat (Z.to_nat p)) as [row Hrow]; [lia|].
  assert (Hrowlen : length row = n).
  { rewrite List.Forall_forall in Hrows. apply Hrows.
    apply list_elem_of_In. by eapply list_elem_of_lookup_2. }
  split_and!.
  - split; [by rewrite length_alter|].
    apply Forall_alter; [done|]. intros row' _ Hl. by rewrite length_insert.
  - intros H01. apply Forall_alter; [done|]. intros row' _ Hrow'.
    apply Forall_insert; [done|]. by right.
  - intros i j. rewrite !entry_lookup.
    destruct (decide (i = Z.to_nat p ∧ j = Z.to_nat q)) as [[-> ->]|Hne].
    + rewrite list_lookup_alter_eq, Hrow. cbn.
      by rewrite list_lookup_insert_eq by lia.
    + destruct (decide (i = Z.to_nat p)) as [->|Hi].
      * rewrite list_lookup_alter_eq, Hrow. cbn.
        rewrite list_lookup_insert_ne; [done|]. intros <-. by apply Hne.
      * by rewrite list_lookup_alter_ne.
Qed.

Lemma adjacency_get (n : nat) (keys : list (Z * Z)) (conn : dict (Z * Z) matrix)
    (key : Z * Z) :
  adjacency n keys conn → key ∈ keys →
  ∃ mat, dict_get conn key = Some mat ∧ square n mat ∧ is01 mat ∧
         ∀ i, (i < n)%nat → entry mat i i = 1.
Proof.
  intros (Hkeys & Hnd & Hall) Hkey. rewrite <- Hkeys in Hkey, Hnd.
  destruct (dict_get conn key) as [mat|] eqn:Hget.
  - exists mat. split; [done|].
    apply dict_get_Some in Hget; [|done].
    rewrite List.Forall_forall in Hall.
    by apply (Hall (key, mat)), list_elem_of_In.
  - by apply dict_get_None in Hget.
Qed.

Lemma dict_set_existing {K V : Type} `{EqDecision K} (d : dict K V) (k : K) (v : V) :
  k ∈ map fst d →
  map fst (dict_set d k v) = map fst d ∧
  ∀ kv, kv ∈ dict_set d k v → kv = (k, v) ∨ kv ∈ d.
Proof.
  induction d as [|[k' v'] d IH]; simpl; intros Hk; [by apply elem_of_nil in Hk|].
  destruct (decide (k = k')) as [->|Hne].
  - split; [done|]. intros kv [->|?]%elem_of_cons; [by left|].
    right. by apply list_elem_of_further.
  - apply elem_of_cons in Hk as [?|Hk]; [done|].
    destruct (IH Hk) as [Hkeys Hin]. simpl. rewrite Hkeys. split; [done|].
    intros kv [->|Hkv]%elem_of_cons; [right; apply list_elem_of_here|].
    destruct (Hin kv Hkv) as [?|?]; [by left|].
    right. by apply list_elem_of_further.
Qed.

(** One assignment [connections[key][p, q] = 1]. *)
Lemma connect_step (n : nat) (keys : list (Z * Z)) (a : anno)
    (conn : dict (Z * Z) matrix) (i j : nat) (s o cs co p q : Z) :
  adjacency n keys conn →
  r_subj_ids (relations a) !! i = Some s →
  r_obj_ids (relations a) !! j = Some o →
  getitem (o_ids (objects a)) s = Ok cs →
  getitem (o_ids (objects a)) o = Ok co →
  (cs, co) ∈ keys →
  r_ids (relations a) !! i = Some p → r_ids (relations a) !! j = Some q →
  0 ≤ p < Z.of_nat n → 0 ≤ q < Z.of_nat n →
  ∃ conn', connect a conn (i, j) = Ok conn' ∧
    adjacency n keys conn' ∧
    (∀ key p' q', connected conn key p' q' → connected conn' key p' q') ∧
    connected conn' (cs, co) p q.
Proof.
  intros Hadj Hs Ho Hcs Hco Hkey Hp Hq Hpr Hqr.
  destruct (adjacency_get n keys conn (cs, co) Hadj Hkey)
    as (mat & Hget & Hsq & H01 & Hrefl).
  destruct (mat_setitem_spec n mat p q Hsq Hpr Hqr) as (mat' & Hset & Hsq' & H01' & Hentry).
  unfold connect, getitem_nat, dict_getitem. simpl.
  rewrite Hs. simpl. rewrite Hcs. simpl. rewrite Ho. simpl. rewrite Hco. simpl.
  rewrite Hget. simpl. rewrite Hp, Hq. simpl. rewrite Hset. simpl.
  eexists. split; [done|].
  destruct Hadj as (Hkeys & Hnd & Hall).
  destruct (dict_set_existing conn (cs, co) mat') as [Hkeys' Hin];
    [by rewrite Hkeys|].
  split_and!.
  - split_and!; [by rewrite Hkeys'|done|].
    apply List.Forall_forall. intros kv Hkv.
    apply list_elem_of_In, Hin in Hkv as [->|Hkv].
    + simpl. split_and!; [done|by apply H01'|].
      intros k Hk. rewrite Hentry. destruct (decide _); [done|by apply Hrefl].
    + rewrite List.Forall_forall in Hall. by apply Hall, list_elem_of_In.
  - intros key p' q' (m & Hm & Hone). unfold connected.
    rewrite dict_get_set. destruct (decide (key = (cs, co))) as [->|]; [|by exists m].
    exists mat'. split; [done|]. rewrite Hentry.
    destruct (decide _); [done|]. congruence.
  - exists mat'. split; [|by rewrite Hentry, decide_True].
    rewrite dict_get_set. by rewrite decide_True.
Qed.

Lemma fold_result_collect {A S : Type} (P : S → Prop) (R : S → S → Prop)
    (F : A → S → Prop) (body : S → A → result S) (l : list A) :
  (∀ s, R s s) → (∀ s1 s2 s3, R s1 s2 → R s2 s3 → R s1 s3) →
  (∀ x s s', R s s' → F x s → F x s') →
  (∀ s x, P s → x ∈ l → ∃ s', body s x = Ok s' ∧ P s' ∧ R s s' ∧ F x s') →
  ∀ st, P st →
  ∃ st', fold_result body l st = Ok st' ∧ P st' ∧ R st st' ∧ ∀ x, x ∈ l → F x st'.
Proof.
  intros Hrefl Htrans Hmono. induction l as [|x l IH]; intros Hbody st Hst; simpl.
  - exists st. split_and!; [done..|]. by intros x ?%elem_of_nil.
  - destruct (Hbody st x Hst) as (s1 & -> & Hs1 & HR1 & HF1); [apply list_elem_of_here|].
    simpl. destruct (IH (fun s y Hs Hy => Hbody s y Hs (list_elem_of_further _ _ _ Hy))
                       s1 Hs1) as (st' & Hfold & Hst' & HR' & HF').
    exists st'. split_and!; [done..|by eapply Htrans|].
    intros y [->|Hy]%elem_of_cons; [by eapply Hmono|by apply HF'].
Qed.

Lemma elem_of_common_pairs (pairs : list (Z * Z)) (i j : nat) :
  (i, j) ∈ common_pairs pairs ↔
  (i < length pairs)%nat ∧ (j < length pairs)%nat ∧ pairs !! i = pairs !! j.
Proof.
  unfold common_pairs. rewrite elem_of_flat_map. split.
  - intros (i' & Hi'%elem_of_seq & (j' & Hj'%elem_of_seq & Hin)%elem_of_flat_map).
    case_bool_decide as Heq; [|by apply elem_of_nil in Hin].
    apply list_elem_of_singleton in Hin as [= -> ->]. split_and!; [lia..|done].
  - intros (Hi & Hj & Heq). exists i. split; [apply elem_of_seq; lia|].
    apply elem_of_flat_map. exists j. split; [apply elem_of_seq; lia|].
    rewrite bool_decide_eq_true_2 by done. apply list_elem_of_here.
Qed.
(** *** The class pairs of well-labelled images *)

Lemma take_ids_spec (ids idx : list Z) :
  idx ≠ [] →
  Forall (fun i => 0 ≤ i < Z.of_nat (length ids)) idx →
  ∃ out, take_ids ids idx = Ok out ∧ length out = length idx ∧
    ∀ r i, idx !! r = Some i → ∃ c, out !! r = Some c ∧ getitem ids i = Ok c.
Proof.
  intros Hne Hall. unfold take_ids. rewrite bool_decide_eq_false_2 by done.
  destruct (map_result_total (getitem ids) idx) as [out Hout].
  { intros i Hi. rewrite Forall_forall in Hall.
    destruct (getitem_in_range ids i (Hall i Hi)) as (c & Hc & _). by exists c. }
  exists out. split_and!; [done|by eapply map_result_length|].
  intros r i Hi. by eapply map_result_lookup.
Qed.

Lemma class_row_range (predicates objects_ : list string) (a : anno) (r : nat)
    (cs co p : Z) :
  well_labelled predicates objects_ a → class_row a r cs co p →
  0 ≤ p < Z.of_nat (length predicates).
Proof.
  intros (_ & _ & Hlr & _) (s & o & _ & _ & Hp & _).
  apply labelled_range in Hlr. rewrite Forall_lookup in Hlr. by eapply Hlr.
Qed.

Section ClassPairs.
Variables (predicates objects_ : list string).

Lemma class_pairs_spec (a : anno) :
  well_labelled predicates objects_ a →
  ∃ ps, class_pairs a = Ok ps ∧
    ∀ cs co, (cs, co) ∈ ps ↔ ∃ r p, class_row a r cs co p.
Proof.
  intros ((Hlo & Hln & Hli) & _ & _ & _ & Hfs & Hfo). unfold class_pairs.
  case_bool_decide as Hids.
  - assert (r_subj_ids (relations a) ≠ []) as Hs
      by (intros E; rewrite E in Hli; by destruct (r_ids (relations a))).
    assert (r_obj_ids (relations a) ≠ []) as Ho
      by (intros E; rewrite E in Hlo; by destruct (r_subj_ids (relations a))).
    destruct (take_ids_spec (o_ids (objects a)) _ Hs Hfs) as (subj & -> & Hls & Hsubj).
    destruct (take_ids_spec (o_ids (objects a)) _ Ho Hfo) as (obj & -> & Hlob & Hobj).
    simpl. eexists. split; [done|]. intros cs co. split.
    + intros (r & Hr)%list_elem_of_lookup_1.
      apply lookup_zip_with_Some in Hr as (cs' & co' & [= <- <-] & Hcs & Hco).
      destruct (lookup_lt_is_Some_2 (r_subj_ids (relations a)) r) as [s Hs'];
        [rewrite <- Hls; by eapply lookup_lt_Some|].
      destruct (lookup_lt_is_Some_2 (r_obj_ids (relations a)) r) as [o Ho'];
        [rewrite <- Hlob; by eapply lookup_lt_Some|].
      destruct (lookup_lt_is_Some_2 (r_ids (relations a)) r) as [p Hp];
        [rewrite Hli; by eapply lookup_lt_Some|].
      destruct (Hsubj r s Hs') as (c1 & Hc1 & Hg1).
      destruct (Hobj r o Ho') as (c2 & Hc2 & Hg2).
      exists r, p, s, o. split_and!; [done..| |]; congruence.
    + intros (r & p & s & o & Hs' & Ho' & Hp & Hg1 & Hg2).
      destruct (Hsubj r s Hs') as (c1 & Hc1 & Hg1').
      destruct (Hobj r o Ho') as (c2 & Hc2 & Hg2').
      apply (list_elem_of_lookup_2 _ r). apply lookup_zip_with_Some.
      exists cs, co. split_and!; [done| |]; congruence.
  - exists []. split; [done|]. intros cs co. split; [by intros ?%elem_of_nil|].
    intros (r & p & s & o & _ & _ & Hp & _).
    assert (r_ids (relations a) = []) as E
      by (destruct (r_ids (relations a)); [done|by destruct Hids]).
    by rewrite E in Hp.
Qed.

Lemma all_class_pairs_spec (annos : list anno) :
  Forall (well_labelled predicates objects_) annos →
  ∃ ks, all_class_pairs annos = Ok ks ∧
    ∀ cs co, (cs, co) ∈ ks ↔ ∃ a r p, a ∈ annos ∧ class_row a r cs co p.
Proof.
  intros Hall. unfold all_class_pairs.
  destruct (map_result_total class_pairs annos) as [ps Hps].
  { intros a Ha. rewrite Forall_forall in Hall.
    destruct (class_pairs_spec a (Hall a Ha)) as (p & Hp & _). by exists p. }
  rewrite Hps. simpl. eexists. split; [done|].
  intros cs co. rewrite elem_of_list_to_set.
  rewrite list_elem_of_In, in_concat. split.
  - intros (l & Hl%list_elem_of_In & Hin%list_elem_of_In).
    apply (map_result_elem _ _ _ l Hps) in Hl as (a & Ha & Hcp).
    rewrite Forall_forall in Hall.
    destruct (class_pairs_spec a (Hall a Ha)) as (l' & Hl' & Hiff).
    assert (l' = l) as -> by congruence.
    apply Hiff in Hin as (r & p & Hrow). by exists a, r, p.
  - intros (a & r & p & Ha & Hrow).
    rewrite Forall_forall in Hall.
    destruct (class_pairs_spec a (Hall a Ha)) as (l & Hl & Hiff).
    exists l. split.
    + apply list_elem_of_In, (map_result_elem _ _ _ l Hps). by exists a.
    + apply list_elem_of_In, Hiff. by exists r, p.
Qed.
End ClassPairs.

(** *** Filling the adjacency matrices *)

Section Fill.
Variables (predicates objects_ : list string) (keys : list (Z * Z)).

Local Abbreviation n_rel := (length predicates).

Lemma connected_trans (c1 c2 c3 : dict (Z * Z) matrix) :
  (∀ key p q, connected c1 key p q → connected c2 key p q) →
  (∀ key p q, connected c2 key p q → connected c3 key p q) →
  ∀ key p q, connected c1 key p q → connected c3 key p q.
Proof. intros H12 H23 key p q H. by apply H23, H12. Qed.

Lemma fill_anno_spec (a : anno) (conn : dict (Z * Z) matrix) :
  well_labelled predicates objects_ a →
  (∀ r cs co p, class_row a r cs co p → (cs, co) ∈ keys) →
  adjacency n_rel keys conn →
  ∃ conn', fill_anno conn a = Ok conn' ∧
    adjacency n_rel keys conn' ∧
    (∀ key p q, connected conn key p q → connected conn' key p q) ∧
    (∀ r r' s o cs co p q,
       r_subj_ids (relations a) !! r = Some s →
       r_subj_ids (relations a) !! r' = Some s →
       r_obj_ids (relations a) !! r = Some o →
       r_obj_ids (relations a) !! r' = Some o →
       r_ids (relations a) !! r = Some p →
       r_ids (relations a) !! r' = Some q →
       getitem (o_ids (objects a)) s = Ok cs →
       getitem (o_ids (objects a)) o = Ok co →
       connected conn' (cs, co) p q).
Proof.
  intros Hwl Hkeys Hadj.
  pose proof Hwl as ((Hlo & Hln & Hli) & _ & Hlr & _ & Hfs & Hfo).
  apply labelled_range in Hlr.
  rewrite Forall_lookup in Hlr, Hfs, Hfo.
  unfold fill_anno, stack2. rewrite bool_decide_eq_true_2 by done. simpl.
  set (pairs := zip (r_subj_ids (relations a)) (r_obj_ids (relations a))).
  assert (Hlen : length pairs = length (r_subj_ids (relations a))).
  { subst pairs. rewrite length_zip. lia. }
  assert (Hpairs : ∀ i s o, r_subj_ids (relations a) !! i = Some s →
            r_obj_ids (relations a) !! i = Some o → pairs !! i = Some (s, o)).
  { intros i s o Hs Ho. subst pairs. apply lookup_zip_with_Some. by exists s, o. }
  destruct (fold_result_collect
    (adjacency n_rel keys)
    (fun c1 c2 => ∀ key p q, connected c1 key p q → connected c2 key p q)
    (fun (ij : nat * nat) c =>
       ∀ s o cs co p q,
         r_subj_ids (relations a) !! ij.1 = Some s →
         r_obj_ids (relations a) !! ij.2 = Some o →
         getitem (o_ids (objects a)) s = Ok cs →
         getitem (o_ids (objects a)) o = Ok co →
         r_ids (relations a) !! ij.1 = Some p →
         r_ids (relations a) !! ij.2 = Some q →
         connected c (cs, co) p q)
    (connect a) (common_pairs pairs)) with (st := conn)
    as (conn' & Hfold & Hadj' & Hmono & Hfacts).
  - done.
  - intros c1 c2 c3. apply connected_trans.
  - intros ij c1 c2 Hm HF s o cs co p q Hs Ho Hcs Hco Hp Hq.
    by apply Hm, (HF s o cs co p q).
  - intros c [i j] Hc Hij. apply elem_of_common_pairs in Hij as (Hi & Hj & Heq).
    destruct (lookup_lt_is_Some_2 (r_subj_ids (relations a)) i) as [s Hs]; [lia|].
    destruct (lookup_lt_is_Some_2 (r_obj_ids (relations a)) i) as [o Ho]; [lia|].
    destruct (lookup_lt_is_Some_2 (r_subj_ids (relations a)) j) as [s' Hs']; [lia|].
    destruct (lookup_lt_is_Some_2 (r_obj_ids (relations a)) j) as [o' Ho']; [lia|].
    destruct (lookup_lt_is_Some_2 (r_ids (relations a)) i) as [p Hp]; [lia|].
    destruct (lookup_lt_is_Some_2 (r_ids (relations a)) j) as [q Hq]; [lia|].
    rewrite (Hpairs i s o Hs Ho), (Hpairs j s' o' Hs' Ho') in Heq.
    injection Heq as <- <-.
    destruct (getitem_in_range (o_ids (objects a)) s (Hfs i s Hs)) as (cs & Hcs & _).
    destruct (getitem_in_range (o_ids (objects a)) o (Hfo i o Ho)) as (co & Hco & _).
    destruct (connect_step n_rel keys a c i j s o cs co p q)
      as (c' & Hc' & Hadjc & Hmonoc & Hconn); try done.
    { apply (Hkeys i cs co p). by exists s, o. }
    { by eapply Hlr. }
    { by eapply Hlr. }
    exists c'. split_and!; [done..|].
    simpl. intros s1 o1 cs1 co1 p1 q1 Hs1 Ho1 Hcs1 Hco1 Hp1 Hq1.
    rewrite Hs in Hs1. rewrite Ho' in Ho1. rewrite Hp in Hp1. rewrite Hq in Hq1.
    injection Hs1 as <-. injection Ho1 as <-. injection Hp1 as <-. injection Hq1 as <-.
    rewrite Hcs in Hcs1. rewrite Hco in Hco1.
    injection Hcs1 as <-. by injection Hco1 as <-.
  - done.
  - exists conn'. split_and!; [done..|].
    intros r r' s o cs co p q Hs Hs' Ho Ho' Hp Hq Hcs Hco.
    assert (Hin : (r, r') ∈ common_pairs pairs).
    { apply elem_of_common_pairs. split_and!.
      - rewrite Hlen. by eapply lookup_lt_Some.
      - rewrite Hlen. by eapply lookup_lt_Some.
      - by rewrite (Hpairs r s o), (Hpairs r' s o). }
    by apply (Hfacts (r, r') Hin s o cs co p q).
Qed.

Lemma fill_spec (annos : list anno) (conn : dict (Z * Z) matrix) :
  Forall (well_labelled predicates objects_) annos →
  (∀ a r cs co p, a ∈ annos → class_row a r cs co p → (cs, co) ∈ keys) →
  adjacency n_rel keys conn →
  ∃ conn', fold_result fill_anno annos conn = Ok conn' ∧
    adjacency n_rel keys conn' ∧
    (∀ a r r' s o cs co p q, a ∈ annos →
       r_subj_ids (relations a) !! r = Some s →
       r_subj_ids (relations a) !! r' = Some s →
       r_obj_ids (relations a) !! r = Some o →
       r_obj_ids (relations a) !! r' = Some o →
       r_ids (relations a) !! r = Some p →
       r_ids (relations a) !! r' = Some q →
       getitem (o_ids (objects a)) s = Ok cs →
       getitem (o_ids (objects a)) o = Ok co →
       connected conn' (cs, co) p q).
Proof.
  intros Hall Hkeys Hadj. rewrite Forall_forall in Hall.
  destruct (fold_result_collect
    (adjacency n_rel keys)
    (fun c1 c2 => ∀ key p q, connected c1 key p q → connected c2 key p q)
    (fun (a : anno) c =>
       ∀ r r' s o cs co p q,
         r_subj_ids (relations a) !! r = Some s →
         r_subj_ids (relations a) !! r' = Some s →
         r_obj_ids (relations a) !! r = Some o →
         r_obj_ids (relations a) !! r' = Some o →
         r_ids (relations a) !! r = Some p →
         r_ids (relations a) !! r' = Some q →
         getitem (o_ids (objects a)) s = Ok cs →
         getitem (o_ids (objects a)) o = Ok co →
         connected c (cs, co) p q)
    fill_anno annos) with (st := conn)
    as (conn' & Hfold & Hadj' & _ & Hfacts).
  - done.
  - intros c1 c2 c3. apply connected_trans.
  - intros a c1 c2 Hm HF r r' s o cs co p q Hs Hs' Ho Ho' Hp Hq Hcs Hco.
    by apply Hm, (HF r r' s o cs co p q).
  - intros c a Hc Ha.
    destruct (fill_anno_spec a c (Hall a Ha)) as (c' & Hc' & Hadjc & Hmonoc & Hf);
      [|done|].
    { intros r cs co p. by apply Hkeys. }
    by exists c'.
  - done.
  - exists conn'. split_and!; [done..|].
    intros a r r' s o cs co p q Ha. by apply Hfacts.
Qed.
End Fill.

(** *** Closing the matrices *)

Lemma closure_is_canonical (n fuel : nat) (mat : matrix) :
  square n mat → is01 mat → (∀ i, (i < n)%nat → entry mat i i = 1) →
  (0 < n)%nat → (n * n + 2 ≤ fuel)%nat →
  ∃ M canon, _densify_mat fuel mat = Some M ∧ argmax_rows M = Ok canon ∧
             canonical n mat canon.
Proof.
  intros Hsq H01 Hrefl Hn Hfuel.
  destruct (closure_canonical n fuel mat Hsq H01 Hrefl Hn Hfuel)
    as (M & canon & HM & Hcanon & Hlen & Hle & Hclass).
  exists M, canon. split_and!; [done..|]. split; [done|].
  intros i Hi. destruct (Hclass i Hi) as (c & Hc & Hci & _ & Hcc & Hiff).
  exists c. split_and!; [done..|].
  intros j Hj Hone. apply Hiff; [done|]. by apply Hle.
Qed.

Lemma densify_items_spec (n fuel : nat) (conn : dict (Z * Z) matrix) :
  Forall (fun kv : Z * Z * matrix =>
            square n kv.2 ∧ is01 kv.2 ∧ ∀ i, (i < n)%nat → entry kv.2 i i = 1) conn →
  (conn ≠ [] → (0 < n)%nat) → (n * n + 2 ≤ fuel)%nat →
  ∃ out, densify_items fuel conn = Some (Ok out) ∧
    Forall2 (fun (kv : Z * Z * matrix) (kc : Z * Z * list Z) =>
               kv.1 = kc.1 ∧ canonical n kv.2 kc.2) conn out.
Proof.
  intros Hall Hn Hfuel.
  induction Hall as [|[key mat] conn (Hsq & H01 & Hrefl) Hall IH]; simpl.
  - exists []. split; [done|constructor].
  - assert (Hpos : (0 < n)%nat) by (by apply Hn).
    destruct (closure_is_canonical n fuel mat Hsq H01 Hrefl Hpos Hfuel)
      as (M & canon & -> & -> & Hcanon).
    destruct IH as (out & -> & Hout); [done|].
    exists ((key, canon) :: out). split; [done|]. by constructor.
Qed.

Lemma canonical_dict (n : nat) (conn : dict (Z * Z) matrix)
    (out : dict (Z * Z) (list Z)) :
  Forall2 (fun (kv : Z * Z * matrix) (kc : Z * Z * list Z) =>
             kv.1 = kc.1 ∧ canonical n kv.2 kc.2) conn out →
  map fst out = map fst conn ∧
  (∀ key canon, dict_get out key = Some canon →
     ∃ mat, dict_get conn key = Some mat ∧ canonical n mat canon) ∧
  (∀ key mat, dict_get conn key = Some mat →
     ∃ canon, dict_get out key = Some canon ∧ canonical n mat canon).
Proof.
  induction 1 as [|[k mat] [k' canon] conn out [Hk Hc] _ (IH1 & IH2 & IH3)];
    simpl in *; [done|].
  subst k'. rewrite IH1. split_and!; [done| |].
  - intros key c. destruct (decide (key = k)); [|apply IH2].
    intros [= <-]. by exists mat.
  - intros key m. destruct (decide (key = k)); [|apply IH3].
    intros [= <-]. by exists canon.
Qed.

(** What [compute_class_merging] returns on well-labelled images. *)
Lemma class_merging_spec (set_list : gset (Z * Z) → list (Z * Z)) (fuel : nat)
    (annos : list anno) (predicates objects_ : list string) :
  admissible_pairs set_list →
  Forall (well_labelled predicates objects_) annos →
  (length predicates * length predicates + 2 ≤ fuel)%nat →
  ∃ conn,
    compute_class_merging set_list fuel annos predicates = Some (Ok conn) ∧
    NoDup (dict_keys conn) ∧
    (∀ cs co, (cs, co) ∈ dict_keys conn ↔
              ∃ a r p, a ∈ annos ∧ class_row a r cs co p) ∧
    (∀ key canon, dict_get conn key = Some canon →
       length canon = length predicates ∧
       ∀ i, (i < length predicates)%nat →
         ∃ c, canon !! i = Some (Z.of_nat c) ∧ (c ≤ i)%nat ∧
              canon !! c = Some (Z.of_nat c)) ∧
    (∀ a r r' s o cs co p q, a ∈ annos →
       r_subj_ids (relations a) !! r = Some s →
       r_subj_ids (relations a) !! r' = Some s →
       r_obj_ids (relations a) !! r = Some o →
       r_obj_ids (relations a) !! r' = Some o →
       r_ids (relations a) !! r = Some p →
       r_ids (relations a) !! r' = Some q →
       getitem (o_ids (objects a)) s = Ok cs →
       getitem (o_ids (objects a)) o = Ok co →
       ∃ canon c, dict_get conn (cs, co) = Some canon ∧
                  canon !! Z.to_nat p = Some c ∧ canon !! Z.to_nat q = Some c).
Proof.
  intros Hsl Hall Hfuel. set (n := length predicates) in *.
  destruct (all_class_pairs_spec predicates objects_ annos Hall) as (ks & Hks & Hkeys).
  assert (Hnd : NoDup (set_list ks)).
  { rewrite (Hsl ks). apply NoDup_elements. }
  assert (Helem : ∀ cs co, (cs, co) ∈ set_list ks ↔
            ∃ a r p, a ∈ annos ∧ class_row a r cs co p).
  { intros cs co. rewrite (Hsl ks), elem_of_elements. apply Hkeys. }
  set (conn0 := dict_of_list (map (fun pair => (pair, eye n)) (set_list ks))).
  assert (Hconn0 : conn0 = map (fun pair => (pair, eye n)) (set_list ks)).
  { subst conn0. apply dict_of_list_NoDup. rewrite map_map. simpl. by rewrite map_id. }
  assert (Hadj0 : adjacency n (set_list ks) conn0).
  { rewrite Hconn0. split_and!.
    - rewrite map_map. simpl. by rewrite map_id.
    - done.
    - apply List.Forall_forall. intros kv (pair & <- & _)%List.in_map_iff. simpl.
      apply eye_reflexive. }
  destruct (fill_spec predicates objects_ (set_list ks) annos conn0 Hall)
    as (conn1 & Hfill & Hadj1 & Hfacts); [|done|].
  { intros a r cs co p Ha Hrow. apply Helem. by exists a, r, p. }
  destruct Hadj1 as (Hkeys1 & _ & Hall1).
  assert (Hpos : conn1 ≠ [] → (0 < n)%nat).
  { intros Hne. destruct conn1 as [|[[cs co] mat] conn1]; [done|].
    assert ((cs, co) ∈ set_list ks) as Hin by (rewrite <- Hkeys1; apply list_elem_of_here).
    apply Helem in Hin as (a & r & p & Ha & Hrow).
    rewrite Forall_forall in Hall.
    pose proof (class_row_range predicates objects_ a r cs co p (Hall a Ha) Hrow).
    lia. }
  destruct (densify_items_spec n fuel conn1 Hall1 Hpos Hfuel) as (out & Hout & Hcanon).
  destruct (canonical_dict n conn1 out Hcanon) as (Hkeys2 & Hget2 & Hget1).
  exists out. split_and!.
  - unfold compute_class_merging. rewrite Hks. simpl. fold n. fold conn0.
    by rewrite Hfill.
  - unfold dict_keys. by rewrite Hkeys2, Hkeys1.
  - intros cs co. unfold dict_keys. rewrite Hkeys2, Hkeys1. apply Helem.
  - intros key canon Hget.
    destruct (Hget2 key canon Hget) as (mat & _ & Hlen & Hcan).
    split; [done|]. intros i Hi.
    destruct (Hcan i Hi) as (c & Hc & Hci & Hcc & _). by exists c.
  - intros a r r' s o cs co p q Ha Hs Hs' Ho Ho' Hp Hq Hcs Hco.
    destruct (Hfacts a r r' s o cs co p q Ha Hs Hs' Ho Ho' Hp Hq Hcs Hco)
      as (mat & Hmat & Hone).
    destruct (Hget1 (cs, co) mat Hmat) as (canon & Hcanon' & Hlen & Hcan).
    rewrite Forall_forall in Hall.
    assert (Hpr : 0 ≤ p < Z.of_nat n).
    { apply (class_row_range predicates objects_ a r cs co p (Hall a Ha)).
      by exists s, o. }
    assert (Hqr : 0 ≤ q < Z.of_nat n).
    { apply (class_row_range predicates objects_ a r' cs co q (Hall a Ha)).
      by exists s, o. }
    destruct (Hcan (Z.to_nat p)) as (c & Hc & _ & _ & Hsame); [lia|].
    exists canon, (Z.of_nat c). split_and!; [done..|].
    apply Hsame; [lia|done].
Qed.

(** X22: on well-labelled images [compute_class_merging] never raises and
    every closure ends.  Its dictionary has one key per pair (subject
    class, object class) that some relation joins; the list under a key
    sends every predicate id to a predicate id that is not greater and is
    sent to itself; and two predicates annotated on the same (subject,
    object) instance pair of an image are sent to the same id under the
    class pair of the two instances. *)
Theorem X22_class_merging (set_list : gset (Z * Z) → list (Z * Z)) (fuel : nat)
    (annos : list anno) (predicates objects_ : list string) :
  admissible_pairs set_list →
  Forall (well_labelled predicates objects_) annos →
  (length predicates * length predicates + 2 ≤ fuel)%nat →
  ∃ conn,
    compute_class_merging set_list fuel annos predicates = Some (Ok conn) ∧
    NoDup (dict_keys conn) ∧
    (∀ cs co, (cs, co) ∈ dict_keys conn ↔
              ∃ a r p, a ∈ annos ∧ class_row a r cs co p) ∧
    (∀ key canon, dict_get conn key = Some canon →
       length canon = length predicates ∧
       ∀ i, (i < length predicates)%nat →
         ∃ c, canon !! i = Some (Z.of_nat c) ∧ (c ≤ i)%nat ∧
              canon !! c = Some (Z.of_nat c)) ∧
    (∀ a r r' s o cs co p q, a ∈ annos →
       r_subj_ids (relations a) !! r = Some s →
       r_subj_ids (relations a) !! r' = Some s →
       r_obj_ids (relations a) !! r = Some o →
       r_obj_ids (relations a) !! r' = Some o →
       r_ids (relations a) !! r = Some p →
       r_ids (relations a) !! r' = Some q →
       getitem (o_ids (objects a)) s = Ok cs →
       getitem (o_ids (objects a)) o = Ok co →
       ∃ canon c, dict_get conn (cs, co) = Some canon ∧
                  canon !! Z.to_nat p = Some c ∧ canon !! Z.to_nat q = Some c).
Proof. apply class_merging_spec. Qed.

Lemma X22_class_merging_witness :
  ∃ conn,
    compute_class_merging elements 11
      [Anno "a.jpg" 0 10 10
         (AnnoObjects [0; 1] ["car"; "road"] [Bbox 0 5 0 5; Bbox 4 9 0 9])
         (AnnoRelations [0; 1; 2] ["above"; "on"; "__background__"]
            [0; 0; 1] [1; 1; 0] None)]
      ["above"; "on"; "__background__"] = Some (Ok conn) ∧
    NoDup (dict_keys conn) ∧
    (∀ cs co, (cs, co) ∈ dict_keys conn ↔
       ∃ a r p,
         a ∈ [Anno "a.jpg" 0 10 10
                (AnnoObjects [0; 1] ["car"; "road"] [Bbox 0 5 0 5; Bbox 4 9 0 9])
                (AnnoRelations [0; 1; 2] ["above"; "on"; "__background__"]
                   [0; 0; 1] [1; 1; 0] None)] ∧
         class_row a r cs co p) ∧
    (∀ key canon, dict_get conn key = Some canon →
       length canon = length ["above"; "on"; "__background__"] ∧
       ∀ i, (i < length ["above"; "on"; "__background__"])%nat →
         ∃ c, canon !! i = Some (Z.of_nat c) ∧ (c ≤ i)%nat ∧
              canon !! c = Some (Z.of_nat c)) ∧
    (∀ a r r' s o cs co p q,
       a ∈ [Anno "a.jpg" 0 10 10
              (AnnoObjects [0; 1] ["car"; "road"] [Bbox 0 5 0 5; Bbox 4 9 0 9])
              (AnnoRelations [0; 1; 2] ["above"; "on"; "__background__"]
                 [0; 0; 1] [1; 1; 0] None)] →
       r_subj_ids (relations a) !! r = Some s →
       r_subj_ids (relations a) !! r' = Some s →
       r_obj_ids (relations a) !! r = Some o →
       r_obj_ids (relations a) !! r' = Some o →
       r_ids (relations a) !! r = Some p →
       r_ids (relations a) !! r' = Some q →
       getitem (o_ids (objects a)) s = Ok cs →
       getitem (o_ids (objects a)) o = Ok co →
       ∃ canon c, dict_get conn (cs, co) = Some canon ∧
                  canon !! Z.to_nat p = Some c ∧ canon !! Z.to_nat q = Some c).
Proof.
  apply (X22_class_merging elements 11 _ _ ["car"; "road"]).
  - by intros s.
  - repeat constructor; simpl; lia.
  - simpl. lia.
Defined.
(** ** Merged ids: [update_annos_with_syns] *)

Lemma triplet_lookup (a : anno) (r : nat) (t : Z * Z * Z) :
  zip (zip (r_subj_ids (relations a)) (r_obj_ids (relations a)))
      (r_ids (relations a)) !! r = Some t ↔
  r_subj_ids (relations a) !! r = Some t.1.1 ∧
  r_obj_ids (relations a) !! r = Some t.1.2 ∧
  r_ids (relations a) !! r = Some t.2.
Proof.
  destruct t as [[s o] p]. simpl. rewrite lookup_zip_with_Some. split.
  - intros ([s' o'] & p' & [= <- <- <-] & Hso & Hp).
    apply lookup_zip_with_Some in Hso as (s'' & o'' & [= <- <-] & Hs & Ho). done.
  - intros (Hs & Ho & Hp). exists (s, o), p. split_and!; [done| |done].
    apply lookup_zip_with_Some. by exists s, o.
Qed.

Section Merged.
Variables (predicates objects_ : list string) (conn : dict (Z * Z) (list Z)).

Lemma update_syns_image (a : anno) :
  well_labelled predicates objects_ a →
  (∀ r cs co p, class_row a r cs co p →
     ∃ canon, dict_get conn (cs, co) = Some canon ∧ length canon = length predicates) →
  ∃ merged,
    map_result (merged_id conn (o_ids (objects a)))
      (zip (zip (r_subj_ids (relations a)) (r_obj_ids (relations a)))
           (r_ids (relations a))) = Ok merged ∧
    length merged = length (r_ids (relations a)) ∧
    ∀ r cs co p, class_row a r cs co p →
      ∃ canon m, dict_get conn (cs, co) = Some canon ∧
                 canon !! Z.to_nat p = Some m ∧ merged !! r = Some m.
Proof.
  intros Hwl Hconn.
  pose proof Hwl as ((Hlo & Hln & Hli) & _ & Hlr & _ & Hfs & Hfo).
  apply labelled_range in Hlr. rewrite Forall_lookup in Hlr, Hfs, Hfo.
  set (rows := zip (zip (r_subj_ids (relations a)) (r_obj_ids (relations a)))
                   (r_ids (relations a))).
  assert (Hrow : ∀ r t, rows !! r = Some t →
    ∃ cs co canon m,
      class_row a r cs co t.2 ∧ dict_get conn (cs, co) = Some canon ∧
      canon !! Z.to_nat t.2 = Some m ∧
      merged_id conn (o_ids (objects a)) t = Ok m).
  { intros r t (Hs & Ho & Hp)%triplet_lookup.
    destruct (getitem_in_range (o_ids (objects a)) t.1.1 (Hfs r _ Hs)) as (cs & Hcs & _).
    destruct (getitem_in_range (o_ids (objects a)) t.1.2 (Hfo r _ Ho)) as (co & Hco & _).
    assert (Hcr : class_row a r cs co t.2) by (by exists t.1.1, t.1.2).
    destruct (Hconn r cs co t.2 Hcr) as (canon & Hcanon & Hlen).
    destruct (getitem_in_range canon t.2) as (m & Hm & Hm');
      [rewrite Hlen; by eapply Hlr|].
    exists cs, co, canon, m. split_and!; [done..|].
    unfold merged_id, dict_getitem. rewrite Hcs. simpl. rewrite Hco. simpl.
    rewrite Hcanon. simpl. done. }
  destruct (map_result_total (merged_id conn (o_ids (objects a))) rows)
    as [merged Hmerged].
  { intros t (r & Hr)%list_elem_of_lookup_1.
    destruct (Hrow r t Hr) as (_ & _ & _ & m & _ & _ & _ & Hm). by exists m. }
  exists merged. split_and!; [done| |].
  - rewrite (map_result_length _ _ _ Hmerged). subst rows.
    rewrite !length_zip. lia.
  - intros r cs co p (s & o & Hs & Ho & Hp & Hcs & Hco).
    assert (Hr : rows !! r = Some (s, o, p)) by (by apply triplet_lookup).
    destruct (Hrow r _ Hr) as (cs' & co' & canon & m & Hcr & Hcanon & Hm & Hmid).
    destruct Hcr as (s' & o' & Hs' & Ho' & _ & Hcs' & Hco').
    assert (s' = s) as -> by congruence. assert (o' = o) as -> by congruence.
    assert (cs' = cs) as -> by congruence. assert (co' = co) as -> by congruence.
    destruct (map_result_lookup _ _ _ _ _ Hmerged Hr) as (m' & Hm' & Hmid').
    exists canon, m. split_and!; [done..|]. congruence.
Qed.

Lemma update_syns_spec (annos : list anno) :
  Forall (well_labelled predicates objects_) annos →
  (∀ a r cs co p, a ∈ annos → class_row a r cs co p →
     ∃ canon, dict_get conn (cs, co) = Some canon ∧ length canon = length predicates) →
  ∃ out, update_annos_with_syns annos conn = Ok out ∧
    length out = length annos ∧
    ∀ k a a', annos !! k = Some a → out !! k = Some a' →
      filename a' = filename a ∧ split_id a' = split_id a ∧
      height a' = height a ∧ width a' = width a ∧
      objects a' = objects a ∧
      r_ids (relations a') = r_ids (relations a) ∧
      r_names (relations a') = r_names (relations a) ∧
      r_subj_ids (relations a') = r_subj_ids (relations a) ∧
      r_obj_ids (relations a') = r_obj_ids (relations a) ∧
      ∃ merged,
        r_merged_ids (relations a') = Some merged ∧
        length merged = length (r_ids (relations a)) ∧
        ∀ r cs co p, class_row a r cs co p →
          ∃ canon m, dict_get conn (cs, co) = Some canon ∧
                     canon !! Z.to_nat p = Some m ∧ merged !! r = Some m.
Proof.
  intros Hall Hconn. rewrite Forall_forall in Hall.
  unfold update_annos_with_syns. set (f := fun a : anno => _).
  assert (Hf : ∀ a, a ∈ annos → ∃ a', f a = Ok a' ∧
      filename a' = filename a ∧ split_id a' = split_id a ∧
      height a' = height a ∧ width a' = width a ∧
      objects a' = objects a ∧
      r_ids (relations a') = r_ids (relations a) ∧
      r_names (relations a') = r_names (relations a) ∧
      r_subj_ids (relations a') = r_subj_ids (relations a) ∧
      r_obj_ids (relations a') = r_obj_ids (relations a) ∧
      ∃ merged,
        r_merged_ids (relations a') = Some merged ∧
        length merged = length (r_ids (relations a)) ∧
        ∀ r cs co p, class_row a r cs co p →
          ∃ canon m, dict_get conn (cs, co) = Some canon ∧
                     canon !! Z.to_nat p = Some m ∧ merged !! r = Some m).
  { intros a Ha. unfold f.
    destruct (update_syns_image a (Hall a Ha)) as (merged & -> & Hlen & Hm).
    { intros r cs co p. by apply Hconn. }
    simpl. eexists. split; [done|]. simpl. split_and!; [done..|].
    by exists merged. }
  destruct (map_result_total f annos) as [out Hout].
  { intros a Ha. destruct (Hf a Ha) as (a' & ? & _). by exists a'. }
  exists out. split_and!; [done|by apply (map_result_length f)|].
  intros k a a' Ha Hk.
  destruct (map_result_lookup f annos out k a Hout Ha) as (a'' & Ha'' & Hfa).
  destruct (Hf a) as (a3 & Hfa3 & Hrest); [by eapply list_elem_of_lookup_2|].
  assert (a3 = a') as -> by congruence. exact Hrest.
Qed.
End Merged.

(** X23: after [compute_class_merging] on well-labelled images,
    [update_annos_with_syns] on the same images never raises.  It changes
    nothing but the merged ids, of which there is one per relation: the
    merged id of a relation is not greater than its predicate id, and two
    relations of an image on the same (subject, object) instance pair have
    the same merged id. *)
Theorem X23_merged_ids (set_list : gset (Z * Z) → list (Z * Z)) (fuel : nat)
    (annos : list anno) (predicates objects_ : list string) :
  admissible_pairs set_list →
  Forall (well_labelled predicates objects_) annos →
  (length predicates * length predicates + 2 ≤ fuel)%nat →
  ∃ conn out,
    compute_class_merging set_list fuel annos predicates = Some (Ok conn) ∧
    update_annos_with_syns annos conn = Ok out ∧
    length out = length annos ∧
    ∀ k a a', annos !! k = Some a → out !! k = Some a' →
      filename a' = filename a ∧ split_id a' = split_id a ∧
      height a' = height a ∧ width a' = width a ∧
      objects a' = objects a ∧
      r_ids (relations a') = r_ids (relations a) ∧
      r_names (relations a') = r_names (relations a) ∧
      r_subj_ids (relations a') = r_subj_ids (relations a) ∧
      r_obj_ids (relations a') = r_obj_ids (relations a) ∧
      ∃ merged,
        r_merged_ids (relations a') = Some merged ∧
        length merged = length (r_ids (relations a)) ∧
        (∀ r p m, r_ids (relations a) !! r = Some p → merged !! r = Some m →
                  0 ≤ m ≤ p) ∧
        (∀ r r' s o,
           r_subj_ids (relations a) !! r = Some s →
           r_subj_ids (relations a) !! r' = Some s →
           r_obj_ids (relations a) !! r = Some o →
           r_obj_ids (relations a) !! r' = Some o →
           merged !! r = merged !! r').
Proof.
  intros Hsl Hall Hfuel.
  destruct (class_merging_spec set_list fuel annos predicates objects_ Hsl Hall Hfuel)
    as (conn & Hconn & Hnd & Hkeys & Hcanon & Hsame).
  assert (Hget : ∀ a r cs co p, a ∈ annos → class_row a r cs co p →
    ∃ canon, dict_get conn (cs, co) = Some canon ∧ length canon = length predicates).
  { intros a r cs co p Ha Hrow.
    assert ((cs, co) ∈ dict_keys conn) as Hin by (apply Hkeys; by exists a, r, p).
    destruct (dict_get conn (cs, co)) as [canon|] eqn:Hc.
    - exists canon. split; [done|]. by apply (Hcanon (cs, co)).
    - by apply dict_get_None in Hc. }
  destruct (update_syns_spec predicates objects_ conn annos Hall Hget)
    as (out & Hout & Hlen & Hspec).
  exists conn, out. split_and!; [done..|].
  intros k a a' Ha Ha'.
  destruct (Hspec k a a' Ha Ha')
    as (? & ? & ? & ? & ? & ? & ? & ? & ? & merged & Hm & Hlm & Hmerged).
  split_and!; [done..|]. exists merged. split_and!; [done..| |].
  assert (Hwl : well_labelled predicates objects_ a).
  { rewrite Forall_forall in Hall. by eapply Hall, list_elem_of_lookup_2. }
  assert (Hrow : ∀ r, (r < length (r_ids (relations a)))%nat →
    ∃ s o p cs co, r_subj_ids (relations a) !! r = Some s ∧
      r_obj_ids (relations a) !! r = Some o ∧ r_ids (relations a) !! r = Some p ∧
      getitem (o_ids (objects a)) s = Ok cs ∧ getitem (o_ids (objects a)) o = Ok co).
  { intros r Hr. pose proof Hwl as ((Hlo & Hln & Hli) & _ & _ & _ & Hfs & Hfo).
    rewrite Forall_lookup in Hfs, Hfo.
    destruct (lookup_lt_is_Some_2 (r_subj_ids (relations a)) r) as [s Hs]; [lia|].
    destruct (lookup_lt_is_Some_2 (r_obj_ids (relations a)) r) as [o Ho]; [lia|].
    destruct (lookup_lt_is_Some_2 (r_ids (relations a)) r) as [p Hp]; [lia|].
    destruct (getitem_in_range (o_ids (objects a)) s (Hfs r s Hs)) as (cs & Hcs & _).
    destruct (getitem_in_range (o_ids (objects a)) o (Hfo r o Ho)) as (co & Hco & _).
    by exists s, o, p, cs, co. }
  - intros r p m Hp Hmr.
    destruct (Hrow r) as (s & o & p' & cs & co & Hs & Ho & Hp' & Hcs & Hco);
      [by eapply lookup_lt_Some|].
    assert (p' = p) as -> by congruence.
    destruct (Hmerged r cs co p) as (canon & m' & Hcan & Hcm & Hmm);
      [by exists s, o|].
    assert (m' = m) as -> by congruence.
    destruct (Hcanon (cs, co) canon Hcan) as (Hlc & Hidx).
    assert (Hpr : 0 ≤ p < Z.of_nat (length predicates)).
    { apply (class_row_range predicates objects_ a r cs co p Hwl). by exists s, o. }
    destruct (Hidx (Z.to_nat p)) as (c & Hc & Hle & _); [lia|].
    rewrite Hc in Hcm. injection Hcm as <-. lia.
  - assert (Hwl : well_labelled predicates objects_ a).
    { rewrite Forall_forall in Hall. by eapply Hall, list_elem_of_lookup_2. }
    intros r r' s o Hs Hs' Ho Ho'.
    pose proof Hwl as ((Hlo & Hln & Hli) & _ & _ & _ & Hfs & Hfo).
    rewrite Forall_lookup in Hfs, Hfo.
    destruct (lookup_lt_is_Some_2 (r_ids (relations a)) r) as [p Hp];
      [rewrite Hli; by eapply lookup_lt_Some|].
    destruct (lookup_lt_is_Some_2 (r_ids (relations a)) r') as [q Hq];
      [rewrite Hli; by eapply lookup_lt_Some|].
    destruct (getitem_in_range (o_ids (objects a)) s (Hfs r s Hs)) as (cs & Hcs & _).
    destruct (getitem_in_range (o_ids (objects a)) o (Hfo r o Ho)) as (co & Hco & _).
    destruct (Hsame a r r' s o cs co p q) as (canon & c & Hcan & Hcp & Hcq);
      [by eapply list_elem_of_lookup_2|done..|].
    destruct (Hmerged r cs co p) as (canon1 & m1 & Hcan1 & Hcm1 & Hmm1);
      [by exists s, o|].
    destruct (Hmerged r' cs co q) as (canon2 & m2 & Hcan2 & Hcm2 & Hmm2);
      [by exists s, o|].
    congruence.
Qed.

Lemma X23_merged_ids_witness :
  ∃ conn out,
    compute_class_merging elements 11
      [Anno "a.jpg" 0 10 10
         (AnnoObjects [0; 1] ["car"; "road"] [Bbox 0 5 0 5; Bbox 4 9 0 9])
         (AnnoRelations [0; 1; 2] ["above"; "on"; "__background__"]
            [0; 0; 1] [1; 1; 0] None)]
      ["above"; "on"; "__background__"] = Some (Ok conn) ∧
    update_annos_with_syns
      [Anno "a.jpg" 0 10 10
         (AnnoObjects [0; 1] ["car"; "road"] [Bbox 0 5 0 5; Bbox 4 9 0 9])
         (AnnoRelations [0; 1; 2] ["above"; "on"; "__background__"]
            [0; 0; 1] [1; 1; 0] None)] conn = Ok out ∧
    length out
    = length [Anno "a.jpg" 0 10 10
                (AnnoObjects [0; 1] ["car"; "road"] [Bbox 0 5 0 5; Bbox 4 9 0 9])
                (AnnoRelations [0; 1; 2] ["above"; "on"; "__background__"]
                   [0; 0; 1] [1; 1; 0] None)] ∧
    ∀ k a a',
      [Anno "a.jpg" 0 10 10
         (AnnoObjects [0; 1] ["car"; "road"] [Bbox 0 5 0 5; Bbox 4 9 0 9])
         (AnnoRelations [0; 1; 2] ["above"; "on"; "__background__"]
            [0; 0; 1] [1; 1; 0] None)] !! k = Some a →
      out !! k = Some a' →
      filename a' = filename a ∧ split_id a' = split_id a ∧
      height a' = height a ∧ width a' = width a ∧
      objects a' = objects a ∧
      r_ids (relations a') = r_ids (relations a) ∧
      r_names (relations a') = r_names (relations a) ∧
      r_subj_ids (relations a') = r_subj_ids (relations a) ∧
      r_obj_ids (relations a') = r_obj_ids (relations a) ∧
      ∃ merged,
        r_merged_ids (relations a') = Some merged ∧
        length merged = length (r_ids (relations a)) ∧
        (∀ r p m, r_ids (relations a) !! r = Some p → merged !! r = Some m →
                  0 ≤ m ≤ p) ∧
        (∀ r r' s o,
           r_subj_ids (relations a) !! r = Some s →
           r_subj_ids (relations a) !! r' = Some s →
           r_obj_ids (relations a) !! r = Some o →
           r_obj_ids (relations a) !! r' = Some o →
           merged !! r = merged !! r').
Proof.
  apply (X23_merged_ids elements 11 _ _ ["car"; "road"]).
  - by intros s.
  - repeat constructor; simpl; lia.
  - simpl. lia.
Defined.
(** ** The merging stage of [transform] *)

(** The closure and the estimator read the predicate vocabulary only for
    its length. *)
Lemma compute_class_merging_length (set_list : gset (Z * Z) → list (Z * Z))
    (fuel : nat) (annos : list anno) (predicates predicates' : list string) :
  length predicates' = length predicates →
  compute_class_merging set_list fuel annos predicates'
  = compute_class_merging set_list fuel annos predicates.
Proof. unfold compute_class_merging. by intros ->. Qed.

Lemma create_pred_cls_json_spec (preds objects_ : list string) (det : list anno) :
  Forall (well_labelled (preds ++ [background]) objects_) det →
  Forall (fun d => Z.of_nat (length (o_ids (objects d))) ≤ 2 ^ 63) det →
  Z.of_nat (length (preds ++ [background])) ≤ 2 ^ 63 →
  ∃ cls, create_pred_cls_json det (preds ++ [background]) = Ok cls ∧
    Forall2 (fun d c => complete_pairs (preds ++ [background]) d = Ok c) det cls ∧
    Forall (well_labelled (map astype_str (preds ++ [background])) objects_) cls.
Proof.
  unfold create_pred_cls_json. intros Hdet Hsize Hp.
  induction Hdet as [|d det Hd _ IH]; simpl.
  - exists []. by split_and!.
  - apply Forall_cons in Hsize as [Hd63 Hsize].
    destruct (IH Hsize) as (cls & Hcls & Hrel & Hall).
    destruct (complete_pairs_well_labelled preds objects_ d Hd Hd63 Hp)
      as (c & Hc & _ & Hwl).
    exists (c :: cls). rewrite Hc. simpl. rewrite Hcls. simpl.
    split_and!; [done|by constructor|by constructor].
Qed.

(** A class pair of an image is a class pair of its completion. *)
Lemma class_row_completed (predicates : list string) (d c : anno) (r : nat)
    (cs co p : Z) :
  well_formed_relations (relations d) →
  fits_int64 predicates d →
  complete_pairs predicates d = Ok c →
  class_row d r cs co p → ∃ r', class_row c r' cs co p.
Proof.
  intros Hwf Hfit Hc (s & o & Hs & Ho & Hp & Hcs & Hco).
  destruct (complete_pairs_perm predicates d Hwf Hfit)
    as (c' & Hc' & Hobj & _ & _ & _ & _ & _ & Hperm).
  assert (c' = c) as -> by congruence.
  destruct (lookup_lt_is_Some_2 (r_names (relations d)) r) as [name Hname].
  { destruct Hwf as (_ & -> & _). by eapply lookup_lt_Some. }
  assert (Hrow : rows_of (relations d) !! r = Some (s, o, (name, p)))
    by (by apply rows_of_lookup).
  assert (Hin : read_back (s, o, (name, p)) ∈ rows_of (relations c)).
  { rewrite Hperm. apply elem_of_app. left.
    apply (list_elem_of_fmap_2' read_back _ (s, o, (name, p))); [|done].
    by eapply list_elem_of_lookup_2. }
  apply list_elem_of_lookup_1 in Hin as (r' & Hr').
  apply rows_of_lookup in Hr' as (Hs' & Ho' & _ & Hp'). simpl in *.
  exists r', s, o. rewrite Hobj. by split_and!.
Qed.

(** The calls of the merging stage, in sequence. *)
Lemma merging_stage (set_list : gset (Z * Z) → list (Z * Z)) (fuel : nat)
    (det : list anno) (preds objects_ : list string) :
  admissible_pairs set_list →
  Forall (well_labelled (preds ++ [background]) objects_) det →
  Forall (fun d => Z.of_nat (length (o_ids (objects d))) ≤ 2 ^ 63) det →
  Z.of_nat (length (preds ++ [background])) ≤ 2 ^ 63 →
  (length (preds ++ [background]) * length (preds ++ [background]) + 2 ≤ fuel)%nat →
  ∃ cls conn out_cls out_det,
    create_pred_cls_json det (preds ++ [background]) = Ok cls ∧
    compute_class_merging set_list fuel cls (preds ++ [background]) = Some (Ok conn) ∧
    update_annos_with_syns cls conn = Ok out_cls ∧
    update_annos_with_syns det conn = Ok out_det ∧
    length cls = length det ∧
    length out_cls = length det ∧ length out_det = length det.
Proof.
  intros Hsl Hdet Hsize Hsp Hfuel. set (p := preds ++ [background]) in *.
  destruct (create_pred_cls_json_spec preds objects_ det Hdet Hsize Hsp)
    as (cls & Hcls & Hrel & Hwl).
  fold p in Hcls, Hrel, Hwl.
  assert (Hlen : length (map astype_str p) = length p) by apply length_map.
  destruct (class_merging_spec set_list fuel cls (map astype_str p) objects_ Hsl Hwl)
    as (conn & Hconn & Hnd & Hkeys & Hcanon & _); [by rewrite Hlen|].
  rewrite (compute_class_merging_length _ _ _ p) in Hconn by done.
  assert (Hget : ∀ a r cs co pid, a ∈ cls → class_row a r cs co pid →
    ∃ canon, dict_get conn (cs, co) = Some canon ∧ length canon = length p).
  { intros a r cs co pid Ha Hrow.
    assert ((cs, co) ∈ dict_keys conn) as Hin by (apply Hkeys; by exists a, r, pid).
    destruct (dict_get conn (cs, co)) as [canon|] eqn:Hc.
    - exists canon. split; [done|]. rewrite <- Hlen. by apply (Hcanon (cs, co)).
    - by apply dict_get_None in Hc. }
  destruct (update_syns_spec (map astype_str p) objects_ conn cls Hwl)
    as (out_cls & Hoc & Hlc & _).
  { intros a r cs co pid Ha Hrow. rewrite Hlen. by apply (Hget a r cs co pid). }
  destruct (update_syns_spec p objects_ conn det Hdet) as (out_det & Hod & Hld & _).
  { intros d r cs co pid Hd Hrow.
    apply list_elem_of_lookup_1 in Hd as (k & Hk).
    destruct (Forall2_lookup_l _ _ _ _ _ Hrel Hk) as (c & Hc & Hcomp).
    assert (Hwd : well_labelled p objects_ d).
    { rewrite Forall_lookup in Hdet. by apply (Hdet k). }
    assert (Hfit : fits_int64 p d).
    { apply (well_labelled_fits p objects_); [done| |done].
      rewrite Forall_lookup in Hsize. by apply (Hsize k). }
    destruct (class_row_completed p d c r cs co pid (proj1 Hwd) Hfit Hcomp Hrow)
      as (r' & Hrow').
    apply (Hget c r' cs co pid); [by eapply list_elem_of_lookup_2|done]. }
  exists cls, conn, out_cls, out_det.
  pose proof (Forall2_length _ _ _ Hrel) as Hlen'.
  split_and!; [done..|lia|lia|lia].
Qed.

(** X24: the merging stage of [transform] never raises.  From well-labelled
    annotations whose predicate vocabulary ends with the background name,
    with at most 2^63 objects in an image and at most 2^63 predicates, pair
    completion, [compute_class_merging] on the completed annotations, and
    [update_annos_with_syns] on the completed annotations and on the
    annotations before completion all return, with one image per image. *)
Theorem X24_merging_stage (set_list : gset (Z * Z) → list (Z * Z)) (fuel : nat)
    (det : list anno) (preds objects_ : list string) :
  admissible_pairs set_list →
  Forall (well_labelled (preds ++ [background]) objects_) det →
  Forall (fun d => Z.of_nat (length (o_ids (objects d))) ≤ 2 ^ 63) det →
  Z.of_nat (length (preds ++ [background])) ≤ 2 ^ 63 →
  (length (preds ++ [background]) * length (preds ++ [background]) + 2 ≤ fuel)%nat →
  ∃ cls conn out_cls out_det,
    create_pred_cls_json det (preds ++ [background]) = Ok cls ∧
    compute_class_merging set_list fuel cls (preds ++ [background]) = Some (Ok conn) ∧
    update_annos_with_syns cls conn = Ok out_cls ∧
    update_annos_with_syns det conn = Ok out_det ∧
    length cls = length det ∧
    length out_cls = length det ∧ length out_det = length det.
Proof. apply merging_stage. Qed.

Lemma X24_merging_stage_witness :
  ∃ cls conn out_cls out_det,
    create_pred_cls_json
      [Anno "a.jpg" 0 10 10
         (AnnoObjects [0; 1] ["car"; "road"] [Bbox 0 5 0 5; Bbox 4 9 0 9])
         (AnnoRelations [0; 1] ["above"; "on"] [0; 0] [1; 1] None)]
      (["above"; "on"] ++ [background]) = Ok cls ∧
    compute_class_merging elements 11 cls (["above"; "on"] ++ [background])
    = Some (Ok conn) ∧
    update_annos_with_syns cls conn = Ok out_cls ∧
    update_annos_with_syns
      [Anno "a.jpg" 0 10 10
         (AnnoObjects [0; 1] ["car"; "road"] [Bbox 0 5 0 5; Bbox 4 9 0 9])
         (AnnoRelations [0; 1] ["above"; "on"] [0; 0] [1; 1] None)] conn
    = Ok out_det ∧
    length cls
    = length [Anno "a.jpg" 0 10 10
                (AnnoObjects [0; 1] ["car"; "road"] [Bbox 0 5 0 5; Bbox 4 9 0 9])
                (AnnoRelations [0; 1] ["above"; "on"] [0; 0] [1; 1] None)] ∧
    length out_cls
    = length [Anno "a.jpg" 0 10 10
                (AnnoObjects [0; 1] ["car"; "road"] [Bbox 0 5 0 5; Bbox 4 9 0 9])
                (AnnoRelations [0; 1] ["above"; "on"] [0; 0] [1; 1] None)] ∧
    length out_det
    = length [Anno "a.jpg" 0 10 10
                (AnnoObjects [0; 1] ["car"; "road"] [Bbox 0 5 0 5; Bbox 4 9 0 9])
                (AnnoRelations [0; 1] ["above"; "on"] [0; 0] [1; 1] None)].
Proof.
  apply (X24_merging_stage elements 11 _ ["above"; "on"] ["car"; "road"]).
  - by intros s.
  - repeat constructor; simpl; lia.
  - repeat constructor; simpl; lia.
  - simpl. lia.
  - simpl. lia.
Defined.
(** ** The pipeline of [transform], end to end *)

Lemma update_syns_well_labelled (predicates objects_ : list string) (a a' : anno) :
  objects a' = objects a →
  r_ids (relations a') = r_ids (relations a) →
  r_names (relations a') = r_names (relations a) →
  r_subj_ids (relations a') = r_subj_ids (relations a) →
  r_obj_ids (relations a') = r_obj_ids (relations a) →
  well_labelled predicates objects_ a → well_labelled predicates objects_ a'.
Proof.
  unfold well_labelled, well_formed_relations. by intros -> -> -> -> ->.
Qed.

Lemma compute_relationship_probabilities_length (rnd : Q → Q) (annos : list anno)
    (predicates predicates' objects_ : list string) :
  length predicates' = length predicates →
  compute_relationship_probabilities rnd annos predicates' objects_
  = compute_relationship_probabilities rnd annos predicates objects_.
Proof.
  unfold compute_relationship_probabilities, count_triplets. by intros ->.
Qed.

(** X25: the stages of [transform] compose without an exception, for every
    order in which Python iterates its sets: from any list of raw
    relationship records with fewer than 2^62 relationships in all,
    normalisation, vocabulary extraction, id assignment, pair completion,
    the probability estimate, and, with enough fuel for the closures, class
    merging, both updates with merged ids and the negatives (with the empty
    rule lists of the constructor) all return. *)
Theorem X25_transform_never_raises
    (obj_order : gset obj_tuple → list obj_tuple)
    (name_order : gset string → list string)
    (pair_order : gset (Z * Z) → list (Z * Z))
    (rnd : Q → Q) (raw : list raw_anno) :
  admissible obj_order → admissible_names name_order → admissible_pairs pair_order →
  Z.of_nat (length (flat_map relationships raw)) < 2 ^ 62 →
  ∃ annos det cls table,
    _transform_annotations obj_order raw = Ok annos ∧
    update_labels annos (save_predicates_objects name_order annos).1
      (save_predicates_objects name_order annos).2 = Ok det ∧
    create_pred_cls_json det (save_predicates_objects name_order annos).1 = Ok cls ∧
    compute_relationship_probabilities rnd cls
      (save_predicates_objects name_order annos).1
      (save_predicates_objects name_order annos).2 = Ok table ∧
    ∀ fuel,
      (length (save_predicates_objects name_order annos).1
       * length (save_predicates_objects name_order annos).1 + 2 ≤ fuel)%nat →
      ∃ conn out_cls out_det negatives,
        compute_class_merging pair_order fuel cls
          (save_predicates_objects name_order annos).1 = Some (Ok conn) ∧
        update_annos_with_syns cls conn = Ok out_cls ∧
        update_annos_with_syns det conn = Ok out_det ∧
        save_negative_json [] [] out_cls = Ok negatives.
Proof.
  intros Hobj Hname Hpair Hsize.
  destruct (pipeline_well_labelled obj_order name_order Hobj Hname raw Hsize)
    as (annos & det & cls & Hannos & Hdet & Hcls & _ & _ & Hwd & Hwc & Hso & Hsp).
  set (p := (save_predicates_objects name_order annos).1) in *.
  set (o := (save_predicates_objects name_order annos).2) in *.
  assert (Hlen : length (map astype_str p) = length p) by apply length_map.
  destruct (probabilities_defined rnd cls (map astype_str p) o Hwc)
    as (pm & _ & _ & Htable).
  rewrite (compute_relationship_probabilities_length _ _ p) in Htable by done.
  exists annos, det, cls, (normalize rnd pm). split_and!; [done..|].
  intros fuel Hfuel.
  assert (Hp : ∃ preds, p = preds ++ [background]) by (by eexists).
  destruct Hp as [preds Hp]. fold p in Hfuel.
  pose proof Hwd as Hwd'. pose proof Hfuel as Hfuel'. pose proof Hsp as Hsp'.
  rewrite Hp in Hwd', Hfuel', Hsp'.
  destruct (merging_stage pair_order fuel det preds o Hpair Hwd' Hso Hsp' Hfuel')
    as (cls' & conn & out_cls & out_det & Hcls' & Hconn & Hoc & Hod & _).
  rewrite <- Hp in Hcls', Hconn.
  assert (cls' = cls) as -> by congruence.
  exists conn, out_cls, out_det. eexists. split_and!; [done..|].
  apply (default_rules_no_negatives (map astype_str p) o).
  (* the images with merged ids are still well labelled *)
  assert (Hget : ∀ a r cs co pid, a ∈ cls → class_row a r cs co pid →
    ∃ canon, dict_get conn (cs, co) = Some canon
             ∧ length canon = length (map astype_str p)).
  { destruct (class_merging_spec pair_order fuel cls (map astype_str p) o Hpair Hwc)
      as (conn' & Hconn' & _ & Hkeys & Hcanon & _); [by rewrite Hlen|].
    rewrite (compute_class_merging_length _ _ _ p) in Hconn' by done.
    assert (conn' = conn) as -> by congruence.
    intros a r cs co pid Ha Hrow.
    assert ((cs, co) ∈ dict_keys conn) as Hin by (apply Hkeys; by exists a, r, pid).
    destruct (dict_get conn (cs, co)) as [canon|] eqn:Hc.
    - exists canon. split; [done|]. by apply (Hcanon (cs, co)).
    - by apply dict_get_None in Hc. }
  destruct (update_syns_spec (map astype_str p) o conn cls Hwc Hget)
    as (out & Hout & Hlen' & Hspec).
  assert (out = out_cls) as -> by congruence.
  apply Forall_lookup. intros k a' Ha'.
  destruct (lookup_lt_is_Some_2 cls k) as [a Ha];
    [rewrite <- Hlen'; by eapply lookup_lt_Some|].
  destruct (Hspec k a a' Ha Ha') as (_ & _ & _ & _ & ? & ? & ? & ? & ? & _).
  apply (update_syns_well_labelled (map astype_str p) o a a'); [done..|].
  rewrite Forall_lookup in Hwc. by eapply Hwc.
Qed.

Lemma X25_transform_never_raises_witness :
  ∃ annos det cls table,
    _transform_annotations elements
      [RawAnno "a.jpg" 0 10 10
         [RawRel "car" (Bbox 0 5 0 5) "on" "road" (Bbox 4 9 0 9)]] = Ok annos ∧
    update_labels annos (save_predicates_objects elements annos).1
      (save_predicates_objects elements annos).2 = Ok det ∧
    create_pred_cls_json det (save_predicates_objects elements annos).1 = Ok cls ∧
    compute_relationship_probabilities (fun q => q) cls
      (save_predicates_objects elements annos).1
      (save_predicates_objects elements annos).2 = Ok table ∧
    ∀ fuel,
      (length (save_predicates_objects elements annos).1
       * length (save_predicates_objects elements annos).1 + 2 ≤ fuel)%nat →
      ∃ conn out_cls out_det negatives,
        compute_class_merging elements fuel cls
          (save_predicates_objects elements annos).1 = Some (Ok conn) ∧
        update_annos_with_syns cls conn = Ok out_cls ∧
        update_annos_with_syns det conn = Ok out_det ∧
        save_negative_json [] [] out_cls = Ok negatives.
Proof.
  apply (X25_transform_never_raises elements elements elements (fun q => q)).
  - apply elements_admissible.
  - apply elements_admissible_names.
  - by intros s.
  - simpl. lia.
Defined.
(** ** Determinism of the normalizer without ties *)

(** X26: when no two distinct mentions of an image have the same sort key
    (the sum of the two x coordinates of the box), the normalizer, and the
    pipeline through id assignment and pair completion, return the same
    result for every order in which Python iterates the set of mentions. *)
Theorem X26_tie_free_deterministic
    (sl1 sl2 : gset obj_tuple → list obj_tuple) (raw : list raw_anno)
    (predicates objects_ : list string) :
  admissible sl1 → admissible sl2 →
  (∀ a t u, a ∈ raw → t ∈ mentioned a → u ∈ mentioned a →
     sort_key t = sort_key u → t = u) →
  _transform_annotations sl1 raw = _transform_annotations sl2 raw ∧
  normalize_and_complete sl1 raw predicates objects_
  = normalize_and_complete sl2 raw predicates objects_.
Proof.
  intros H1 H2 Hfree.
  pose proof (transform_annotations_tie_free sl1 sl2 raw H1 H2 Hfree) as Heq.
  split; [done|]. unfold normalize_and_complete. by rewrite Heq.
Qed.

Lemma X26_tie_free_witness :
  _transform_annotations elements
    [RawAnno "a.jpg" 0 10 10
       [RawRel "car" (Bbox 0 5 0 5) "on" "road" (Bbox 4 9 0 9)]]
  = _transform_annotations (fun s => reverse (elements s))
    [RawAnno "a.jpg" 0 10 10
       [RawRel "car" (Bbox 0 5 0 5) "on" "road" (Bbox 4 9 0 9)]] ∧
  normalize_and_complete elements
    [RawAnno "a.jpg" 0 10 10
       [RawRel "car" (Bbox 0 5 0 5) "on" "road" (Bbox 4 9 0 9)]]
    ["on"; "__background__"] ["car"; "road"]
  = normalize_and_complete (fun s => reverse (elements s))
    [RawAnno "a.jpg" 0 10 10
       [RawRel "car" (Bbox 0 5 0 5) "on" "road" (Bbox 4 9 0 9)]]
    ["on"; "__background__"] ["car"; "road"].
Proof.
  apply X26_tie_free_deterministic.
  - apply elements_admissible.
  - apply reverse_elements_admissible.
  - intros a t u ->%list_elem_of_singleton Ht Hu.
    unfold mentioned in Ht, Hu. simpl in Ht, Hu.
    rewrite elem_of_union, !elem_of_union, !elem_of_singleton in Ht, Hu.
    destruct Ht as [[->|Ht]|[->|Ht]], Hu as [[->|Hu]|[->|Hu]];
      try (by apply elem_of_empty in Ht); try (by apply elem_of_empty in Hu);
      vm_compute; congruence.
Defined.
(** ** Exceptions of pair completion and of the merged-id update *)

Lemma fold_result_Ok_inv {A S : Type} (body : S → A → result S) (l : list A) :
  ∀ st st', fold_result body l st = Ok st' →
  ∀ x, x ∈ l → ∃ s s', body s x = Ok s'.
Proof.
  induction l as [|y l IH]; intros st st'; simpl; [by intros _ x ?%elem_of_nil|].
  intros (s1 & Hy & Hrest)%bind_Ok x [->|Hx]%elem_of_cons.
  - by exists st, s1.
  - by eapply IH.
Qed.

Lemma fold_result_Raise {A S : Type} (body : S → A → result S) (l : list A) (e : exn) :
  ∀ st, fold_result body l st = Raise e → ∃ s x, x ∈ l ∧ body s x = Raise e.
Proof.
  induction l as [|y l IH]; intros st; simpl; [done|].
  intros [Hy|(s1 & _ & Hrest)]%bind_Raise.
  - exists st, y. split; [apply list_elem_of_here|done].
  - destruct (IH s1 Hrest) as (s & x & Hx & Hb).
    exists s, x. split; [by apply list_elem_of_further|done].
Qed.

Lemma getitem_nat_Raise {A : Type} (l : list A) (i : nat) (e : exn) :
  getitem_nat l i = Raise e → e = IndexError ∧ (length l ≤ i)%nat.
Proof.
  unfold getitem_nat. destruct (l !! i) eqn:Hl; simpl; [done|].
  intros [= <-]. split; [done|]. by apply lookup_ge_None.
Qed.

(** The body of the completion loop raises nothing but [IndexError], and
    only for a position outside one of the arrays: the guard before the
    lookup keeps the dictionary from raising. *)
Lemma add_relation_Raise (rels : anno_relations) (pairs : dict (Z * Z) (list label))
    (rel : nat) (e : exn) :
  add_relation rels pairs rel = Raise e →
  e = IndexError ∧
  ((length (r_subj_ids rels) ≤ rel)%nat ∨ (length (r_obj_ids rels) ≤ rel)%nat ∨
   (length (r_names rels) ≤ rel)%nat ∨ (length (r_ids rels) ≤ rel)%nat).
Proof.
  unfold add_relation.
  intros [[-> ?]%getitem_nat_Raise|(s & _ & H)]%bind_Raise; [by auto|].
  apply bind_Raise in H as [[-> ?]%getitem_nat_Raise|(o & _ & H)]; [by auto|].
  apply bind_Raise in H as [H|(preds & _ & H)].
  { exfalso. unfold dict_getitem, dict_mem in H.
    destruct (dict_get pairs (s, o)) eqn:Hget; simpl in H.
    - by rewrite Hget in H.
    - by rewrite dict_get_set, decide_True in H. }
  apply bind_Raise in H as [[-> ?]%getitem_nat_Raise|(name & _ & H)]; [by auto 6|].
  apply bind_Raise in H as [[-> ?]%getitem_nat_Raise|(pid & _ & H)]; [by auto 6|].
  done.
Qed.

Lemma add_relation_Ok (rels : anno_relations) (pairs pairs' : dict (Z * Z) (list label))
    (rel : nat) :
  add_relation rels pairs rel = Ok pairs' →
  (rel < length (r_obj_ids rels))%nat ∧ (rel < length (r_names rels))%nat ∧
  (rel < length (r_ids rels))%nat.
Proof.
  unfold add_relation.
  intros (s & _ & (o & Ho%getitem_nat_Ok & (preds & _ &
    (name & Hn%getitem_nat_Ok & (pid & Hp%getitem_nat_Ok & _)%bind_Ok)%bind_Ok)%bind_Ok)%bind_Ok)%bind_Ok.
  split_and!; by eapply lookup_lt_Some.
Qed.

Lemma add_relation_total (rels : anno_relations) (pairs : dict (Z * Z) (list label))
    (rel : nat) :
  (rel < length (r_subj_ids rels))%nat → (rel < length (r_obj_ids rels))%nat →
  (rel < length (r_names rels))%nat → (rel < length (r_ids rels))%nat →
  ∃ pairs', add_relation rels pairs rel = Ok pairs'.
Proof.
  intros Hs Ho Hn Hi.
  destruct (lookup_lt_is_Some_2 _ _ Hs) as [s Hs'].
  destruct (lookup_lt_is_Some_2 _ _ Ho) as [o Ho'].
  destruct (lookup_lt_is_Some_2 _ _ Hn) as [name Hn'].
  destruct (lookup_lt_is_Some_2 _ _ Hi) as [pid Hi'].
  unfold add_relation, getitem_nat. rewrite Hs'. simpl. rewrite Ho'. simpl.
  unfold dict_getitem, dict_mem.
  destruct (dict_get pairs (s, o)) eqn:Hget; simpl.
  - rewrite Hget. simpl. rewrite Hn'. simpl. rewrite Hi'. simpl. by eexists.
  - rewrite dict_get_set, decide_True by done. simpl.
    rewrite Hn'. simpl. rewrite Hi'. simpl. by eexists.
Qed.

Lemma astype_int_spec (z : Z) :
  (int64 z ∧ astype_int z = Ok z) ∨ (¬ int64 z ∧ astype_int z = Raise OverflowError).
Proof.
  unfold astype_int, int64.
  destruct (Z.leb_spec (- 2 ^ 63) z); simpl; [|right; split; [lia|done]].
  destruct (Z.ltb_spec z (2 ^ 63)); [left|right]; split; (lia || done).
Qed.

(** A column read by [.astype(int)]: it comes back as it is when all its
    integers fit 64 bits, and the conversion raises [OverflowError]
    otherwise. *)
Lemma astype_column {A : Type} (col : A → Z) (rows : list A) :
  (Forall (fun r => int64 (col r)) rows ∧
   map_result (fun r => astype_int (col r)) rows = Ok (map col rows)) ∨
  (¬ Forall (fun r => int64 (col r)) rows ∧
   map_result (fun r => astype_int (col r)) rows = Raise OverflowError).
Proof.
  induction rows as [|r rows IH]; simpl; [left; by split|].
  destruct (astype_int_spec (col r)) as [[Hr ->]|[Hr ->]]; simpl.
  - destruct IH as [[Hall ->]|[Hno ->]]; simpl.
    + left. split; [|done]. by constructor.
    + right. split; [|done]. by intros [_ ?]%Forall_cons.
  - right. split; [|done]. by intros [? _]%Forall_cons.
Qed.

(** What follows the loop of pair completion raises nothing but
    [OverflowError]. *)
Lemma read_arrays_Raise (a : anno) (rows : list (Z * Z * string * Z)) (e : exn) :
  (if bool_decide (rows ≠ []) then
     subj_ids ← map_result (fun r : Z * Z * string * Z => astype_int r.1.1.1) rows;
     obj_ids ← map_result (fun r : Z * Z * string * Z => astype_int r.1.1.2) rows;
     let names := map (fun r : Z * Z * string * Z => astype_str r.1.2) rows in
     ids ← map_result (fun r : Z * Z * string * Z => astype_int r.2) rows;
     Ok {| filename := filename a;
           split_id := split_id a;
           height := height a;
           width := width a;
           objects := objects a;
           relations := {| r_subj_ids := subj_ids;
                           r_obj_ids := obj_ids;
                           r_names := names;
                           r_ids := ids;
                           r_merged_ids := None |} |}
   else Ok a) = Raise e →
  e = OverflowError.
Proof.
  case_bool_decide; [|done].
  destruct (astype_column (fun r : Z * Z * string * Z => r.1.1.1) rows)
    as [[_ ->]|[_ ->]]; simpl; [|by intros [= <-]].
  destruct (astype_column (fun r : Z * Z * string * Z => r.1.1.2) rows)
    as [[_ ->]|[_ ->]]; simpl; [|by intros [= <-]].
  destruct (astype_column (fun r : Z * Z * string * Z => r.2) rows)
    as [[_ ->]|[_ ->]]; simpl; [done|by intros [= <-]].
Qed.

(** An integer of a row outside 64 bits makes the conversion raise. *)
Lemma read_arrays_overflow (a : anno) (rows : list (Z * Z * string * Z))
    (r : Z * Z * string * Z) :
  r ∈ rows → ¬ (int64 r.1.1.1 ∧ int64 r.1.1.2 ∧ int64 r.2) →
  (if bool_decide (rows ≠ []) then
     subj_ids ← map_result (fun r : Z * Z * string * Z => astype_int r.1.1.1) rows;
     obj_ids ← map_result (fun r : Z * Z * string * Z => astype_int r.1.1.2) rows;
     let names := map (fun r : Z * Z * string * Z => astype_str r.1.2) rows in
     ids ← map_result (fun r : Z * Z * string * Z => astype_int r.2) rows;
     Ok {| filename := filename a;
           split_id := split_id a;
           height := height a;
           width := width a;
           objects := objects a;
           relations := {| r_subj_ids := subj_ids;
                           r_obj_ids := obj_ids;
                           r_names := names;
                           r_ids := ids;
                           r_merged_ids := None |} |}
   else Ok a) = Raise OverflowError.
Proof.
  intros Hr Hbad.
  rewrite bool_decide_eq_true_2 by (intros ->; by apply elem_of_nil in Hr).
  destruct (astype_column (fun r : Z * Z * string * Z => r.1.1.1) rows)
    as [[H1 ->]|[_ ->]]; simpl; [|done].
  destruct (astype_column (fun r : Z * Z * string * Z => r.1.1.2) rows)
    as [[H2 ->]|[_ ->]]; simpl; [|done].
  destruct (astype_column (fun r : Z * Z * string * Z => r.2) rows)
    as [[H3 ->]|[_ ->]]; simpl; [|done].
  destruct Hbad. rewrite Forall_forall in H1, H2, H3.
  split_and!; [by apply H1|by apply H2|by apply H3].
Qed.

(** X27: the exceptions of pair completion.  It raises [IndexError] exactly
    when the array of object indices, names or predicate ids is shorter
    than the array of subject indices (what lies beyond its length is
    never read), and [OverflowError] is the only other exception it raises.
    On arrays of one length it returns when every integer fits 64 bits, and
    raises [OverflowError] when an annotated index or id does not. *)
Theorem X27_completion_errors (predicates : list string) (a : anno) :
  (complete_pairs predicates a = Raise IndexError ↔
   (length (r_obj_ids (relations a)) < length (r_subj_ids (relations a)))%nat ∨
   (length (r_names (relations a)) < length (r_subj_ids (relations a)))%nat ∨
   (length (r_ids (relations a)) < length (r_subj_ids (relations a)))%nat) ∧
  (∀ e, complete_pairs predicates a = Raise e → e = IndexError ∨ e = OverflowError) ∧
  (well_formed_relations (relations a) → fits_int64 predicates a →
   ∃ a', complete_pairs predicates a = Ok a') ∧
  (well_formed_relations (relations a) →
   ∀ i z, r_subj_ids (relations a) !! i = Some z ∨
          r_obj_ids (relations a) !! i = Some z ∨
          r_ids (relations a) !! i = Some z →
          ¬ int64 z →
          complete_pairs predicates a = Raise OverflowError).
Proof.
  split_and!.
  - unfold complete_pairs.
    set (pairs0 := empty_pairs _).
    set (m := length (r_subj_ids (relations a))).
    destruct (fold_result (add_relation (relations a)) (seq 0 m) pairs0)
      as [pairs|e] eqn:Hfold.
    + unfold mbind at 1, result_bind at 1. cbv beta iota zeta. split.
      * by intros ?%read_arrays_Raise.
      * intros Hshort. exfalso.
        assert (Hall : ∀ rel, (rel < m)%nat →
          (rel < length (r_obj_ids (relations a)))%nat ∧
          (rel < length (r_names (relations a)))%nat ∧
          (rel < length (r_ids (relations a)))%nat).
        { intros rel Hrel.
          destruct (fold_result_Ok_inv _ _ _ _ Hfold rel) as (s & s' & Hstep);
            [apply elem_of_seq; lia|].
          by eapply add_relation_Ok. }
        destruct m as [|m']; [lia|]. destruct (Hall m'); lia.
    + unfold mbind at 1, result_bind at 1. cbv beta iota zeta.
      pose proof Hfold as Hfold'.
      apply fold_result_Raise in Hfold' as (s & rel & Hrel%elem_of_seq & Hstep).
      pose proof Hstep as [-> _]%add_relation_Raise.
      split; [intros _|done].
      destruct (Nat.lt_ge_cases (length (r_obj_ids (relations a))) m); [by left|].
      destruct (Nat.lt_ge_cases (length (r_names (relations a))) m); [by auto|].
      destruct (Nat.lt_ge_cases (length (r_ids (relations a))) m); [by auto|].
      destruct (add_relation_total (relations a) s rel) as [s' Hs'];
        [fold m; lia|lia..|]. congruence.
  - intros e. unfold complete_pairs.
    destruct (fold_result _ _ _) as [pairs|e'] eqn:Hfold.
    + unfold mbind at 1, result_bind at 1. cbv beta iota zeta.
      intros ->%read_arrays_Raise. by right.
    + unfold mbind at 1, result_bind at 1. cbv beta iota zeta. intros [= <-].
      apply fold_result_Raise in Hfold as (s & rel & _ & Hstep).
      apply add_relation_Raise in Hstep as [-> _]. by left.
  - intros Hwf Hfit.
    destruct (complete_pairs_rows predicates a Hwf Hfit) as (a' & Ha' & _).
    by exists a'.
  - intros Hwf i z Hz Hbad.
    destruct (completion_loop a) as (_ & Hkeys & Hitems).
    assert (Hrow : ∃ row, row ∈ rows_of (relations a) ∧
              ¬ (int64 row.1.1 ∧ int64 row.1.2 ∧ int64 row.2.2)).
    { assert (Hi : (i < length (rows_of (relations a)))%nat).
      { rewrite rows_of_length by done. destruct Hwf as (Ho & _ & Hi).
        destruct Hz as [Hz|[Hz|Hz]]; apply lookup_lt_Some in Hz; lia. }
      destruct (lookup_lt_is_Some_2 _ _ Hi) as [row Hrow].
      exists row. split; [by eapply list_elem_of_lookup_2|].
      apply rows_of_lookup in Hrow as (Hs & Ho & _ & Hid).
      intros (? & ? & ?).
      destruct Hz as [Hz|[Hz|Hz]];
        [rewrite Hs in Hz|rewrite Ho in Hz|rewrite Hid in Hz];
        injection Hz as <-; done. }
    destruct Hrow as (row & Hrow & Hbad').
    unfold complete_pairs. rewrite fold_add_relation by done.
    unfold mbind at 1, result_bind at 1. cbv beta iota zeta.
    set (rows := flat_map _ (map _ _)).
    assert (Hrows : map (fun r : Z * Z * string * Z => ((r.1.1.1, r.1.1.2), (r.1.2, r.2))) rows
                    = flat_map (fun k => map (pair k) (completed predicates (relations a) k))
                        (map fst (fold_left add_row (rows_of (relations a))
                                    (empty_pairs (length (o_ids (objects a))))))).
    { subst rows. by apply completed_rows. }
    assert (Hin : row ∈ map (fun r : Z * Z * string * Z =>
                               ((r.1.1.1, r.1.1.2), (r.1.2, r.2))) rows).
    { rewrite Hrows. apply elem_of_flat_map. exists row.1. split.
      - apply Hkeys. right. by apply (list_elem_of_fmap_2' fst _ row).
      - assert (Hann : row.2 ∈ annotated (relations a) row.1).
        { unfold annotated. apply (list_elem_of_fmap_2' snd _ row); [|done].
          by apply list_elem_of_filter. }
        unfold completed. destruct (annotated (relations a) row.1) as [|l ls] eqn:E.
        + by apply elem_of_nil in Hann.
        + destruct row as [k l']. by apply (list_elem_of_fmap_2' (pair k) _ l'). }
    apply list_elem_of_fmap in Hin as (r & -> & Hr). clearbody rows.
    by apply (read_arrays_overflow a rows r).
Qed.

(** A predicate id of 2^63 does not come back from the array. *)
Example completion_overflow :
  complete_pairs ["on"; "__background__"]
    (Anno "a.jpg" 0 10 10
       (AnnoObjects [0; 1] ["car"; "road"] [Bbox 0 5 0 5; Bbox 4 9 0 9])
       (AnnoRelations [2 ^ 63] ["on"] [0] [1] None))
  = Raise OverflowError.
Proof. by vm_compute. Qed.

(** X28: on well-labelled images and a dictionary whose lists have one
    entry per predicate, [update_annos_with_syns] returns exactly when the
    class pair of every relation is a key of the dictionary; otherwise it
    raises [KeyError], and it raises no other exception. *)
Theorem X28_merged_update_errors (predicates objects_ : list string)
    (conn : dict (Z * Z) (list Z)) (annos : list anno) :
  Forall (well_labelled predicates objects_) annos →
  (∀ key canon, dict_get conn key = Some canon → length canon = length predicates) →
  ((∃ out, update_annos_with_syns annos conn = Ok out) ↔
   (∀ a r cs co p, a ∈ annos → class_row a r cs co p → (cs, co) ∈ dict_keys conn)) ∧
  (∀ e, update_annos_with_syns annos conn = Raise e → e = KeyError).
Proof.
  intros Hall Hlen. split_and!; [split|].
  - intros [out Hout] a r cs co p Ha (s & o & Hs & Ho & Hp & Hcs & Hco).
    apply list_elem_of_lookup_1 in Ha as (k & Hk).
    destruct (map_result_lookup _ _ _ _ _ Hout Hk) as (a' & _ & Hfa).
    apply bind_Ok in Hfa as (merged & Hmerged & _).
    assert (Hrow : zip (zip (r_subj_ids (relations a)) (r_obj_ids (relations a)))
                       (r_ids (relations a)) !! r = Some (s, o, p))
      by (by apply triplet_lookup).
    destruct (map_result_lookup _ _ _ _ _ Hmerged Hrow) as (m & _ & Hm).
    unfold merged_id in Hm. simpl in Hm. rewrite Hcs in Hm. simpl in Hm.
    rewrite Hco in Hm. simpl in Hm.
    apply bind_Ok in Hm as (canon & Hcanon & _).
    unfold dict_getitem in Hcanon.
    destruct (dict_get conn (cs, co)) eqn:Hget; [|done].
    destruct (decide ((cs, co) ∈ dict_keys conn)) as [|Hno]; [done|].
    apply dict_get_None in Hno. congruence.
  - intros Hkeys.
    destruct (update_syns_spec predicates objects_ conn annos Hall) as (out & Hout & _);
      [|by exists out].
    intros a r cs co p Ha Hrow.
    destruct (dict_get conn (cs, co)) as [canon|] eqn:Hget.
    + exists canon. split; [done|]. by eapply Hlen.
    + apply dict_get_None in Hget. destruct Hget. by eapply Hkeys.
  - intros e Hraise.
    apply map_result_Raise in Hraise as (a & Ha & Hfa).
    apply bind_Raise in Hfa as [Hfa|(merged & _ & Hfa)]; [|done].
    apply map_result_Raise in Hfa as (t & Ht & Hm).
    apply list_elem_of_lookup_1 in Ht as (r & (Hs & Ho & Hp)%triplet_lookup).
    rewrite Forall_forall in Hall.
    pose proof (Hall a Ha) as (_ & _ & Hlr & _ & Hfs & Hfo).
    apply labelled_range in Hlr. rewrite Forall_lookup in Hlr, Hfs, Hfo.
    destruct (getitem_in_range (o_ids (objects a)) t.1.1 (Hfs r _ Hs)) as (cs & Hcs & _).
    destruct (getitem_in_range (o_ids (objects a)) t.1.2 (Hfo r _ Ho)) as (co & Hco & _).
    unfold merged_id in Hm. rewrite Hcs in Hm. simpl in Hm.
    rewrite Hco in Hm. simpl in Hm.
    apply bind_Raise in Hm as [Hm|(canon & Hcanon & Hm)].
    + unfold dict_getitem in Hm. destruct (dict_get conn (cs, co)); simpl in Hm; congruence.
    + unfold dict_getitem in Hcanon.
      destruct (dict_get conn (cs, co)) as [canon'|] eqn:Hget; [|done].
      injection Hcanon as ->.
      destruct (getitem_in_range canon t.2) as (m & Hm' & _);
        [rewrite (Hlen _ _ Hget); by eapply Hlr|]. congruence.
Qed.

Lemma X28_merged_update_witness :
  ((∃ out,
      update_annos_with_syns
        [Anno "a.jpg" 0 10 10
           (AnnoObjects [0; 1] ["car"; "road"] [Bbox 0 5 0 5; Bbox 4 9 0 9])
           (AnnoRelations [0] ["on"] [0] [1] None)]
        [((0, 1), [0; 1])] = Ok out) ↔
   (∀ a r cs co p,
      a ∈ [Anno "a.jpg" 0 10 10
             (AnnoObjects [0; 1] ["car"; "road"] [Bbox 0 5 0 5; Bbox 4 9 0 9])
             (AnnoRelations [0] ["on"] [0] [1] None)] →
      class_row a r cs co p → (cs, co) ∈ dict_keys [((0, 1), [0; 1])])) ∧
  (∀ e,
     update_annos_with_syns
       [Anno "a.jpg" 0 10 10
          (AnnoObjects [0; 1] ["car"; "road"] [Bbox 0 5 0 5; Bbox 4 9 0 9])
          (AnnoRelations [0] ["on"] [0] [1] None)]
       [((0, 1), [0; 1])] = Raise e → e = KeyError).
Proof.
  apply (X28_merged_update_errors ["on"; "__background__"] ["car"; "road"]).
  - repeat constructor; simpl; lia.
  - intros key canon. simpl. destruct (decide (key = (0, 1))); [|done].
    by intros [= <-].
Defined.
(** ** Laplace smoothing *)

Lemma round_positive (rnd : Q → Q) (q : Q) :
  rounds rnd → (0 < q)%Q → (q <= 1)%Q →
  (0 < rnd q)%Q ∧ (rnd q <= 1 + unit_roundoff)%Q.
Proof.
  intros Hrnd Hq Hq1. pose proof (Hrnd q) as Habs.
  assert (Hu : (0 <= unit_roundoff)%Q) by done.
  assert (Hu1 : (unit_roundoff < 1)%Q) by done.
  rewrite (Qabs_pos q) in Habs by lra.
  apply Qabs_Qle_condition in Habs as [Hlo Hhi].
  split; nra.
Qed.

Lemma Zsum_ge_elem (row : list Z) (k : nat) (x : Z) :
  Forall (fun x => 1 ≤ x) row → row !! k = Some x → x ≤ Zsum row.
Proof.
  intros Hall. revert k. induction Hall as [|y row Hy Hall IH]; intros k; [done|].
  pose proof (Zsum_ge_length row Hall) as Hlen.
  unfold Zsum in *. destruct k as [|k]; simpl.
  - intros [= ->]. lia.
  - intros Hk. specialize (IH k Hk). lia.
Qed.

(** X29: Laplace smoothing leaves no zero in the table.  For a rounding of
    the quotients with the relative error of binary64, every probability
    of the table is strictly positive and at most 1 + 2^-53, whatever the
    annotations are. *)
Theorem X29_no_zero_probability (rnd : Q → Q) (annos : list anno)
    (predicates objects_ : list string) (pm : counts) (s o k : nat) :
  rounds rnd →
  count_triplets annos predicates objects_ = Ok pm →
  (s < length objects_)%nat → (o < length objects_)%nat →
  (k < length predicates)%nat →
  compute_relationship_probabilities rnd annos predicates objects_
  = Ok (normalize rnd pm) ∧
  ∃ row q, prob_row (normalize rnd pm) s o = Some row ∧
    length row = length predicates ∧
    row !! k = Some q ∧ (0 < q)%Q ∧ (q <= 1 + unit_roundoff)%Q.
Proof.
  intros Hrnd Hcount Hs Ho Hk.
  split; [unfold compute_relationship_probabilities; by rewrite Hcount|].
  destruct (count_triplets_invariant annos predicates objects_ pm Hcount) as [Hsh Hge].
  destruct (count_row_spec predicates objects_ pm s o Hsh Hge Hs Ho)
    as (row & Hrow & Hlen & Hall).
  destruct (lookup_lt_is_Some_2 row k) as [x Hx]; [lia|].
  pose proof (Zsum_ge_elem row k x Hall Hx) as Hle.
  assert (Hx1 : 1 ≤ x) by (rewrite Forall_lookup in Hall; by eapply Hall).
  exists (map (fun x => rnd (inject_Z x / inject_Z (Zsum row))%Q) row),
         (rnd (inject_Z x / inject_Z (Zsum row))%Q).
  split_and!.
  - unfold prob_row, normalize. unfold count_row in Hrow.
    rewrite lookup_map. destruct (pm !! s) as [plane|]; [|done]. simpl in *.
    rewrite lookup_map, Hrow. done.
  - by rewrite length_map.
  - by rewrite lookup_map, Hx.
  - apply round_positive; [done| |].
    + apply Qlt_shift_div_l; [|rewrite Qmult_0_l]; rewrite <- (Zlt_Qlt 0); lia.
    + apply Qle_shift_div_r; [rewrite <- (Zlt_Qlt 0); lia|].
      rewrite Qmult_1_l, <- Zle_Qle. lia.
  - apply round_positive; [done| |].
    + apply Qlt_shift_div_l; [|rewrite Qmult_0_l]; rewrite <- (Zlt_Qlt 0); lia.
    + apply Qle_shift_div_r; [rewrite <- (Zlt_Qlt 0); lia|].
      rewrite Qmult_1_l, <- Zle_Qle. lia.
Qed.

Lemma X29_no_zero_probability_witness :
  compute_relationship_probabilities (fun q => q)
    [Anno "a.jpg" 0 10 10
       (AnnoObjects [0; 1] ["car"; "road"] [Bbox 0 5 0 5; Bbox 4 9 0 9])
       (AnnoRelations [0; 1] ["on"; "__background__"] [0; 1] [1; 0] None)]
    ["on"; "__background__"] ["car"; "road"]
  = Ok (normalize (fun q => q) [[[1; 1]; [2; 1]]; [[1; 2]; [1; 1]]]) ∧
  ∃ row q,
    prob_row (normalize (fun q => q) [[[1; 1]; [2; 1]]; [[1; 2]; [1; 1]]]) 0 0
    = Some row ∧
    length row = length ["on"; "__background__"] ∧
    row !! 0%nat = Some q ∧ (0 < q)%Q ∧ (q <= 1 + unit_roundoff)%Q.
Proof.
  apply (X29_no_zero_probability (fun q => q)
    [Anno "a.jpg" 0 10 10
       (AnnoObjects [0; 1] ["car"; "road"] [Bbox 0 5 0 5; Bbox 4 9 0 9])
       (AnnoRelations [0; 1] ["on"; "__background__"] [0; 1] [1; 0] None)]
    ["on"; "__background__"] ["car"; "road"]
    [[[1; 1]; [2; 1]]; [[1; 2]; [1; 1]]] 0 0 0).
  - apply exact_rounds.
  - reflexivity.
  - simpl. lia.
  - simpl. lia.
  - simpl. lia.
Defined.
(** ** Class merging and the iteration order of the set of pairs *)

Lemma fold_result_sim {A S : Type} (R : S → S → Prop) (body : S → A → result S)
    (l : list A) :
  (∀ s1 s2 x, R s1 s2 → same_outcome R (body s1 x) (body s2 x)) →
  ∀ s1 s2, R s1 s2 → same_outcome R (fold_result body l s1) (fold_result body l s2).
Proof.
  intros Hbody. induction l as [|x l IH]; intros s1 s2 HR; simpl; [done|].
  specialize (Hbody s1 s2 x HR).
  destruct (body s1 x) as [s1'|e1], (body s2 x) as [s2'|e2]; simpl in *; try done.
  by apply IH.
Qed.

Lemma connect_sim (a : anno) (d1 d2 : dict (Z * Z) matrix) (ij : nat * nat) :
  same_content d1 d2 → same_outcome same_content (connect a d1 ij) (connect a d2 ij).
Proof.
  intros Hd. unfold connect.
  destruct (getitem_nat (r_subj_ids (relations a)) ij.1) as [s|]; simpl; [|done].
  destruct (getitem (o_ids (objects a)) s) as [cs|]; simpl; [|done].
  destruct (getitem_nat (r_obj_ids (relations a)) ij.2) as [o|]; simpl; [|done].
  destruct (getitem (o_ids (objects a)) o) as [co|]; simpl; [|done].
  unfold dict_getitem. rewrite <- (Hd (cs, co)).
  destruct (dict_get d1 (cs, co)) as [mat|]; simpl; [|done].
  destruct (getitem_nat (r_ids (relations a)) ij.1) as [p|]; simpl; [|done].
  destruct (getitem_nat (r_ids (relations a)) ij.2) as [q|]; simpl; [|done].
  destruct (mat_setitem mat p q 1) as [mat'|]; simpl; [|done].
  intros k. rewrite !dict_get_set. destruct (decide _); [done|apply Hd].
Qed.

Lemma fill_anno_sim (d1 d2 : dict (Z * Z) matrix) (a : anno) :
  same_content d1 d2 → same_outcome same_content (fill_anno d1 a) (fill_anno d2 a).
Proof.
  intros Hd. unfold fill_anno.
  destruct (stack2 _ _) as [pairs|]; simpl; [|done].
  apply fold_result_sim; [|done]. intros s1 s2 ij. apply connect_sim.
Qed.

Lemma densify_items_get (fuel : nat) (conn : dict (Z * Z) matrix)
    (out : dict (Z * Z) (list Z)) (key : Z * Z) :
  densify_items fuel conn = Some (Ok out) →
  dict_get out key
  = (mat ← dict_get conn key;
     M ← _densify_mat fuel mat;
     match argmax_rows M with Ok canon => Some canon | Raise _ => None end).
Proof.
  revert out. induction conn as [|[k mat] conn IH]; intros out; simpl.
  - by intros [= <-].
  - destruct (_densify_mat fuel mat) as [M|] eqn:HM; [|done].
    destruct (argmax_rows M) as [canon|] eqn:Hc; [|done].
    destruct (densify_items fuel conn) as [[out'|]|]; [|done..].
    intros [= <-]. simpl. destruct (decide (key = k)) as [->|].
    + simpl. rewrite HM. simpl. by rewrite Hc.
    + by apply IH.
Qed.

Lemma initial_content (n : nat) (l1 l2 : list (Z * Z)) :
  NoDup l1 → NoDup l2 → l1 ≡ₚ l2 →
  same_content (dict_of_list (map (fun pair => (pair, eye n)) l1))
               (dict_of_list (map (fun pair => (pair, eye n)) l2)).
Proof.
  intros H1 H2 Hperm k.
  assert (Hkeys : ∀ l : list (Z * Z), map fst (map (fun pair => (pair, eye n)) l) = l).
  { intros l. rewrite map_map. simpl. apply map_id. }
  rewrite !dict_of_list_NoDup by (by rewrite Hkeys).
  apply option_eq. intros mat.
  rewrite !dict_get_Some by (by rewrite Hkeys).
  rewrite !list_elem_of_fmap. split.
  - intros (pair & Heq & Hin). exists pair. split; [done|]. by rewrite <- Hperm.
  - intros (pair & Heq & Hin). exists pair. split; [done|]. by rewrite Hperm.
Qed.

(** X30: the content of the merging dictionary does not depend on the order
    in which Python iterates the set of class pairs: two iteration orders
    give dictionaries with the same keys and the same list under every key;
    only the order of the keys can differ. *)
Theorem X30_class_merging_order_free (sl1 sl2 : gset (Z * Z) → list (Z * Z))
    (fuel : nat) (annos : list anno) (predicates objects_ : list string) :
  admissible_pairs sl1 → admissible_pairs sl2 →
  Forall (well_labelled predicates objects_) annos →
  (length predicates * length predicates + 2 ≤ fuel)%nat →
  ∃ conn1 conn2,
    compute_class_merging sl1 fuel annos predicates = Some (Ok conn1) ∧
    compute_class_merging sl2 fuel annos predicates = Some (Ok conn2) ∧
    dict_keys conn1 ≡ₚ dict_keys conn2 ∧
    same_content conn1 conn2.
Proof.
  intros H1 H2 Hall Hfuel.
  destruct (class_merging_spec sl1 fuel annos predicates objects_ H1 Hall Hfuel)
    as (conn1 & Hconn1 & Hnd1 & Hkeys1 & _).
  destruct (class_merging_spec sl2 fuel annos predicates objects_ H2 Hall Hfuel)
    as (conn2 & Hconn2 & Hnd2 & Hkeys2 & _).
  exists conn1, conn2. split_and!; [done..| |].
  - apply NoDup_Permutation; [done..|]. intros [cs co]. by rewrite Hkeys1, Hkeys2.
  - revert Hconn1 Hconn2. unfold compute_class_merging.
    destruct (all_class_pairs annos) as [ks|]; simpl; [|by intros [= ?]].
    pose proof (fold_result_sim same_content fill_anno annos fill_anno_sim
      (dict_of_list (map (fun pair => (pair, eye (length predicates))) (sl1 ks)))
      (dict_of_list (map (fun pair => (pair, eye (length predicates))) (sl2 ks)))) as Hsim.
    destruct (fold_result fill_anno annos (dict_of_list (map _ (sl1 ks))))
      as [c1|] eqn:Hc1; [|by intros [= ?]].
    destruct (fold_result fill_anno annos (dict_of_list (map _ (sl2 ks))))
      as [c2|] eqn:Hc2; [|by intros _ [= ?]].
    intros Ho1 Ho2 key.
    rewrite (densify_items_get fuel c1 conn1 key Ho1).
    rewrite (densify_items_get fuel c2 conn2 key Ho2).
    simpl in Hsim. rewrite Hsim; [done|].
    apply initial_content.
    + rewrite (H1 ks). apply NoDup_elements.
    + rewrite (H2 ks). apply NoDup_elements.
    + by rewrite (H1 ks), (H2 ks).
Qed.

Lemma X30_class_merging_order_free_witness :
  ∃ conn1 conn2,
    compute_class_merging elements 11
      [Anno "a.jpg" 0 10 10
         (AnnoObjects [0; 1] ["car"; "road"] [Bbox 0 5 0 5; Bbox 4 9 0 9])
         (AnnoRelations [0; 1; 2] ["above"; "on"; "__background__"]
            [0; 0; 1] [1; 1; 0] None)]
      ["above"; "on"; "__background__"] = Some (Ok conn1) ∧
    compute_class_merging (fun s => reverse (elements s)) 11
      [Anno "a.jpg" 0 10 10
         (AnnoObjects [0; 1] ["car"; "road"] [Bbox 0 5 0 5; Bbox 4 9 0 9])
         (AnnoRelations [0; 1; 2] ["above"; "on"; "__background__"]
            [0; 0; 1] [1; 1; 0] None)]
      ["above"; "on"; "__background__"] = Some (Ok conn2) ∧
    dict_keys conn1 ≡ₚ dict_keys conn2 ∧
    same_content conn1 conn2.
Proof.
  apply (X30_class_merging_order_free elements (fun s => reverse (elements s)) 11
           _ _ ["car"; "road"]).
  - by intros s.
  - intros s. apply reverse_Permutation.
  - repeat constructor; simpl; lia.
  - simpl. lia.
Defined.
